(** * B-spline transformations of OMG-tools ([omgtools/basics/spline_extra.py])

    A shallow embedding of the module's functions and the proofs of its
    specification.  Numbers are exact rationals ([Q], compared with [==]):
    every statement below is about the arithmetic the code performs, not
    about floating-point rounding.  A numpy array or Python list of numbers
    is a [list Q], a matrix is the list of its rows.  Indexing is [nth]
    with default [0]; the theorems carry the well-formedness of the basis
    ([length knots = N + degree + 1]) under which every index the code
    uses is in range, and the checked variants further down return
    [IndexError] where Python would raise. *)

From Stdlib Require Import QArith Qabs Lqa Lia List Bool Arith ZArith Sorted Permutation.
From Stdlib Require Import Setoid Morphisms.
Import ListNotations.
Open Scope Q_scope.

(** ** Numbers, comparisons and indexing *)

Definition Qltb (a b : Q) : bool := negb (Qle_bool b a).
Definition Qneqb (a b : Q) : bool := negb (Qeq_bool a b).

(** A Python boolean used as a number. *)
Definition ind (b : bool) : Q := if b then 1 else 0.

(** [l[i]] on a list of numbers. *)
Definition at_ (l : list Q) (i : nat) : Q := nth i l 0.

(** ** Bases and splines

    [BSplineBasis] and [BSpline] come from the sibling module [spline];
    here they are the pair of fields this module reads.  [len] is the
    basis' [__len__]: the number of basis functions. *)

Record BSplineBasis := mkBasis { knots : list Q; degree : nat }.

Definition len (b : BSplineBasis) : nat := (length (knots b) - degree b - 1)%nat.

Record BSpline := mkSpline { basis : BSplineBasis; coeffs : list Q }.

(** Non-decreasing knots, as a boolean. *)
Fixpoint sortedb (l : list Q) : bool :=
  match l with
  | [] => true
  | a :: t => match t with
              | [] => true
              | b :: _ => Qle_bool a b && sortedb t
              end
  end.

(** ** [evalspline]: the Cox-de Boor table

    [level0] is the first loop (the order-0 indicators), [level] one pass
    of the second loop, [levels] the whole table's last row. *)

Definition level0 (deg : nat) (k : list Q) (x : Q) : list Q :=
  map (fun i =>
         if (i <? deg + 1)%nat && Qeq_bool (at_ k 0) (at_ k i)
         then ind (Qle_bool (at_ k i) x) * ind (Qle_bool x (at_ k (i + 1)))
         else ind (Qltb (at_ k i) x) * ind (Qle_bool x (at_ k (i + 1))))
      (seq 0 (length k - 1)).

Definition blend (k : list Q) (x : Q) (d : nat) (prev : list Q) (i : nat) : Q :=
  let b := 0 * x in
  let bottom := at_ k (i + d) - at_ k i in
  let b := if Qneqb bottom 0 then (x - at_ k i) * at_ prev i / bottom else b in
  let bottom := at_ k (i + d + 1) - at_ k (i + 1) in
  if Qneqb bottom 0
  then b + (at_ k (i + d + 1) - x) * at_ prev (i + 1) / bottom
  else b.

Definition level (k : list Q) (x : Q) (d : nat) (prev : list Q) : list Q :=
  map (blend k x d prev) (seq 0 (length k - d - 1)).

(** Levels [d, d+1, ..., d+n-1] applied on top of [prev]. *)
Fixpoint levels (k : list Q) (x : Q) (d n : nat) (prev : list Q) : list Q :=
  match n with
  | O => prev
  | S n' => levels k x (S d) n' (level k x d prev)
  end.

Definition basis_values (b : BSplineBasis) (x : Q) : list Q :=
  levels (knots b) x 1 (degree b) (level0 (degree b) (knots b) x).

Definition evalspline (s : BSpline) (x : Q) : Q :=
  fold_left (fun result l => result + at_ (coeffs s) l * at_ (basis_values (basis s) x) l)
            (seq 0 (len (basis s))) 0.

(** ** The same values by recursion on the degree

    [Bval deg k x d i] is entry [i] of row [d] of the table. *)

Definition B0 (deg : nat) (k : list Q) (x : Q) (i : nat) : Q :=
  if (i <? deg + 1)%nat && Qeq_bool (at_ k 0) (at_ k i)
  then ind (Qle_bool (at_ k i) x) * ind (Qle_bool x (at_ k (i + 1)))
  else ind (Qltb (at_ k i) x) * ind (Qle_bool x (at_ k (i + 1))).

Fixpoint Bval (deg : nat) (k : list Q) (x : Q) (d i : nat) : Q :=
  match d with
  | O => B0 deg k x i
  | S d' =>
      let b := 0 * x in
      let bottom := at_ k (i + d) - at_ k i in
      let b := if Qneqb bottom 0
               then (x - at_ k i) * Bval deg k x d' i / bottom else b in
      let bottom := at_ k (i + d + 1) - at_ k (i + 1) in
      if Qneqb bottom 0
      then b + (at_ k (i + d + 1) - x) * Bval deg k x d' (i + 1) / bottom
      else b
  end.

(** Sum of [f 0 .. f (n-1)], the shape of the final loop. *)
Fixpoint sumQ (n : nat) (f : nat -> Q) : Q :=
  match n with
  | O => 0
  | S n' => sumQ n' f + f n'
  end.

(** Non-decreasing knot vectors, by index. *)
Definition mono (k : list Q) : Prop :=
  forall i j, (i <= j)%nat -> (j < length k)%nat -> at_ k i <= at_ k j.

(** One level of the recursion, with the branches written as weights. *)
Definition wl (k : list Q) (x : Q) (d i : nat) : Q :=
  if Qneqb (at_ k (i + d) - at_ k i) 0
  then (x - at_ k i) / (at_ k (i + d) - at_ k i) else 0.

Definition wr (k : list Q) (x : Q) (d i : nat) : Q :=
  if Qneqb (at_ k (i + d + 1) - at_ k (i + 1)) 0
  then (at_ k (i + d + 1) - x) / (at_ k (i + d + 1) - at_ k (i + 1)) else 0.

(** ** Matrices

    A dense matrix is the list of its rows.  [dot] is [numpy.dot] of two
    matrices, [dotv] of a matrix and a vector. *)

Definition matrix := list (list Q).

Definition zeros (n : nat) : list Q := repeat 0 n.

Definition eye (n : nat) : matrix :=
  map (fun i => map (fun j => if (i =? j)%nat then 1 else 0) (seq 0 n)) (seq 0 n).

(** [l[i] = v] for [i] in range. *)
Fixpoint set_at (l : list Q) (i : nat) (v : Q) : list Q :=
  match l, i with
  | [], _ => []
  | _ :: t, O => v :: t
  | a :: t, S i' => a :: set_at t i' v
  end.

Definition entry (M : matrix) (i j : nat) : Q := at_ (nth i M []) j.

Definition ncols (M : matrix) : nat :=
  match M with [] => 0 | r :: _ => length r end.

Definition dot (A B : matrix) : matrix :=
  map (fun r => map (fun j => sumQ (length r) (fun c => at_ r c * entry B c j))
                    (seq 0 (ncols B))) A.

Definition dotv (A : matrix) (v : list Q) : list Q :=
  map (fun r => sumQ (length r) (fun c => at_ r c * at_ v c)) A.

(** ** [sorted]

    Python's [sorted] is stable; so is this insertion sort, and a stable
    sort has one result. *)

Fixpoint insert_sorted (x : Q) (l : list Q) : list Q :=
  match l with
  | [] => [x]
  | a :: t => if Qle_bool a x then a :: insert_sorted x t else x :: a :: t
  end.

Definition sorted (l : list Q) : list Q :=
  fold_left (fun acc x => insert_sorted x acc) l [].

(** ** [knot_insertion_T] *)

(** The weight [w] of row [j]. *)
Definition insertion_weight (knots : list Q) (degree : nat) (knot : Q) (j : nat) : Q :=
  if Qle_bool knot (at_ knots j) then 0
  else if Qltb (at_ knots j) knot && Qltb knot (at_ knots (j + degree + 1 - 1))
       then (knot - at_ knots j) / (at_ knots (j + degree + 1 - 1) - at_ knots j)
       else 1.

(** Row [j] of [_T]: a row of zeros with at most two cells assigned. *)
Definition insertion_row (knots : list Q) (degree : nat) (knot : Q) (N j : nat) : list Q :=
  let w := insertion_weight knots degree knot j in
  let r := zeros N in
  let r := if negb (j =? 0)%nat then set_at r (j - 1) (1 - w) else r in
  if negb (j =? N)%nat then set_at r j w else r.

Definition insertion_matrix (knots : list Q) (degree : nat) (knot : Q) (N : nat) : matrix :=
  map (insertion_row knots degree knot N) (seq 0 (N + 1)).

(** The loop over [knots_to_insert], with its state [N], [knots], [T]. *)
Fixpoint knot_insertion_loop (degree : nat) (knots_to_insert : list Q)
         (N : nat) (knots : list Q) (T : matrix) : matrix * list Q :=
  match knots_to_insert with
  | [] => (T, knots)
  | knot :: rest =>
      knot_insertion_loop degree rest (N + 1) (sorted (knots ++ [knot]))
                          (dot (insertion_matrix knots degree knot N) T)
  end.

(** A scalar [knots_to_insert] is the one-element list. *)
Definition knot_insertion_T (b : BSplineBasis) (knots_to_insert : list Q) : matrix * list Q :=
  knot_insertion_loop (degree b) knots_to_insert (len b) (knots b) (eye (len b)).

(** The weight in the words of the specification. *)
Definition boehm_weight (knots : list Q) (degree : nat) (t : Q) (j : nat) : Q :=
  if Qle_bool t (at_ knots j) then 0
  else if Qle_bool (at_ knots (j + degree)) t then 1
  else (t - at_ knots j) / (at_ knots (j + degree) - at_ knots j).

(** All rows of [M] have [c] cells. *)
Definition has_shape (M : matrix) (r c : nat) : Prop :=
  length M = r /\ Forall (fun row => length row = c) M.

(** ** Knot insertion preserves the function *)

(** The weights and indicators of the code as functions of the knots
    they read. *)
Definition wgt (a b x : Q) : Q :=
  if Qneqb (b - a) 0 then (x - a) / (b - a) else 0.

Definition wgtr (a b x : Q) : Q :=
  if Qneqb (b - a) 0 then (b - x) / (b - a) else 0.

Definition bw (a b t : Q) : Q :=
  if Qle_bool t a then 0 else if Qle_bool b t then 1 else (t - a) / (b - a).

Definition boxv (f : bool) (a b x : Q) : Q :=
  if f then ind (Qle_bool a x) * ind (Qle_bool x b)
  else ind (Qltb a x) * ind (Qle_bool x b).

(** [k'] is [k] with [t] put at position [p], after the knots [<= t]. *)
Definition inserted_at (k : list Q) (t : Q) (p : nat) (k' : list Q) : Prop :=
  length k' = S (length k) /\ (p <= length k)%nat /\
  (forall j, (j < p)%nat -> at_ k' j = at_ k j /\ at_ k j <= t) /\
  at_ k' p = t /\
  (forall j, (p <= j)%nat -> (j < length k)%nat -> at_ k' (S j) = at_ k j /\ t < at_ k j).

(** ** Slices and searches *)

(** A bound of a Python slice on a sequence of [n] items: negative
    bounds count from the end, and both kinds are clipped. *)
Definition slice_bound (n : nat) (i : Z) : nat :=
  if (i <? 0)%Z then Z.to_nat (i + Z.of_nat n) else Nat.min (Z.to_nat i) n.

(** [l[a:b]]. *)
Definition slice {A : Type} (l : list A) (a b : Z) : list A :=
  let a' := slice_bound (length l) a in
  let b' := slice_bound (length l) b in
  firstn (b' - a') (skipn a' l).

(** [len(np.where(knots == v)[0])]. *)
Definition count_eq (knots : list Q) (v : Q) : nat :=
  length (filter (fun y => Qeq_bool y v) knots).

(** [np.searchsorted(a, v, side)] on a sorted array: the index of the
    first item that is not below [v] (left), or that is above it (right). *)
Fixpoint searchsorted_left (a : list Q) (v : Q) : nat :=
  match a with
  | [] => 0
  | y :: r => if Qltb y v then S (searchsorted_left r v) else 0
  end.

Fixpoint searchsorted_right (a : list Q) (v : Q) : nat :=
  match a with
  | [] => 0
  | y :: r => if Qle_bool y v then S (searchsorted_right r v) else 0
  end.

(** ** [crop_T] and [crop] *)

Definition crop_T (b : BSplineBasis) (min_value max_value : Q) : matrix * list Q :=
  let knots := knots b in
  let degree := degree b in
  let n_min := count_eq knots min_value in
  let n_max := count_eq knots max_value in
  let min_knots := repeat min_value (degree + 1 - n_min) in
  let max_knots := repeat max_value (degree + 1 - n_max) in
  let T := fst (knot_insertion_T b (min_knots ++ max_knots)) in
  let knots2 := snd (knot_insertion_T b (min_knots ++ max_knots)) in
  let jmin := searchsorted_left knots2 min_value in
  let jmax := searchsorted_right knots2 max_value in
  (slice T (Z.of_nat jmin) (Z.of_nat jmax - Z.of_nat degree - 1),
   slice knots2 (Z.of_nat jmin) (Z.of_nat jmax)).

Definition crop (s : BSpline) (min_value max_value : Q) : BSpline :=
  let T := fst (crop_T (basis s) min_value max_value) in
  let knots := snd (crop_T (basis s) min_value max_value) in
  let coeffs2 := dotv T (coeffs s) in
  let basis2 := mkBasis knots (degree (basis s)) in
  mkSpline basis2 coeffs2.

(** ** [running_integral] *)

(** The loop that appends one coefficient per pass. *)
Definition running_integral_coeffs (knots : list Q) (degree : nat) (coeffs : list Q)
           (n : nat) : list Q :=
  fold_left
    (fun coeffs_int i =>
       coeffs_int ++
       [at_ coeffs_int i +
        (at_ knots (degree + i + 1) - at_ knots i) / inject_Z (Z.of_nat (degree + 1)) *
        at_ coeffs i])
    (seq 0 n) [0].

Definition running_integral (spline : BSpline) : BSpline :=
  let basis := basis spline in
  let coeffs := coeffs spline in
  let knots := knots basis in
  let degree := degree basis in
  let knots_int := [at_ knots 0] ++ knots ++ [at_ knots (length knots - 1)] in
  let degree_int := (degree + 1)%nat in
  let basis_int := mkBasis knots_int degree_int in
  let coeffs_int := running_integral_coeffs knots degree coeffs (len basis_int - 1) in
  mkSpline basis_int coeffs_int.

(** Modelled from the spec: the derivative of a spline, a method of the
    sibling module [spline] that is not part of this file.  It is the
    first finite difference of the coefficients, scaled by the degree
    over the knot span, on the knots without the first and the last one
    and with the degree lowered by one; [extrapolate_T] builds its
    derivative rows with the same quotients. *)
Definition derivative (s : BSpline) : BSpline :=
  let k := knots (basis s) in
  let p := degree (basis s) in
  mkSpline (mkBasis (slice k 1 (-1)) (p - 1))
           (map (fun i => inject_Z (Z.of_nat p) * (at_ (coeffs s) (i + 1) - at_ (coeffs s) i) /
                          (at_ k (i + p + 1) - at_ k (i + 1)))
                (seq 0 (len (basis s) - 1))).

(** ** Exceptions

    The exceptions the module can raise, and the outcome of a call.
    [NonFinite] is not an exception: it marks a call whose arithmetic
    has left the numbers (see [qdiv]). *)

Inductive exn : Type := IndexError | TypeError | ValueError | LinAlgError | NonFinite.

Inductive result (A : Type) : Type :=
| Ok (a : A)
| Raise (e : exn).

Arguments Ok {A} a.
Arguments Raise {A} e.

Definition bind {A B : Type} (r : result A) (f : A -> result B) : result B :=
  match r with
  | Ok a => f a
  | Raise e => Raise e
  end.

Notation "x <- c ;; k" := (bind c (fun x => k))
  (at level 61, c at next level, right associativity).

(** [l[i]] with its [IndexError]. *)
Definition getitem {A : Type} (l : list A) (i : nat) : result A :=
  match nth_error l i with
  | Some a => Ok a
  | None => Raise IndexError
  end.

(** [l[i] = v] for [i] in range. *)
Fixpoint setitem {A : Type} (l : list A) (i : nat) (v : A) : list A :=
  match l, i with
  | [], _ => []
  | _ :: t, O => v :: t
  | a :: t, S i' => a :: setitem t i' v
  end.

(** [l[-1]]. *)
Definition last_item (l : list Q) : result Q :=
  match l with
  | [] => Raise IndexError
  | _ => Ok (last l 0)
  end.

(** ['Splines at index ' + l]: adding an [int] to a [str] is a
    [TypeError]. *)
Definition str_add_int (l : nat) : result unit := Raise TypeError.

(** ** [concat_splines] *)

(** The lists [knots], [degree] and [coeffs] the loops update. *)
Definition concat_state : Type := (list (list Q) * list nat * list (list Q))%type.

(** The loop over [enumerate(segments[k])], from index [l] on. *)
Fixpoint concat_inner (segment_times : list Q) (k : nat) (st : concat_state)
         (l : nat) (segment : list BSpline) : result concat_state :=
  match segment with
  | [] => Ok st
  | s :: rest =>
      let '(knots_, degree_, coeffs_) := st in
      dl <- getitem degree_ l ;;
      if negb (degree (basis s) =? dl)%nat
      then (_ <- str_add_int l ;; Raise ValueError)
      else
        kl <- getitem knots_ l ;;
        tk <- getitem segment_times k ;;
        lst <- last_item kl ;;
        cl <- getitem coeffs_ l ;;
        concat_inner segment_times k
          (setitem knots_ l
             (kl ++ map (fun y => y * tk + lst) (skipn (dl + 1) (knots (basis s)))),
           degree_,
           setitem coeffs_ l (cl ++ coeffs s))
          (S l) rest
  end.

(** The loop over [range(1, len(segments))], from segment [k] on. *)
Fixpoint concat_outer (segment_times : list Q) (k : nat) (st : concat_state)
         (segments : list (list BSpline)) : result concat_state :=
  match segments with
  | [] => Ok st
  | segment :: rest =>
      st' <- concat_inner segment_times k st 0 segment ;;
      concat_outer segment_times (S k) st' rest
  end.

Fixpoint mapM {A B : Type} (f : A -> result B) (l : list A) : result (list B) :=
  match l with
  | [] => Ok []
  | a :: t => b <- f a ;; bs <- mapM f t ;; Ok (b :: bs)
  end.

Definition concat_splines (segments : list (list BSpline)) (segment_times : list Q)
  : result (list BSpline) :=
  spl0 <- getitem segments 0 ;;
  knots_ <- mapM (fun s => t0 <- getitem segment_times 0 ;;
                           Ok (map (fun y => y * t0) (knots (basis s)))) spl0 ;;
  let degree_ := map (fun s => degree (basis s)) spl0 in
  let coeffs_ := map (fun s => coeffs s) spl0 in
  st <- concat_outer segment_times 1 (knots_, degree_, coeffs_) (skipn 1 segments) ;;
  let '(knots_, degree_, coeffs_) := st in
  Ok (map (fun l => mkSpline (mkBasis (nth l knots_ []) (nth l degree_ 0%nat))
                             (nth l coeffs_ []))
          (seq 0 (length spl0))).

(** The degrees of a segment agree with those of the first one, from
    dimension [l] on. *)
Fixpoint segment_matches (degree_ : list nat) (l : nat) (segment : list BSpline) : bool :=
  match segment with
  | [] => true
  | s :: rest =>
      (degree (basis s) =? nth l degree_ 0)%nat && segment_matches degree_ (S l) rest
  end.

(** What the loops keep: the degrees, the number of dimensions, and
    knot vectors that are not empty. *)
Definition concat_inv (degree0 : list nat) (st : concat_state) : Prop :=
  let '(knots_, degree_, coeffs_) := st in
  degree_ = degree0 /\ length knots_ = length degree0 /\
  length coeffs_ = length degree0 /\ Forall (fun kl => kl <> []) knots_.

(** ** Knot insertion and cropping with their index errors

    The same functions with every subscript checked: an index out of
    range raises [IndexError], as Python does. *)

Definition insertion_weight_chk (knots : list Q) (degree : nat) (knot : Q) (j : nat)
  : result Q :=
  kj <- getitem knots j ;;
  if Qle_bool knot kj then Ok 0
  else
    kjd <- getitem knots (j + degree + 1 - 1) ;;
    if Qltb kj knot && Qltb knot kjd then Ok ((knot - kj) / (kjd - kj)) else Ok 1.

Definition insertion_row_chk (knots : list Q) (degree : nat) (knot : Q) (N j : nat)
  : result (list Q) :=
  w <- insertion_weight_chk knots degree knot j ;;
  let r := zeros N in
  let r := if negb (j =? 0)%nat then set_at r (j - 1) (1 - w) else r in
  Ok (if negb (j =? N)%nat then set_at r j w else r).

Definition insertion_matrix_chk (knots : list Q) (degree : nat) (knot : Q) (N : nat)
  : result matrix :=
  mapM (insertion_row_chk knots degree knot N) (seq 0 (N + 1)).

Fixpoint knot_insertion_loop_chk (degree : nat) (knots_to_insert : list Q)
         (N : nat) (knots : list Q) (T : matrix) : result (matrix * list Q) :=
  match knots_to_insert with
  | [] => Ok (T, knots)
  | knot :: rest =>
      _T <- insertion_matrix_chk knots degree knot N ;;
      knot_insertion_loop_chk degree rest (N + 1) (sorted (knots ++ [knot])) (dot _T T)
  end.

(** [len(basis)]: Python refuses a negative length with a
    [ValueError]. *)
Definition len_chk (b : BSplineBasis) : result nat :=
  if (degree b + 1 <=? length (knots b))%nat then Ok (len b) else Raise ValueError.

Definition knot_insertion_T_chk (b : BSplineBasis) (knots_to_insert : list Q)
  : result (matrix * list Q) :=
  N <- len_chk b ;;
  knot_insertion_loop_chk (degree b) knots_to_insert N (knots b) (eye N).

Definition crop_T_chk (b : BSplineBasis) (min_value max_value : Q)
  : result (matrix * list Q) :=
  let knots := knots b in
  let degree := degree b in
  let n_min := count_eq knots min_value in
  let n_max := count_eq knots max_value in
  let min_knots := repeat min_value (degree + 1 - n_min) in
  let max_knots := repeat max_value (degree + 1 - n_max) in
  r <- knot_insertion_T_chk b (min_knots ++ max_knots) ;;
  let T := fst r in
  let knots2 := snd r in
  let jmin := searchsorted_left knots2 min_value in
  let jmax := searchsorted_right knots2 max_value in
  Ok (slice T (Z.of_nat jmin) (Z.of_nat jmax - Z.of_nat degree - 1),
      slice knots2 (Z.of_nat jmin) (Z.of_nat jmax)).

(** ** Checked arithmetic and matrix cells *)

(** A quotient.  Dividing by zero raises nothing in numpy: it gives
    [inf] or [nan] (and a warning), which spreads to what is computed
    from it.  No rational number stands for that, so the model stops
    with [Raise NonFinite]: the call produces no matrix of numbers. *)
Definition qdiv (a b : Q) : result Q :=
  if Qeq_bool b 0 then Raise NonFinite else Ok (a / b).

(** [M[i, j]] with its [IndexError]. *)
Definition entry_chk (M : matrix) (i j : nat) : result Q :=
  row <- getitem M i ;; getitem row j.

(** [M[i, j] = v] for a cell in range. *)
Definition set_entry (M : matrix) (i j : nat) (v : Q) : matrix :=
  setitem M i (set_at (nth i M []) j v).

(** [T[r0:r1, c0:c1] = src] with numpy's broadcasting: [src] has as many
    rows as the target block or one row, and each row as many cells as
    the block is wide or one cell; anything else is a [ValueError]. *)
Definition assign_block (T : matrix) (r0 r1 c0 c1 : nat) (src : matrix) : result matrix :=
  let p := length src in
  if ((p =? r1 - r0) || (p =? 1))%nat &&
     forallb (fun srow => (length srow =? c1 - c0) || (length srow =? 1))%nat src
  then
    Ok (map (fun i =>
               let row := nth i T [] in
               if ((r0 <=? i) && (i <? r1))%nat
               then
                 let srow := nth (if (p =? 1)%nat then 0 else i - r0)%nat src [] in
                 map (fun j =>
                        if ((c0 <=? j) && (j <? c1))%nat
                        then at_ srow (if (length srow =? 1)%nat then 0 else j - c0)%nat
                        else at_ row j)
                     (seq 0 (length row))
               else row)
            (seq 0 (length T)))
  else Raise ValueError.

(** ** [shiftfirstknot_T] *)

(** Row [j] of the blending matrix [_t] of stage [k]. *)
Definition shift_row (knots : list Q) (deg : nat) (t_shift : Q) (k j : nat)
  : result (list Q) :=
  let r := zeros (deg + 1 + k) in
  if (deg + 1 <=? j)%nat then Ok (set_at r (j - 1) 1)
  else if (j <=? k)%nat then Ok (set_at r j 1)
  else
    kjd <- getitem knots (j + deg - k) ;;
    kj <- getitem knots j ;;
    a <- qdiv (kjd - t_shift) (kjd - kj) ;;
    b <- qdiv (t_shift - kj) (kjd - kj) ;;
    Ok (set_at (set_at r (j - 1) a) j b).

Definition shift_stage (knots : list Q) (deg : nat) (t_shift : Q) (k : nat)
  : result matrix :=
  mapM (shift_row knots deg t_shift k) (seq 0 (deg + 1 + k + 1)).

(** The loop [for k in range(deg+1)], from the stages [ks] on. *)
Fixpoint shift_stages (knots : list Q) (deg : nat) (t_shift : Q) (ks : list nat)
         (_T : matrix) : result matrix :=
  match ks with
  | [] => Ok _T
  | k :: rest =>
      _t <- shift_stage knots deg t_shift k ;;
      shift_stages knots deg t_shift rest (dot _t _T)
  end.

(** [sum([T[i, k]*Tinv[k, j] for k in ks])]. *)
Definition inverse_sum (T Tinv : matrix) (i j : nat) (ks : list nat) : result Q :=
  terms <- mapM (fun k => a <- entry_chk T i k ;;
                          b <- entry_chk Tinv k j ;;
                          Ok (a * b)) ks ;;
  Ok (fold_left Qplus terms 0).

(** The loop [for j in range(deg, i, -1)], from the columns [js] on. *)
Fixpoint inverse_row (T : matrix) (deg i : nat) (js : list nat) (Tinv : matrix)
  : result matrix :=
  match js with
  | [] => Ok Tinv
  | j :: rest =>
      tii <- entry_chk T i i ;;
      f <- qdiv (-1) tii ;;
      s <- inverse_sum T Tinv i j (seq (i + 1) (deg + 2 - (i + 1))) ;;
      inverse_row T deg i rest (set_entry Tinv i j (f * s))
  end.

(** The loop [for i in range(deg, -1, -1)], from the rows [is_] on. *)
Fixpoint inverse_rows (T : matrix) (deg : nat) (is_ : list nat) (Tinv : matrix)
  : result matrix :=
  match is_ with
  | [] => Ok Tinv
  | i :: rest =>
      tii <- entry_chk T i i ;;
      v <- qdiv 1 tii ;;
      Tinv' <- inverse_row T deg i (rev (seq (i + 1) (deg - i))) (set_entry Tinv i i v) ;;
      inverse_rows T deg rest Tinv'
  end.

(** The numeric path ([typ = np]); the second component is [Tinv] when
    [inverse] is set. *)
Definition shiftfirstknot_T (b : BSplineBasis) (t_shift : Q) (inverse : bool)
  : result (matrix * option matrix) :=
  let knots := knots b in
  let deg := degree b in
  let N := len b in
  _T <- shift_stages knots deg t_shift (seq 0 (deg + 1)) (eye (deg + 1)) ;;
  T <- assign_block (eye N) 0 (Nat.min (deg + 1) N) 0 (Nat.min (deg + 1) N)
                    (skipn (deg + 1) _T) ;;
  if inverse
  then
    Tinv <- inverse_rows T deg (rev (seq 0 (deg + 1))) (eye (len b)) ;;
    Ok (T, Some Tinv)
  else Ok (T, None).

(** What a blending matrix of stage [k] looks like. *)
Definition stage_rows (deg k : nat) (A : matrix) : Prop :=
  length A = (deg + 2 + k)%nat /\
  forall j, (j < deg + 2 + k)%nat ->
    length (nth j A []) = (deg + 1 + k)%nat /\
    (forall c, c <> (j - 1)%nat -> c <> j -> entry A j c = 0) /\
    ((k < j)%nat -> ~ entry A j (j - 1) == 0).

(** The product of the first [k] blending matrices: zero below a band
    that moves down with [k], not zero on its edge. *)
Definition stage_inv (deg k : nat) (M : matrix) : Prop :=
  has_shape M (deg + 1 + k) (deg + 1) /\ ncols M = (deg + 1)%nat /\
  (forall r c, (c + k < r)%nat -> entry M r c == 0) /\
  (forall r, (k <= r)%nat -> (r < deg + 1 + k)%nat -> ~ entry M r (r - k) == 0).

(** [T]: upper triangular with a diagonal without zeros, and the
    identity outside its leading block. *)
Definition upper_block (deg N : nat) (T : matrix) : Prop :=
  has_shape T N N /\
  (forall i j, (j < i)%nat -> entry T i j == 0) /\
  (forall i, (i < N)%nat -> ~ entry T i i == 0) /\
  (forall i j, (i < N)%nat -> (j < N)%nat -> (deg < i \/ deg < j)%nat ->
     entry T i j = if (i =? j)%nat then 1 else 0).

(** *** Shifting the first knots: the inverse by back-substitution *)

(** The sum of the inner loop. *)
Definition bs_sum (deg : nat) (T Tinv : matrix) (i j : nat) : Q :=
  fold_left Qplus
            (map (fun k => entry T i k * entry Tinv k j) (seq (i + 1) (deg + 2 - (i + 1)))) 0.

(** What the two loops leave in [Tinv]. *)
Definition back_subst (deg N : nat) (T Tinv : matrix) : Prop :=
  has_shape Tinv N N /\
  (forall i j, (i < N)%nat -> (j < N)%nat -> (deg < i \/ deg < j \/ j < i)%nat ->
     entry Tinv i j = if (i =? j)%nat then 1 else 0) /\
  (forall i, (i <= deg)%nat -> entry Tinv i i = 1 / entry T i i) /\
  (forall i j, (i < j)%nat -> (j <= deg)%nat ->
     entry Tinv i j = (-1 / entry T i i) * bs_sum deg T Tinv i j).

(** Rows [n] and below are still those of the identity, the rows above
    are final. *)
Definition rows_done (deg N : nat) (T : matrix) (n : nat) (Tinv : matrix) : Prop :=
  has_shape Tinv N N /\
  (forall i j, (i < N)%nat -> (j < N)%nat -> (i < n \/ deg < i \/ deg < j \/ j < i)%nat ->
     entry Tinv i j = if (i =? j)%nat then 1 else 0) /\
  (forall i, (n <= i)%nat -> (i <= deg)%nat -> entry Tinv i i = 1 / entry T i i) /\
  (forall i j, (n <= i)%nat -> (i < j)%nat -> (j <= deg)%nat ->
     entry Tinv i j = (-1 / entry T i i) * bs_sum deg T Tinv i j).

(** *** Square matrices as functions of their indices *)

Definition mprod (N : nat) (f g : nat -> nat -> Q) (i j : nat) : Q :=
  sumQ N (fun k => f i k * g k j).

Definition delta (i j : nat) : Q := if (i =? j)%nat then 1 else 0.

(** ** Subscripts of either sign *)

(** [l[i]] for an integer [i]: a negative subscript counts from the
    end, and one out of range raises [IndexError]. *)
Definition getitemZ {A : Type} (l : list A) (i : Z) : result A :=
  if (0 <=? i)%Z then getitem l (Z.to_nat i)
  else if (0 <=? i + Z.of_nat (length l))%Z
       then getitem l (Z.to_nat (i + Z.of_nat (length l)))
       else Raise IndexError.

(** [l[a:]]. *)
Definition slice_from {A : Type} (l : list A) (a : Z) : list A :=
  slice l a (Z.of_nat (length l)).

(** [M[:, a:b]] and [M[:, a:]]. *)
Definition cols (M : matrix) (a b : Z) : matrix := map (fun row => slice row a b) M.

Definition cols_from (M : matrix) (a : Z) : matrix := map (fun row => slice_from row a) M.

(** [np.zeros((r, c))]. *)
Definition zeros2 (r c : nat) : matrix := repeat (zeros c) r.

(** [T[a:b, c:d] = src] on a matrix of [C] columns, the bounds being
    integers of either sign. *)
Definition assign_slices (T : matrix) (C : nat) (a b c d : Z) (src : matrix)
  : result matrix :=
  assign_block T (slice_bound (length T) a) (slice_bound (length T) b)
                 (slice_bound C c) (slice_bound C d) src.

(** [a - b] on two arrays of one shape. *)
Definition msub (a b : matrix) : matrix :=
  map (fun rs => map (fun xy => fst xy - snd xy) (combine (fst rs) (snd rs))) (combine a b).

(** ** The pieces of [extrapolate_T] that come from outside the module *)

(** Modelled from the spec: [basis.greville()], a method of the class
    [BSplineBasis], which this module imports.  The spec has it as the
    "average of [degree] consecutive interior knots per basis function
    index": the knots [k+1 .. k+degree] for function [k]. *)
Definition greville (b : BSplineBasis) : result (list Q) :=
  mapM (fun k => qdiv (fold_right Qplus 0
                         (slice (knots b) (Z.of_nat k + 1)
                                (Z.of_nat k + Z.of_nat (degree b) + 1)))
                      (inject_Z (Z.of_nat (degree b))))
       (seq 0 (len b)).

(** Modelled from the spec: [basis.eval_basis(points).toarray()], a
    method of the same class: "for each evaluation point and each basis
    function index, its value, computed by the Cox-de Boor recursion",
    which is the recursion [evalspline] runs; one row per point. *)
Definition eval_basis (b : BSplineBasis) (points : list Q) : matrix :=
  map (basis_values b) points.

(** *** [np.linalg.solve]

    The solution [X] of [A X = B] for a square [A], by Gauss-Jordan
    elimination on the rows of [A | B]; a singular [A] raises
    [LinAlgError].  numpy eliminates with another choice of pivots; the
    solution is the same one. *)

Definition row_scale (c : Q) (r : list Q) : list Q := map (Qmult c) r.

Definition row_sub (r s : list Q) (c : Q) : list Q :=
  map (fun xy => fst xy - c * snd xy) (combine r s).

Definition aug_row : Type := (list Q * list Q)%type.

(** The first row with a non-zero entry in column [c], and the others. *)
Fixpoint find_pivot (c : nat) (rows : list aug_row) : option (aug_row * list aug_row) :=
  match rows with
  | [] => None
  | r :: rest =>
      if Qeq_bool (at_ (fst r) c) 0
      then match find_pivot c rest with
           | None => None
           | Some (p, others) => Some (p, r :: others)
           end
      else Some (r, rest)
  end.

Definition eliminate (c : nat) (p r : aug_row) : aug_row :=
  (row_sub (fst r) (fst p) (at_ (fst r) c), row_sub (snd r) (snd p) (at_ (fst r) c)).

Fixpoint gauss_jordan (columns : list nat) (done todo : list aug_row)
  : result matrix :=
  match columns with
  | [] => Ok (map snd done)
  | c :: cs =>
      match find_pivot c todo with
      | None => Raise LinAlgError
      | Some (p, others) =>
          let p' := (row_scale (/ at_ (fst p) c) (fst p),
                     row_scale (/ at_ (fst p) c) (snd p)) in
          gauss_jordan cs (map (eliminate c p') done ++ [p']) (map (eliminate c p') others)
      end
  end.

Definition solve (A B : matrix) : result matrix :=
  gauss_jordan (seq 0 (length A)) [] (combine A B).

(** ** [extrapolate_T] *)

(** The loop [m = 1; while knots[-deg-2-m] >= knots[-deg-2]: m += 1],
    started at [m].  It ends within [len(knots)] rounds, with a value or
    with the [IndexError] of a subscript that ran off the front; [fuel]
    counts the rounds left. *)
Fixpoint find_m (fuel : nat) (knots : list Q) (deg m : nat) : result nat :=
  a <- getitemZ knots (- Z.of_nat deg - 2 - Z.of_nat m) ;;
  b <- getitemZ knots (- Z.of_nat deg - 2) ;;
  if Qle_bool b a
  then match fuel with
       | O => Raise IndexError
       | S fuel' => find_m fuel' knots deg (m + 1)
       end
  else Ok m.

(** Row [j] of [B1_tmp] (on [knots], [off = N]) or of [A1_tmp] (on
    [knots2], [off = N + m]) at derivative [i]. *)
Definition difference_row (knots : list Q) (deg i : nat) (off : Z) (j : nat)
  : result (list Q) :=
  hi <- getitemZ knots (Z.of_nat j + off) ;;
  lo <- getitemZ knots (Z.of_nat j + off - Z.of_nat deg - 1 + Z.of_nat i) ;;
  w <- qdiv (inject_Z (Z.of_nat (deg + 1 - i))) (hi - lo) ;;
  Ok (set_at (set_at (zeros (deg + 1 - i + 1)) j (- w)) (j + 1) w).

(** The loop over [j]: the rows of [B1_tmp] and [A1_tmp], in the
    order the source fills them. *)
Fixpoint difference_rows (knots knots2 : list Q) (deg N m i : nat) (js : list nat)
  : result (matrix * matrix) :=
  match js with
  | [] => Ok ([], [])
  | j :: rest =>
      rb <- difference_row knots deg i (Z.of_nat N) j ;;
      ra <- difference_row knots2 deg i (Z.of_nat N + Z.of_nat m) j ;;
      r <- difference_rows knots knots2 deg N m i rest ;;
      Ok (ra :: fst r, rb :: snd r)
  end.

(** The state of the loop over [i]: [A1], [B1], [A], [B]. *)
Definition deriv_state : Type := (matrix * matrix * matrix * matrix)%type.

Fixpoint derivative_rows (knots knots2 : list Q) (deg N m : nat) (is_ : list nat)
         (st : deriv_state) : result deriv_state :=
  match is_ with
  | [] => Ok st
  | i :: rest =>
      let '(A1, B1, A, B) := st in
      tmp <- difference_rows knots knots2 deg N m i (seq 0 (deg + 1 - i)) ;;
      let A1 := dot (fst tmp) A1 in
      let B1 := dot (snd tmp) B1 in
      if (deg + 1 - m <=? i)%nat
      then
        b1 <- getitemZ B1 (-1) ;;
        a1 <- getitemZ A1 (- (Z.of_nat deg - Z.of_nat i + 1)) ;;
        derivative_rows knots knots2 deg N m rest (A1, B1, setitem A i a1, setitem B i b1)
      else derivative_rows knots knots2 deg N m rest (A1, B1, A, B)
  end.

(** [_T[abs(_T) < 1e-10] = 0.] *)
Definition chop (M : matrix) : matrix :=
  map (map (fun v => if Qltb (Qabs v) (1 # 10000000000) then 0 else v)) M.

(** The call with [m=None].  [BSplineBasis(knots2, deg)] builds the
    record. *)
Definition extrapolate_T (b : BSplineBasis) (t_extra : Q) : result (matrix * list Q) :=
  let knots := knots b in
  let deg := degree b in
  N <- len_chk b ;;
  m <- find_m (length knots) knots deg 1 ;;
  k_border <- getitemZ knots (- Z.of_nat deg - 1) ;;
  k_last <- getitemZ knots (-1) ;;
  let knots2 := slice knots 0 (- Z.of_nat deg - 1) ++ repeat k_border m ++
                repeat (k_last + t_extra) (deg + 1) in
  let basis2 := mkBasis knots2 deg in
  let A := zeros2 (deg + 1) (deg + 1) in
  let B := zeros2 (deg + 1) (deg + 1) in
  AB <- (if (m <? deg + 1)%nat
         then
           g <- greville b ;;
           let eval_points := slice_from g (- (Z.of_nat (deg + 1 - m))) in
           let a := cols (eval_basis basis2 eval_points)
                         (- (Z.of_nat (deg + 1 + m))) (- Z.of_nat m) in
           let b_ := cols_from (eval_basis b eval_points) (- (Z.of_nat (deg + 1))) in
           let a1 := cols a 0 (Z.of_nat m) in
           let a2 := cols_from a (Z.of_nat m) in
           let b1 := cols b_ 0 (Z.of_nat m) in
           let b2 := cols_from b_ (Z.of_nat m) in
           A <- assign_slices A (deg + 1) 0 (Z.of_nat (deg + 1 - m))
                              (- (Z.of_nat (deg + 1))) (- Z.of_nat m) a2 ;;
           B <- assign_slices B (deg + 1) 0 (Z.of_nat (deg + 1 - m))
                              0 (Z.of_nat m) (msub b1 a1) ;;
           B <- assign_slices B (deg + 1) 0 (Z.of_nat (deg + 1 - m))
                              (Z.of_nat m) (Z.of_nat (deg + 1)) b2 ;;
           Ok (A, B)
         else Ok (set_entry A 0 0 1, set_entry B 0 deg 1)) ;;
  st <- derivative_rows knots knots2 deg N m (seq 1 deg)
                        (eye (deg + 1), eye (deg + 1), fst AB, snd AB) ;;
  let '(_, _, A, B) := st in
  _T <- solve A B ;;
  let _T := chop _T in
  let T := zeros2 (N + m) N in
  T <- assign_slices T N 0 (Z.of_nat N) 0 (Z.of_nat N) (eye N) ;;
  T <- assign_slices T N (- (Z.of_nat (deg + 1))) (Z.of_nat (N + m))
                     (- (Z.of_nat (deg + 1))) (Z.of_nat N) _T ;;
  Ok (T, knots2).

(** ** [shiftoverknot_T] *)

Definition shiftoverknot_T (b : BSplineBasis) : result (matrix * list Q) :=
  let knots := knots b in
  let deg := degree b in
  N <- len_chk b ;;
  k_first <- getitemZ knots (Z.of_nat deg + 1) ;;
  let n := count_eq knots k_first in
  m <- find_m (length knots) knots deg 1 ;;
  k_last <- getitemZ knots (-1) ;;
  crp <- crop_T_chk b k_first k_last ;;
  k_prev <- getitemZ knots (- Z.of_nat deg - 2) ;;
  extr <- extrapolate_T b (k_last - k_prev) ;;
  let T_crp := fst crp in
  let T_extr := fst extr in
  if (N + m <? n)%nat then Raise ValueError
  else
    let T := zeros2 (N + m - n) N in
    T <- assign_slices T N 0 (Z.of_nat N - Z.of_nat n) 0 (Z.of_nat N) T_crp ;;
    T <- assign_slices T N (- (Z.of_nat (deg + 1))) (Z.of_nat (N + m - n))
                       (- (Z.of_nat (deg + 1))) (Z.of_nat N)
                       (cols_from (slice_from T_extr (- (Z.of_nat (deg + 1))))
                                  (- (Z.of_nat (deg + 1)))) ;;
    k_new <- getitemZ knots (Z.of_nat deg + Z.of_nat n) ;;
    k_border <- getitemZ knots (- Z.of_nat deg - 1) ;;
    Ok (T, repeat k_new (deg + 1) ++
           slice knots (Z.of_nat deg + Z.of_nat n + 1) (- Z.of_nat deg - 1) ++
           repeat k_border m ++
           repeat (k_last + (k_last - k_prev)) (deg + 1)).

(** The number of knots below [v]. *)
Definition count_lt (knots : list Q) (v : Q) : nat :=
  length (filter (fun y => Qltb y v) knots).

(** ** [definite_integral] *)

Definition definite_integral (spline : BSpline) (a b : Q) : Q :=
  let spline_int := running_integral spline in
  let int_0a := evalspline spline_int a in
  let int_0b := evalspline spline_int b in
  let int_ab := int_0b - int_0a in
  int_ab.

(** A matrix of [r] rows and [c] columns whose entries are not negative
    and whose rows add up to 1: each row takes a convex combination. *)
Definition stochastic (M : matrix) (r c : nat) : Prop :=
  has_shape M r c /\
  forall i, (i < r)%nat ->
    (forall j, (j < c)%nat -> 0 <= entry M i j) /\
    sumQ c (fun j => entry M i j) == 1.

(** ** [shift_knot1_fwd] and [shift_knot1_bwd] *)

(** [T.dot(cfs)] for a matrix of [C] columns and a vector of
    coefficients: numpy raises [ValueError] when the vector has another
    length. *)
Definition dot_vec (T : matrix) (C : nat) (cfs : list Q) : result (list Q) :=
  if (length cfs =? C)%nat then Ok (dotv T cfs) else Raise ValueError.

(** The numeric path of both functions (the coefficients are numbers,
    not [SX] or [MX] symbols). *)
Definition shift_knot1_fwd (cfs : list Q) (b : BSplineBasis) (t_shift : Q)
  : result (list Q) :=
  r <- shiftfirstknot_T b t_shift false ;;
  let T := fst r in
  dot_vec T (len b) cfs.

(** With [inverse=True] the call returns the pair [(T, Tinv)], so the
    unpacking [_, Tinv = ...] always finds its second component. *)
Definition shift_knot1_bwd (cfs : list Q) (b : BSplineBasis) (t_shift : Q)
  : result (list Q) :=
  r <- shiftfirstknot_T b t_shift true ;;
  match snd r with
  | Some Tinv => dot_vec Tinv (len b) cfs
  | None => Raise TypeError
  end.

(** ** [extrapolate] and [shiftoverknot] *)

(** The call with [m=None] on numeric coefficients. *)
Definition extrapolate (spline : BSpline) (t_extra : Q) : result BSpline :=
  r <- extrapolate_T (basis spline) t_extra ;;
  let T := fst r in
  let knots := snd r in
  coeffs2 <- dot_vec T (len (basis spline)) (coeffs spline) ;;
  let basis2 := mkBasis knots (degree (basis spline)) in
  Ok (mkSpline basis2 coeffs2).

Definition shiftoverknot (spline : BSpline) : result BSpline :=
  r <- shiftoverknot_T (basis spline) ;;
  let T := fst r in
  let knots := snd r in
  coeffs2 <- dot_vec T (len (basis spline)) (coeffs spline) ;;
  let basis2 := mkBasis knots (degree (basis spline)) in
  Ok (mkSpline basis2 coeffs2).

(** * Proofs *)

Lemma Qltb_lt a b : Qltb a b = true <-> a < b.
Proof.
  unfold Qltb. rewrite negb_true_iff.
  split; intro H.
  - apply Qnot_le_lt. intro L. apply Qle_bool_iff in L. congruence.
  - destruct (Qle_bool b a) eqn:E; trivial.
    apply Qle_bool_iff in E. lra.
Qed.

Lemma Qltb_ge a b : Qltb a b = false <-> b <= a.
Proof.
  unfold Qltb. rewrite negb_false_iff. apply Qle_bool_iff.
Qed.

Lemma Qle_bool_gt a b : Qle_bool a b = false <-> b < a.
Proof.
  split; intro H.
  - apply Qnot_le_lt. intro L. apply Qle_bool_iff in L. congruence.
  - destruct (Qle_bool a b) eqn:E; trivial.
    apply Qle_bool_iff in E. lra.
Qed.

Lemma Qneqb_true a b : Qneqb a b = true <-> ~ a == b.
Proof.
  unfold Qneqb. rewrite negb_true_iff. split; intro H.
  - now apply Qeq_bool_neq.
  - destruct (Qeq_bool a b) eqn:E; trivial.
    apply Qeq_bool_iff in E. contradiction.
Qed.

Lemma Qneqb_false a b : Qneqb a b = false <-> a == b.
Proof.
  unfold Qneqb. rewrite negb_false_iff. apply Qeq_bool_iff.
Qed.

(** Case analysis on the comparisons of the code. *)
Ltac cmp_cases :=
  repeat match goal with
  | |- context [Qle_bool ?a ?b] =>
      let E := fresh "E" in
      destruct (Qle_bool a b) eqn:E;
      [apply Qle_bool_iff in E | apply Qle_bool_gt in E]
  | |- context [Qltb ?a ?b] =>
      let E := fresh "E" in
      destruct (Qltb a b) eqn:E;
      [apply Qltb_lt in E | apply Qltb_ge in E]
  | |- context [Qneqb ?a ?b] =>
      let E := fresh "E" in
      destruct (Qneqb a b) eqn:E;
      [apply Qneqb_true in E | apply Qneqb_false in E]
  | |- context [Qeq_bool ?a ?b] =>
      let E := fresh "E" in
      destruct (Qeq_bool a b) eqn:E;
      [apply Qeq_bool_iff in E | apply Qeq_bool_neq in E]
  end.

Lemma at_map_seq (f : nat -> Q) n i :
  (i < n)%nat -> at_ (map f (seq 0 n)) i = f i.
Proof.
  intro H. unfold at_.
  rewrite (nth_indep _ 0 (f 0%nat)) by now rewrite length_map, length_seq.
  rewrite (map_nth f (seq 0 n) 0%nat i), seq_nth; auto.
Qed.

Lemma level0_Bval deg k x i :
  (i < length k - 1)%nat -> at_ (level0 deg k x) i = Bval deg k x 0 i.
Proof.
  intro H. unfold level0. now rewrite at_map_seq.
Qed.

Lemma levels_length k x n : forall d prev,
  (1 <= n)%nat ->
  length (levels k x d n prev) = (length k - (d + n - 1) - 1)%nat.
Proof.
  induction n as [|n IH]; intros d prev Hn; [lia|].
  simpl. destruct n as [|n].
  - simpl. unfold level. rewrite length_map, length_seq. f_equal. lia.
  - rewrite IH by lia. lia.
Qed.

Lemma levels_Bval deg k x n : forall d prev,
  (forall i, (i < length k - d)%nat -> at_ prev i = Bval deg k x (d - 1) i) ->
  (1 <= d)%nat ->
  forall i, (i < length k - (d + n - 1) - 1)%nat \/ n = 0%nat /\ (i < length k - d)%nat ->
  at_ (levels k x d n prev) i = Bval deg k x (d + n - 1) i.
Proof.
  induction n as [|n IH]; intros d prev Hprev Hd i Hi.
  - simpl. replace (d + 0 - 1)%nat with (d - 1)%nat by lia.
    apply Hprev. lia.
  - simpl. replace (d + S n - 1)%nat with (S d + n - 1)%nat by lia.
    apply IH; try lia.
    intros j Hj. unfold level. rewrite at_map_seq by lia.
    replace (S d - 1)%nat with d by lia.
    destruct d as [|d']; [lia|].
    unfold blend. cbn [Bval].
    replace (S d' - 1)%nat with d' in Hprev by lia.
    rewrite !Hprev by lia. reflexivity.
Qed.

Lemma basis_values_Bval b x i :
  (i < length (knots b) - degree b - 1)%nat ->
  at_ (basis_values b x) i = Bval (degree b) (knots b) x (degree b) i.
Proof.
  intro H. unfold basis_values.
  rewrite (levels_Bval (degree b)).
  - f_equal. lia.
  - intros j Hj. simpl. apply level0_Bval. lia.
  - lia.
  - destruct (degree b); [right; split; [reflexivity|lia] | left; lia].
Qed.

Lemma fold_sumQ (f : nat -> Q) n :
  fold_left (fun r l => r + f l) (seq 0 n) 0 = sumQ n f.
Proof.
  induction n as [|n IH]; [reflexivity|].
  rewrite seq_S, fold_left_app, IH. reflexivity.
Qed.

Lemma sumQ_ext n (f g : nat -> Q) :
  (forall i, (i < n)%nat -> f i == g i) -> sumQ n f == sumQ n g.
Proof.
  induction n as [|n IH]; intro H; simpl; [reflexivity|].
  rewrite IH, H by auto. reflexivity.
Qed.

Lemma sumQ_ext_eq n (f g : nat -> Q) :
  (forall i, (i < n)%nat -> f i = g i) -> sumQ n f = sumQ n g.
Proof.
  induction n as [|n IH]; intro H; simpl; [reflexivity|].
  rewrite IH, H by auto. reflexivity.
Qed.

(** [evalspline] as the weighted sum of the recursive values. *)
Lemma evalspline_sum s x :
  evalspline s x =
  sumQ (len (basis s))
       (fun l => at_ (coeffs s) l *
                 Bval (degree (basis s)) (knots (basis s)) x (degree (basis s)) l).
Proof.
  unfold evalspline.
  rewrite (fold_sumQ (fun l => at_ (coeffs s) l * at_ (basis_values (basis s) x) l)).
  apply sumQ_ext_eq. intros i Hi.
  rewrite basis_values_Bval; [reflexivity | unfold len in Hi; lia].
Qed.

Lemma sortedb_cons a l : sortedb (a :: l) = true ->
  sortedb l = true /\ (forall j, (j < length l)%nat -> a <= at_ l j).
Proof.
  revert a. induction l as [|b l IH]; intros a H.
  - split; [reflexivity | simpl; intros; lia].
  - cbn [sortedb] in H. apply andb_true_iff in H as [H1 H2].
    apply Qle_bool_iff in H1. split; [exact H2|].
    intros [|j] Hj; [exact H1|].
    destruct (IH b H2) as [_ IH2]. simpl in Hj.
    unfold at_ in *. simpl. specialize (IH2 j ltac:(lia)). lra.
Qed.

Lemma sortedb_mono k : sortedb k = true -> mono k.
Proof.
  induction k as [|a l IH]; intros H i j Hij Hj; [simpl in Hj; lia|].
  destruct (sortedb_cons _ _ H) as [Hl Ha].
  destruct i as [|i], j as [|j]; unfold at_; simpl.
  - lra.
  - apply Ha. simpl in Hj. lia.
  - lia.
  - apply (IH Hl); simpl in Hj; lia.
Qed.

Lemma Bval_S deg k x d i :
  Bval deg k x (S d) i ==
  wl k x (S d) i * Bval deg k x d i + wr k x (S d) i * Bval deg k x d (i + 1).
Proof.
  cbn [Bval]. unfold wl, wr.
  destruct (Qneqb (at_ k (i + S d) - at_ k i) 0) eqn:E1;
  destruct (Qneqb (at_ k (i + S d + 1) - at_ k (i + 1)) 0) eqn:E2;
  try apply Qneqb_true in E1; try apply Qneqb_true in E2;
  try (field; auto); ring.
Qed.

(** Support of the basis functions. *)
Lemma Bval_zero_right deg k x d : forall i,
  mono k -> (i + d + 1 < length k)%nat ->
  at_ k (i + d + 1) < x -> Bval deg k x d i == 0.
Proof.
  induction d as [|d IH]; intros i Hm Hi Hx.
  - cbn [Bval]. unfold B0.
    replace (i + 0 + 1)%nat with (i + 1)%nat in Hx by lia.
    assert (E : Qle_bool x (at_ k (i + 1)) = false) by now apply Qle_bool_gt.
    rewrite E. destruct (_ && _); unfold ind; ring.
  - rewrite Bval_S, !IH; auto; try lia; try ring.
    + replace (i + 1 + d + 1)%nat with (i + S d + 1)%nat by lia. exact Hx.
    + assert (at_ k (i + d + 1) <= at_ k (i + S d + 1)) by (apply Hm; lia). lra.
Qed.

Lemma Bval_zero_left deg k x d : forall i,
  mono k -> (i + d + 1 < length k)%nat ->
  x <= at_ k i -> (x < at_ k i \/ at_ k 0 < x) -> Bval deg k x d i == 0.
Proof.
  induction d as [|d IH]; intros i Hm Hi Hx Hx'.
  - cbn [Bval]. unfold B0.
    destruct ((i <? deg + 1)%nat && Qeq_bool (at_ k 0) (at_ k i)) eqn:F.
    + apply andb_true_iff in F as [_ F]. apply Qeq_bool_iff in F.
      assert (E : Qle_bool (at_ k i) x = false) by (apply Qle_bool_gt; lra).
      rewrite E. unfold ind; ring.
    + assert (E : Qltb (at_ k i) x = false) by (apply Qltb_ge; lra).
      rewrite E. unfold ind; ring.
  - assert (at_ k i <= at_ k (i + 1)) by (apply Hm; lia).
    rewrite Bval_S. rewrite (IH i), (IH (i+1)%nat); auto; try lia; try ring; try lra.
Qed.

(** ** Evaluation outside the domain

    C10.  For a spline with non-decreasing knots and a point [x] strictly
    below the first knot or strictly above the last one, [evalspline]
    returns 0 whatever the coefficients are: every order-0 indicator
    vanishes there, and so does every row of the table. *)
Theorem evalspline_outside_domain (s : BSpline) (x : Q) :
  sortedb (knots (basis s)) = true ->
  (x < at_ (knots (basis s)) 0 \/
   at_ (knots (basis s)) (length (knots (basis s)) - 1) < x) ->
  evalspline s x == 0.
Proof.
  intros Hs Hx. apply sortedb_mono in Hs.
  rewrite evalspline_sum.
  set (k := knots (basis s)) in *. set (dg := degree (basis s)).
  assert (Z : forall l, (l < len (basis s))%nat -> Bval dg k x dg l == 0).
  { intros l Hl. unfold len in Hl. fold k dg in Hl.
    destruct Hx as [Hx|Hx].
    - apply Bval_zero_left; auto; try lia.
      + assert (at_ k 0 <= at_ k l) by (apply Hs; lia). lra.
      + left. assert (at_ k 0 <= at_ k l) by (apply Hs; lia). lra.
    - apply Bval_zero_right; auto; try lia.
      assert (at_ k (l + dg + 1) <= at_ k (length k - 1)) by (apply Hs; lia). lra. }
  clearbody k dg.
  induction (len (basis s)) as [|n IH]; simpl; [reflexivity|].
  rewrite IH, Z by auto. ring.
Qed.

Lemma evalspline_outside_domain_witness :
  evalspline (mkSpline (mkBasis [0; 0; 1; 2; 2] 1) [3; 5; 7]) (5 # 2) == 0.
Proof.
  apply (evalspline_outside_domain (mkSpline (mkBasis [0; 0; 1; 2; 2] 1) [3; 5; 7]) (5 # 2)).
  - reflexivity.
  - right. vm_compute. reflexivity.
Defined.

(** ** Sums *)

Lemma sumQ_zero n (f : nat -> Q) :
  (forall i, (i < n)%nat -> f i == 0) -> sumQ n f == 0.
Proof.
  induction n as [|n IH]; intro H; simpl; [reflexivity|].
  rewrite IH, H by auto. ring.
Qed.

Lemma sumQ_app n m (f : nat -> Q) :
  sumQ (n + m) f == sumQ n f + sumQ m (fun j => f (n + j)%nat).
Proof.
  induction m as [|m IH]; simpl.
  - rewrite Nat.add_0_r. ring.
  - rewrite Nat.add_succ_r. simpl. rewrite IH. ring.
Qed.

Lemma sumQ_plus n (f g : nat -> Q) :
  sumQ n (fun i => f i + g i) == sumQ n f + sumQ n g.
Proof.
  induction n as [|n IH]; simpl; [ring|]. rewrite IH. ring.
Qed.

Lemma sumQ_head n (f : nat -> Q) :
  sumQ (S n) f == f 0%nat + sumQ n (fun j => f (S j)).
Proof.
  induction n as [|n IH].
  - simpl. ring.
  - change (sumQ (S (S n)) f) with (sumQ (S n) f + f (S n)).
    rewrite IH. simpl. ring.
Qed.

(** ** Partition of unity *)

(** The knot interval of [x]. *)
Lemma find_interval k x : forall a b,
  (a <= b)%nat -> at_ k a < x -> x <= at_ k b ->
  exists mu, (a <= mu < b)%nat /\ at_ k mu < x /\ x <= at_ k (mu + 1).
Proof.
  intros a b Hab. induction Hab as [|b Hab IH]; intros Ha Hb.
  - lra.
  - destruct (Qlt_le_dec (at_ k b) x) as [L|L].
    + exists b. replace (b + 1)%nat with (S b) by lia. repeat split; auto.
    + destruct (IH Ha L) as [mu [H1 H2]]. exists mu. split; [lia | exact H2].
Qed.

Lemma B0_one deg k x mu :
  at_ k mu < x -> x <= at_ k (mu + 1) -> Bval deg k x 0 mu == 1.
Proof.
  intros H1 H2. cbn [Bval]. unfold B0.
  assert (E1 : Qle_bool (at_ k mu) x = true) by (apply Qle_bool_iff; lra).
  assert (E2 : Qltb (at_ k mu) x = true) by now apply Qltb_lt.
  assert (E3 : Qle_bool x (at_ k (mu + 1)) = true) by now apply Qle_bool_iff.
  rewrite E1, E2, E3. destruct (_ && _); unfold ind; ring.
Qed.

Lemma wl_wr_one k x d i :
  at_ k i < at_ k (i + d) -> wl k x d i + wr k x d (i - 1) == 1 \/ i = 0%nat.
Proof.
  intros H. destruct i as [|i]; [now right|left].
  unfold wl, wr. replace (S i - 1 + d + 1)%nat with (S i + d)%nat by lia.
  replace (S i - 1 + 1)%nat with (S i) by lia.
  assert (E : Qneqb (at_ k (S i + d) - at_ k (S i)) 0 = true)
    by (apply Qneqb_true; lra).
  rewrite E. field. lra.
Qed.

(** The [e+1] functions of level [e] that live on the interval of [x]
    add up to one. *)
Lemma local_unity deg k x mu : forall e,
  mono k -> (e <= mu)%nat -> (mu + e + 1 < length k)%nat ->
  at_ k mu < x -> x <= at_ k (mu + 1) ->
  sumQ (S e) (fun j => Bval deg k x e (mu - e + j)) == 1.
Proof.
  induction e as [|e IH]; intros Hm He Hl H1 H2.
  - cbn [sumQ]. replace (mu - 0 + 0)%nat with mu by lia.
    rewrite B0_one by assumption. ring.
  - assert (Hk0 : at_ k 0 < x).
    { assert (at_ k 0 <= at_ k mu) by (apply Hm; lia). lra. }
    rewrite (sumQ_ext _ _ (fun j =>
         wl k x (S e) (mu - S e + j) * Bval deg k x e (mu - S e + j)
       + wr k x (S e) (mu - S e + j) * Bval deg k x e (mu - S e + j + 1)))
      by (intros; apply Bval_S).
    rewrite sumQ_plus.
    (* left sum: drop its first term; right sum: drop its last term *)
    rewrite sumQ_head.
    change (sumQ (S (S e)) ?f) with (sumQ (S e) f + f (S e)).
    cbv beta.
    rewrite (Bval_zero_right deg k x e (mu - S e + 0)); auto; try lia.
    2:{ replace (mu - S e + 0 + e + 1)%nat with mu by lia. exact H1. }
    rewrite (Bval_zero_left deg k x e (mu - S e + S e + 1)); auto; try lia.
    2:{ replace (mu - S e + S e + 1)%nat with (mu + 1)%nat by lia. exact H2. }
    rewrite <- (IH Hm) by (assumption || lia).
    setoid_replace (wl k x (S e) (mu - S e + 0) * 0 +
      sumQ (S e) (fun j => wl k x (S e) (mu - S e + S j) * Bval deg k x e (mu - S e + S j)) +
      (sumQ (S e) (fun i => wr k x (S e) (mu - S e + i) * Bval deg k x e (mu - S e + i + 1)) +
       wr k x (S e) (mu - S e + S e) * 0))
    with (sumQ (S e) (fun j => wl k x (S e) (mu - S e + S j) * Bval deg k x e (mu - S e + S j)) +
      sumQ (S e) (fun i => wr k x (S e) (mu - S e + i) * Bval deg k x e (mu - S e + i + 1)))
    by ring.
    rewrite <- sumQ_plus. apply sumQ_ext. intros j Hj.
    replace (mu - S e + S j)%nat with (mu - e + j)%nat by lia.
    replace (mu - S e + j + 1)%nat with (mu - e + j)%nat by lia.
    destruct (wl_wr_one k x (S e) (mu - e + j)) as [W|W].
    + assert (at_ k (mu - e + j) <= at_ k mu) by (apply Hm; lia).
      assert (at_ k (mu + 1) <= at_ k (mu - e + j + S e)) by (apply Hm; lia).
      lra.
    + replace (mu - e + j - 1)%nat with (mu - S e + j)%nat in W by lia.
      rewrite <- Qmult_plus_distr_l, W. ring.
    + lia.
Qed.

(** C8, as the code has it.  For non-decreasing knots, at least one basis
    function and [knots[degree] < x <= knots[N]] ([N] the length of the
    basis), the basis values of [evalspline] add up to one: the spline
    whose coefficients are all 1 evaluates to 1.  On a clamped basis these
    are all points strictly inside the domain, and its right end. *)
Theorem partition_of_unity (b : BSplineBasis) (x : Q) :
  sortedb (knots b) = true ->
  (1 <= len b)%nat ->
  at_ (knots b) (degree b) < x -> x <= at_ (knots b) (len b) ->
  evalspline (mkSpline b (repeat 1 (len b))) x == 1.
Proof.
  intros Hs HN H1 H2. apply sortedb_mono in Hs.
  rewrite evalspline_sum. cbn [basis coeffs].
  set (k := knots b) in *. set (dg := degree b) in *.
  assert (HL : len b = (length k - dg - 1)%nat) by reflexivity.
  assert (Hdg : (dg <= len b)%nat).
  { destruct (Nat.le_gt_cases dg (len b)) as [L|L]; [exact L|].
    assert (at_ k (len b) <= at_ k dg) by (apply Hs; lia). lra. }
  destruct (find_interval k x dg (len b)) as [mu [Hmu [L1 L2]]]; auto; try lia.
  rewrite (sumQ_ext _ _ (fun l => Bval dg k x dg l)).
  2:{ intros i Hi. unfold at_. rewrite nth_repeat_lt by exact Hi. ring. }
  replace (len b) with ((mu - dg) + (S dg + (len b - mu - 1)))%nat by lia.
  rewrite sumQ_app, sumQ_app.
  assert (Hk0 : at_ k 0 < x).
  { assert (at_ k 0 <= at_ k mu) by (apply Hs; lia). lra. }
  rewrite sumQ_zero.
  2:{ intros i Hi. apply Bval_zero_right; auto; try lia.
      assert (at_ k (i + dg + 1) <= at_ k mu) by (apply Hs; lia). lra. }
  rewrite (sumQ_zero (len b - mu - 1)).
  2:{ intros i Hi. apply Bval_zero_left; auto; try lia.
      assert (at_ k (mu + 1) <= at_ k (mu - dg + (S dg + i))) by (apply Hs; lia). lra. }
  rewrite local_unity; auto; try lia. ring.
Qed.

Lemma partition_of_unity_witness :
  evalspline (mkSpline (mkBasis [0; 0; 0; 1; 2; 2; 2] 2) (repeat 1 4)) (3 # 2) == 1.
Proof.
  apply (partition_of_unity (mkBasis [0; 0; 0; 1; 2; 2; 2] 2) (3 # 2));
    vm_compute; (reflexivity || lia || discriminate).
Defined.

(** The claim as the specification words it: between the first and the
    last knot of an unclamped basis the values do not add up to one. *)
Lemma partition_of_unity_unclamped :
  let b := mkBasis [0; 1; 2; 3] 1 in
  sortedb (knots b) = true /\
  length (knots b) = (len b + degree b + 1)%nat /\
  at_ (knots b) 0 < 1 # 2 /\ 1 # 2 < at_ (knots b) 3 /\
  ~ evalspline (mkSpline b (repeat 1 (len b))) (1 # 2) == 1.
Proof.
  vm_compute. repeat split; try reflexivity; discriminate.
Qed.

(** ** Knot insertion *)

(** *** Lists and matrices *)

Lemma set_at_length l : forall i v, length (set_at l i v) = length l.
Proof.
  induction l as [|a l IH]; intros [|i] v; simpl; auto.
Qed.

Lemma at_set_at l : forall i v j, (i < length l)%nat ->
  at_ (set_at l i v) j = if (j =? i)%nat then v else at_ l j.
Proof.
  unfold at_. induction l as [|a l IH]; intros [|i] v [|j] H; simpl in *;
    try lia; auto.
  apply IH. lia.
Qed.

Lemma at_zeros n j : at_ (zeros n) j = 0.
Proof.
  unfold at_, zeros. destruct (Nat.lt_ge_cases j n).
  - now apply nth_repeat_lt.
  - apply nth_overflow. now rewrite repeat_length.
Qed.

Lemma at_overflow l j : (length l <= j)%nat -> at_ l j = 0.
Proof. intro H. now apply nth_overflow. Qed.

Lemma nth_map_seq {A} (f : nat -> A) n i (d : A) :
  (i < n)%nat -> nth i (map f (seq 0 n)) d = f i.
Proof.
  intro H. rewrite (nth_indep _ d (f 0%nat)) by now rewrite length_map, length_seq.
  rewrite (map_nth f (seq 0 n) 0%nat i), seq_nth; auto.
Qed.

Lemma entry_eye n i j : (i < n)%nat -> (j < n)%nat ->
  entry (eye n) i j = if (i =? j)%nat then 1 else 0.
Proof.
  intros Hi Hj. unfold entry, eye. rewrite nth_map_seq by exact Hi.
  now rewrite at_map_seq.
Qed.

Lemma eye_shape n : has_shape (eye n) n n.
Proof.
  split.
  - unfold eye. now rewrite length_map, length_seq.
  - apply Forall_forall. intros r Hr. unfold eye in Hr.
    apply in_map_iff in Hr as [i [<- _]]. now rewrite length_map, length_seq.
Qed.

Lemma has_shape_ncols M r c : has_shape M r c -> (1 <= r)%nat -> ncols M = c.
Proof.
  intros [H1 H2] Hr. destruct M as [|row M]; simpl in *; [lia|].
  now inversion H2.
Qed.

Lemma has_shape_row M r c i : has_shape M r c -> (i < r)%nat -> length (nth i M []) = c.
Proof.
  intros [H1 H2] Hi. rewrite Forall_forall in H2. apply H2, nth_In. lia.
Qed.

Lemma dot_shape A B r c : length A = r -> ncols B = c -> has_shape (dot A B) r c.
Proof.
  intros HA HB. split.
  - unfold dot. now rewrite length_map.
  - apply Forall_forall. intros row Hrow. unfold dot in Hrow.
    apply in_map_iff in Hrow as [a [<- _]]. now rewrite length_map, length_seq.
Qed.

Lemma entry_dot A B i j : (i < length A)%nat -> (j < ncols B)%nat ->
  entry (dot A B) i j =
  sumQ (length (nth i A [])) (fun c => entry A i c * entry B c j).
Proof.
  intros Hi Hj. unfold entry at 1, dot.
  rewrite (nth_indep _ [] (map (fun j => sumQ (length (@nil Q)) (fun c => at_ [] c * entry B c j))
                               (seq 0 (ncols B)))) by now rewrite length_map.
  rewrite (map_nth (fun r => map (fun j => sumQ (length r) (fun c => at_ r c * entry B c j))
                                 (seq 0 (ncols B))) A [] i).
  now rewrite at_map_seq.
Qed.

(** *** The incremental matrix *)

Lemma insertion_weight_spec knots degree t j :
  insertion_weight knots degree t j = boehm_weight knots degree t j.
Proof.
  unfold insertion_weight, boehm_weight.
  replace (j + degree + 1 - 1)%nat with (j + degree)%nat by lia.
  destruct (Qle_bool t (at_ knots j)) eqn:E1; [reflexivity|].
  apply Qle_bool_gt in E1.
  assert (E2 : Qltb (at_ knots j) t = true) by now apply Qltb_lt.
  rewrite E2. cbn [andb]. unfold Qltb.
  now destruct (Qle_bool (at_ knots (j + degree)) t).
Qed.

Lemma insertion_row_length knots degree t N j :
  length (insertion_row knots degree t N j) = N.
Proof.
  unfold insertion_row. destruct (negb (j =? 0)%nat), (negb (j =? N)%nat);
    rewrite ?set_at_length; apply repeat_length.
Qed.

Lemma insertion_matrix_shape knots degree t N :
  has_shape (insertion_matrix knots degree t N) (N + 1) N.
Proof.
  split.
  - unfold insertion_matrix. now rewrite length_map, length_seq.
  - apply Forall_forall. intros r Hr. unfold insertion_matrix in Hr.
    apply in_map_iff in Hr as [j [<- _]]. apply insertion_row_length.
Qed.

Lemma insertion_entry knots degree t N j c :
  (j <= N)%nat -> (c < N)%nat ->
  entry (insertion_matrix knots degree t N) j c =
  if (negb (j =? 0) && (c =? j - 1))%nat then 1 - boehm_weight knots degree t j
  else if (c =? j)%nat then boehm_weight knots degree t j
  else 0.
Proof.
  intros Hj Hc. unfold entry, insertion_matrix.
  rewrite nth_map_seq by lia. unfold insertion_row. cbv zeta.
  rewrite insertion_weight_spec.
  destruct (Nat.eqb_spec j 0) as [J0|J0]; destruct (Nat.eqb_spec j N) as [JN|JN];
    cbn [negb andb].
  - subst. lia.
  - rewrite at_set_at by (unfold zeros; rewrite repeat_length; lia).
    destruct (c =? j)%nat; [reflexivity | apply at_zeros].
  - rewrite at_set_at by (unfold zeros; rewrite repeat_length; lia).
    destruct (Nat.eqb_spec c (j - 1)); [reflexivity|].
    rewrite at_zeros. destruct (Nat.eqb_spec c j); [lia|reflexivity].
  - rewrite !at_set_at by (rewrite ?set_at_length; unfold zeros; rewrite repeat_length; lia).
    destruct (Nat.eqb_spec c (j - 1)); destruct (Nat.eqb_spec c j);
      try lia; try reflexivity.
    apply at_zeros.
Qed.

(** *** [sorted] *)

Lemma insert_sorted_perm x l : Permutation (insert_sorted x l) (x :: l).
Proof.
  induction l as [|a l IH]; simpl; [reflexivity|].
  destruct (Qle_bool a x); [|reflexivity].
  rewrite IH. apply perm_swap.
Qed.

Lemma fold_insert_perm l : forall acc,
  Permutation (fold_left (fun acc x => insert_sorted x acc) l acc) (acc ++ l).
Proof.
  induction l as [|a l IH]; intro acc; simpl.
  - now rewrite app_nil_r.
  - rewrite IH, insert_sorted_perm.
    change (a :: acc) with ([a] ++ acc).
    rewrite (Permutation_app_comm [a] acc), <- app_assoc. reflexivity.
Qed.

Lemma sorted_perm l : Permutation (sorted l) l.
Proof. apply (fold_insert_perm l []). Qed.

Lemma sortedb_cons_intro a l :
  sortedb l = true -> (forall y, In y l -> a <= y) -> sortedb (a :: l) = true.
Proof.
  intros Hl Ha. destruct l as [|b l]; [reflexivity|].
  cbn [sortedb]. apply andb_true_iff. split; [|exact Hl].
  apply Qle_bool_iff, Ha. now left.
Qed.

Lemma sortedb_cons_In a l : sortedb (a :: l) = true ->
  sortedb l = true /\ (forall y, In y l -> a <= y).
Proof.
  intro H. destruct (sortedb_cons a l H) as [H1 H2]. split; [exact H1|].
  intros y Hy. destruct (In_nth l y 0 Hy) as [j [Hj <-]]. now apply H2.
Qed.

Lemma insert_sorted_sortedb x l :
  sortedb l = true -> sortedb (insert_sorted x l) = true.
Proof.
  induction l as [|a l IH]; intro H; [reflexivity|].
  cbn [insert_sorted]. destruct (Qle_bool a x) eqn:E.
  - apply Qle_bool_iff in E. destruct (sortedb_cons_In a l H) as [Hl Ha].
    apply sortedb_cons_intro; [now apply IH|].
    intros y Hy.
    apply (Permutation_in y (insert_sorted_perm x l)) in Hy.
    destruct Hy as [<-|Hy]; [exact E | now apply Ha].
  - apply Qle_bool_gt in E.
    cbn [sortedb]. apply andb_true_iff. split; [apply Qle_bool_iff; lra | exact H].
Qed.

Lemma fold_insert_sortedb l : forall acc, sortedb acc = true ->
  sortedb (fold_left (fun acc x => insert_sorted x acc) l acc) = true.
Proof.
  induction l as [|a l IH]; intros acc H; simpl; [exact H|].
  now apply IH, insert_sorted_sortedb.
Qed.

Lemma sorted_sortedb l : sortedb (sorted l) = true.
Proof. now apply fold_insert_sortedb. Qed.

Lemma sorted_snoc l x : sorted (l ++ [x]) = insert_sorted x (sorted l).
Proof. unfold sorted. now rewrite fold_left_app. Qed.

Lemma insert_sorted_last x l :
  (forall y, In y l -> y <= x) -> insert_sorted x l = l ++ [x].
Proof.
  induction l as [|a l IH]; intro H; [reflexivity|].
  cbn [insert_sorted].
  assert (E : Qle_bool a x = true) by (apply Qle_bool_iff, H; now left).
  rewrite E, IH; [reflexivity|]. intros y Hy. apply H. now right.
Qed.

Lemma sortedb_snoc l x : sortedb (l ++ [x]) = true ->
  sortedb l = true /\ (forall y, In y l -> y <= x).
Proof.
  induction l as [|a l IH]; intro H; [split; [reflexivity | intros y []]|].
  change ((a :: l) ++ [x]) with (a :: (l ++ [x])) in H.
  destruct (sortedb_cons_In _ _ H) as [H1 H2].
  destruct (IH H1) as [H3 H4]. split.
  - apply sortedb_cons_intro; [exact H3|].
    intros y Hy. apply H2, in_or_app. now left.
  - intros y [<-|Hy]; [|now apply H4].
    apply H2, in_or_app. right. now left.
Qed.

Lemma sorted_id l : sortedb l = true -> sorted l = l.
Proof.
  induction l as [|x l IH] using rev_ind; intro H; [reflexivity|].
  destruct (sortedb_snoc _ _ H) as [H1 H2].
  rewrite sorted_snoc, IH by exact H1. now apply insert_sorted_last.
Qed.

(** *** The loop *)

Lemma knot_insertion_loop_snoc degree t : forall ts N k T,
  knot_insertion_loop degree (ts ++ [t]) N k T =
  (dot (insertion_matrix (snd (knot_insertion_loop degree ts N k T)) degree t
                         (N + length ts))
       (fst (knot_insertion_loop degree ts N k T)),
   sorted (snd (knot_insertion_loop degree ts N k T) ++ [t])).
Proof.
  induction ts as [|a ts IH]; intros N k T; simpl.
  - now rewrite Nat.add_0_r.
  - rewrite IH. now replace (N + S (length ts))%nat with (N + 1 + length ts)%nat by lia.
Qed.

Lemma knot_insertion_loop_shape degree : forall ts N k T c,
  has_shape T N c -> ncols T = c ->
  has_shape (fst (knot_insertion_loop degree ts N k T)) (N + length ts) c /\
  ncols (fst (knot_insertion_loop degree ts N k T)) = c.
Proof.
  induction ts as [|a ts IH]; intros N k T c HT Hc; simpl.
  - now rewrite Nat.add_0_r.
  - replace (N + S (length ts))%nat with (N + 1 + length ts)%nat by lia.
    apply IH.
    + apply dot_shape; [apply insertion_matrix_shape | exact Hc].
    + unfold dot, insertion_matrix. rewrite Nat.add_1_r. simpl.
      now rewrite length_map, length_seq.
Qed.

Lemma knot_insertion_loop_knots degree : forall ts N k T,
  Permutation (snd (knot_insertion_loop degree ts N k T)) (k ++ ts) /\
  (sortedb k = true -> sortedb (snd (knot_insertion_loop degree ts N k T)) = true) /\
  (ts <> [] -> sortedb (snd (knot_insertion_loop degree ts N k T)) = true).
Proof.
  induction ts as [|a ts IH]; intros N k T; simpl.
  - rewrite app_nil_r. repeat split; auto; congruence.
  - destruct (IH (N + 1)%nat (sorted (k ++ [a])) (dot (insertion_matrix k degree a N) T))
      as [P [S _]].
    repeat split.
    + rewrite P, sorted_perm, <- app_assoc. reflexivity.
    + intros _. apply S, sorted_sortedb.
    + intros _. apply S, sorted_sortedb.
Qed.

Lemma eye_ncols n : ncols (eye n) = n.
Proof.
  destruct n; [reflexivity|]. unfold eye. simpl.
  now rewrite length_map, length_seq.
Qed.


Ltac split_cmp :=
  repeat (match goal with
  | |- context [Qle_bool ?a ?b] =>
      let E := fresh "E" in
      destruct (Qle_bool a b) eqn:E;
      [apply Qle_bool_iff in E | apply Qle_bool_gt in E]
  | |- context [Qltb ?a ?b] =>
      let E := fresh "E" in
      destruct (Qltb a b) eqn:E;
      [apply Qltb_lt in E | apply Qltb_ge in E]
  | |- context [Qneqb ?a ?b] =>
      let E := fresh "E" in
      destruct (Qneqb a b) eqn:E;
      [apply Qneqb_true in E | apply Qneqb_false in E]
  end; try (exfalso; lra)).

Ltac try_eq a b :=
  try (let E := fresh "Q" in assert (E : a == b) by lra; try rewrite E).

Lemma boehm_base (f f1 f2 : bool) (k0 a0 a1 ka kb kc t x : Q) :
  k0 < t -> a0 <= a1 -> (f = true -> a0 == k0) -> (f2 = true -> kb == k0) ->
  (a0 <= t -> f1 = f) ->
  (t < a0 /\ kb = a0 /\ kc = a1) \/
  (a0 <= t /\ t < a1 /\ ka = a0 /\ kb = t /\ kc = a1) \/
  (a1 <= t /\ ka = a0 /\ kb = a1 /\ kb <= kc /\ kc <= t) ->
  boxv f a0 a1 x ==
  bw a0 a0 t * boxv f1 ka kb x + (1 - bw a1 a1 t) * boxv f2 kb kc x.
Proof.
  intros Hk0 Ha Hf Hf2 Hf1 [C|[C|C]]; decompose [and] C; clear C; subst;
    try (rewrite Hf1 by lra; clear Hf1).
  - destruct f; [specialize (Hf eq_refl); lra|].
    destruct f2; [specialize (Hf2 eq_refl); lra|].
    unfold bw, boxv, ind. split_cmp; ring.
  - destruct f2; [specialize (Hf2 eq_refl); lra|].
    destruct f; [specialize (Hf eq_refl)|]; unfold bw, boxv, ind; split_cmp; ring.
  - destruct f2; [specialize (Hf2 eq_refl)|];
    (destruct f; [specialize (Hf eq_refl)|]); unfold bw, boxv, ind; split_cmp; ring.
Qed.

Lemma boehm_T1 (a0 e0 e1 ka kb t x X : Q) :
  a0 <= e0 -> e0 <= e1 ->
  t < a0 \/
  (ka = a0 /\ a0 <= t /\
   ((kb = e1 /\ e1 <= t) \/ (kb = t /\ e0 <= t /\ t < e1) \/ (kb = e0 /\ t < e0))) ->
  wgt a0 e1 x * bw a0 e0 t * X == bw a0 e1 t * wgt ka kb x * X.
Proof.
  intros H1 H2 [C|[-> [C0 [[-> C]|[[-> C]|[-> C]]]]]];
    unfold wgt, bw; split_cmp; try_eq t a0; try_eq e0 a0; try_eq e1 e0; try_eq t e0; try_eq t e1;
    first [ring | (field; lra)].
Qed.

Lemma boehm_T3 (a1 a2 e2 kc kd t x X : Q) :
  a1 <= a2 -> a2 <= e2 -> (kc == kd -> t <= kc -> X == 0) ->
  (t < a1 /\ kc = a1 /\ kd = e2) \/
  (a1 <= t /\ t < a2 /\ kc = t /\ kd = e2) \/
  (a2 <= t /\ kc = a2 /\
   ((e2 <= t /\ a2 <= kd /\ kd <= t) \/ (t < e2 /\ kd = e2))) ->
  wgtr a1 e2 x * (1 - bw a2 e2 t) * X == (1 - bw a1 e2 t) * wgtr kc kd x * X.
Proof.
  intros H1 H2 HX [C|[C|C]]; decompose [and or] C; clear C; subst;
    unfold wgtr, bw; split_cmp;
    try_eq a2 a1; try_eq e2 a1; try_eq t a1; try_eq e2 a2; try_eq t a2; try_eq t e2;
    first [ring | (field; lra) | (rewrite HX by lra; ring)].
Qed.

Lemma boehm_T2 (a0 a1 e1 e2 kb ke t x X : Q) :
  a0 <= a1 -> a1 <= e1 -> e1 <= e2 -> (kb == ke -> t <= kb -> X == 0) ->
  (t < a0 /\ kb = a0 /\ ke = e1) \/
  (a0 <= t /\ t < a1 /\ kb = t /\ ke = e1) \/
  (a1 <= t /\ kb = a1 /\
   ((e2 <= t /\ ke = e2) \/ (e1 <= t /\ t < e2 /\ ke = t) \/ (t < e1 /\ ke = e1))) ->
  (wgt a0 e1 x * (1 - bw a1 e1 t) + wgtr a1 e2 x * bw a1 e1 t) * X ==
  (bw a0 e1 t * wgtr kb ke x + (1 - bw a1 e2 t) * wgt kb ke x) * X.
Proof.
  intros H1 H2 H3 HX [C|[C|C]]; decompose [and or] C; clear C; subst;
    unfold wgt, wgtr, bw; split_cmp;
    try_eq a1 a0; try_eq e1 a0; try_eq e2 a0; try_eq t a0;
    try_eq e1 a1; try_eq e2 a1; try_eq t a1; try_eq e2 e1; try_eq t e1; try_eq t e2;
    first [ring | (field; lra) | (rewrite HX by lra; ring)].
Qed.

Ltac pick :=
  lazymatch goal with
  | |- _ /\ _ => split; pick
  | |- _ \/ _ => first [ left; pick | right; pick ]
  | |- @eq Q _ _ => (reflexivity || assumption)
  | |- _ => lra
  end.

Lemma Bval_degenerate deg k x d i :
  mono k -> (i + d + 1 < length k)%nat ->
  at_ k i == at_ k (i + d + 1) -> (at_ k 0 < at_ k i \/ at_ k 0 < x) ->
  Bval deg k x d i == 0.
Proof.
  intros Hm Hi He H0.
  destruct (Qlt_le_dec (at_ k i) x) as [L|L].
  - apply Bval_zero_right; auto. lra.
  - apply Bval_zero_left; auto. lra.
Qed.

Lemma boxv_open f a b x : (f = true -> a < x) -> boxv f a b x == boxv false a b x.
Proof.
  intro H. destruct f; [|reflexivity]. specialize (H eq_refl).
  unfold boxv, ind. split_cmp; ring.
Qed.

Lemma inserted_at_mono k t p k' : mono k -> inserted_at k t p k' -> mono k'.
Proof.
  intros Hm (HL & Hp & Hlt & Heq & Hgt) i j Hij Hj.
  assert (V : forall n, (n < length k')%nat ->
            ((n < p)%nat /\ at_ k' n = at_ k n /\ at_ k n <= t) \/
            (n = p /\ at_ k' n = t) \/
            ((p < n)%nat /\ at_ k' n = at_ k (n - 1) /\ t < at_ k (n - 1))).
  { intros n Hn. destruct (lt_eq_lt_dec n p) as [[L|E]|G].
    - left. split; [exact L | now apply Hlt].
    - right. left. subst. auto.
    - right. right. split; [exact G|].
      destruct n as [|n]; [lia|]. replace (S n - 1)%nat with n by lia.
      apply Hgt; lia. }
  destruct (V i ltac:(lia)) as [[I1 [I2 I3]]|[[I1 I2]|[I1 [I2 I3]]]];
  destruct (V j Hj) as [[J1 [J2 J3]]|[[J1 J2]|[J1 [J2 J3]]]]; try lia;
    rewrite I2, J2; try lra.
  - apply Hm; lia.
  - apply Hm; lia.
Qed.

(** The basis functions of the old knots in terms of the new ones, at
    every level [d] of the table. *)
Lemma boehm_identity deg k t p k' x :
  mono k -> inserted_at k t p k' -> (at_ k 0 < t \/ at_ k 0 < x) ->
  forall d i, (i + d + 1 < length k)%nat ->
  Bval deg k x d i ==
  boehm_weight k d t i * Bval deg k' x d i +
  (1 - boehm_weight k d t (i + 1)) * Bval deg k' x d (i + 1).
Proof.
  intros Hm Hins H0.
  pose proof (inserted_at_mono _ _ _ _ Hm Hins) as Hm'.
  destruct Hins as (HL & Hp & Hlt & Heq & Hgt).
  assert (Hk0 : (0 < length k)%nat ->
            at_ k 0 < t /\ at_ k' 0 = at_ k 0 \/ at_ k 0 < x /\ at_ k' 0 < x).
  { intro Hk. destruct p as [|p].
    - destruct (Hgt 0%nat) as [_ G]; try lia. right.
      destruct H0 as [H0|H0]; [lra|]. rewrite Heq. split; lra.
    - destruct (Hlt 0%nat) as [G _]; try lia. rewrite G.
      destruct H0 as [H0|H0]; [left|right]; auto. }
  assert (S_ : forall n, (n < length k)%nat ->
            (n < p)%nat /\ at_ k n <= t \/ (p <= n)%nat /\ t < at_ k n).
  { intros n Hn. destruct (Nat.lt_ge_cases n p) as [L|G].
    - left. split; [exact L | now apply Hlt].
    - right. split; [exact G | now apply Hgt]. }
  assert (V : forall n, (n <= length k)%nat ->
            (n < p)%nat /\ at_ k' n = at_ k n \/
            n = p /\ at_ k' n = t \/
            (p < n)%nat /\ at_ k' n = at_ k (n - 1)).
  { intros n Hn. destruct (lt_eq_lt_dec n p) as [[L|E]|G].
    - left. split; [exact L | now apply Hlt].
    - right. left. subst. auto.
    - right. right. split; [exact G|].
      destruct n as [|n]; [lia|]. replace (S n - 1)%nat with n by lia.
      apply Hgt; lia. }
  induction d as [|d IH]; intros i Hi.
  - cbn [Bval].
    change (B0 deg k x i) with
      (boxv ((i <? deg + 1)%nat && Qeq_bool (at_ k 0) (at_ k i)) (at_ k i) (at_ k (i + 1)) x).
    change (B0 deg k' x i) with
      (boxv ((i <? deg + 1)%nat && Qeq_bool (at_ k' 0) (at_ k' i)) (at_ k' i) (at_ k' (i + 1)) x).
    change (B0 deg k' x (i + 1)) with
      (boxv ((i + 1 <? deg + 1)%nat && Qeq_bool (at_ k' 0) (at_ k' (i + 1)))
            (at_ k' (i + 1)) (at_ k' (i + 1 + 1)) x).
    change (boehm_weight k 0 t i) with (bw (at_ k i) (at_ k (i + 0)) t).
    change (boehm_weight k 0 t (i + 1)) with (bw (at_ k (i + 1)) (at_ k (i + 1 + 0)) t).
    rewrite !Nat.add_0_r.
    assert (Cases :
      (t < at_ k i /\ at_ k' (i + 1) = at_ k i /\ at_ k' (i + 1 + 1) = at_ k (i + 1)) \/
      (at_ k i <= t /\ t < at_ k (i + 1) /\ at_ k' i = at_ k i /\
       at_ k' (i + 1) = t /\ at_ k' (i + 1 + 1) = at_ k (i + 1)) \/
      (at_ k (i + 1) <= t /\ at_ k' i = at_ k i /\ at_ k' (i + 1) = at_ k (i + 1) /\
       at_ k' (i + 1) <= at_ k' (i + 1 + 1) /\ at_ k' (i + 1 + 1) <= t)).
    { destruct (S_ i ltac:(lia)) as [[A1 A2]|[A1 A2]];
      destruct (S_ (i + 1)%nat ltac:(lia)) as [[B1 B2]|[B1 B2]]; try lia.
      * right. right.
        destruct (V i ltac:(lia)) as [[C1 C2]|[[C1 C2]|[C1 C2]]]; try lia.
        destruct (V (i + 1)%nat ltac:(lia)) as [[D1 D2]|[[D1 D2]|[D1 D2]]]; try lia.
        assert (Hkc : at_ k' (i + 1) <= at_ k' (i + 1 + 1)) by (apply Hm'; lia).
        repeat split; auto.
        destruct (V (i + 1 + 1)%nat ltac:(lia)) as [[F1 F2]|[[F1 F2]|[F1 F2]]]; try lia;
          rewrite F2; try lra.
        destruct (S_ (i + 1 + 1)%nat ltac:(lia)) as [[G1 G2]|[G1 G2]]; try lia. exact G2.
      * right. left.
        destruct (V i ltac:(lia)) as [[C1 C2]|[[C1 C2]|[C1 C2]]]; try lia.
        destruct (V (i + 1)%nat ltac:(lia)) as [[D1 D2]|[[D1 D2]|[D1 D2]]]; try lia.
        destruct (V (i + 1 + 1)%nat ltac:(lia)) as [[F1 F2]|[[F1 F2]|[F1 F2]]]; try lia.
        rewrite F2. replace (i + 1 + 1 - 1)%nat with (i + 1)%nat by lia.
        repeat split; auto.
      * left.
        destruct (V (i + 1)%nat ltac:(lia)) as [[D1 D2]|[[D1 D2]|[D1 D2]]]; try lia.
        destruct (V (i + 1 + 1)%nat ltac:(lia)) as [[F1 F2]|[[F1 F2]|[F1 F2]]]; try lia.
        rewrite D2, F2. replace (i + 1 + 1 - 1)%nat with (i + 1)%nat by lia.
        replace (i + 1 - 1)%nat with i by lia.
        repeat split; auto. }
    assert (Ha : at_ k i <= at_ k (i + 1)) by (apply Hm; lia).
    destruct (Hk0 ltac:(lia)) as [[K1 K2]|[K1 K2]].
    + rewrite K2.
      apply (boehm_base _ _ _ (at_ k 0)); auto.
      * intro F. apply andb_true_iff in F as [_ F]. apply Qeq_bool_iff in F. lra.
      * intro F. apply andb_true_iff in F as [_ F]. apply Qeq_bool_iff in F. lra.
      * intro A. destruct (S_ i ltac:(lia)) as [[A1 A2]|[A1 A2]]; [|lra].
        destruct (Hlt i A1) as [-> _]. reflexivity.
    + rewrite (boxv_open _ (at_ k i)), (boxv_open _ (at_ k' i)),
              (boxv_open _ (at_ k' (i + 1))).
      * apply (boehm_base _ _ _ (t - 1)); auto; try lra; discriminate.
      * intro F. apply andb_true_iff in F as [_ F]. apply Qeq_bool_iff in F. lra.
      * intro F. apply andb_true_iff in F as [_ F]. apply Qeq_bool_iff in F. lra.
      * intro F. apply andb_true_iff in F as [_ F]. apply Qeq_bool_iff in F. lra.
  - rewrite (Bval_S deg k x d i), (Bval_S deg k' x d i), (Bval_S deg k' x d (i + 1)).
    rewrite (IH i) by lia. rewrite (IH (i + 1)%nat) by lia.
    set (X0 := Bval deg k' x d i). set (X1 := Bval deg k' x d (i + 1)).
    set (X2 := Bval deg k' x d (i + 1 + 1)).
    change (wl k x (S d) i) with (wgt (at_ k i) (at_ k (i + S d)) x).
    change (wr k x (S d) i) with (wgtr (at_ k (i + 1)) (at_ k (i + S d + 1)) x).
    change (wl k' x (S d) i) with (wgt (at_ k' i) (at_ k' (i + S d)) x).
    change (wr k' x (S d) i) with (wgtr (at_ k' (i + 1)) (at_ k' (i + S d + 1)) x).
    change (wl k' x (S d) (i + 1)) with (wgt (at_ k' (i + 1)) (at_ k' (i + 1 + S d)) x).
    change (wr k' x (S d) (i + 1)) with
      (wgtr (at_ k' (i + 1 + 1)) (at_ k' (i + 1 + S d + 1)) x).
    change (boehm_weight k d t i) with (bw (at_ k i) (at_ k (i + d)) t).
    change (boehm_weight k d t (i + 1)) with (bw (at_ k (i + 1)) (at_ k (i + 1 + d)) t).
    change (boehm_weight k d t (i + 1 + 1)) with
      (bw (at_ k (i + 1 + 1)) (at_ k (i + 1 + 1 + d)) t).
    change (boehm_weight k (S d) t i) with (bw (at_ k i) (at_ k (i + S d)) t).
    change (boehm_weight k (S d) t (i + 1)) with
      (bw (at_ k (i + 1)) (at_ k (i + 1 + S d)) t).
    replace (i + 1 + d)%nat with (i + S d)%nat by lia.
    replace (i + 1 + 1 + d)%nat with (i + S d + 1)%nat by lia.
    replace (i + 1 + S d + 1)%nat with (i + S d + 1 + 1)%nat by lia.
    replace (i + 1 + S d)%nat with (i + S d + 1)%nat by lia.
    assert (T1 : wgt (at_ k i) (at_ k (i + S d)) x * bw (at_ k i) (at_ k (i + d)) t * X0 ==
                 bw (at_ k i) (at_ k (i + S d)) t * wgt (at_ k' i) (at_ k' (i + S d)) x * X0).
    { apply boehm_T1; [apply Hm; lia | apply Hm; lia |].
      destruct (S_ i ltac:(lia)) as [[A1 A2]|[A1 A2]];
      destruct (S_ (i + d)%nat ltac:(lia)) as [[B1 B2]|[B1 B2]];
      destruct (S_ (i + S d)%nat ltac:(lia)) as [[C1 C2]|[C1 C2]]; try lia;
      destruct (V i ltac:(lia)) as [[D1 D2]|[[D1 D2]|[D1 D2]]]; try lia;
      destruct (V (i + S d)%nat ltac:(lia)) as [[F1 F2]|[[F1 F2]|[F1 F2]]]; try lia;
      rewrite ?D2, ?F2; replace (i + S d - 1)%nat with (i + d)%nat by lia; pick. }
    assert (T2 : (wgt (at_ k i) (at_ k (i + S d)) x * (1 - bw (at_ k (i + 1)) (at_ k (i + S d)) t) +
                  wgtr (at_ k (i + 1)) (at_ k (i + S d + 1)) x * bw (at_ k (i + 1)) (at_ k (i + S d)) t) * X1 ==
                 (bw (at_ k i) (at_ k (i + S d)) t * wgtr (at_ k' (i + 1)) (at_ k' (i + S d + 1)) x +
                  (1 - bw (at_ k (i + 1)) (at_ k (i + S d + 1)) t) *
                  wgt (at_ k' (i + 1)) (at_ k' (i + S d + 1)) x) * X1).
    { apply boehm_T2; [apply Hm; lia | apply Hm; lia | apply Hm; lia | |].
      - intros E1 E2. apply Bval_degenerate; auto; try lia.
        + replace (i + 1 + d + 1)%nat with (i + S d + 1)%nat by lia. exact E1.
        + destruct (Hk0 ltac:(lia)) as [[K1 K2]|[K1 K2]]; [rewrite K2|]; lra.
      - destruct (S_ i ltac:(lia)) as [[A1 A2]|[A1 A2]];
        destruct (S_ (i + 1)%nat ltac:(lia)) as [[B1 B2]|[B1 B2]];
        destruct (S_ (i + S d)%nat ltac:(lia)) as [[C1 C2]|[C1 C2]];
        destruct (S_ (i + S d + 1)%nat ltac:(lia)) as [[G1 G2]|[G1 G2]]; try lia;
        destruct (V (i + 1)%nat ltac:(lia)) as [[D1 D2]|[[D1 D2]|[D1 D2]]]; try lia;
        destruct (V (i + S d + 1)%nat ltac:(lia)) as [[F1 F2]|[[F1 F2]|[F1 F2]]]; try lia;
        rewrite ?D2, ?F2; replace (i + 1 - 1)%nat with i by lia;
        replace (i + S d + 1 - 1)%nat with (i + S d)%nat by lia; pick. }
    assert (T3 : wgtr (at_ k (i + 1)) (at_ k (i + S d + 1)) x *
                 (1 - bw (at_ k (i + 1 + 1)) (at_ k (i + S d + 1)) t) * X2 ==
                 (1 - bw (at_ k (i + 1)) (at_ k (i + S d + 1)) t) *
                 wgtr (at_ k' (i + 1 + 1)) (at_ k' (i + S d + 1 + 1)) x * X2).
    { apply boehm_T3; [apply Hm; lia | apply Hm; lia | |].
      - intros E1 E2. apply Bval_degenerate; auto; try lia.
        + replace (i + 1 + 1 + d + 1)%nat with (i + S d + 1 + 1)%nat by lia. exact E1.
        + destruct (Hk0 ltac:(lia)) as [[K1 K2]|[K1 K2]]; [rewrite K2|]; lra.
      - assert (Hkd : at_ k' (i + 1 + 1) <= at_ k' (i + S d + 1 + 1)) by (apply Hm'; lia).
        destruct (S_ (i + 1)%nat ltac:(lia)) as [[B1 B2]|[B1 B2]];
        destruct (S_ (i + 1 + 1)%nat ltac:(lia)) as [[C1 C2]|[C1 C2]];
        destruct (S_ (i + S d + 1)%nat ltac:(lia)) as [[G1 G2]|[G1 G2]]; try lia;
        destruct (V (i + 1 + 1)%nat ltac:(lia)) as [[D1 D2]|[[D1 D2]|[D1 D2]]]; try lia;
        destruct (V (i + S d + 1 + 1)%nat ltac:(lia)) as [[F1 F2]|[[F1 F2]|[F1 F2]]]; try lia;
        rewrite ?D2, ?F2 in *; replace (i + 1 + 1 - 1)%nat with (i + 1)%nat in * by lia;
        replace (i + S d + 1 + 1 - 1)%nat with (i + S d + 1)%nat in * by lia;
        try (destruct (S_ (i + S d + 1 + 1)%nat ltac:(lia)) as [[J1 J2]|[J1 J2]]; try lia);
        pick. }
    transitivity
      (wgt (at_ k i) (at_ k (i + S d)) x * bw (at_ k i) (at_ k (i + d)) t * X0 +
       (wgt (at_ k i) (at_ k (i + S d)) x * (1 - bw (at_ k (i + 1)) (at_ k (i + S d)) t) +
        wgtr (at_ k (i + 1)) (at_ k (i + S d + 1)) x * bw (at_ k (i + 1)) (at_ k (i + S d)) t) * X1 +
       wgtr (at_ k (i + 1)) (at_ k (i + S d + 1)) x *
       (1 - bw (at_ k (i + 1 + 1)) (at_ k (i + S d + 1)) t) * X2); [ring|].
    rewrite T1, T2, T3. ring.
Qed.

Lemma insert_sorted_inserted_at k t :
  sortedb k = true -> exists p, inserted_at k t p (insert_sorted t k).
Proof.
  induction k as [|a k IH]; intro H.
  - exists 0%nat. unfold inserted_at. simpl.
    split; [lia|]. split; [lia|]. split; [intros; lia|]. split; [reflexivity|].
    intros; lia.
  - destruct (sortedb_cons_In a k H) as [Hk Ha].
    cbn [insert_sorted]. destruct (Qle_bool a t) eqn:E.
    + apply Qle_bool_iff in E. destruct (IH Hk) as [p (HL & Hp & Hlt & Heq & Hgt)].
      exists (S p). unfold inserted_at. simpl length.
      split; [lia|]. split; [lia|]. split; [|split; [exact Heq|]].
      * intros [|j] Hj; [split; [reflexivity | exact E]|]. apply (Hlt j). lia.
      * intros [|j] Hj1 Hj2; [lia|]. apply (Hgt j); lia.
    + apply Qle_bool_gt in E. exists 0%nat. unfold inserted_at. simpl length.
      split; [lia|]. split; [lia|]. split; [intros; lia|]. split; [reflexivity|].
      intros j _ Hj. split; [reflexivity|].
      assert (a <= at_ (a :: k) j).
      { apply (sortedb_mono _ H 0%nat j); simpl; lia. }
      lra.
Qed.

Lemma inserted_at_first k t p k' :
  inserted_at k t p k' -> (0 < length k)%nat -> at_ k 0 < t -> at_ k' 0 = at_ k 0.
Proof.
  intros (HL & Hp & Hlt & Heq & Hgt) Hk H0. apply Hlt.
  destruct p; [|lia]. destruct (Hgt 0%nat) as [_ G]; try lia. lra.
Qed.

Lemma inserted_at_first_le k t p k' :
  inserted_at k t p k' -> (0 < length k)%nat -> at_ k' 0 <= at_ k 0.
Proof.
  intros (HL & Hp & Hlt & Heq & Hgt) Hk. destruct p as [|p].
  - destruct (Hgt 0%nat) as [_ G]; try lia. rewrite Heq. lra.
  - destruct (Hlt 0%nat) as [G _]; try lia. rewrite G. lra.
Qed.

(** *** Sums with one or two live terms, and exchange of sums *)

Lemma sumQ_single n m (g : nat -> Q) :
  sumQ n (fun j => if (j =? m)%nat then g j else 0) ==
  if (m <? n)%nat then g m else 0.
Proof.
  induction n as [|n IH]; [reflexivity|].
  cbn [sumQ]. rewrite IH.
  destruct (Nat.eqb_spec n m) as [->|Hn].
  - rewrite Nat.ltb_irrefl.
    replace (m <? S m)%nat with true by (symmetry; apply Nat.ltb_lt; lia). ring.
  - destruct (Nat.ltb_spec m n); destruct (Nat.ltb_spec m (S n)); try lia; ring.
Qed.

Lemma sumQ_scale n (a : Q) (f : nat -> Q) :
  sumQ n (fun i => a * f i) == a * sumQ n f.
Proof.
  induction n as [|n IH]; simpl; [ring|]. rewrite IH. ring.
Qed.

Lemma sumQ_swap n m (f : nat -> nat -> Q) :
  sumQ n (fun i => sumQ m (fun j => f i j)) ==
  sumQ m (fun j => sumQ n (fun i => f i j)).
Proof.
  induction n as [|n IH]; cbn [sumQ].
  - symmetry. apply sumQ_zero. reflexivity.
  - rewrite IH, <- sumQ_plus. reflexivity.
Qed.

(** *** The new coefficients *)

Lemma at_dotv M v l : (l < length M)%nat ->
  at_ (dotv M v) l = sumQ (length (nth l M [])) (fun c => entry M l c * at_ v c).
Proof.
  intro H. unfold at_ at 1, dotv.
  rewrite (nth_indep _ 0 ((fun r => sumQ (length r) (fun c => at_ r c * at_ v c)) []))
    by now rewrite length_map.
  now rewrite (map_nth (fun r => sumQ (length r) (fun c => at_ r c * at_ v c)) M [] l).
Qed.

Lemma dotv_length M v : length (dotv M v) = length M.
Proof. unfold dotv. apply length_map. Qed.

Lemma insertion_coeff knots degree t N c l : (l <= N)%nat ->
  at_ (dotv (insertion_matrix knots degree t N) c) l ==
  (if (l =? 0)%nat then 0 else (1 - boehm_weight knots degree t l) * at_ c (l - 1)) +
  (if (l <? N)%nat then boehm_weight knots degree t l * at_ c l else 0).
Proof.
  intro Hl. pose proof (insertion_matrix_shape knots degree t N) as HS.
  rewrite at_dotv by (destruct HS; lia).
  rewrite (has_shape_row _ _ _ l HS) by lia.
  rewrite (sumQ_ext _ _ (fun j =>
     (if (j =? l - 1)%nat then (if (l =? 0)%nat then 0
                                else (1 - boehm_weight knots degree t l) * at_ c j) else 0) +
     (if (j =? l)%nat then boehm_weight knots degree t l * at_ c j else 0))).
  - rewrite sumQ_plus, !sumQ_single.
    destruct (Nat.eqb_spec l 0) as [->|L0].
    + destruct (Nat.ltb_spec (0 - 1) N); destruct (Nat.ltb_spec 0 N); ring.
    + replace (l - 1 <? N)%nat with true by (symmetry; apply Nat.ltb_lt; lia). reflexivity.
  - intros j Hj. rewrite insertion_entry by lia.
    destruct (Nat.eqb_spec l 0) as [->|L0]; cbn [negb andb].
    + destruct (Nat.eqb_spec j (0 - 1)); destruct (Nat.eqb_spec j 0); ring.
    + destruct (Nat.eqb_spec j (l - 1)); destruct (Nat.eqb_spec j l); try lia; ring.
Qed.

Lemma boehm_sum n (c w B : nat -> Q) :
  sumQ (S n) (fun l =>
     ((if (l =? 0)%nat then 0 else (1 - w l) * c (l - 1)%nat) +
      (if (l <? n)%nat then w l * c l else 0)) * B l) ==
  sumQ n (fun l => c l * (w l * B l + (1 - w (l + 1)%nat) * B (l + 1)%nat)).
Proof.
  rewrite (sumQ_ext (S n) _ (fun l =>
     (if (l =? 0)%nat then 0 else (1 - w l) * c (l - 1)%nat * B l) +
     (if (l <? n)%nat then w l * c l * B l else 0))).
  2:{ intros l _. destruct (l =? 0)%nat, (l <? n)%nat; ring. }
  rewrite sumQ_plus, sumQ_head.
  change (sumQ (S n) (fun i => if (i <? n)%nat then w i * c i * B i else 0))
    with (sumQ n (fun i => if (i <? n)%nat then w i * c i * B i else 0) +
          (if (n <? n)%nat then w n * c n * B n else 0)).
  rewrite Nat.ltb_irrefl. cbn [Nat.eqb].
  rewrite (sumQ_ext n (fun i => if (i <? n)%nat then w i * c i * B i else 0)
                      (fun i => w i * c i * B i)).
  2:{ intros i Hi. now replace (i <? n)%nat with true by (symmetry; apply Nat.ltb_lt; lia). }
  rewrite (sumQ_ext n (fun j => if (S j =? 0)%nat then 0
                                else (1 - w (S j)) * c (S j - 1)%nat * B (S j))
                      (fun j => (1 - w (j + 1)%nat) * c j * B (j + 1)%nat)).
  2:{ intros i Hi. cbn [Nat.eqb]. replace (S i - 1)%nat with i by lia.
      now replace (i + 1)%nat with (S i) by lia. }
  setoid_replace (0 + sumQ n (fun j => (1 - w (j + 1)%nat) * c j * B (j + 1)%nat) +
                  (sumQ n (fun i => w i * c i * B i) + 0))
    with (sumQ n (fun i => w i * c i * B i) +
          sumQ n (fun j => (1 - w (j + 1)%nat) * c j * B (j + 1)%nat)) by ring.
  rewrite <- sumQ_plus. apply sumQ_ext. intros; ring.
Qed.

(** One insertion leaves every value of the spline as it was. *)
Lemma insertion_step deg k t x c N :
  sortedb k = true -> length k = (N + deg + 1)%nat ->
  (at_ k 0 < t \/ at_ k 0 < x) ->
  evalspline (mkSpline (mkBasis (sorted (k ++ [t])) deg)
                       (dotv (insertion_matrix k deg t N) c)) x ==
  evalspline (mkSpline (mkBasis k deg) c) x.
Proof.
  intros Hs HL H0.
  rewrite sorted_snoc, (sorted_id k Hs).
  destruct (insert_sorted_inserted_at k t Hs) as [p Hins].
  pose proof (sortedb_mono k Hs) as Hm.
  assert (HL' : length (insert_sorted t k) = S (length k)) by apply Hins.
  rewrite !evalspline_sum. unfold len. cbn [basis coeffs knots degree].
  rewrite HL', HL.
  replace (S (N + deg + 1) - deg - 1)%nat with (S N) by lia.
  replace (N + deg + 1 - deg - 1)%nat with N by lia.
  rewrite (sumQ_ext (S N) _ (fun l =>
     ((if (l =? 0)%nat then 0 else (1 - boehm_weight k deg t l) * at_ c (l - 1)) +
      (if (l <? N)%nat then boehm_weight k deg t l * at_ c l else 0)) *
     Bval deg (insert_sorted t k) x deg l)).
  2:{ intros l Hl. rewrite insertion_coeff by lia. reflexivity. }
  rewrite (boehm_sum N (at_ c) (boehm_weight k deg t)
                     (Bval deg (insert_sorted t k) x deg)).
  apply sumQ_ext. intros l Hl.
  rewrite (boehm_identity deg k t p (insert_sorted t k) x Hm Hins H0 deg l) by lia.
  reflexivity.
Qed.

Lemma evalspline_coeffs_ext b c c' x :
  (forall l, (l < len b)%nat -> at_ c l == at_ c' l) ->
  evalspline (mkSpline b c) x == evalspline (mkSpline b c') x.
Proof.
  intro H. rewrite !evalspline_sum. cbn [basis coeffs].
  apply sumQ_ext. intros l Hl. now rewrite H.
Qed.

Lemma sumQ_scale_r n (a : Q) (f : nat -> Q) :
  sumQ n (fun i => f i * a) == sumQ n f * a.
Proof.
  induction n as [|n IH]; simpl; [ring|]. rewrite IH. ring.
Qed.

Lemma dotv_dot M T v r n l :
  has_shape T r n -> ncols T = n -> (l < length M)%nat ->
  length (nth l M []) = r ->
  at_ (dotv (dot M T) v) l == at_ (dotv M (dotv T v)) l.
Proof.
  intros HT Hn Hl Hr.
  rewrite at_dotv by (unfold dot; now rewrite length_map).
  rewrite at_dotv by exact Hl.
  rewrite (has_shape_row (dot M T) (length M) n l (dot_shape M T _ _ eq_refl Hn) Hl).
  rewrite Hr.
  rewrite (sumQ_ext n _ (fun c => sumQ r (fun j => entry M l j * entry T j c * at_ v c))).
  2:{ intros c Hc. rewrite entry_dot by (auto; lia). rewrite Hr.
      rewrite <- sumQ_scale_r. apply sumQ_ext. intros; ring. }
  rewrite sumQ_swap. apply sumQ_ext. intros j Hj.
  rewrite at_dotv by (destruct HT; lia).
  rewrite (has_shape_row T r n j HT Hj).
  rewrite <- sumQ_scale. apply sumQ_ext. intros; ring.
Qed.

Lemma knot_insertion_loop_length degree : forall ts N k T,
  length (snd (knot_insertion_loop degree ts N k T)) = (length k + length ts)%nat.
Proof.
  intros ts N k T.
  destruct (knot_insertion_loop_knots degree ts N k T) as [P _].
  rewrite (Permutation_length P). apply length_app.
Qed.

Lemma knot_insertion_loop_preserves deg x c0 : forall ts N k T n0,
  sortedb k = true -> length k = (N + deg + 1)%nat ->
  has_shape T N n0 -> ncols T = n0 ->
  (Forall (fun t => at_ k 0 < t) ts \/ at_ k 0 < x) ->
  evalspline (mkSpline (mkBasis (snd (knot_insertion_loop deg ts N k T)) deg)
                       (dotv (fst (knot_insertion_loop deg ts N k T)) c0)) x ==
  evalspline (mkSpline (mkBasis k deg) (dotv T c0)) x.
Proof.
  induction ts as [|t ts IH]; intros N k T n0 Hs HL HT Hn Hts; [reflexivity|].
  cbn [knot_insertion_loop]. subst n0.
  assert (Ht : at_ k 0 < t \/ at_ k 0 < x).
  { destruct Hts as [Hts|Hx]; [left; now inversion Hts | now right]. }
  assert (Hk1 : sorted (k ++ [t]) = insert_sorted t k)
    by now rewrite sorted_snoc, sorted_id.
  destruct (insert_sorted_inserted_at k t Hs) as [p Hins].
  rewrite (IH (N + 1)%nat _ _ (ncols T)).
  - rewrite <- (insertion_step deg k t x (dotv T c0) N Hs HL Ht).
    apply evalspline_coeffs_ext. intros l Hl.
    pose proof (insertion_matrix_shape k deg t N) as HM.
    apply (dotv_dot _ _ _ N (ncols T)); auto.
    + destruct HM as [HM _]. rewrite HM.
      unfold len in Hl. cbn [knots degree] in Hl.
      rewrite (Permutation_length (sorted_perm _)), length_app, HL in Hl.
      simpl in Hl. lia.
    + apply (has_shape_row _ _ _ l HM).
      unfold len in Hl. cbn [knots degree] in Hl.
      rewrite (Permutation_length (sorted_perm _)), length_app, HL in Hl.
      simpl in Hl. lia.
  - apply sorted_sortedb.
  - rewrite (Permutation_length (sorted_perm _)), length_app, HL. simpl. lia.
  - apply dot_shape; [apply insertion_matrix_shape | reflexivity].
  - unfold dot, insertion_matrix. rewrite Nat.add_1_r. simpl.
    now rewrite length_map, length_seq.
  - rewrite Hk1. destruct Hts as [Hts|Hx].
    + left. inversion Hts as [|? ? Ht' Hts']; subst.
      rewrite (inserted_at_first k t p _ Hins) by (lia || assumption). exact Hts'.
    + right. pose proof (inserted_at_first_le k t p _ Hins ltac:(lia)). lra.
Qed.

Lemma dotv_eye n c l : (l < n)%nat -> at_ (dotv (eye n) c) l == at_ c l.
Proof.
  intro Hl. pose proof (eye_shape n) as HS.
  rewrite at_dotv by (destruct HS; lia).
  rewrite (has_shape_row _ _ _ l HS Hl).
  rewrite (sumQ_ext n _ (fun j => if (j =? l)%nat then at_ c j else 0)).
  - rewrite sumQ_single.
    now replace (l <? n)%nat with true by (symmetry; apply Nat.ltb_lt; lia).
  - intros j Hj. rewrite entry_eye by assumption.
    rewrite (Nat.eqb_sym l j). destruct (j =? l)%nat; ring.
Qed.

(** C1, as the code has it.  Inserting knots never changes the value of
    the spline at a point [x], provided the inserted knots lie strictly
    above the first knot, or [x] does: the new knot vector has one more
    knot per insertion, the new basis one more function, and the curve on
    the new basis with the transformed coefficients evaluates at [x] to
    what the original evaluates to. *)
Theorem knot_insertion_preserves_values (s : BSpline) (ts : list Q) (x : Q) :
  sortedb (knots (basis s)) = true ->
  (degree (basis s) + 1 <= length (knots (basis s)))%nat ->
  length (coeffs s) = len (basis s) ->
  Forall (fun t => at_ (knots (basis s)) 0 < t) ts \/ at_ (knots (basis s)) 0 < x ->
  let T := fst (knot_insertion_T (basis s) ts) in
  let k' := snd (knot_insertion_T (basis s) ts) in
  length k' = (length (knots (basis s)) + length ts)%nat /\
  len (mkBasis k' (degree (basis s))) = (len (basis s) + length ts)%nat /\
  evalspline (mkSpline (mkBasis k' (degree (basis s))) (dotv T (coeffs s))) x ==
  evalspline s x.
Proof.
  intros Hs Hd Hc Hts T k'. subst T k'. unfold knot_insertion_T.
  split; [apply knot_insertion_loop_length|].
  split.
  { unfold len. cbn [knots degree]. rewrite knot_insertion_loop_length. lia. }
  rewrite (knot_insertion_loop_preserves _ _ _ _ _ _ _ (len (basis s))); auto.
  - destruct s as [[k d] c]. cbn [basis knots degree coeffs] in *.
    apply evalspline_coeffs_ext. intros l Hl. now apply dotv_eye.
  - unfold len. lia.
  - apply eye_shape.
  - apply eye_ncols.
Qed.

Lemma knot_insertion_preserves_values_witness :
  let s := mkSpline (mkBasis [0; 0; 0; 0; 1; 2; 3; 3; 3; 3] 3) [1; 3; 2; 5; 4; 6] in
  let T := fst (knot_insertion_T (basis s) [3 # 2]) in
  let k' := snd (knot_insertion_T (basis s) [3 # 2]) in
  length k' = 11%nat /\ len (mkBasis k' 3) = 7%nat /\
  evalspline (mkSpline (mkBasis k' 3) (dotv T (coeffs s))) (6 # 5) == evalspline s (6 # 5).
Proof.
  apply (knot_insertion_preserves_values
           (mkSpline (mkBasis [0; 0; 0; 0; 1; 2; 3; 3; 3; 3] 3) [1; 3; 2; 5; 4; 6])
           [3 # 2] (6 # 5)).
  - reflexivity.
  - simpl. lia.
  - reflexivity.
  - left. repeat constructor.
Defined.

(** The claim as the specification words it, for every knot value: a
    knot inserted at the first knot of a clamped basis changes the value
    [evalspline] returns at that knot. *)
Lemma knot_insertion_at_first_knot :
  let s := mkSpline (mkBasis [0; 0; 1; 1] 1) [1; 1] in
  let T := fst (knot_insertion_T (basis s) [0]) in
  let k' := snd (knot_insertion_T (basis s) [0]) in
  evalspline s 0 == 1 /\
  evalspline (mkSpline (mkBasis k' 1) (dotv T (coeffs s))) 0 == 0 /\
  ~ evalspline (mkSpline (mkBasis k' 1) (dotv T (coeffs s))) 0 == evalspline s 0.
Proof.
  vm_compute. repeat split; try reflexivity; discriminate.
Qed.

(** ** Cropping *)

(** *** Slices *)

Lemma slice_nat {A} (l : list A) (a b : nat) :
  (a <= b)%nat -> (b <= length l)%nat ->
  slice l (Z.of_nat a) (Z.of_nat b) = firstn (b - a) (skipn a l).
Proof.
  intros Hab Hb. unfold slice, slice_bound.
  destruct (Z.ltb_spec (Z.of_nat a) 0); [lia|].
  destruct (Z.ltb_spec (Z.of_nat b) 0); [lia|].
  rewrite !Nat2Z.id. now rewrite !Nat.min_l by lia.
Qed.

Lemma nth_slice {A} (l : list A) (a b i : nat) (d : A) :
  (i < b - a)%nat ->
  nth i (firstn (b - a) (skipn a l)) d = nth (a + i) l d.
Proof.
  intro Hi. rewrite nth_firstn.
  replace (i <? b - a)%nat with true by (symmetry; apply Nat.ltb_lt; lia).
  apply nth_skipn.
Qed.

Lemma length_slice {A} (l : list A) (a b : nat) :
  (a <= b)%nat -> (b <= length l)%nat ->
  length (firstn (b - a) (skipn a l)) = (b - a)%nat.
Proof.
  intros Hab Hb. rewrite length_firstn, length_skipn. lia.
Qed.

(** *** Searches in sorted knots *)

Lemma searchsorted_left_le a v : (searchsorted_left a v <= length a)%nat.
Proof.
  induction a as [|y r IH]; simpl; [lia|]. destruct (Qltb y v); lia.
Qed.

Lemma searchsorted_right_le a v : (searchsorted_right a v <= length a)%nat.
Proof.
  induction a as [|y r IH]; simpl; [lia|]. destruct (Qle_bool y v); lia.
Qed.

Lemma searchsorted_left_below a v : forall j,
  (j < searchsorted_left a v)%nat -> at_ a j < v.
Proof.
  induction a as [|y r IH]; intros j Hj; simpl in Hj; [lia|].
  destruct (Qltb y v) eqn:E; [|lia]. apply Qltb_lt in E.
  destruct j as [|j]; [exact E|]. apply (IH j). lia.
Qed.

Lemma searchsorted_left_above a v : sortedb a = true -> forall j,
  (searchsorted_left a v <= j)%nat -> (j < length a)%nat -> v <= at_ a j.
Proof.
  induction a as [|y r IH]; intros Hs j Hj Hl; simpl in Hl; [lia|].
  destruct (sortedb_cons y r Hs) as [Hr Hy].
  simpl in Hj. destruct (Qltb y v) eqn:E.
  - destruct j as [|j]; [lia|]. apply (IH Hr j); lia.
  - apply Qltb_ge in E. destruct j as [|j]; [exact E|].
    specialize (Hy j ltac:(lia)). unfold at_ in *. simpl. lra.
Qed.

Lemma searchsorted_right_below a v : forall j,
  (j < searchsorted_right a v)%nat -> at_ a j <= v.
Proof.
  induction a as [|y r IH]; intros j Hj; simpl in Hj; [lia|].
  destruct (Qle_bool y v) eqn:E; [|lia]. apply Qle_bool_iff in E.
  destruct j as [|j]; [exact E|]. apply (IH j). lia.
Qed.

Lemma searchsorted_right_above a v : sortedb a = true -> forall j,
  (searchsorted_right a v <= j)%nat -> (j < length a)%nat -> v < at_ a j.
Proof.
  induction a as [|y r IH]; intros Hs j Hj Hl; simpl in Hl; [lia|].
  destruct (sortedb_cons y r Hs) as [Hr Hy].
  simpl in Hj. destruct (Qle_bool y v) eqn:E.
  - destruct j as [|j]; [lia|]. apply (IH Hr j); lia.
  - apply Qle_bool_gt in E. destruct j as [|j]; [exact E|].
    specialize (Hy j ltac:(lia)). unfold at_ in *. simpl. lra.
Qed.

Lemma count_eq_cons y r v :
  count_eq (y :: r) v = ((if Qeq_bool y v then 1 else 0) + count_eq r v)%nat.
Proof.
  unfold count_eq. simpl. now destruct (Qeq_bool y v).
Qed.

Lemma count_eq_none a v :
  (forall j, (j < length a)%nat -> ~ at_ a j == v) -> count_eq a v = 0%nat.
Proof.
  induction a as [|y r IH]; intro H; [reflexivity|].
  rewrite count_eq_cons, IH.
  - destruct (Qeq_bool y v) eqn:E; [|reflexivity].
    apply Qeq_bool_iff in E. exfalso. apply (H 0%nat); simpl; [lia | exact E].
  - intros j Hj. apply (H (S j)). simpl. lia.
Qed.

(** In sorted knots the copies of [v] sit between the two searches. *)
Lemma sorted_count a v : sortedb a = true ->
  (searchsorted_left a v + count_eq a v = searchsorted_right a v)%nat.
Proof.
  induction a as [|y r IH]; intro Hs; [reflexivity|].
  destruct (sortedb_cons y r Hs) as [Hr Hy].
  rewrite count_eq_cons. simpl.
  cmp_cases; try lra.
  - specialize (IH Hr). lia.
  - specialize (IH Hr).
    assert (searchsorted_left r v = 0%nat).
    { destruct r as [|z r']; [reflexivity|]. simpl.
      specialize (Hy 0%nat ltac:(simpl; lia)). unfold at_ in Hy. simpl in Hy.
      assert (EE : Qltb z v = false) by (apply Qltb_ge; lra). now rewrite EE. }
    lia.
  - rewrite count_eq_none; [reflexivity|].
    intros j Hj. specialize (Hy j Hj). lra.
Qed.

Lemma count_eq_app a b v : count_eq (a ++ b) v = (count_eq a v + count_eq b v)%nat.
Proof. unfold count_eq. now rewrite filter_app, length_app. Qed.

Lemma count_eq_perm a b v : Permutation a b -> count_eq a v = count_eq b v.
Proof.
  intro P. induction P as [| x l l' P IH | x y l | l l' l'' P1 IH1 P2 IH2].
  - reflexivity.
  - now rewrite !count_eq_cons, IH.
  - rewrite !count_eq_cons. lia.
  - congruence.
Qed.

Lemma count_eq_repeat v n : count_eq (repeat v n) v = n.
Proof.
  induction n as [|n IH]; [reflexivity|].
  cbn [repeat]. rewrite count_eq_cons, IH, Qeq_bool_refl. reflexivity.
Qed.

(** *** Cropping keeps the values *)

Lemma knot_insertion_T_values (s : BSpline) (ts : list Q) (x : Q) :
  sortedb (knots (basis s)) = true ->
  (degree (basis s) + 1 <= length (knots (basis s)))%nat ->
  Forall (fun t => at_ (knots (basis s)) 0 < t) ts \/ at_ (knots (basis s)) 0 < x ->
  evalspline (mkSpline (mkBasis (snd (knot_insertion_T (basis s) ts)) (degree (basis s)))
                       (dotv (fst (knot_insertion_T (basis s) ts)) (coeffs s))) x ==
  evalspline s x.
Proof.
  intros Hs Hd Hts. unfold knot_insertion_T.
  rewrite (knot_insertion_loop_preserves _ _ _ _ _ _ _ (len (basis s))); auto.
  - destruct s as [[k d] c]. cbn [basis knots degree coeffs] in *.
    apply evalspline_coeffs_ext. intros l Hl. now apply dotv_eye.
  - unfold len. lia.
  - apply eye_shape.
  - apply eye_ncols.
Qed.

(** The values of a basis function only depend on the knots under it,
    once [x] is above the first knot. *)
Lemma Bval_shift deg1 deg2 k1 k2 x s :
  at_ k1 0 < x -> at_ k2 0 < x ->
  forall d i,
  (forall j, (j <= d + 1)%nat -> at_ k1 (i + j) = at_ k2 (s + i + j)) ->
  Bval deg1 k1 x d i == Bval deg2 k2 x d (s + i).
Proof.
  intros H1 H2. induction d as [|d IH]; intros i H.
  - cbn [Bval].
    change (B0 deg1 k1 x i) with
      (boxv ((i <? deg1 + 1)%nat && Qeq_bool (at_ k1 0) (at_ k1 i))
            (at_ k1 i) (at_ k1 (i + 1)) x).
    change (B0 deg2 k2 x (s + i)) with
      (boxv ((s + i <? deg2 + 1)%nat && Qeq_bool (at_ k2 0) (at_ k2 (s + i)))
            (at_ k2 (s + i)) (at_ k2 (s + i + 1)) x).
    rewrite (boxv_open _ (at_ k1 i)), (boxv_open _ (at_ k2 (s + i))).
    + pose proof (H 0%nat ltac:(lia)) as E0. pose proof (H 1%nat ltac:(lia)) as E1.
      rewrite Nat.add_0_r in E0. rewrite Nat.add_0_r in E0. now rewrite E0, E1.
    + intro F. apply andb_true_iff in F as [_ F]. apply Qeq_bool_iff in F. lra.
    + intro F. apply andb_true_iff in F as [_ F]. apply Qeq_bool_iff in F. lra.
  - rewrite !Bval_S.
    rewrite (IH i) by (intros j Hj; apply H; lia).
    replace (s + i + 1)%nat with (s + (i + 1))%nat by lia.
    rewrite (IH (i + 1)%nat).
    2:{ intros j Hj. replace (i + 1 + j)%nat with (i + (1 + j))%nat by lia.
        replace (s + (i + 1) + j)%nat with (s + i + (1 + j))%nat by lia.
        apply H. lia. }
    unfold wl, wr.
    pose proof (H 0%nat ltac:(lia)) as E0. pose proof (H 1%nat ltac:(lia)) as E1.
    pose proof (H (S d) ltac:(lia)) as E2. pose proof (H (S d + 1)%nat ltac:(lia)) as E3.
    rewrite !Nat.add_0_r in E0.
    replace (s + (i + 1) + S d)%nat with (s + i + (S d + 1))%nat by lia.
    replace (s + (i + 1))%nat with (s + i + 1)%nat by lia.
    replace (i + S d + 1)%nat with (i + (S d + 1))%nat by lia.
    replace (s + i + S d + 1)%nat with (s + i + (S d + 1))%nat by lia.
    rewrite E0, E1, E2, E3. reflexivity.
Qed.

Lemma dotv_slice M v a b i : (i < b - a)%nat -> (a <= b)%nat -> (b <= length M)%nat ->
  at_ (dotv (firstn (b - a) (skipn a M)) v) i = at_ (dotv M v) (a + i).
Proof.
  intros Hi Hab Hb. unfold dotv, at_.
  rewrite <- firstn_map, <- skipn_map. now apply nth_slice.
Qed.

Lemma sorted_count_run a v j : sortedb a = true ->
  (searchsorted_left a v <= j)%nat -> (j < searchsorted_right a v)%nat ->
  at_ a j == v.
Proof.
  intros Hs H1 H2.
  pose proof (searchsorted_right_le a v).
  pose proof (searchsorted_left_above a v Hs j H1 ltac:(lia)).
  pose proof (searchsorted_right_below a v j H2). lra.
Qed.

Lemma searchsorted_order a u v : sortedb a = true -> u < v ->
  (searchsorted_right a u <= searchsorted_left a v)%nat.
Proof.
  intros Hs Huv.
  destruct (Nat.le_gt_cases (searchsorted_right a u) (searchsorted_left a v)) as [L|G];
    [exact L|].
  pose proof (searchsorted_right_le a u).
  pose proof (searchsorted_right_below a u _ G).
  pose proof (searchsorted_left_above a v Hs (searchsorted_left a v) ltac:(lia) ltac:(lia)).
  lra.
Qed.

(** Where the two boundaries sit in the knots after the insertions. *)
Lemma crop_layout (b : BSplineBasis) (mn mx : Q) :
  sortedb (knots b) = true -> mn < mx ->
  let ts := repeat mn (degree b + 1 - count_eq (knots b) mn) ++
            repeat mx (degree b + 1 - count_eq (knots b) mx) in
  let k2 := snd (knot_insertion_T b ts) in
  let jmin := searchsorted_left k2 mn in
  let jmax := searchsorted_right k2 mx in
  sortedb k2 = true /\
  length k2 = (length (knots b) + length ts)%nat /\
  (jmin + (degree b + 1) + (degree b + 1) <= jmax)%nat /\
  (jmax <= length k2)%nat /\
  (forall j, (jmin <= j)%nat -> (j < jmin + (degree b + 1))%nat -> at_ k2 j == mn) /\
  (forall j, (jmax - (degree b + 1) <= j)%nat -> (j < jmax)%nat -> at_ k2 j == mx).
Proof.
  intros Hs Hlt ts k2 jmin jmax.
  destruct (knot_insertion_loop_knots (degree b) ts (len b) (knots b) (eye (len b)))
    as [P [S _]].
  fold (knot_insertion_T b ts) in P, S. fold k2 in P, S.
  specialize (S Hs).
  assert (Cmin : (degree b + 1 <= count_eq k2 mn)%nat).
  { rewrite (count_eq_perm _ _ mn P). unfold ts.
    rewrite !count_eq_app, count_eq_repeat. lia. }
  assert (Cmax : (degree b + 1 <= count_eq k2 mx)%nat).
  { rewrite (count_eq_perm _ _ mx P). unfold ts.
    rewrite !count_eq_app, count_eq_repeat. lia. }
  pose proof (sorted_count k2 mn S) as Emin.
  pose proof (sorted_count k2 mx S) as Emax.
  pose proof (searchsorted_order k2 mn mx S Hlt) as Ord.
  fold jmin in Emin. fold jmax in Emax.
  split; [exact S|].
  split; [apply knot_insertion_loop_length|].
  split; [lia|].
  split; [apply searchsorted_right_le|].
  split.
  - intros j H1 H2. apply (sorted_count_run k2 mn j S); [exact H1 | lia].
  - intros j H1 H2. apply (sorted_count_run k2 mx j S); [lia | exact H2].
Qed.

(** Inside the interval: for non-decreasing knots and
    [knots[0] <= min_value < max_value <= knots[-1]], the cropped curve
    evaluates at every [x] with [min_value < x <= max_value] to what the
    original evaluates to, and its knot vector starts at [min_value] and
    ends at [max_value]. *)
Lemma crop_exact_inside (s : BSpline) (min_value max_value x : Q) :
  sortedb (knots (basis s)) = true ->
  (degree (basis s) + 1 <= length (knots (basis s)))%nat ->
  length (coeffs s) = len (basis s) ->
  at_ (knots (basis s)) 0 <= min_value ->
  min_value < max_value ->
  max_value <= at_ (knots (basis s)) (length (knots (basis s)) - 1) ->
  min_value < x -> x <= max_value ->
  evalspline (crop s min_value max_value) x == evalspline s x /\
  at_ (knots (basis (crop s min_value max_value))) 0 == min_value /\
  at_ (knots (basis (crop s min_value max_value)))
      (length (knots (basis (crop s min_value max_value))) - 1) == max_value.
Proof.
  intros Hs Hd Hc Hmin Hlt Hmax Hx1 Hx2.
  destruct (crop_layout (basis s) min_value max_value Hs Hlt)
    as (S2 & L2 & J & Jmax & Rmin & Rmax).
  unfold crop, crop_T. cbv zeta. cbn [fst snd basis knots degree coeffs].
  set (dg := degree (basis s)) in *.
  set (ts := repeat min_value (dg + 1 - count_eq (knots (basis s)) min_value) ++
             repeat max_value (dg + 1 - count_eq (knots (basis s)) max_value)) in *.
  set (T := fst (knot_insertion_T (basis s) ts)).
  set (k2 := snd (knot_insertion_T (basis s) ts)) in *.
  set (jmin := searchsorted_left k2 min_value) in *.
  set (jmax := searchsorted_right k2 max_value) in *.
  assert (HT : length T = (len (basis s) + length ts)%nat).
  { apply (knot_insertion_loop_shape (degree (basis s)) ts (len (basis s))
             (knots (basis s)) (eye (len (basis s))) (len (basis s)));
      [apply eye_shape | apply eye_ncols]. }
  assert (HN2 : length T = (length k2 - dg - 1)%nat).
  { rewrite HT, L2. unfold len. fold dg. lia. }
  replace (Z.of_nat jmax - Z.of_nat dg - 1)%Z with (Z.of_nat (jmax - dg - 1)) by lia.
  rewrite (slice_nat T) by lia.
  rewrite (slice_nat k2) by lia.
  pose proof (sortedb_mono k2 S2) as M2.
  assert (K0 : at_ k2 0 < x).
  { assert (at_ k2 0 <= at_ k2 jmin) by (apply M2; lia).
    rewrite (Rmin jmin) in H by lia. lra. }
  split; [|split].
  - rewrite <- (knot_insertion_T_values s ts x Hs Hd).
    2:{ right. lra. }
    fold dg T k2.
    rewrite !evalspline_sum. unfold len. cbn [basis coeffs knots degree].
    rewrite length_slice by lia.
    set (N3 := (jmax - dg - 1 - jmin)%nat).
    replace (jmax - jmin - dg - 1)%nat with N3 by lia.
    replace (length k2 - dg - 1)%nat with (jmin + (N3 + (length k2 - jmax)))%nat by lia.
    rewrite sumQ_app, sumQ_app.
    rewrite (sumQ_zero jmin).
    2:{ intros i Hi. rewrite (Bval_zero_right dg k2 x dg i); auto; try lia; try ring.
        assert (at_ k2 (i + dg + 1) <= at_ k2 (jmin + dg)) by (apply M2; lia).
        rewrite (Rmin (jmin + dg)%nat) in H by lia. lra. }
    rewrite (sumQ_zero (length k2 - jmax)).
    2:{ intros i Hi. rewrite (Bval_zero_left dg k2 x dg (jmin + (N3 + i))); auto;
          try lia; try ring.
        assert (at_ k2 (jmax - dg - 1) <= at_ k2 (jmin + (N3 + i))) by (apply M2; lia).
        rewrite (Rmax (jmax - dg - 1)%nat) in H by lia. lra. }
    setoid_replace (0 + (sumQ N3 (fun j => at_ (dotv T (coeffs s)) (jmin + j) *
                                            Bval dg k2 x dg (jmin + j)) + 0))
      with (sumQ N3 (fun j => at_ (dotv T (coeffs s)) (jmin + j) *
                              Bval dg k2 x dg (jmin + j))) by ring.
    apply sumQ_ext. intros i Hi.
    subst N3. rewrite dotv_slice by lia.
    rewrite (Bval_shift dg dg _ k2 x jmin); auto.
    + reflexivity.
    + unfold at_. rewrite nth_slice by lia. rewrite Nat.add_0_r.
      fold (at_ k2 jmin). rewrite (Rmin jmin) by lia. exact Hx1.
    + intros j Hj. unfold at_. rewrite nth_slice by lia. f_equal. lia.
  - unfold at_. rewrite nth_slice by lia. rewrite Nat.add_0_r.
    apply (Rmin jmin); lia.
  - rewrite length_slice by lia. unfold at_. rewrite nth_slice by lia.
    apply (Rmax (jmin + (jmax - jmin - 1))%nat); lia.
Qed.

(** ** The running integral *)

Lemma running_integral_coeffs_length knots degree coeffs n :
  length (running_integral_coeffs knots degree coeffs n) = S n.
Proof.
  unfold running_integral_coeffs.
  induction n as [|n IH]; [reflexivity|].
  rewrite seq_S, fold_left_app. cbn [fold_left]. rewrite length_app, IH. simpl. lia.
Qed.

Lemma running_integral_coeffs_prefix knots degree coeffs n i :
  (i <= n)%nat ->
  at_ (running_integral_coeffs knots degree coeffs (S n)) i =
  at_ (running_integral_coeffs knots degree coeffs n) i.
Proof.
  intro Hi. unfold running_integral_coeffs at 1.
  rewrite seq_S, fold_left_app. cbn [fold_left].
  fold (running_integral_coeffs knots degree coeffs n).
  unfold at_. rewrite app_nth1; [reflexivity|].
  rewrite running_integral_coeffs_length. lia.
Qed.

Lemma running_integral_coeffs_last knots degree coeffs n :
  at_ (running_integral_coeffs knots degree coeffs (S n)) (S n) =
  at_ (running_integral_coeffs knots degree coeffs n) n +
  (at_ knots (degree + n + 1) - at_ knots n) / inject_Z (Z.of_nat (degree + 1)) *
  at_ coeffs n.
Proof.
  unfold running_integral_coeffs at 1.
  rewrite seq_S, fold_left_app. cbn [fold_left].
  fold (running_integral_coeffs knots degree coeffs n).
  unfold at_ at 1. rewrite app_nth2; rewrite running_integral_coeffs_length; [|lia].
  now rewrite Nat.sub_diag.
Qed.

Lemma running_integral_coeffs_rec knots degree coeffs n : forall i,
  (i < n)%nat ->
  at_ (running_integral_coeffs knots degree coeffs n) (i + 1) =
  at_ (running_integral_coeffs knots degree coeffs n) i +
  (at_ knots (degree + i + 1) - at_ knots i) / inject_Z (Z.of_nat (degree + 1)) *
  at_ coeffs i.
Proof.
  induction n as [|n IH]; intros i Hi; [lia|].
  destruct (Nat.eq_dec i n) as [->|Hn].
  - replace (n + 1)%nat with (S n) by lia.
    rewrite running_integral_coeffs_last.
    now rewrite (running_integral_coeffs_prefix _ _ _ n n) by lia.
  - rewrite !running_integral_coeffs_prefix by lia. apply IH. lia.
Qed.

Lemma running_integral_coeffs_first knots degree coeffs n :
  at_ (running_integral_coeffs knots degree coeffs n) 0 = 0.
Proof.
  induction n as [|n IH]; [reflexivity|].
  now rewrite running_integral_coeffs_prefix by lia.
Qed.

Lemma slice_inner (a : Q) (k : list Q) (z : Q) : slice ([a] ++ k ++ [z]) 1 (-1) = k.
Proof.
  unfold slice.
  assert (L : length ([a] ++ k ++ [z]) = S (length k + 1))
    by (cbn [app length]; rewrite length_app; reflexivity).
  rewrite L.
  assert (B1 : slice_bound (S (length k + 1)) 1 = 1%nat).
  { unfold slice_bound. destruct (Z.ltb_spec 1 0); lia. }
  assert (B2 : slice_bound (S (length k + 1)) (-1) = S (length k)).
  { unfold slice_bound. destruct (Z.ltb_spec (-1) 0); lia. }
  rewrite B1, B2. cbn [app skipn].
  replace (S (length k) - 1)%nat with (length k) by lia.
  rewrite firstn_app, Nat.sub_diag, firstn_all. cbn [firstn]. apply app_nil_r.
Qed.

(** C7.  The running integral has degree [d+1], the knots of the input
    with the first and the last one repeated once more, [N+1]
    coefficients that start at 0 and follow the prefix recurrence, and
    its derivative is the input: same basis and, where the knot span
    [knots[i+d+1] - knots[i]] of a coefficient is not zero, the same
    coefficient.  So it evaluates to the same values when no span is
    zero, and in any case, for non-decreasing knots, above the first
    knot: a basis function with a zero span vanishes there. *)
Theorem running_integral_spec (s : BSpline) :
  let d := degree (basis s) in
  let k := knots (basis s) in
  let r := running_integral s in
  (d + 1 <= length k)%nat ->
  degree (basis r) = (d + 1)%nat /\
  knots (basis r) = [at_ k 0] ++ k ++ [at_ k (length k - 1)] /\
  length (coeffs r) = (len (basis s) + 1)%nat /\
  at_ (coeffs r) 0 = 0 /\
  (forall i, (i < len (basis s))%nat ->
     at_ (coeffs r) (i + 1) =
     at_ (coeffs r) i +
     (at_ k (d + i + 1) - at_ k i) / inject_Z (Z.of_nat (d + 1)) * at_ (coeffs s) i) /\
  basis (derivative r) = basis s /\
  (forall i, (i < len (basis s))%nat -> ~ at_ k (i + d + 1) == at_ k i ->
     at_ (coeffs (derivative r)) i == at_ (coeffs s) i) /\
  ((forall i, (i < len (basis s))%nat -> ~ at_ k (i + d + 1) == at_ k i) ->
   forall x, evalspline (derivative r) x == evalspline s x) /\
  (sortedb k = true ->
   forall x, at_ k 0 < x -> evalspline (derivative r) x == evalspline s x).
Proof.
  intros d k r Hk.
  assert (Hr : r = mkSpline (mkBasis ([at_ k 0] ++ k ++ [at_ k (length k - 1)]) (d + 1))
                            (running_integral_coeffs k d (coeffs s) (len (basis s)))).
  { unfold r, running_integral. cbv zeta. fold k d. do 2 f_equal.
    unfold len. cbn [knots degree]. rewrite !length_app. simpl length. fold k d. lia. }
  clearbody r. subst r.
  assert (Hrec : forall i, (i < len (basis s))%nat ->
     at_ (running_integral_coeffs k d (coeffs s) (len (basis s))) (i + 1) =
     at_ (running_integral_coeffs k d (coeffs s) (len (basis s))) i +
     (at_ k (d + i + 1) - at_ k i) / inject_Z (Z.of_nat (d + 1)) * at_ (coeffs s) i).
  { intros i Hi. now apply running_integral_coeffs_rec. }
  cbn [basis coeffs knots degree].
  set (r := mkSpline (mkBasis ([at_ k 0] ++ k ++ [at_ k (length k - 1)]) (d + 1))
                     (running_integral_coeffs k d (coeffs s) (len (basis s)))).
  assert (HNr : len (basis r) = (len (basis s) + 1)%nat).
  { unfold r, len. cbn [basis knots degree]. rewrite !length_app. simpl length.
    fold k d. lia. }
  assert (Hb : basis (derivative r) = basis s).
  { unfold derivative, r. cbn [basis knots degree].
    rewrite slice_inner. replace (d + 1 - 1)%nat with d by lia.
    unfold k, d. now destruct (basis s). }
  assert (Hc : forall i, (i < len (basis s))%nat -> ~ at_ k (i + d + 1) == at_ k i ->
     at_ (coeffs (derivative r)) i == at_ (coeffs s) i).
  { intros i Hi Hne. unfold derivative.
    cbn [coeffs]. rewrite at_map_seq by lia.
    unfold r. cbn [basis coeffs knots degree].
    rewrite (Hrec i Hi).
    assert (K1 : at_ ([at_ k 0] ++ k ++ [at_ k (length k - 1)]) (i + (d + 1) + 1) =
                 at_ k (i + d + 1)).
    { unfold at_. cbn [app].
      replace (i + (d + 1) + 1)%nat with (S (i + d + 1)) by lia. cbn [nth].
      apply app_nth1. unfold len in Hi. fold k d in Hi. lia. }
    assert (K2 : at_ ([at_ k 0] ++ k ++ [at_ k (length k - 1)]) (i + 1) = at_ k i).
    { unfold at_. cbn [app].
      replace (i + 1)%nat with (S i) by lia. cbn [nth].
      apply app_nth1. unfold len in Hi. fold k d in Hi. lia. }
    rewrite K1, K2.
    replace (d + i + 1)%nat with (i + d + 1)%nat by lia.
    assert (~ inject_Z (Z.of_nat (d + 1)) == 0).
    { unfold Qeq. simpl. lia. }
    field. split; [assumption | lra]. }
  split; [reflexivity|]. split; [reflexivity|].
  split; [rewrite running_integral_coeffs_length; lia|].
  split; [apply running_integral_coeffs_first|].
  split; [exact Hrec|].
  split; [exact Hb|].
  split; [exact Hc|].
  split.
  - intros Hall x. rewrite !evalspline_sum. rewrite Hb.
    apply sumQ_ext. intros i Hi. rewrite Hc; auto. reflexivity.
  - intros Hs x Hx. rewrite !evalspline_sum. rewrite Hb. fold k d.
    apply sumQ_ext. intros i Hi.
    destruct (Qeq_dec (at_ k (i + d + 1)) (at_ k i)) as [E|Ne].
    + rewrite (Bval_degenerate d k x d i); [ring | now apply sortedb_mono | | | now right].
      * unfold len in Hi. fold k d in Hi. lia.
      * now symmetry.
    + rewrite Hc; auto. reflexivity.
Qed.

Lemma running_integral_spec_witness :
  let s := mkSpline (mkBasis [0; 0; 0; 1; 2; 2; 2] 2) [3; 1; 4; 1] in
  degree (basis (running_integral s)) = 3%nat /\
  knots (basis (running_integral s)) = [0; 0; 0; 0; 1; 2; 2; 2; 2] /\
  length (coeffs (running_integral s)) = 5%nat /\
  basis (derivative (running_integral s)) = basis s /\
  evalspline (derivative (running_integral s)) (3 # 2) == evalspline s (3 # 2).
Proof.
  intro s.
  destruct (running_integral_spec s ltac:(simpl; lia))
    as (H1 & H2 & H3 & _ & _ & H6 & _ & H8 & _).
  split; [exact H1|]. split; [exact H2|]. split; [exact H3|]. split; [exact H6|].
  apply H8. intros i Hi.
  do 4 (destruct i as [|i]; [vm_compute; discriminate|]).
  vm_compute in Hi. lia.
Defined.

(** ** Concatenation *)

Lemma getitem_in_range {A} (l : list A) (i : nat) :
  (i < length l)%nat -> exists a, getitem l i = Ok a.
Proof.
  intro H. unfold getitem. destruct (nth_error l i) eqn:E; [eauto|].
  apply nth_error_None in E. lia.
Qed.

Lemma getitem_nth {A} (l : list A) (i : nat) (a d : A) :
  getitem l i = Ok a -> nth i l d = a /\ (i < length l)%nat.
Proof.
  unfold getitem. destruct (nth_error l i) eqn:E; [|discriminate].
  intro H. injection H as <-. split.
  - now apply nth_error_nth.
  - apply nth_error_Some. congruence.
Qed.

Lemma setitem_length {A} (l : list A) : forall i v, length (setitem l i v) = length l.
Proof.
  induction l as [|a l IH]; intros [|i] v; simpl; auto.
Qed.

Lemma setitem_Forall {A} (P : A -> Prop) (l : list A) : forall i v,
  Forall P l -> P v -> Forall P (setitem l i v).
Proof.
  induction l as [|a l IH]; intros [|i] v Hl Hv; simpl; auto;
    inversion Hl; subst; constructor; auto.
Qed.

Lemma concat_inner_spec times k degree0 : forall segment l st,
  concat_inv degree0 st ->
  (l + length segment <= length degree0)%nat -> (k < length times)%nat ->
  if segment_matches degree0 l segment
  then exists st', concat_inner times k st l segment = Ok st' /\ concat_inv degree0 st'
  else concat_inner times k st l segment = Raise TypeError.
Proof.
  induction segment as [|s rest IH]; intros l [[kn dg] cf] Inv Hl Hk.
  - simpl. eauto.
  - destruct Inv as (Hd & Hkn & Hcf & Hne). subst dg.
    cbn [segment_matches concat_inner]. simpl length in Hl.
    destruct (getitem_in_range degree0 l ltac:(lia)) as [dl Edl].
    rewrite Edl. cbn [bind].
    destruct (getitem_nth _ _ _ 0%nat Edl) as [Edl' _]. rewrite Edl'.
    destruct (Nat.eqb_spec (degree (basis s)) dl) as [Heq|Hneq]; cbn [negb andb].
    + destruct (getitem_in_range kn l ltac:(lia)) as [kl Ekl].
      destruct (getitem_in_range times k Hk) as [tk Etk].
      destruct (getitem_in_range cf l ltac:(lia)) as [cl Ecl].
      rewrite Ekl, Etk. cbn [bind].
      assert (Hkl : kl <> []).
      { destruct (getitem_nth _ _ _ [] Ekl) as [E1 E2].
        rewrite Forall_forall in Hne. apply Hne. rewrite <- E1. now apply nth_In. }
      destruct kl as [|y kl]; [congruence|].
      cbn [last_item bind]. rewrite Ecl. cbn [bind].
      apply IH; try lia.
      repeat split; rewrite ?setitem_length; auto.
      apply setitem_Forall; [exact Hne | discriminate].
    + reflexivity.
Qed.

Lemma concat_outer_spec times degree0 : forall segments k st,
  concat_inv degree0 st ->
  Forall (fun segment => length segment <= length degree0)%nat segments ->
  (k + length segments <= length times)%nat ->
  if forallb (segment_matches degree0 0) segments
  then exists st', concat_outer times k st segments = Ok st' /\ concat_inv degree0 st'
  else concat_outer times k st segments = Raise TypeError.
Proof.
  induction segments as [|segment rest IH]; intros k st Inv Hlen Hk.
  - simpl. eauto.
  - inversion Hlen as [|? ? H1 H2]; subst. simpl length in Hk.
    cbn [forallb concat_outer].
    pose proof (concat_inner_spec times k degree0 segment 0 st Inv ltac:(lia) ltac:(lia))
      as Hin.
    destruct (segment_matches degree0 0 segment); cbn [andb].
    + destruct Hin as [st' [E Inv']]. rewrite E. cbn [bind].
      apply IH; auto. lia.
    + now rewrite Hin.
Qed.

Lemma mapM_ok {A B} (f : A -> result B) (g : A -> B) (l : list A) :
  (forall a, In a l -> f a = Ok (g a)) -> mapM f l = Ok (map g l).
Proof.
  induction l as [|a l IH]; intro H; [reflexivity|].
  cbn [mapM map]. rewrite (H a) by now left. cbn [bind].
  rewrite IH by (intros; apply H; now right). reflexivity.
Qed.

Lemma map_nth_seq {A} (l : list A) (d : A) :
  map (fun i => nth i l d) (seq 0 (length l)) = l.
Proof.
  induction l as [|a l IH]; [reflexivity|].
  cbn [length seq map nth]. f_equal.
  rewrite <- seq_shift, map_map. exact IH.
Qed.

(** C9, on the code.  For well-formed arguments (a duration per segment,
    no more dimensions in a later segment than in the first, knot vectors
    that are not empty), the call returns one spline per dimension, with
    the degrees of the first segment, when every later spline has the
    degree of the first segment at its dimension; otherwise it stops with
    the [TypeError] of the message it tries to build, not with the
    [ValueError] it means to raise. *)
Theorem concat_splines_degree_check
        (spl0 : list BSpline) (rest : list (list BSpline)) (times : list Q) :
  (length (spl0 :: rest) <= length times)%nat ->
  Forall (fun s => knots (basis s) <> []) spl0 ->
  Forall (fun segment => length segment <= length spl0)%nat rest ->
  let degree0 := map (fun s => degree (basis s)) spl0 in
  if forallb (segment_matches degree0 0) rest
  then exists r, concat_splines (spl0 :: rest) times = Ok r /\
                 length r = length spl0 /\
                 map (fun s => degree (basis s)) r = degree0
  else concat_splines (spl0 :: rest) times = Raise TypeError.
Proof.
  intros Ht Hk Hrest degree0. simpl length in Ht.
  destruct times as [|t0 times']; [simpl in Ht; lia|].
  unfold concat_splines. cbn [getitem nth_error bind skipn].
  rewrite (mapM_ok _ (fun s => map (fun y => y * t0) (knots (basis s)))) by reflexivity.
  cbn [bind]. fold degree0.
  assert (Inv : concat_inv degree0
                  (map (fun s => map (fun y => y * t0) (knots (basis s))) spl0,
                   degree0, map (fun s => coeffs s) spl0)).
  { unfold concat_inv, degree0. rewrite !length_map. repeat split; auto.
    apply Forall_forall. intros kl Hkl. apply in_map_iff in Hkl as [s [<- Hs]].
    rewrite Forall_forall in Hk. specialize (Hk s Hs).
    destruct (knots (basis s)); [congruence | discriminate]. }
  assert (Hl0 : length degree0 = length spl0) by (unfold degree0; apply length_map).
  pose proof (concat_outer_spec (t0 :: times') degree0 rest 1 _ Inv) as Hout.
  rewrite Hl0 in Hout.
  specialize (Hout Hrest ltac:(simpl; simpl in Ht; lia)).
  destruct (forallb (segment_matches degree0 0) rest).
  - destruct Hout as [[[kn dg] cf] [E (Hd & Hkn & Hcf & Hne)]]. rewrite E. cbn [bind].
    eexists. split; [reflexivity|]. split.
    + now rewrite length_map, length_seq.
    + rewrite map_map. cbn [basis degree]. subst dg.
      rewrite <- Hl0. apply map_nth_seq.
  - now rewrite Hout.
Qed.

Lemma concat_splines_degree_check_witness :
  concat_splines [[mkSpline (mkBasis [0; 0; 1; 1] 1) [1; 2]];
                  [mkSpline (mkBasis [0; 0; 0; 1; 1; 1] 2) [1; 2; 3]]] [1; 1]
  = Raise TypeError.
Proof.
  apply (concat_splines_degree_check
           [mkSpline (mkBasis [0; 0; 1; 1] 1) [1; 2]]
           [[mkSpline (mkBasis [0; 0; 0; 1; 1; 1] 2) [1; 2; 3]]] [1; 1]).
  - simpl. lia.
  - repeat constructor. discriminate.
  - repeat constructor.
Defined.

(** Two segments of one spline each and of one degree: the knots of the
    first are scaled by its duration; those of the second lose their
    first [degree+1] entries, are scaled by its duration and start where
    the first ends; the coefficients follow each other. *)
Lemma concat_two_segments (s0 s1 : BSpline) (t0 t1 : Q) :
  knots (basis s0) <> [] -> degree (basis s1) = degree (basis s0) ->
  let k0 := map (fun y => y * t0) (knots (basis s0)) in
  concat_splines [[s0]; [s1]] [t0; t1] =
  Ok [mkSpline
        (mkBasis (k0 ++ map (fun y => y * t1 + last k0 0)
                            (skipn (degree (basis s0) + 1) (knots (basis s1))))
                 (degree (basis s0)))
        (coeffs s0 ++ coeffs s1)].
Proof.
  intros Hk Hd k0. unfold concat_splines.
  cbn [getitem nth_error bind skipn mapM map concat_outer concat_inner].
  rewrite Hd, Nat.eqb_refl. cbn [negb bind]. fold k0.
  destruct k0 as [|y k0'] eqn:E.
  - unfold k0 in E. destruct (knots (basis s0)); [congruence | discriminate].
  - cbn [last_item bind setitem length seq map nth]. reflexivity.
Qed.

(** ** Knot insertion and cropping raise nothing *)

Lemma getitem_at (l : list Q) (i : nat) : (i < length l)%nat -> getitem l i = Ok (at_ l i).
Proof.
  intro H. unfold getitem, at_.
  destruct (nth_error l i) eqn:E.
  - now rewrite (nth_error_nth _ _ 0 E).
  - apply nth_error_None in E. lia.
Qed.

Lemma insertion_weight_chk_ok knots degree knot j :
  (j + degree < length knots)%nat ->
  insertion_weight_chk knots degree knot j = Ok (insertion_weight knots degree knot j).
Proof.
  intro H. unfold insertion_weight_chk, insertion_weight.
  rewrite getitem_at by lia. cbn [bind].
  destruct (Qle_bool knot (at_ knots j)); [reflexivity|].
  rewrite getitem_at by lia. cbn [bind].
  now destruct (_ && _).
Qed.

Lemma insertion_matrix_chk_ok knots degree knot N :
  length knots = (N + degree + 1)%nat ->
  insertion_matrix_chk knots degree knot N = Ok (insertion_matrix knots degree knot N).
Proof.
  intro H. unfold insertion_matrix_chk, insertion_matrix.
  apply mapM_ok. intros j Hj. apply in_seq in Hj.
  unfold insertion_row_chk. rewrite insertion_weight_chk_ok by lia. reflexivity.
Qed.

Lemma knot_insertion_loop_chk_ok degree : forall ts N knots T,
  length knots = (N + degree + 1)%nat ->
  knot_insertion_loop_chk degree ts N knots T =
  Ok (knot_insertion_loop degree ts N knots T).
Proof.
  induction ts as [|t ts IH]; intros N knots T H; [reflexivity|].
  cbn [knot_insertion_loop_chk knot_insertion_loop].
  rewrite insertion_matrix_chk_ok by exact H. cbn [bind].
  apply IH. rewrite (Permutation_length (sorted_perm _)), length_app, H. simpl. lia.
Qed.

(** On a basis with at least [degree+1] knots, cropping raises nothing,
    whatever the two bounds are. *)
Lemma crop_T_chk_ok (b : BSplineBasis) (min_value max_value : Q) :
  (degree b + 1 <= length (knots b))%nat ->
  crop_T_chk b min_value max_value = Ok (crop_T b min_value max_value).
Proof.
  intro H. unfold crop_T_chk, crop_T, knot_insertion_T_chk, knot_insertion_T, len_chk.
  cbv zeta. destruct (Nat.leb_spec (degree b + 1) (length (knots b))) as [_|G]; [|lia].
  cbn [bind]. rewrite knot_insertion_loop_chk_ok by (unfold len; lia).
  reflexivity.
Qed.

(** ** Shifting the first knots *)

(** *** The matrix [T] *)

Lemma sumQ_band n (f : nat -> Q) j :
  (forall c, (c < n)%nat -> c <> (j - 1)%nat -> c <> j -> f c == 0) ->
  sumQ n f ==
  (if ((1 <=? j) && (j - 1 <? n))%nat then f (j - 1)%nat else 0) +
  (if (j <? n)%nat then f j else 0).
Proof.
  intro H.
  rewrite (sumQ_ext n f (fun c =>
     (if (c =? j - 1)%nat then (if (1 <=? j)%nat then f c else 0) else 0) +
     (if (c =? j)%nat then f c else 0))).
  - rewrite sumQ_plus, !sumQ_single.
    destruct (1 <=? j)%nat; destruct (j - 1 <? n)%nat; cbn [andb]; reflexivity.
  - intros c Hc.
    destruct (Nat.eqb_spec c (j - 1)) as [E1|E1]; destruct (Nat.eqb_spec c j) as [E2|E2].
    + destruct (Nat.leb_spec 1 j); [lia | ring].
    + destruct (Nat.leb_spec 1 j); [ring | lia].
    + ring.
    + rewrite (H c Hc E1 E2). ring.
Qed.

Lemma set_at_overflow l : forall i v, (length l <= i)%nat -> set_at l i v = l.
Proof.
  induction l as [|a l IH]; intros [|i] v H; simpl in *; try lia; auto.
  f_equal. apply IH. lia.
Qed.

Lemma qdiv_ok a b : ~ b == 0 -> qdiv a b = Ok (a / b).
Proof.
  intro H. unfold qdiv. destruct (Qeq_bool b 0) eqn:E; [|reflexivity].
  apply Qeq_bool_iff in E. contradiction.
Qed.

Lemma mapM_Forall2 {A B} (f : A -> result B) (P : A -> B -> Prop) (l : list A) :
  (forall a, In a l -> exists b, f a = Ok b /\ P a b) ->
  exists bs, mapM f l = Ok bs /\ Forall2 P l bs.
Proof.
  induction l as [|a l IH]; intro H.
  - exists []. split; [reflexivity | constructor].
  - destruct (H a (or_introl eq_refl)) as [b [E Pb]].
    destruct IH as [bs [Ebs F]]; [intros; apply H; now right|].
    exists (b :: bs). cbn [mapM]. rewrite E. cbn [bind]. rewrite Ebs. cbn [bind].
    split; [reflexivity | now constructor].
Qed.

Lemma Forall2_seq_nth {B} (P : nat -> B -> Prop) n (bs : list B) (d : B) :
  Forall2 P (seq 0 n) bs ->
  length bs = n /\ forall j, (j < n)%nat -> P j (nth j bs d).
Proof.
  intro F. pose proof (Forall2_length F) as L. rewrite length_seq in L.
  split; [now symmetry|]. intros j Hj.
  assert (G : forall i a b, nth_error (seq 0 n) i = Some a -> nth_error bs i = Some b -> P a b).
  { clear - F. induction F; intros [|i] a b Ha Hb; simpl in *; try discriminate.
    - injection Ha as <-. injection Hb as <-. assumption.
    - eauto. }
  apply (G j).
  - rewrite nth_error_nth' with (d := 0%nat) by (rewrite length_seq; lia).
    now rewrite seq_nth.
  - apply nth_error_nth'. lia.
Qed.

Lemma entry_overflow_row (M : matrix) i j : (length M <= i)%nat -> entry M i j = 0.
Proof.
  intro H. unfold entry. rewrite nth_overflow by exact H. now destruct j.
Qed.

Lemma entry_overflow_col (M : matrix) r c i j :
  has_shape M r c -> (c <= j)%nat -> entry M i j = 0.
Proof.
  intros HS H. destruct (Nat.lt_ge_cases i r) as [L|G].
  - unfold entry. apply at_overflow. rewrite (has_shape_row M r c i HS L). exact H.
  - apply entry_overflow_row. destruct HS. lia.
Qed.

Lemma stage_inv_eye deg : stage_inv deg 0 (eye (deg + 1)).
Proof.
  split; [rewrite Nat.add_0_r; apply eye_shape|].
  split; [apply eye_ncols|]. split.
  - intros r c H. destruct (Nat.lt_ge_cases r (deg + 1)) as [L|G].
    + rewrite entry_eye by lia. destruct (Nat.eqb_spec r c); [lia | reflexivity].
    + rewrite entry_overflow_row; [reflexivity|].
      unfold eye. now rewrite length_map, length_seq.
  - intros r _ H. rewrite Nat.sub_0_r, entry_eye by lia.
    rewrite Nat.eqb_refl. discriminate.
Qed.

Lemma stage_inv_step deg k A M :
  stage_rows deg k A -> stage_inv deg k M -> stage_inv deg (S k) (dot A M).
Proof.
  intros [LA RA] (SM & CM & ZM & NM).
  assert (SD : has_shape (dot A M) (deg + 1 + S k) (deg + 1)).
  { apply dot_shape; [lia | exact CM]. }
  split; [exact SD|]. split.
  { unfold dot. destruct A as [|a A]; [simpl in LA; lia|].
    simpl. now rewrite length_map, length_seq. }
  split.
  - intros r c H.
    destruct (Nat.lt_ge_cases r (deg + 2 + k)) as [Lr|Gr].
    2:{ rewrite entry_overflow_row; [reflexivity|]. destruct SD. lia. }
    destruct (Nat.lt_ge_cases c (deg + 1)) as [Lc|Gc].
    2:{ rewrite (entry_overflow_col _ _ _ r c SD Gc). reflexivity. }
    rewrite entry_dot by lia.
    destruct (RA r Lr) as (R1 & R2 & R3).
    apply sumQ_zero. intros c' Hc'.
    destruct (Nat.eq_dec c' (r - 1)) as [E1|E1];
      [|destruct (Nat.eq_dec c' r) as [E2|E2]].
    + rewrite (ZM c' c) by lia. ring.
    + rewrite (ZM c' c) by lia. ring.
    + rewrite (R2 c' E1 E2). ring.
  - intros r H1 H2.
    destruct (RA r ltac:(lia)) as (R1 & R2 & R3).
    rewrite entry_dot by lia. rewrite R1.
    rewrite (sumQ_band _ _ r).
    2:{ intros c' _ E1 E2. rewrite (R2 c' E1 E2). ring. }
    replace ((1 <=? r) && (r - 1 <? deg + 1 + k))%nat with true
      by (symmetry; apply andb_true_iff; split;
          [apply Nat.leb_le | apply Nat.ltb_lt]; lia).
    assert (Z2 : (if (r <? deg + 1 + k)%nat then entry A r r * entry M r (r - S k) else 0) == 0).
    { destruct (r <? deg + 1 + k)%nat; [|reflexivity].
      rewrite (ZM r (r - S k)%nat) by lia. ring. }
    rewrite Z2.
    replace (r - S k)%nat with (r - 1 - k)%nat by lia.
    intro E. rewrite Qplus_0_r in E.
    apply Qmult_integral in E. destruct E as [E|E].
    + now apply R3 in E; [|lia].
    + now apply (NM (r - 1)%nat) in E; [| lia | lia].
Qed.

Section ShiftFirstKnot.

Variables (knots : list Q) (deg : nat) (t_shift : Q).
Hypothesis Hmono : mono knots.
Hypothesis Hlen : (2 * deg + 2 <= length knots)%nat.
Hypothesis Hlo : at_ knots deg < t_shift.
Hypothesis Hhi : t_shift < at_ knots (deg + 1).

(** The rows of a blending matrix: two cells at most, the left one not
    zero from row [k+1] on. *)
Lemma shift_row_ok k j : (k <= deg)%nat ->
  exists row,
    shift_row knots deg t_shift k j = Ok row /\
    length row = (deg + 1 + k)%nat /\
    (forall c, c <> (j - 1)%nat -> c <> j -> at_ row c = 0) /\
    ((j <= k)%nat -> at_ row j = 1 /\ ((1 <= j)%nat -> at_ row (j - 1) = 0)) /\
    ((k < j)%nat -> (j <= deg + 1 + k)%nat -> ~ at_ row (j - 1) == 0).
Proof.
  intro Hk. unfold shift_row. cbv zeta.
  assert (Z : length (zeros (deg + 1 + k)) = (deg + 1 + k)%nat) by apply repeat_length.
  destruct (Nat.leb_spec (deg + 1) j) as [J1|J1].
  - eexists. split; [reflexivity|]. split; [now rewrite set_at_length|].
    split; [|split].
    + intros c C1 C2. destruct (Nat.lt_ge_cases (j - 1) (deg + 1 + k)).
      * rewrite at_set_at by (rewrite Z; lia).
        destruct (Nat.eqb_spec c (j - 1)); [lia | apply at_zeros].
      * rewrite set_at_overflow by (rewrite Z; lia). apply at_zeros.
    + intros; lia.
    + intros K1 K2. rewrite at_set_at by (rewrite Z; lia).
      rewrite Nat.eqb_refl. discriminate.
  - destruct (Nat.leb_spec j k) as [J2|J2].
    + eexists. split; [reflexivity|]. split; [now rewrite set_at_length|].
      split; [|split].
      * intros c C1 C2. rewrite at_set_at by (rewrite Z; lia).
        destruct (Nat.eqb_spec c j); [lia | apply at_zeros].
      * intros _. rewrite !at_set_at by (rewrite Z; lia). rewrite Nat.eqb_refl.
        split; [reflexivity|]. intro. destruct (Nat.eqb_spec (j - 1) j); [lia | apply at_zeros].
      * intros; lia.
    + rewrite !getitem_at by lia. cbn [bind].
      assert (A1 : at_ knots j <= at_ knots deg) by (apply Hmono; lia).
      assert (A2 : at_ knots (deg + 1) <= at_ knots (j + deg - k)) by (apply Hmono; lia).
      rewrite !qdiv_ok by lra. cbn [bind].
      eexists. split; [reflexivity|]. split; [now rewrite !set_at_length|].
      split; [|split].
      * intros c C1 C2. rewrite !at_set_at by (rewrite ?set_at_length, Z; lia).
        destruct (Nat.eqb_spec c j); [lia|].
        destruct (Nat.eqb_spec c (j - 1)); [lia | apply at_zeros].
      * intros; lia.
      * intros _ _. rewrite !at_set_at by (rewrite ?set_at_length, Z; lia).
        destruct (Nat.eqb_spec (j - 1) j); [lia|]. rewrite Nat.eqb_refl.
        intro E.
        assert (P : 0 < (at_ knots (j + deg - k) - t_shift) /
                        (at_ knots (j + deg - k) - at_ knots j)).
        { apply Qlt_shift_div_l; lra. }
        lra.
Qed.

Lemma shift_stage_ok k : (k <= deg)%nat ->
  exists A, shift_stage knots deg t_shift k = Ok A /\ stage_rows deg k A.
Proof.
  intro Hk. unfold shift_stage.
  destruct (mapM_Forall2 (shift_row knots deg t_shift k)
              (fun j row => length row = (deg + 1 + k)%nat /\
                            (forall c, c <> (j - 1)%nat -> c <> j -> at_ row c = 0) /\
                            ((k < j)%nat -> (j <= deg + 1 + k)%nat -> ~ at_ row (j - 1) == 0))
              (seq 0 (deg + 1 + k + 1))) as [A [E F]].
  - intros j Hj. destruct (shift_row_ok k j Hk) as [row (R1 & R2 & R3 & _ & R5)].
    exists row. auto.
  - exists A. split; [exact E|].
    destruct (Forall2_seq_nth _ _ _ [] F) as [L G].
    split; [lia|]. intros j Hj.
    destruct (G j ltac:(lia)) as (G1 & G2 & G3).
    split; [exact G1|]. split; [exact G2|]. intro K. apply G3; lia.
Qed.

Lemma shift_stages_ok : forall n k M,
  (k + n <= deg + 1)%nat -> stage_inv deg k M ->
  exists M', shift_stages knots deg t_shift (seq k n) M = Ok M' /\ stage_inv deg (k + n) M'.
Proof.
  induction n as [|n IH]; intros k M Hk Inv.
  - exists M. rewrite Nat.add_0_r. split; [reflexivity | exact Inv].
  - destruct (shift_stage_ok k ltac:(lia)) as [A [EA RA]].
    cbn [seq shift_stages]. rewrite EA. cbn [bind].
    destruct (IH (S k) (dot A M) ltac:(lia) (stage_inv_step deg k A M RA Inv)) as [M' [E I]].
    exists M'. split; [exact E|]. now replace (k + S n)%nat with (S k + n)%nat by lia.
Qed.

End ShiftFirstKnot.

Lemma has_shape_skipn M r c n : has_shape M r c -> has_shape (skipn n M) (r - n) c.
Proof.
  intros [H1 H2]. split.
  - now rewrite length_skipn, H1.
  - rewrite Forall_forall in *. intros row Hrow. apply H2.
    rewrite <- (firstn_skipn n M). apply in_or_app. now right.
Qed.

Lemma assign_block_entries (T src : matrix) (n N : nat) :
  has_shape T N N -> has_shape src n n -> (n <= N)%nat ->
  exists T', assign_block T 0 n 0 n src = Ok T' /\
    has_shape T' N N /\
    forall i j, (i < N)%nat -> (j < N)%nat ->
      entry T' i j = if ((i <? n) && (j <? n))%nat then entry src i j else entry T i j.
Proof.
  intros HT HS Hn. unfold assign_block.
  destruct HS as [S1 S2]. rewrite S1, Nat.sub_0_r, Nat.eqb_refl. cbn [orb andb].
  assert (F : forallb (fun srow => ((length srow =? n) || (length srow =? 1))%nat) src = true).
  { apply forallb_forall. intros srow Hs. rewrite Forall_forall in S2.
    rewrite (S2 srow Hs), Nat.eqb_refl. reflexivity. }
  rewrite F. eexists. split; [reflexivity|].
  destruct HT as [T1 T2]. rewrite T1.
  assert (RowLen : forall i, (i < N)%nat -> length (nth i T []) = N).
  { intros i Hi. rewrite Forall_forall in T2. apply T2, nth_In. lia. }
  split; [split|].
  - now rewrite length_map, length_seq.
  - apply Forall_forall. intros row Hrow. apply in_map_iff in Hrow as [i [<- Hi]].
    apply in_seq in Hi. destruct ((0 <=? i) && (i <? n))%nat.
    + rewrite length_map, length_seq. apply RowLen. lia.
    + apply RowLen. lia.
  - intros i j Hi Hj. unfold entry at 1. rewrite nth_map_seq by exact Hi.
    cbn [Nat.leb andb].
    destruct (Nat.ltb_spec i n) as [Li|Gi]; cbn [andb]; [|reflexivity].
    rewrite RowLen by exact Hi. rewrite at_map_seq by exact Hj.
    destruct (Nat.ltb_spec j n) as [Lj|Gj]; [|reflexivity].
    assert (Ei : (if (n =? 1)%nat then 0 else i - 0)%nat = i).
    { destruct (Nat.eqb_spec n 1); lia. }
    rewrite Ei.
    assert (Lrow : length (nth i src []) = n).
    { rewrite Forall_forall in S2. apply S2, nth_In. lia. }
    rewrite Lrow.
    assert (Ej : (if (n =? 1)%nat then 0 else j - 0)%nat = j).
    { destruct (Nat.eqb_spec n 1); lia. }
    rewrite Ej. reflexivity.
Qed.

Lemma entry_skipn (M : matrix) n i j : entry (skipn n M) i j = entry M (n + i) j.
Proof. unfold entry. now rewrite nth_skipn. Qed.

Lemma shift_T_upper (deg N : nat) (M : matrix) :
  (deg + 1 <= N)%nat -> stage_inv deg (deg + 1) M ->
  exists T, assign_block (eye N) 0 (Nat.min (deg + 1) N) 0 (Nat.min (deg + 1) N)
                         (skipn (deg + 1) M) = Ok T /\
            upper_block deg N T.
Proof.
  intros HN (SM & CM & ZM & NM).
  rewrite Nat.min_l by lia.
  assert (SS : has_shape (skipn (deg + 1) M) (deg + 1) (deg + 1)).
  { replace (deg + 1)%nat with (deg + 1 + (deg + 1) - (deg + 1))%nat at 2 by lia.
    now apply has_shape_skipn. }
  destruct (assign_block_entries (eye N) (skipn (deg + 1) M) (deg + 1) N
              (eye_shape N) SS HN) as [T [E [ST ET]]].
  exists T. split; [exact E|].
  split; [exact ST|]. split; [|split].
  - intros i j Hji.
    destruct (Nat.lt_ge_cases i N) as [Li|Gi].
    2:{ rewrite entry_overflow_row; [reflexivity | destruct ST; lia]. }
    rewrite ET by lia.
    destruct (Nat.ltb_spec i (deg + 1)); destruct (Nat.ltb_spec j (deg + 1)); cbn [andb];
      try lia;
      first [ rewrite entry_skipn; apply ZM; lia
            | rewrite entry_eye by lia; destruct (Nat.eqb_spec i j); [lia | reflexivity] ].
  - intros i Hi. rewrite ET by lia.
    destruct (Nat.ltb_spec i (deg + 1)); cbn [andb].
    + rewrite entry_skipn.
      replace i with (deg + 1 + i - (deg + 1))%nat at 2 by lia.
      apply NM; lia.
    + rewrite entry_eye by lia. rewrite Nat.eqb_refl. discriminate.
  - intros i j Hi Hj Hd. rewrite ET by lia.
    replace ((i <? deg + 1) && (j <? deg + 1))%nat with false.
    + now apply entry_eye.
    + symmetry. apply andb_false_iff.
      destruct Hd; [left | right]; apply Nat.ltb_ge; lia.
Qed.

Lemma getitem_ok {A} (l : list A) (i : nat) (d : A) :
  (i < length l)%nat -> getitem l i = Ok (nth i l d).
Proof.
  intro H. unfold getitem. destruct (nth_error l i) eqn:E.
  - now rewrite (nth_error_nth _ _ d E).
  - apply nth_error_None in E. lia.
Qed.

Lemma entry_chk_ok (M : matrix) N i j :
  has_shape M N N -> (i < N)%nat -> (j < N)%nat -> entry_chk M i j = Ok (entry M i j).
Proof.
  intros HS Hi Hj. unfold entry_chk.
  rewrite (getitem_ok M i []) by (destruct HS; lia). cbn [bind].
  apply getitem_at. now rewrite (has_shape_row M N N i HS Hi).
Qed.

Lemma nth_setitem {A} (l : list A) : forall i v r d, (i < length l)%nat ->
  nth r (setitem l i v) d = if (r =? i)%nat then v else nth r l d.
Proof.
  induction l as [|a l IH]; intros [|i] v [|r] d H; simpl in *; try lia; auto.
  apply IH. lia.
Qed.

Lemma set_entry_shape (M : matrix) N i j v :
  has_shape M N N -> (i < N)%nat -> has_shape (set_entry M i j v) N N.
Proof.
  intros [H1 H2] Hi. unfold set_entry. split.
  - now rewrite setitem_length.
  - apply setitem_Forall; [exact H2|]. rewrite set_at_length.
    rewrite Forall_forall in H2. apply H2, nth_In. lia.
Qed.

Lemma entry_set_entry (M : matrix) N i j v r c :
  has_shape M N N -> (i < N)%nat -> (j < N)%nat ->
  entry (set_entry M i j v) r c = if ((r =? i) && (c =? j))%nat then v else entry M r c.
Proof.
  intros HS Hi Hj. unfold entry, set_entry.
  rewrite nth_setitem by (destruct HS; lia).
  destruct (Nat.eqb_spec r i) as [->|Hr]; cbn [andb]; [|reflexivity].
  apply at_set_at. now rewrite (has_shape_row M N N i HS Hi).
Qed.

Lemma bs_sum_ext deg T Tinv Tinv' i j :
  (forall k, (i < k)%nat -> entry Tinv k j = entry Tinv' k j) ->
  bs_sum deg T Tinv i j = bs_sum deg T Tinv' i j.
Proof.
  intro H. unfold bs_sum. f_equal. apply map_ext_in.
  intros k Hk. apply in_seq in Hk. rewrite H by lia. reflexivity.
Qed.

Lemma inverse_sum_ok deg T Tinv N i j :
  has_shape T N N -> has_shape Tinv N N -> (i <= deg)%nat -> (deg + 2 <= N)%nat ->
  (j < N)%nat ->
  inverse_sum T Tinv i j (seq (i + 1) (deg + 2 - (i + 1))) = Ok (bs_sum deg T Tinv i j).
Proof.
  intros HT HI Hi HN Hj. unfold inverse_sum, bs_sum.
  rewrite (mapM_ok _ (fun k => entry T i k * entry Tinv k j)); [reflexivity|].
  intros k Hk. apply in_seq in Hk.
  rewrite (entry_chk_ok T N), (entry_chk_ok Tinv N) by (assumption || lia). reflexivity.
Qed.

Section BackSubstitution.

Variables (deg N : nat) (T : matrix).
Hypothesis HT : has_shape T N N.
Hypothesis HN : (deg + 2 <= N)%nat.
Hypothesis Hdiag : forall i, (i < N)%nat -> ~ entry T i i == 0.

Lemma inverse_row_spec i : (i <= deg)%nat -> forall js Tinv,
  has_shape Tinv N N ->
  (forall j, In j js -> (i < j)%nat /\ (j <= deg)%nat) ->
  exists Tinv',
    inverse_row T deg i js Tinv = Ok Tinv' /\ has_shape Tinv' N N /\
    (forall c, In c js -> entry Tinv' i c = (-1 / entry T i i) * bs_sum deg T Tinv i c) /\
    (forall r c, r <> i \/ ~ In c js -> entry Tinv' r c = entry Tinv r c).
Proof.
  intro Hi. induction js as [|j rest IH]; intros Tinv HI Hjs.
  - exists Tinv. split; [reflexivity|]. split; [exact HI|].
    split; [intros c []|reflexivity].
  - destruct (Hjs j (or_introl eq_refl)) as [Hj1 Hj2].
    cbn [inverse_row]. rewrite (entry_chk_ok T N) by (assumption || lia). cbn [bind].
    rewrite qdiv_ok by (apply Hdiag; lia). cbn [bind].
    rewrite (inverse_sum_ok deg T Tinv N) by (assumption || lia). cbn [bind].
    set (Tinv1 := set_entry Tinv i j (-1 / entry T i i * bs_sum deg T Tinv i j)).
    assert (H1 : has_shape Tinv1 N N) by (apply set_entry_shape; [assumption | lia]).
    assert (E1 : forall r c, entry Tinv1 r c =
                  if ((r =? i) && (c =? j))%nat
                  then -1 / entry T i i * bs_sum deg T Tinv i j else entry Tinv r c).
    { intros r c. apply (entry_set_entry Tinv N); (assumption || lia). }
    assert (S1 : forall c, bs_sum deg T Tinv1 i c = bs_sum deg T Tinv i c).
    { intro c. apply bs_sum_ext. intros k Hk. rewrite E1.
      destruct (Nat.eqb_spec k i); [lia | reflexivity]. }
    destruct (IH Tinv1 H1) as [Tinv' (E & S & P1 & P2)].
    { intros j' Hj'. apply Hjs. now right. }
    exists Tinv'. split; [exact E|]. split; [exact S|]. split.
    + intros c Hc. destruct (in_dec Nat.eq_dec c rest) as [I|I].
      * rewrite (P1 c I). now rewrite S1.
      * destruct Hc as [<-|Hc]; [|contradiction].
        rewrite (P2 i j) by now right. rewrite E1, !Nat.eqb_refl. reflexivity.
    + intros r c Hrc. rewrite (P2 r c).
      * rewrite E1. destruct (Nat.eqb_spec r i) as [->|]; cbn [andb]; [|reflexivity].
        destruct (Nat.eqb_spec c j) as [->|]; [|reflexivity].
        destruct Hrc as [Hrc|Hrc]; [congruence|]. exfalso. apply Hrc. now left.
      * destruct Hrc as [Hrc|Hrc]; [now left|]. right. intro I. apply Hrc. now right.
Qed.

Lemma inverse_rows_spec : forall n Tinv,
  (n <= deg + 1)%nat -> rows_done deg N T n Tinv ->
  exists Tinv', inverse_rows T deg (rev (seq 0 n)) Tinv = Ok Tinv' /\
                back_subst deg N T Tinv'.
Proof.
  induction n as [|n IH]; intros Tinv Hn (HI & R1 & R2 & R3).
  - exists Tinv. split; [reflexivity|].
    split; [exact HI|]. split; [|split].
    + intros i j Hi Hj H. apply R1; auto; lia.
    + intros i Hi. apply R2; lia.
    + intros i j Hij Hj. apply R3; lia.
  - rewrite seq_S, rev_app_distr. cbn [rev app Nat.add inverse_rows].
    rewrite (entry_chk_ok T N) by (assumption || lia). cbn [bind].
    rewrite qdiv_ok by (apply Hdiag; lia). cbn [bind].
    set (Tinv0 := set_entry Tinv n n (1 / entry T n n)).
    assert (H0 : has_shape Tinv0 N N) by (apply set_entry_shape; [assumption | lia]).
    assert (E0 : forall r c, entry Tinv0 r c =
                  if ((r =? n) && (c =? n))%nat then 1 / entry T n n else entry Tinv r c).
    { intros r c. apply (entry_set_entry Tinv N); (assumption || lia). }
    destruct (inverse_row_spec n ltac:(lia) (rev (seq (n + 1) (deg - n))) Tinv0 H0)
      as [Tinv1 (E1 & H1 & P1 & P2)].
    { intros j Hj. apply in_rev, in_seq in Hj. lia. }
    rewrite E1. cbn [bind].
    apply IH; [lia|].
    assert (Same : forall r c, r <> n -> entry Tinv1 r c = entry Tinv r c).
    { intros r c Hr. rewrite (P2 r c) by now left. rewrite E0.
      destruct (Nat.eqb_spec r n); [lia | reflexivity]. }
    assert (InJ : forall c, In c (rev (seq (n + 1) (deg - n))) <-> (n < c /\ c <= deg)%nat).
    { intro c. rewrite <- in_rev, in_seq. lia. }
    split; [exact H1|]. split; [|split].
    + intros i j Hi Hj H. destruct (Nat.eq_dec i n) as [->|Hin].
      * rewrite (P2 n j) by (right; rewrite InJ; lia). rewrite E0.
        destruct (Nat.eqb_spec j n) as [->|Hjn]; cbn [andb].
        -- lia.
        -- rewrite Nat.eqb_refl. cbn [andb]. apply R1; auto; lia.
      * rewrite Same by exact Hin. apply R1; auto; lia.
    + intros i Hi1 Hi2. destruct (Nat.eq_dec i n) as [->|Hin].
      * rewrite (P2 n n) by (right; rewrite InJ; lia). rewrite E0, !Nat.eqb_refl.
        reflexivity.
      * rewrite Same by exact Hin. apply R2; lia.
    + intros i j Hi Hij Hj. destruct (Nat.eq_dec i n) as [->|Hin].
      * rewrite (P1 j) by (rewrite InJ; lia). f_equal.
        apply bs_sum_ext. intros k Hk. rewrite Same by lia. rewrite E0.
        destruct (Nat.eqb_spec k n); [lia | reflexivity].
      * rewrite Same by exact Hin. rewrite (R3 i j) by lia. f_equal.
        apply bs_sum_ext. intros k Hk. symmetry. apply Same. lia.
Qed.

End BackSubstitution.

Lemma sumQ_minus n (f g : nat -> Q) :
  sumQ n (fun i => f i - g i) == sumQ n f - sumQ n g.
Proof.
  induction n as [|n IH]; simpl; [ring|]. rewrite IH. ring.
Qed.

Lemma mprod_assoc N f g h i j :
  mprod N (mprod N f g) h i j == mprod N f (mprod N g h) i j.
Proof.
  unfold mprod.
  rewrite (sumQ_ext N _ (fun k => sumQ N (fun l => f i l * g l k * h k j)))
    by (intros k _; rewrite <- sumQ_scale_r; reflexivity).
  rewrite sumQ_swap. apply sumQ_ext. intros l _.
  rewrite <- sumQ_scale. apply sumQ_ext. intros; ring.
Qed.

Lemma mprod_delta_r N f i j : (j < N)%nat -> mprod N f delta i j == f i j.
Proof.
  intro H. unfold mprod, delta.
  rewrite (sumQ_ext N _ (fun k => if (k =? j)%nat then f i k else 0))
    by (intros k _; destruct (k =? j)%nat; ring).
  rewrite sumQ_single.
  now replace (j <? N)%nat with true by (symmetry; apply Nat.ltb_lt; lia).
Qed.

Lemma mprod_delta_l N g i j : (i < N)%nat -> mprod N delta g i j == g i j.
Proof.
  intro H. unfold mprod, delta.
  rewrite (sumQ_ext N _ (fun k => if (k =? i)%nat then g k j else 0))
    by (intros k _; rewrite (Nat.eqb_sym i k); destruct (k =? i)%nat; ring).
  rewrite sumQ_single.
  now replace (i <? N)%nat with true by (symmetry; apply Nat.ltb_lt; lia).
Qed.

(** An upper triangular matrix without zeros on its diagonal cancels
    on the right. *)
Lemma right_cancel N (X S : nat -> nat -> Q) :
  (forall k j, (k < N)%nat -> (j < k)%nat -> S k j == 0) ->
  (forall j, (j < N)%nat -> ~ S j j == 0) ->
  (forall i j, (i < N)%nat -> (j < N)%nat -> mprod N X S i j == 0) ->
  forall i j, (i < N)%nat -> (j < N)%nat -> X i j == 0.
Proof.
  intros HU HD HX i j Hi. induction j as [j IH] using lt_wf_ind. intro Hj.
  pose proof (HX i j Hi Hj) as E. unfold mprod in E.
  replace N with (j + (1 + (N - j - 1)))%nat in E at 1 by lia.
  rewrite sumQ_app, sumQ_app in E.
  rewrite (sumQ_zero j) in E by (intros k Hk; rewrite (IH k) by lia; ring).
  rewrite (sumQ_zero (N - j - 1)) in E
    by (intros k Hk; rewrite (HU (j + (1 + k))%nat j) by lia; ring).
  cbn [sumQ] in E. rewrite Nat.add_0_r in E.
  assert (E' : X i j * S j j == 0) by (rewrite <- E; ring).
  apply Qmult_integral in E'. destruct E' as [E'|E']; [exact E'|].
  now apply HD in E'.
Qed.

(** A right inverse that is upper triangular is a left inverse. *)
Lemma left_inverse N (T S : nat -> nat -> Q) :
  (forall k j, (k < N)%nat -> (j < k)%nat -> S k j == 0) ->
  (forall j, (j < N)%nat -> ~ S j j == 0) ->
  (forall i j, (i < N)%nat -> (j < N)%nat -> mprod N T S i j == delta i j) ->
  forall i j, (i < N)%nat -> (j < N)%nat -> mprod N S T i j == delta i j.
Proof.
  intros HU HD HR i j Hi Hj.
  assert (Z : (fun a b => mprod N S T a b - delta a b) i j == 0).
  { apply (right_cancel N (fun a b => mprod N S T a b - delta a b) S HU HD); auto.
    intros a b Ha Hb. unfold mprod at 1.
    rewrite (sumQ_ext N _ (fun k => mprod N S T a k * S k b - delta a k * S k b))
      by (intros; ring).
    rewrite sumQ_minus.
    change (sumQ N (fun k => mprod N S T a k * S k b)) with (mprod N (mprod N S T) S a b).
    change (sumQ N (fun k => delta a k * S k b)) with (mprod N delta S a b).
    rewrite mprod_assoc, mprod_delta_l by exact Ha.
    unfold mprod at 1.
    rewrite (sumQ_ext N _ (fun k => S a k * delta k b))
      by (intros k Hk; rewrite (HR k b Hk Hb); reflexivity).
    change (sumQ N (fun k => S a k * delta k b)) with (mprod N S delta a b).
    rewrite mprod_delta_r by exact Hb. ring. }
  cbv beta in Z. lra.
Qed.

Lemma fold_Qplus_seq (g : nat -> Q) a n :
  fold_left Qplus (map g (seq a n)) 0 = sumQ n (fun x => g (a + x)%nat).
Proof.
  induction n as [|n IH]; [reflexivity|].
  rewrite seq_S, map_app, fold_left_app, IH. reflexivity.
Qed.

(** Back-substitution gives a right inverse of [T]. *)
Lemma back_subst_right_inverse deg N T Tinv :
  (deg + 2 <= N)%nat -> upper_block deg N T -> back_subst deg N T Tinv ->
  forall i j, (i < N)%nat -> (j < N)%nat ->
  mprod N (entry T) (entry Tinv) i j == delta i j.
Proof.
  intros HN (ST & TU & TD & TI) (SI & II & ID & IS) i j Hi Hj.
  destruct (Nat.lt_ge_cases deg i) as [Gi|Li].
  { unfold mprod.
    rewrite (sumQ_ext N _ (fun k => delta i k * entry Tinv k j))
      by (intros k Hk; rewrite (TI i k) by auto; reflexivity).
    change (sumQ N (fun k => delta i k * entry Tinv k j))
      with (mprod N delta (entry Tinv) i j).
    rewrite mprod_delta_l by exact Hi. rewrite II by auto. reflexivity. }
  destruct (Nat.lt_ge_cases deg j) as [Gj|Lj].
  { unfold mprod.
    rewrite (sumQ_ext N _ (fun k => entry T i k * delta k j))
      by (intros k Hk; rewrite (II k j) by auto; reflexivity).
    change (sumQ N (fun k => entry T i k * delta k j))
      with (mprod N (entry T) delta i j).
    rewrite mprod_delta_r by exact Hj. rewrite TI by auto. reflexivity. }
  assert (Low : forall k, (k < N)%nat -> (j < k)%nat -> entry Tinv k j = 0).
  { intros k Hk Hjk. rewrite II by auto. destruct (Nat.eqb_spec k j); [lia | reflexivity]. }
  unfold mprod, delta.
  destruct (lt_eq_lt_dec j i) as [[Hji|Heq]|Hij].
  - destruct (Nat.eqb_spec i j); [lia|].
    apply sumQ_zero. intros k Hk.
    destruct (Nat.lt_ge_cases k i).
    + rewrite (TU i k) by lia. ring.
    + rewrite Low by lia. ring.
  - subst j. rewrite Nat.eqb_refl.
    rewrite (sumQ_ext N _ (fun k => if (k =? i)%nat then 1 else 0)).
    + rewrite sumQ_single.
      now replace (i <? N)%nat with true by (symmetry; apply Nat.ltb_lt; lia).
    + intros k Hk. destruct (Nat.eqb_spec k i) as [->|Hki].
      * rewrite ID by lia. field. now apply TD.
      * destruct (Nat.lt_ge_cases k i).
        -- rewrite (TU i k) by lia. ring.
        -- rewrite Low by lia. ring.
  - destruct (Nat.eqb_spec i j); [lia|].
    replace N with (i + (1 + ((deg + 1 - i) + (N - deg - 2))))%nat at 1 by lia.
    rewrite sumQ_app, sumQ_app, sumQ_app.
    rewrite (sumQ_zero i) by (intros k Hk; rewrite (TU i k) by lia; ring).
    rewrite (sumQ_zero (N - deg - 2)).
    2:{ intros k Hk. rewrite (TI i) by lia.
        destruct (Nat.eqb_spec i (i + (1 + (deg + 1 - i + k)))); [lia | ring]. }
    cbn [sumQ]. rewrite Nat.add_0_r.
    rewrite (IS i j) by lia. unfold bs_sum. rewrite fold_Qplus_seq.
    replace (deg + 2 - (i + 1))%nat with (deg + 1 - i)%nat by lia.
    rewrite (sumQ_ext (deg + 1 - i)
               (fun j0 => entry T i (i + (1 + j0)) * entry Tinv (i + (1 + j0)) j)
               (fun x => entry T i (i + 1 + x) * entry Tinv (i + 1 + x) j)).
    2:{ intros x _. now replace (i + (1 + x))%nat with (i + 1 + x)%nat by lia. }
    field. now apply TD.
Qed.

Lemma rows_done_eye deg N T : rows_done deg N T (deg + 1) (eye N).
Proof.
  split; [apply eye_shape|]. split; [|split].
  - intros i j Hi Hj _. now apply entry_eye.
  - intros; lia.
  - intros; lia.
Qed.

(** C6, as the code has it.  For non-decreasing knots, at least
    [degree+2] basis functions and [knots[degree] < t_shift <
    knots[degree+1]] (on a clamped basis that starts at 0: [t_shift]
    strictly between 0 and the length of the first knot interval), the
    call with [inverse=True] returns [T], upper triangular, and [Tinv]
    with [Tinv[i,i] = 1/T[i,i]] on the shifted block, and [Tinv] times [T]
    is the identity, exactly. *)
Theorem shiftfirstknot_inverse (b : BSplineBasis) (t_shift : Q) :
  sortedb (knots b) = true ->
  (degree b + 2 <= len b)%nat ->
  at_ (knots b) (degree b) < t_shift ->
  t_shift < at_ (knots b) (degree b + 1) ->
  exists T Tinv,
    shiftfirstknot_T b t_shift true = Ok (T, Some Tinv) /\
    has_shape T (len b) (len b) /\ has_shape Tinv (len b) (len b) /\
    (forall i j, (j < i)%nat -> entry T i j == 0) /\
    (forall i, (i <= degree b)%nat -> entry Tinv i i = 1 / entry T i i) /\
    (forall i j, (i < len b)%nat -> (j < len b)%nat ->
       entry (dot Tinv T) i j == if (i =? j)%nat then 1 else 0).
Proof.
  intros Hs HN Hlo Hhi. apply sortedb_mono in Hs.
  set (deg := degree b) in *. set (N := len b) in *.
  assert (HL : (2 * deg + 2 <= length (knots b))%nat) by (unfold N, len in HN; fold deg in HN; lia).
  destruct (shift_stages_ok (knots b) deg t_shift Hs HL Hlo Hhi (deg + 1) 0 (eye (deg + 1))
              ltac:(lia) (stage_inv_eye deg)) as [M [EM IM]].
  cbn [Nat.add] in IM.
  destruct (shift_T_upper deg N M ltac:(lia) IM) as [T [ET UT]].
  pose proof UT as (ST & TU & TD & TI).
  destruct (inverse_rows_spec deg N T ST HN TD (deg + 1) (eye N) ltac:(lia)
              (rows_done_eye deg N T)) as [Tinv [EI BS]].
  pose proof BS as (SI & II & ID & IS).
  exists T, Tinv.
  split.
  { unfold shiftfirstknot_T. fold deg N. rewrite EM. cbn [bind].
    rewrite ET. cbn [bind]. rewrite EI. reflexivity. }
  split; [exact ST|]. split; [exact SI|]. split; [exact TU|]. split; [exact ID|].
  intros i j Hi Hj.
  rewrite entry_dot.
  2:{ destruct SI; lia. }
  2:{ rewrite (has_shape_ncols T N N ST) by lia. exact Hj. }
  rewrite (has_shape_row Tinv N N i SI Hi).
  change (sumQ N (fun c => entry Tinv i c * entry T c j))
    with (mprod N (entry Tinv) (entry T) i j).
  change (if (i =? j)%nat then 1 else 0) with (delta i j).
  apply left_inverse; auto.
  - intros k c Hk Hc. rewrite II by lia.
    destruct (Nat.eqb_spec k c); [lia | reflexivity].
  - intros c Hc. destruct (Nat.le_gt_cases c deg) as [L|G].
    + rewrite ID by exact L. intro E.
      assert (E1 : 1 / entry T c c * entry T c c == 1) by (field; now apply TD).
      rewrite E in E1. lra.
    + rewrite II by lia. rewrite Nat.eqb_refl. discriminate.
  - apply (back_subst_right_inverse deg N T Tinv HN UT BS).
Qed.

Lemma shiftfirstknot_inverse_witness :
  exists T Tinv,
    shiftfirstknot_T (mkBasis [0; 0; 1; 2; 2] 1) (1 # 2) true = Ok (T, Some Tinv) /\
    forall i j, (i < 3)%nat -> (j < 3)%nat ->
      entry (dot Tinv T) i j == if (i =? j)%nat then 1 else 0.
Proof.
  destruct (shiftfirstknot_inverse (mkBasis [0; 0; 1; 2; 2] 1) (1 # 2))
    as [T [Tinv (E & _ & _ & _ & _ & H)]].
  - reflexivity.
  - vm_compute. lia.
  - vm_compute. reflexivity.
  - vm_compute. reflexivity.
  - exists T, Tinv. split; [exact E | exact H].
Defined.

(** The claim as the specification words it, on a basis that does not
    start at 0: [t_shift] lies between 0 and the length of the first knot
    interval, [T[0,0]] is 0, and [1./T[0,0]] is not a number. *)
Lemma shiftfirstknot_T_basis_not_at_zero :
  let b := mkBasis [-1; -1; 1 # 2; 2; 2] 1 in
  0 < 1 # 2 /\ 1 # 2 < at_ (knots b) 2 - at_ (knots b) 0 /\
  (exists T, shiftfirstknot_T b (1 # 2) false = Ok (T, None) /\ entry T 0 0 == 0) /\
  shiftfirstknot_T b (1 # 2) true = Raise NonFinite.
Proof.
  cbv zeta. split; [reflexivity|]. split; [reflexivity|]. split; [|reflexivity].
  eexists. split; [vm_compute; reflexivity | reflexivity].
Qed.

(** With a single knot interval ([N = degree+1]) the sum of the inner
    loop reads column [degree+1] of [T], which does not exist. *)
Lemma shiftfirstknot_T_single_interval :
  shiftfirstknot_T (mkBasis [0; 0; 1; 1] 1) (1 # 2) true = Raise IndexError.
Proof. reflexivity. Qed.

(** ** Shifting over a knot *)

(** *** Results and subscripts *)

Lemma bind_Ok {A B} (c : result A) (f : A -> result B) (r : B) :
  bind c f = Ok r -> exists a, c = Ok a /\ f a = Ok r.
Proof.
  destruct c as [a|e]; simpl; intro H; [|discriminate]. now exists a.
Qed.

Ltac bind_inv H x Hx :=
  apply bind_Ok in H; destruct H as [x [Hx H]].


Lemma getitemZ_neg (l : list Q) (k : nat) :
  (1 <= k)%nat -> (k <= length l)%nat ->
  getitemZ l (- Z.of_nat k) = Ok (at_ l (length l - k)).
Proof.
  intros H1 H2. unfold getitemZ.
  destruct (Z.leb_spec 0 (- Z.of_nat k)); [lia|].
  destruct (Z.leb_spec 0 (- Z.of_nat k + Z.of_nat (length l))); [|lia].
  replace (Z.to_nat (- Z.of_nat k + Z.of_nat (length l))) with (length l - k)%nat by lia.
  apply getitem_at. lia.
Qed.

Lemma getitemZ_inv {A} (l : list A) (i : Z) (a : A) :
  getitemZ l i = Ok a -> (- Z.of_nat (length l) <= i < Z.of_nat (length l))%Z.
Proof.
  unfold getitemZ, getitem. intro H.
  destruct (Z.leb_spec 0 i).
  - destruct (nth_error l (Z.to_nat i)) eqn:E; [|discriminate].
    assert (Z.to_nat i < length l)%nat by (apply nth_error_Some; congruence). lia.
  - destruct (Z.leb_spec 0 (i + Z.of_nat (length l))); [lia | discriminate].
Qed.

(** *** Blocks of a matrix *)

Lemma zeros2_shape r c : has_shape (zeros2 r c) r c.
Proof.
  unfold zeros2, zeros. split; [apply repeat_length|].
  apply Forall_forall. intros row H. apply repeat_spec in H. subst.
  apply repeat_length.
Qed.

Lemma entry_zeros2 r c i j : entry (zeros2 r c) i j = 0.
Proof.
  unfold entry, zeros2.
  destruct (Nat.lt_ge_cases i r) as [L|G].
  - rewrite nth_repeat_lt by exact L. apply at_zeros.
  - rewrite nth_overflow by (rewrite repeat_length; lia). unfold at_. now destruct j.
Qed.

Lemma assign_block_frame (T src T' : matrix) (R C r0 r1 c0 c1 : nat) :
  assign_block T r0 r1 c0 c1 src = Ok T' -> has_shape T R C ->
  has_shape T' R C /\
  forall i j, (i < R)%nat -> (j < C)%nat ->
    ((r0 <=? i) && (i <? r1) && ((c0 <=? j) && (j <? c1)))%nat = false ->
    entry T' i j = entry T i j.
Proof.
  unfold assign_block. intros H [T1 T2].
  destruct (_ && _); [|discriminate]. injection H as <-.
  assert (RowLen : forall i, (i < R)%nat -> length (nth i T []) = C).
  { intros i Hi. rewrite Forall_forall in T2. apply T2, nth_In. lia. }
  rewrite T1. split; [split|].
  - now rewrite length_map, length_seq.
  - apply Forall_forall. intros row Hrow. apply in_map_iff in Hrow as [i [<- Hi]].
    apply in_seq in Hi. destruct ((r0 <=? i) && (i <? r1))%nat.
    + rewrite length_map, length_seq. apply RowLen. lia.
    + apply RowLen. lia.
  - intros i j Hi Hj Hout. unfold entry at 1. rewrite nth_map_seq by exact Hi.
    destruct ((r0 <=? i) && (i <? r1))%nat; [|reflexivity].
    rewrite RowLen by exact Hi. rewrite at_map_seq by exact Hj.
    cbn [andb] in Hout. now rewrite Hout.
Qed.

Lemma assign_block_spec (T src : matrix) (R C r0 r1 c0 c1 : nat) :
  has_shape T R C -> has_shape src (r1 - r0) (c1 - c0) ->
  (r1 <= R)%nat -> (c1 <= C)%nat ->
  exists T', assign_block T r0 r1 c0 c1 src = Ok T' /\
    has_shape T' R C /\
    forall i j, (i < R)%nat -> (j < C)%nat ->
      entry T' i j =
      if ((r0 <=? i) && (i <? r1) && ((c0 <=? j) && (j <? c1)))%nat
      then entry src (i - r0) (j - c0) else entry T i j.
Proof.
  intros HT [S1 S2] Hr Hc.
  assert (E : exists T', assign_block T r0 r1 c0 c1 src = Ok T').
  { unfold assign_block. rewrite S1, Nat.eqb_refl. cbn [orb andb].
    assert (F : forallb (fun srow => ((length srow =? c1 - c0) || (length srow =? 1))%nat)
                        src = true).
    { apply forallb_forall. intros srow Hs. rewrite Forall_forall in S2.
      rewrite (S2 srow Hs), Nat.eqb_refl. reflexivity. }
    rewrite F. eexists. reflexivity. }
  destruct E as [T' E]. exists T'. split; [exact E|].
  destruct (assign_block_frame _ _ _ R C _ _ _ _ E HT) as [Sh Out].
  split; [exact Sh|].
  intros i j Hi Hj.
  destruct ((r0 <=? i) && (i <? r1) && ((c0 <=? j) && (j <? c1)))%nat eqn:B;
    [|now apply Out].
  apply andb_true_iff in B as [B1 B2].
  apply andb_true_iff in B1 as [Bi1 Bi2]. apply andb_true_iff in B2 as [Bj1 Bj2].
  apply Nat.leb_le in Bi1, Bj1. apply Nat.ltb_lt in Bi2, Bj2.
  unfold assign_block in E. destruct (_ && _); [|discriminate]. injection E as <-.
  destruct HT as [T1 T2].
  assert (RowLen : length (nth i T []) = C).
  { rewrite Forall_forall in T2. apply T2, nth_In. lia. }
  unfold entry at 1. rewrite T1, nth_map_seq by exact Hi.
  replace ((r0 <=? i) && (i <? r1))%nat with true
    by (symmetry; apply andb_true_iff; split; [apply Nat.leb_le | apply Nat.ltb_lt]; lia).
  rewrite RowLen, at_map_seq by exact Hj.
  replace ((c0 <=? j) && (j <? c1))%nat with true
    by (symmetry; apply andb_true_iff; split; [apply Nat.leb_le | apply Nat.ltb_lt]; lia).
  assert (Ei : (if (length src =? 1)%nat then 0 else i - r0)%nat = (i - r0)%nat).
  { destruct (Nat.eqb_spec (length src) 1); lia. }
  rewrite Ei.
  assert (Lrow : length (nth (i - r0) src []) = (c1 - c0)%nat).
  { rewrite Forall_forall in S2. apply S2, nth_In. lia. }
  rewrite Lrow.
  assert (Ej : (if (c1 - c0 =? 1)%nat then 0 else j - c0)%nat = (j - c0)%nat).
  { destruct (Nat.eqb_spec (c1 - c0) 1); lia. }
  rewrite Ej. reflexivity.
Qed.



(** *** The crop that [shiftoverknot_T] asks for *)

Lemma count_lt_perm a b v : Permutation a b -> count_lt a v = count_lt b v.
Proof.
  intro P. unfold count_lt.
  induction P as [|x l l' P IH|x y l|l l' l'' P1 IH1 P2 IH2]; simpl.
  - reflexivity.
  - destruct (Qltb x v); simpl; now rewrite IH.
  - destruct (Qltb x v), (Qltb y v); reflexivity.
  - now rewrite IH1.
Qed.

Lemma count_lt_app a b v : count_lt (a ++ b) v = (count_lt a v + count_lt b v)%nat.
Proof. unfold count_lt. now rewrite filter_app, length_app. Qed.

Lemma count_lt_none a v : Forall (fun y => v <= y) a -> count_lt a v = 0%nat.
Proof.
  unfold count_lt. induction 1 as [|y r H _ IH]; [reflexivity|]. simpl.
  assert (E : Qltb y v = false) by now apply Qltb_ge. now rewrite E.
Qed.

Lemma searchsorted_left_count a v : sortedb a = true ->
  searchsorted_left a v = count_lt a v.
Proof.
  induction a as [|y r IH]; intro Hs; [reflexivity|].
  destruct (sortedb_cons y r Hs) as [Hr Hy].
  unfold count_lt in *. simpl. destruct (Qltb y v) eqn:E; simpl.
  - now rewrite IH.
  - apply Qltb_ge in E. symmetry. apply (count_lt_none r v).
    apply Forall_forall. intros z Hz. apply (In_nth _ _ 0) in Hz as [j [Hj <-]].
    specialize (Hy j Hj). unfold at_ in Hy. lra.
Qed.

Lemma searchsorted_right_all a v : Forall (fun y => y <= v) a ->
  searchsorted_right a v = length a.
Proof.
  induction 1 as [|y r H _ IH]; [reflexivity|]. simpl.
  assert (E : Qle_bool y v = true) by now apply Qle_bool_iff. now rewrite E, IH.
Qed.

Lemma searchsorted_left_at a v p : sortedb a = true -> (p < length a)%nat ->
  (forall j, (j < p)%nat -> at_ a j < v) -> v <= at_ a p ->
  searchsorted_left a v = p.
Proof.
  intros Hs Hp Hlo Hhi.
  destruct (Nat.lt_trichotomy (searchsorted_left a v) p) as [L|[E|G]]; [|exact E|].
  - pose proof (searchsorted_left_above a v Hs _ (Nat.le_refl _) ltac:(lia)).
    specialize (Hlo _ L). lra.
  - pose proof (searchsorted_left_below a v p G). lra.
Qed.

Section FirstInterval.

Variable b : BSplineBasis.
Let k := knots b.
Let deg := degree b.
Let kf := at_ k (deg + 1).
Let kl := at_ k (length k - 1).
Let n := count_eq k kf.

Hypothesis Hs : sortedb k = true.
Hypothesis Hlo : at_ k deg < kf.
Hypothesis Hhi : kf < kl.
Hypothesis Hcl : count_eq k kl = (deg + 1)%nat.




End FirstInterval.

(** *** What [extrapolate_T] returns, whatever the solution is *)

Lemma len_chk_Ok b N : len_chk b = Ok N ->
  N = len b /\ (degree b + 1 <= length (knots b))%nat.
Proof.
  unfold len_chk. destruct (Nat.leb_spec (degree b + 1) (length (knots b))) as [L|G];
    [|discriminate].
  intro H. injection H as <-. now split.
Qed.

Lemma getitemZ_neg_Ok (l : list Q) (k : nat) (a : Q) : (1 <= k)%nat ->
  getitemZ l (- Z.of_nat k) = Ok a -> (k <= length l)%nat /\ a = at_ l (length l - k).
Proof.
  intros Hk H. pose proof (getitemZ_inv _ _ _ H) as R.
  assert (Hl : (k <= length l)%nat) by lia. split; [exact Hl|].
  rewrite getitemZ_neg in H by lia. now injection H as <-.
Qed.

Lemma slice_bound_neg n d : slice_bound n (- Z.of_nat (d + 1)) = (n - (d + 1))%nat.
Proof.
  unfold slice_bound. destruct (Z.ltb_spec (- Z.of_nat (d + 1)) 0); lia.
Qed.

Lemma slice_bound_nat n i : slice_bound n (Z.of_nat i) = Nat.min i n.
Proof.
  unfold slice_bound. destruct (Z.ltb_spec (Z.of_nat i) 0); [lia|]. now rewrite Nat2Z.id.
Qed.

Lemma slice_bound_0 n : slice_bound n 0 = 0%nat.
Proof. reflexivity. Qed.

Lemma extrapolate_T_frame (b : BSplineBasis) (t_extra : Q) (T : matrix) (knots2 : list Q) :
  extrapolate_T b t_extra = Ok (T, knots2) ->
  let k := knots b in
  let deg := degree b in
  let N := len b in
  exists m,
    find_m (length k) k deg 1 = Ok m /\
    (deg + 1 <= length k)%nat /\
    has_shape T (N + m) N /\
    knots2 = slice k 0 (- Z.of_nat deg - 1) ++ repeat (at_ k (length k - (deg + 1))) m ++
             repeat (at_ k (length k - 1) + t_extra) (deg + 1) /\
    forall i j, (N <= i)%nat -> (i < N + m)%nat -> (j < N)%nat ->
                (i < N + m - (deg + 1) \/ j < N - (deg + 1))%nat ->
                entry T i j = 0.
Proof.
  intros H k deg N. unfold extrapolate_T in H. cbv zeta in H. fold k deg in H.
  bind_inv H N' HN. apply len_chk_Ok in HN as [-> Hlen]. fold k deg N in H, Hlen.
  bind_inv H m Hm.
  bind_inv H k_border Hb.
  replace (- Z.of_nat deg - 1)%Z with (- Z.of_nat (deg + 1))%Z in Hb by lia.
  apply getitemZ_neg_Ok in Hb as [_ ->]; [|lia].
  bind_inv H k_last Hl.
  apply (getitemZ_neg_Ok k 1) in Hl as [_ ->]; [|lia].
  bind_inv H AB HAB. clear HAB.
  bind_inv H st Hst. clear Hst. destruct st as [[[A1 B1] A] B].
  bind_inv H _T HT. clear HT.
  bind_inv H T1 H1. bind_inv H T2 H2.
  injection H as <- <-.
  exists m. split; [exact Hm|]. split; [exact Hlen|].
  unfold assign_slices in H1, H2.
  destruct (assign_block_frame _ _ _ (N + m) N _ _ _ _ H1 (zeros2_shape _ _)) as [S1 _].
  destruct (assign_block_spec (zeros2 (N + m) N) (eye N) (N + m) N
              (slice_bound (length (zeros2 (N + m) N)) 0)
              (slice_bound (length (zeros2 (N + m) N)) (Z.of_nat N))
              (slice_bound N 0) (slice_bound N (Z.of_nat N)))
    as [T1' [E1 [_ En1]]].
  - apply zeros2_shape.
  - destruct (zeros2_shape (N + m) N) as [-> _].
    rewrite !slice_bound_0, !slice_bound_nat.
    replace (Nat.min N (N + m) - 0)%nat with N by lia.
    replace (Nat.min N N - 0)%nat with N by lia. apply eye_shape.
  - destruct (zeros2_shape (N + m) N) as [-> _]. rewrite slice_bound_nat. lia.
  - rewrite slice_bound_nat. lia.
  - rewrite E1 in H1. injection H1 as ->.
    destruct (assign_block_frame _ _ _ (N + m) N _ _ _ _ H2 S1) as [S2 Out2].
    split; [exact S2|]. split; [reflexivity|].
    intros i j Hi1 Hi2 Hj Hout.
    rewrite Out2; [| exact Hi2 | lia |].
    + rewrite En1 by lia.
      destruct (zeros2_shape (N + m) N) as [-> _].
      rewrite !slice_bound_0, !slice_bound_nat.
      replace (i <? Nat.min N (N + m))%nat with false by (symmetry; apply Nat.ltb_ge; lia).
      rewrite andb_false_r. cbn [andb]. apply entry_zeros2.
    + rewrite !slice_bound_neg. destruct S1 as [-> _].
      destruct Hout as [Hout|Hout].
      * replace (N + m - (deg + 1) <=? i)%nat with false
          by (symmetry; apply Nat.leb_gt; lia).
        reflexivity.
      * replace (N - (deg + 1) <=? j)%nat with false by (symmetry; apply Nat.leb_gt; lia).
        cbn [andb]. apply andb_false_r.
Qed.


(** *** Where repeated insertions of one knot go *)

Lemma insert_sorted_split t k :
  insert_sorted t k =
  firstn (searchsorted_right k t) k ++ t :: skipn (searchsorted_right k t) k.
Proof.
  induction k as [|a r IH]; [reflexivity|].
  cbn [insert_sorted searchsorted_right]. destruct (Qle_bool a t); [|reflexivity].
  cbn [firstn skipn app]. now rewrite <- IH.
Qed.

Lemma searchsorted_right_prefix k t :
  Forall (fun y => y <= t) (firstn (searchsorted_right k t) k).
Proof.
  induction k as [|a r IH]; [constructor|].
  cbn [searchsorted_right]. destruct (Qle_bool a t) eqn:E; [|constructor].
  cbn [firstn]. constructor; [now apply Qle_bool_iff | exact IH].
Qed.

Lemma searchsorted_right_rest k t :
  searchsorted_right (skipn (searchsorted_right k t) k) t = 0%nat.
Proof.
  induction k as [|a r IH]; [reflexivity|].
  cbn [searchsorted_right]. destruct (Qle_bool a t) eqn:E; [exact IH|].
  cbn [skipn searchsorted_right]. now rewrite E.
Qed.

Lemma searchsorted_right_app a c t : Forall (fun y => y <= t) a ->
  searchsorted_right (a ++ c) t = (length a + searchsorted_right c t)%nat.
Proof.
  induction 1 as [|y r H _ IH]; [reflexivity|].
  cbn [app searchsorted_right length].
  assert (E : Qle_bool y t = true) by now apply Qle_bool_iff.
  now rewrite E, IH.
Qed.

Lemma repeated_insertion deg t : forall c N k T, sortedb k = true ->
  snd (knot_insertion_loop deg (repeat t c) N k T) =
  firstn (searchsorted_right k t) k ++ repeat t c ++ skipn (searchsorted_right k t) k.
Proof.
  induction c as [|c IH]; intros N k T Hs.
  - cbn [repeat knot_insertion_loop snd app]. symmetry. apply firstn_skipn.
  - cbn [repeat knot_insertion_loop].
    rewrite sorted_snoc, (sorted_id k Hs).
    rewrite IH by now apply insert_sorted_sortedb.
    rewrite insert_sorted_split.
    assert (Lp : length (firstn (searchsorted_right k t) k) = searchsorted_right k t).
    { apply firstn_length_le, searchsorted_right_le. }
    assert (P1 : searchsorted_right
                   (firstn (searchsorted_right k t) k ++ t :: skipn (searchsorted_right k t) k) t
                 = (searchsorted_right k t + 1)%nat).
    { rewrite searchsorted_right_app by apply searchsorted_right_prefix.
      cbn [searchsorted_right].
      assert (R : Qle_bool t t = true) by (apply Qle_bool_iff, Qle_refl).
      rewrite R, searchsorted_right_rest, Lp. lia. }
    set (p := searchsorted_right k t) in *.
    rewrite P1.
    replace (firstn p k ++ t :: skipn p k) with ((firstn p k ++ [t]) ++ skipn p k)
      by now rewrite <- app_assoc.
    rewrite firstn_app, skipn_app, length_app, Lp. cbn [length].
    rewrite Nat.sub_diag. cbn [firstn skipn].
    rewrite app_nil_r, firstn_all2 by (rewrite length_app, Lp; cbn [length]; lia).
    rewrite skipn_all2 by (rewrite length_app, Lp; cbn [length]; lia).
    cbn [app]. rewrite <- !app_assoc. reflexivity.
Qed.

Lemma searchsorted_right_at a v p : sortedb a = true -> (p <= length a)%nat ->
  (forall j, (j < p)%nat -> at_ a j <= v) -> ((p < length a)%nat -> v < at_ a p) ->
  searchsorted_right a v = p.
Proof.
  intros Hs Hp Hlo Hhi.
  destruct (Nat.lt_trichotomy (searchsorted_right a v) p) as [L|[E|G]]; [|exact E|].
  - pose proof (searchsorted_right_above a v Hs _ (Nat.le_refl _) ltac:(lia)).
    specialize (Hlo _ L). lra.
  - pose proof (searchsorted_right_below a v p G).
    pose proof (searchsorted_right_le a v). specialize (Hhi ltac:(lia)). lra.
Qed.

(** *** What the loop of [find_m] finds *)


Section FirstIntervalKnots.

Variable b : BSplineBasis.
Let k := knots b.
Let deg := degree b.
Let N := len b.
Let kf := at_ k (deg + 1).
Let kl := at_ k (length k - 1).
Let n := count_eq k kf.

Hypothesis Hs : sortedb k = true.
Hypothesis Hlo : at_ k deg < kf.
Hypothesis Hhi : kf < kl.
Hypothesis Hcl : count_eq k kl = (deg + 1)%nat.







End FirstIntervalKnots.

Lemma find_m_ge knots deg : forall fuel m0 m,
  find_m fuel knots deg m0 = Ok m -> (m0 <= m)%nat.
Proof.
  induction fuel as [|fuel IH]; intros m0 m H; cbn [find_m] in H.
  - bind_inv H a Ha. bind_inv H c Hc.
    destruct (Qle_bool c a); [discriminate|]. injection H as <-. lia.
  - bind_inv H a Ha. bind_inv H c Hc.
    destruct (Qle_bool c a).
    + apply IH in H. lia.
    + injection H as <-. lia.
Qed.

Lemma len_chk_ok b : (degree b + 1 <= length (knots b))%nat -> len_chk b = Ok (len b).
Proof.
  intro H. unfold len_chk.
  now destruct (Nat.leb_spec (degree b + 1) (length (knots b))); [|lia].
Qed.

Lemma at_app_l (a c : list Q) i : (i < length a)%nat -> at_ (a ++ c) i = at_ a i.
Proof. intro H. unfold at_. now apply app_nth1. Qed.

Lemma at_app_r (a c : list Q) i : (length a <= i)%nat ->
  at_ (a ++ c) i = at_ c (i - length a).
Proof. intro H. unfold at_. now apply app_nth2. Qed.

Lemma at_repeat (v : Q) n i : (i < n)%nat -> at_ (repeat v n) i = v.
Proof. intro H. unfold at_. now apply nth_repeat_lt. Qed.







(** ** No check of the bounds *)

Lemma slice_incl {A} (l : list A) (a c : Z) : incl (slice l a c) l.
Proof.
  unfold slice. intros x Hx.
  set (a' := slice_bound (length l) a) in *.
  set (c' := slice_bound (length l) c) in *.
  rewrite <- (firstn_skipn a' l). apply in_or_app. right.
  rewrite <- (firstn_skipn (c' - a') (skipn a' l)). apply in_or_app. now left.
Qed.

(** C5, as the code has it: [crop_T] has no check of its bounds and
    raises nothing.  On a basis of at least [degree+1] knots, for every
    [min_value] and [max_value], inside [[knots[0], knots[-1]]] or not, it
    returns a matrix of [N] columns and a knot vector made of knots of
    the basis and of copies of the two bounds. *)
Theorem crop_T_no_domain_check (b : BSplineBasis) (min_value max_value : Q) :
  (degree b + 1 <= length (knots b))%nat ->
  exists T knots2,
    crop_T_chk b min_value max_value = Ok (T, knots2) /\
    Forall (fun row => length row = len b) T /\
    Forall (fun x => In x (knots b) \/ x = min_value \/ x = max_value) knots2.
Proof.
  intro Hlen. rewrite crop_T_chk_ok by exact Hlen.
  exists (fst (crop_T b min_value max_value)), (snd (crop_T b min_value max_value)).
  split; [now destruct (crop_T b min_value max_value)|].
  unfold crop_T. cbv zeta. cbn [fst snd].
  set (ts := repeat min_value _ ++ repeat max_value _).
  split.
  - destruct (knot_insertion_loop_shape (degree b) ts (len b) (knots b) (eye (len b)) (len b)
                (eye_shape _) (eye_ncols _)) as [[_ Sh] _].
    fold (knot_insertion_T b ts) in Sh.
    apply Forall_forall. intros row Hrow. apply slice_incl in Hrow.
    rewrite Forall_forall in Sh. now apply Sh.
  - apply Forall_forall. intros x Hx. apply slice_incl in Hx.
    assert (P : Permutation (snd (knot_insertion_T b ts)) (knots b ++ ts))
      by apply (knot_insertion_loop_knots (degree b) ts (len b) (knots b) (eye (len b))).
    apply (Permutation_in _ P) in Hx. apply in_app_or in Hx as [Hx|Hx]; [now left|].
    right. unfold ts in Hx. apply in_app_or in Hx as [Hx|Hx]; apply repeat_spec in Hx; auto.
Qed.

Lemma crop_T_no_domain_check_witness :
  exists T knots2,
    crop_T_chk (mkBasis [0; 0; 1; 2; 2] 1) (-1) 3 = Ok (T, knots2) /\
    Forall (fun row => length row = 3%nat) T /\
    Forall (fun x => In x [0; 0; 1; 2; 2] \/ x = -1 \/ x = 3) knots2.
Proof.
  apply (crop_T_no_domain_check (mkBasis [0; 0; 1; 2; 2] 1) (-1) 3). simpl. lia.
Defined.

(** Both bounds outside [[knots[0], knots[-1]] = [0, 2]]: [crop_T]
    returns the knots [-1, -1, 0, 0, 1, 2, 2, 3, 3] and a matrix of
    seven rows.  An extension of length [0]: [extrapolate_T] goes on to
    divide by the length of the new interval. *)
Lemma crop_T_outside_domain_returns :
  let b := mkBasis [0; 0; 1; 2; 2] 1 in
  -1 < at_ (knots b) 0 /\ at_ (knots b) 4 < 3 /\
  (exists T, crop_T_chk b (-1) 3 = Ok (T, [-1; -1; 0; 0; 1; 2; 2; 3; 3]) /\
             length T = 7%nat) /\
  extrapolate_T b 0 = Raise NonFinite.
Proof.
  cbv zeta. split; [reflexivity|]. split; [reflexivity|]. split; [|reflexivity].
  eexists. split; [vm_compute; reflexivity | reflexivity].
Qed.

(** ** Cropping at the lower bound *)

(** *** The value at a knot of full multiplicity *)

(** At a knot [x = k[p] = ... = k[p+deg]] that is not the first one, the
    half-open intervals put [x] at the right end of [(k[p-1], k[p]]]:
    function [p-1] is the only one that counts, and it is 1 there. *)
Lemma Bval_at_knot deg k x p :
  mono k -> (1 <= p)%nat -> (p + deg < length k)%nat -> at_ k (p - 1) < x ->
  (forall j, (p <= j)%nat -> (j <= p + deg)%nat -> at_ k j == x) ->
  forall d i, (d <= deg)%nat -> (i + d + 1 < length k)%nat ->
  Bval deg k x d i == if (i =? p - 1)%nat then 1 else 0.
Proof.
  intros Hm Hp Hl Hlo Hrun. induction d as [|d IH]; intros i Hd Hi.
  - cbn [Bval]. unfold B0, ind.
    pose proof (Hm 0%nat (p - 1)%nat ltac:(lia) ltac:(lia)) as M0.
    destruct (Nat.eqb_spec i (p - 1)) as [->|Ne].
    + pose proof (Hrun p ltac:(lia) ltac:(lia)) as Hp1.
      replace (p - 1 + 1)%nat with p by lia.
      destruct (_ && _); cmp_cases; lra.
    + destruct (Nat.lt_ge_cases i (p - 1)) as [L|G].
      * pose proof (Hm (i + 1)%nat (p - 1)%nat ltac:(lia) ltac:(lia)) as M1.
        destruct (_ && _); cmp_cases; lra.
      * pose proof (Hm p i ltac:(lia) ltac:(lia)) as M1.
        pose proof (Hrun p ltac:(lia) ltac:(lia)) as Hp1.
        destruct ((i <? deg + 1)%nat && Qeq_bool (at_ k 0) (at_ k i)) eqn:F.
        -- apply andb_true_iff in F as [_ F]. apply Qeq_bool_iff in F. lra.
        -- cmp_cases; lra.
  - rewrite Bval_S, (IH i), (IH (i + 1)%nat) by lia.
    destruct (Nat.eqb_spec i (p - 1)) as [->|Ne].
    + replace (p - 1 + 1 =? p - 1)%nat with false by (symmetry; apply Nat.eqb_neq; lia).
      unfold wl. replace (p - 1 + S d)%nat with (p + d)%nat by lia.
      pose proof (Hrun (p + d)%nat ltac:(lia) ltac:(lia)) as Hpd.
      cmp_cases; [|lra]. rewrite Hpd. field. lra.
    + destruct (Nat.eqb_spec (i + 1) (p - 1)) as [E|Ne'].
      * unfold wr. replace (i + S d + 1)%nat with (p + d)%nat by lia.
        pose proof (Hrun (p + d)%nat ltac:(lia) ltac:(lia)) as Hpd.
        cmp_cases; [|ring]. rewrite Hpd. field. rewrite <- Hpd. lra.
      * ring.
Qed.

(** At the first knot of a clamped basis, [x = k[0] = ... = k[deg]]:
    the first [deg+1] intervals are closed on the left, and function 0 is
    the only one that counts. *)
Lemma Bval_at_start deg k x :
  mono k -> (deg + 1 < length k)%nat ->
  (forall j, (j <= deg)%nat -> at_ k j == x) -> x < at_ k (deg + 1) ->
  forall d, (d <= deg)%nat ->
    Bval deg k x d (deg - d) == 1 /\
    forall i, (deg - d < i)%nat -> (i + d + 1 < length k)%nat -> Bval deg k x d i == 0.
Proof.
  intros Hm Hl Hrun Hhi. induction d as [|d IH]; intro Hd.
  - split.
    + cbn [Bval]. unfold B0, ind. rewrite Nat.sub_0_r.
      pose proof (Hrun 0%nat ltac:(lia)) as H0. pose proof (Hrun deg ltac:(lia)) as H1.
      replace (deg <? deg + 1)%nat with true by (symmetry; apply Nat.ltb_lt; lia).
      assert (F : Qeq_bool (at_ k 0) (at_ k deg) = true) by (apply Qeq_bool_iff; lra).
      rewrite F. cbn [andb]. cmp_cases; lra.
    + intros i Hi Hr. cbn [Bval]. unfold B0, ind.
      replace (i <? deg + 1)%nat with false by (symmetry; apply Nat.ltb_ge; lia).
      cbn [andb].
      pose proof (Hm (deg + 1)%nat i ltac:(lia) ltac:(lia)) as M1.
      cmp_cases; lra.
  - destruct (IH ltac:(lia)) as [I1 I0]. split.
    + rewrite Bval_S.
      replace (deg - S d + 1)%nat with (deg - d)%nat by lia. rewrite I1.
      unfold wl, wr.
      replace (deg - S d + S d)%nat with deg by lia.
      replace (deg - S d + S d + 1)%nat with (deg + 1)%nat by lia.
      replace (deg - S d + 1)%nat with (deg - d)%nat by lia.
      pose proof (Hrun deg ltac:(lia)) as H1.
      pose proof (Hrun (deg - S d)%nat ltac:(lia)) as H2.
      pose proof (Hrun (deg - d)%nat ltac:(lia)) as H3.
      cmp_cases; try lra.
      rewrite H3. field. lra.
    + intros i Hi Hr. rewrite Bval_S.
      rewrite (I0 (i + 1)%nat) by lia.
      destruct (Nat.eq_dec i (deg - d)) as [->|Ne].
      * rewrite I1. unfold wl.
        pose proof (Hrun (deg - d)%nat ltac:(lia)) as H3.
        cmp_cases; [|ring]. rewrite H3. field. rewrite <- H3. lra.
      * rewrite (I0 i) by lia. ring.
Qed.

Lemma evalspline_at_knot (s : BSpline) (x : Q) (p : nat) :
  let k := knots (basis s) in
  let deg := degree (basis s) in
  mono k -> (1 <= p)%nat -> (p + deg < length k)%nat -> at_ k (p - 1) < x ->
  (forall j, (p <= j)%nat -> (j <= p + deg)%nat -> at_ k j == x) ->
  evalspline s x == at_ (coeffs s) (p - 1).
Proof.
  intros k deg Hm Hp Hl Hlo Hrun. rewrite evalspline_sum. fold k deg.
  rewrite (sumQ_ext _ _ (fun l => if (l =? p - 1)%nat then at_ (coeffs s) l else 0)).
  - rewrite sumQ_single.
    replace (p - 1 <? len (basis s))%nat with true
      by (symmetry; apply Nat.ltb_lt; unfold len; fold k deg; lia).
    reflexivity.
  - intros l Hlen. unfold len in Hlen. fold k deg in Hlen.
    rewrite (Bval_at_knot deg k x p Hm Hp Hl Hlo Hrun) by lia.
    destruct (l =? p - 1)%nat; ring.
Qed.

Lemma evalspline_at_start (s : BSpline) (x : Q) :
  let k := knots (basis s) in
  let deg := degree (basis s) in
  mono k -> (deg + 2 <= length k)%nat ->
  (forall j, (j <= deg)%nat -> at_ k j == x) -> x < at_ k (deg + 1) ->
  evalspline s x == at_ (coeffs s) 0.
Proof.
  intros k deg Hm Hl Hrun Hhi. rewrite evalspline_sum. fold k deg.
  destruct (Bval_at_start deg k x Hm ltac:(lia) Hrun Hhi deg (Nat.le_refl _)) as [B1 B0].
  rewrite Nat.sub_diag in B1, B0.
  rewrite (sumQ_ext _ _ (fun l => if (l =? 0)%nat then at_ (coeffs s) l else 0)).
  - rewrite sumQ_single.
    replace (0 <? len (basis s))%nat with true
      by (symmetry; apply Nat.ltb_lt; unfold len; fold k deg; lia).
    reflexivity.
  - intros l Hlen. unfold len in Hlen. fold k deg in Hlen.
    destruct (Nat.eqb_spec l 0) as [->|Ne].
    + rewrite B1. ring.
    + rewrite (B0 l) by lia. ring.
Qed.

(** *** Coefficients that an insertion leaves alone *)

Lemma knot_insertion_loop_app deg : forall l1 l2 N k T,
  knot_insertion_loop deg (l1 ++ l2) N k T =
  knot_insertion_loop deg l2 (N + length l1)
    (snd (knot_insertion_loop deg l1 N k T)) (fst (knot_insertion_loop deg l1 N k T)).
Proof.
  induction l1 as [|a l1 IH]; intros l2 N k T.
  - cbn [app knot_insertion_loop length fst snd]. now rewrite Nat.add_0_r.
  - cbn [app knot_insertion_loop length]. rewrite IH.
    now replace (N + 1 + length l1)%nat with (N + S (length l1))%nat by lia.
Qed.

(** Row [j] keeps its coefficient when the new knot is above the
    support of function [j]. *)
Lemma insertion_keep k deg t N c j :
  (j < N)%nat -> at_ k j < t -> at_ k (j + deg) <= t ->
  at_ (dotv (insertion_matrix k deg t N) c) j == at_ c j.
Proof.
  intros Hj H1 H2. rewrite insertion_coeff by lia.
  replace (j <? N)%nat with true by (symmetry; apply Nat.ltb_lt; lia).
  unfold boehm_weight.
  destruct (j =? 0)%nat; cmp_cases; try lra; ring.
Qed.

(** Row [l] takes the coefficient before it when the new knot is not
    above [k[l]]. *)
Lemma insertion_copy k deg t N c l :
  (1 <= l)%nat -> (l <= N)%nat -> t <= at_ k l ->
  at_ (dotv (insertion_matrix k deg t N) c) l == at_ c (l - 1).
Proof.
  intros H1 H2 H3. rewrite insertion_coeff by lia.
  replace (l =? 0)%nat with false by (symmetry; apply Nat.eqb_neq; lia).
  unfold boehm_weight.
  destruct (l <? N)%nat; cmp_cases; try lra; ring.
Qed.

Lemma insert_sorted_before t k i : sortedb k = true -> (i < length k)%nat ->
  at_ k i < t -> at_ (insert_sorted t k) i = at_ k i.
Proof.
  intros Hs Hi Hlt. rewrite insert_sorted_split.
  assert (Q : (i < searchsorted_right k t)%nat).
  { destruct (Nat.lt_ge_cases i (searchsorted_right k t)) as [L|G]; [exact L|].
    pose proof (searchsorted_right_above k t Hs i G Hi). lra. }
  unfold at_. rewrite app_nth1.
  - rewrite nth_firstn.
    now replace (i <? searchsorted_right k t)%nat with true
      by (symmetry; apply Nat.ltb_lt; lia).
  - rewrite firstn_length_le by apply searchsorted_right_le. exact Q.
Qed.

Lemma insertion_state deg t N k T n0 :
  sortedb k = true -> length k = (N + deg + 1)%nat ->
  has_shape T N n0 -> ncols T = n0 ->
  sortedb (sorted (k ++ [t])) = true /\
  length (sorted (k ++ [t])) = (N + 1 + deg + 1)%nat /\
  has_shape (dot (insertion_matrix k deg t N) T) (N + 1) n0 /\
  ncols (dot (insertion_matrix k deg t N) T) = n0.
Proof.
  intros Hs HL HT Hn. split; [apply sorted_sortedb|]. split.
  - rewrite (Permutation_length (sorted_perm _)), length_app, HL. simpl. lia.
  - split.
    + apply dot_shape; [apply insertion_matrix_shape | exact Hn].
    + unfold dot, insertion_matrix. rewrite Nat.add_1_r. simpl.
      now rewrite length_map, length_seq.
Qed.

Lemma insertion_dotv deg t N k T n0 c0 l :
  has_shape T N n0 -> ncols T = n0 -> (l <= N)%nat ->
  at_ (dotv (dot (insertion_matrix k deg t N) T) c0) l ==
  at_ (dotv (insertion_matrix k deg t N) (dotv T c0)) l.
Proof.
  intros HT Hn Hl.
  pose proof (insertion_matrix_shape k deg t N) as HM.
  apply (dotv_dot _ _ _ N n0); auto.
  - destruct HM as [HM _]. rewrite HM. lia.
  - apply (has_shape_row _ _ _ l HM). lia.
Qed.

Lemma later_insertions_keep deg c0 j : forall ts N k T n0,
  sortedb k = true -> length k = (N + deg + 1)%nat ->
  has_shape T N n0 -> ncols T = n0 -> (j < N)%nat ->
  Forall (fun t => at_ k (j + deg) < t) ts ->
  at_ (dotv (fst (knot_insertion_loop deg ts N k T)) c0) j == at_ (dotv T c0) j /\
  forall i, (i <= j + deg)%nat -> at_ (snd (knot_insertion_loop deg ts N k T)) i = at_ k i.
Proof.
  induction ts as [|t ts IH]; intros N k T n0 Hs HL HT Hn Hj Hts.
  - cbn [knot_insertion_loop fst snd]. split; [reflexivity | auto].
  - cbn [knot_insertion_loop].
    inversion Hts as [|t' ts' Ht Hts']; subst t' ts'.
    destruct (insertion_state deg t N k T n0 Hs HL HT Hn) as [S1 [L1 [T1 C1]]].
    pose proof (sortedb_mono k Hs) as Hm.
    assert (Pos : forall i, (i <= j + deg)%nat -> at_ (sorted (k ++ [t])) i = at_ k i).
    { intros i Hi. rewrite sorted_snoc, (sorted_id k Hs).
      apply insert_sorted_before; [exact Hs | lia |].
      pose proof (Hm i (j + deg)%nat Hi ltac:(lia)). lra. }
    destruct (IH (N + 1)%nat _ _ n0 S1 L1 T1 C1 ltac:(lia)) as [E P].
    { rewrite (Pos (j + deg)%nat) by lia. exact Hts'. }
    split.
    + rewrite E, (insertion_dotv deg t N k T n0 c0 j HT Hn) by lia.
      apply insertion_keep; [exact Hj | | lra].
      pose proof (Hm j (j + deg)%nat ltac:(lia) ltac:(lia)). lra.
    + intros i Hi. rewrite (P i Hi). now apply Pos.
Qed.

Lemma count_lt_repeat_ge v t n : v <= t -> count_lt (repeat t n) v = 0%nat.
Proof.
  intro H. apply count_lt_none. apply Forall_forall. intros y Hy.
  apply repeat_spec in Hy. now subst y.
Qed.

(** After the insertions of [crop_T] the coefficient before the first
    copy of [mn] and the one at it are the same number, provided [mn] was
    there at most [deg] times: the curve is continuous at [mn]. *)
Lemma crop_continuous_at_min (b : BSplineBasis) (c0 : list Q) (mn mx : Q) :
  let k := knots b in
  let deg := degree b in
  let ts := repeat mn (deg + 1 - count_eq k mn) ++ repeat mx (deg + 1 - count_eq k mx) in
  let T := fst (knot_insertion_T b ts) in
  let k2 := snd (knot_insertion_T b ts) in
  let jmin := searchsorted_left k2 mn in
  sortedb k = true -> (deg + 1 <= length k)%nat ->
  at_ k 0 < mn -> mn < mx -> mx <= at_ k (length k - 1) ->
  (count_eq k mn <= deg)%nat ->
  (1 <= jmin)%nat /\ at_ (dotv T c0) (jmin - 1) == at_ (dotv T c0) jmin.
Proof.
  intros k deg ts T k2 jmin Hs Hd Hlo Hlt Hhi Hn.
  set (N := len b).
  assert (HL : length k = (N + deg + 1)%nat) by (unfold N, len; fold k deg; lia).
  set (a := (deg + 1 - count_eq k mn)%nat) in *.
  set (bb := (deg + 1 - count_eq k mx)%nat) in *.
  pose proof (sortedb_mono k Hs) as Hm.
  (* the state before the last copy of [mn] goes in *)
  set (l1 := repeat mn (a - 1)).
  set (T1 := fst (knot_insertion_loop deg l1 N k (eye N))).
  set (k1 := snd (knot_insertion_loop deg l1 N k (eye N))).
  set (N1 := (N + (a - 1))%nat).
  assert (Ll1 : length l1 = (a - 1)%nat) by apply repeat_length.
  assert (Ets : ts = l1 ++ [mn] ++ repeat mx bb).
  { unfold ts, l1. replace a with (S (a - 1)) at 1 by lia.
    cbn [repeat]. rewrite repeat_cons, <- app_assoc. reflexivity. }
  assert (P1 : Permutation k1 (k ++ l1))
    by apply (knot_insertion_loop_knots deg l1 N k (eye N)).
  assert (S1 : sortedb k1 = true).
  { destruct (knot_insertion_loop_knots deg l1 N k (eye N)) as [_ [S _]]. exact (S Hs). }
  destruct (knot_insertion_loop_shape deg l1 N k (eye N) N (eye_shape _) (eye_ncols _))
    as [Sh1 Nc1].
  fold T1 in Sh1, Nc1. rewrite Ll1 in Sh1. fold N1 in Sh1.
  assert (L1 : length k1 = (N1 + deg + 1)%nat).
  { rewrite (Permutation_length P1), length_app, Ll1, HL. unfold N1. lia. }
  pose proof (sortedb_mono k1 S1) as Hm1.
  set (p := searchsorted_left k mn).
  assert (Hp1 : (1 <= p)%nat).
  { destruct (Nat.eq_dec p 0) as [E|Ne]; [|lia]. exfalso.
    pose proof (searchsorted_left_above k mn Hs 0%nat ltac:(fold p; lia) ltac:(lia)). lra. }
  assert (SL1 : searchsorted_left k1 mn = p).
  { rewrite (searchsorted_left_count k1 mn S1), (count_lt_perm _ _ mn P1), count_lt_app.
    unfold l1. rewrite count_lt_repeat_ge by apply Qle_refl.
    rewrite <- (searchsorted_left_count k mn Hs). fold p. lia. }
  assert (C1 : count_eq k1 mn = deg).
  { rewrite (count_eq_perm _ _ mn P1), count_eq_app. unfold l1.
    rewrite count_eq_repeat. unfold a. lia. }
  assert (SR1 : searchsorted_right k1 mn = (p + deg)%nat).
  { pose proof (sorted_count k1 mn S1). lia. }
  assert (Last1 : mn < at_ k1 (length k1 - 1)).
  { assert (In (at_ k (length k - 1)) k1).
    { apply (Permutation_in _ (Permutation_sym P1)), in_or_app. left.
      apply nth_In. lia. }
    apply (In_nth _ _ 0) in H as [i [Hi Ei]]. fold (at_ k1 i) in Ei.
    pose proof (Hm1 i (length k1 - 1)%nat ltac:(lia) ltac:(lia)) as M.
    rewrite Ei in M. lra. }
  assert (Hp2 : (p + deg < length k1)%nat).
  { pose proof (searchsorted_right_le k1 mn).
    destruct (Nat.eq_dec (p + deg) (length k1)) as [E|Ne]; [|lia]. exfalso.
    pose proof (searchsorted_right_below k1 mn (length k1 - 1)%nat ltac:(lia)). lra. }
  assert (Below1 : at_ k1 (p - 1) < mn)
    by (apply searchsorted_left_below; lia).
  assert (Run1 : at_ k1 (p - 1 + deg) <= mn)
    by (apply searchsorted_right_below; lia).
  assert (At1 : mn <= at_ k1 p)
    by (apply (searchsorted_left_above k1 mn S1); lia).
  (* the last copy of [mn] *)
  destruct (insertion_state deg mn N1 k1 T1 N S1 L1 Sh1 Nc1) as [S2 [L2 [Sh2 Nc2]]].
  set (k1' := sorted (k1 ++ [mn])) in *.
  set (T1' := dot (insertion_matrix k1 deg mn N1) T1) in *.
  assert (Eq1 : at_ (dotv T1' c0) (p - 1) == at_ (dotv T1' c0) p).
  { unfold T1'.
    rewrite (insertion_dotv deg mn N1 k1 T1 N c0 (p - 1) Sh1 Nc1) by lia.
    rewrite (insertion_dotv deg mn N1 k1 T1 N c0 p Sh1 Nc1) by lia.
    rewrite insertion_keep by (lia || assumption).
    rewrite insertion_copy by (lia || assumption). reflexivity. }
  assert (Split1 : k1' = firstn (p + deg) k1 ++ mn :: skipn (p + deg) k1).
  { unfold k1'. rewrite sorted_snoc, (sorted_id k1 S1), insert_sorted_split, SR1.
    reflexivity. }
  assert (Lf : length (firstn (p + deg) k1) = (p + deg)%nat)
    by (apply firstn_length_le; lia).
  assert (At2 : at_ k1' (p + deg) = mn).
  { rewrite Split1. unfold at_. rewrite app_nth2, Lf, Nat.sub_diag by lia. reflexivity. }
  assert (At2' : at_ k1' (p - 1 + deg) <= mn).
  { rewrite Split1. unfold at_. rewrite app_nth1 by lia.
    rewrite nth_firstn.
    replace (p - 1 + deg <? p + deg)%nat with true by (symmetry; apply Nat.ltb_lt; lia).
    exact Run1. }
  (* the copies of [mx] *)
  assert (Loop : knot_insertion_T b ts =
                 knot_insertion_loop deg (repeat mx bb) (N1 + 1) k1' T1').
  { unfold knot_insertion_T. fold k deg N. rewrite Ets, knot_insertion_loop_app.
    fold T1 k1. rewrite Ll1. fold N1. reflexivity. }
  destruct (later_insertions_keep deg c0 (p - 1) (repeat mx bb) (N1 + 1)%nat k1' T1' N
              S2 L2 Sh2 Nc2 ltac:(lia)) as [K1 _].
  { apply Forall_forall. intros y Hy. apply repeat_spec in Hy. subst y. lra. }
  destruct (later_insertions_keep deg c0 p (repeat mx bb) (N1 + 1)%nat k1' T1' N
              S2 L2 Sh2 Nc2 ltac:(lia)) as [K2 _].
  { apply Forall_forall. intros y Hy. apply repeat_spec in Hy. subst y.
    rewrite At2. exact Hlt. }
  assert (J : jmin = p).
  { unfold jmin, k2.
    assert (P2 : Permutation (snd (knot_insertion_T b ts)) (k ++ ts))
      by apply (knot_insertion_loop_knots deg ts N k (eye N)).
    assert (Sk2 : sortedb (snd (knot_insertion_T b ts)) = true).
    { destruct (knot_insertion_loop_knots deg ts N k (eye N)) as [_ [S _]]. exact (S Hs). }
    rewrite (searchsorted_left_count _ mn Sk2), (count_lt_perm _ _ mn P2), count_lt_app.
    unfold ts. rewrite count_lt_app.
    rewrite count_lt_repeat_ge by apply Qle_refl.
    rewrite count_lt_repeat_ge by (apply Qlt_le_weak; exact Hlt).
    rewrite <- (searchsorted_left_count k mn Hs). fold p. lia. }
  rewrite J. split; [exact Hp1|].
  unfold T. rewrite Loop, K1, K2. exact Eq1.
Qed.

(** *** Cropping at the lower bound itself *)

Lemma count_eq_repeat_other v t n : ~ t == v -> count_eq (repeat t n) v = 0%nat.
Proof.
  intro H. apply count_eq_none. intros j Hj. rewrite repeat_length in Hj.
  unfold at_. now rewrite nth_repeat_lt by exact Hj.
Qed.

(** The cropped curve starts with [degree+1] knots at [min_value]; its
    value there is its first coefficient. *)
Lemma crop_value_at_min (s : BSpline) (mn mx x : Q) :
  let k := knots (basis s) in
  let deg := degree (basis s) in
  let ts := repeat mn (deg + 1 - count_eq k mn) ++ repeat mx (deg + 1 - count_eq k mx) in
  let T := fst (knot_insertion_T (basis s) ts) in
  let k2 := snd (knot_insertion_T (basis s) ts) in
  let jmin := searchsorted_left k2 mn in
  sortedb k = true -> (deg + 1 <= length k)%nat -> mn < mx -> x == mn ->
  (count_eq k mn <= deg + 1)%nat ->
  evalspline (crop s mn mx) x == at_ (dotv T (coeffs s)) jmin.
Proof.
  intros k deg ts T k2 jmin Hs Hd Hlt Hx Hn.
  destruct (crop_layout (basis s) mn mx Hs Hlt) as (S2 & L2 & J & Jmax & Rmin & Rmax).
  fold k deg ts k2 jmin in S2, L2, J, Jmax, Rmin, Rmax.
  set (jmax := searchsorted_right k2 mx) in *.
  assert (HT : length T = (len (basis s) + length ts)%nat).
  { apply (knot_insertion_loop_shape deg ts (len (basis s)) k (eye (len (basis s)))
             (len (basis s))); [apply eye_shape | apply eye_ncols]. }
  assert (HN2 : length T = (length k2 - deg - 1)%nat).
  { rewrite HT, L2. unfold len. fold k deg. lia. }
  pose proof (sortedb_mono k2 S2) as M2.
  assert (C2 : count_eq k2 mn = (deg + 1)%nat).
  { assert (P : Permutation k2 (k ++ ts))
      by apply (knot_insertion_loop_knots deg ts (len (basis s)) k (eye (len (basis s)))).
    rewrite (count_eq_perm _ _ mn P), count_eq_app. unfold ts.
    rewrite count_eq_app, count_eq_repeat, count_eq_repeat_other by lra. lia. }
  assert (R2 : searchsorted_right k2 mn = (jmin + (deg + 1))%nat).
  { pose proof (sorted_count k2 mn S2). fold jmin in H. lia. }
  unfold crop, crop_T. cbv zeta. cbn [fst snd basis knots degree coeffs].
  fold k deg ts T k2 jmin jmax.
  replace (Z.of_nat jmax - Z.of_nat deg - 1)%Z with (Z.of_nat (jmax - deg - 1)) by lia.
  rewrite (slice_nat T) by lia.
  rewrite (slice_nat k2) by lia.
  set (kc := firstn (jmax - jmin) (skipn jmin k2)).
  assert (Lc : length kc = (jmax - jmin)%nat) by (apply length_slice; lia).
  assert (Ac : forall i, (i < jmax - jmin)%nat -> at_ kc i = at_ k2 (jmin + i)).
  { intros i Hi. unfold kc, at_. now apply nth_slice. }
  rewrite (evalspline_at_start _ x); cbn [basis knots degree coeffs].
  - rewrite (dotv_slice T (coeffs s) jmin (jmax - deg - 1) 0) by lia.
    now rewrite Nat.add_0_r.
  - intros i j Hij Hj. rewrite Lc in Hj. rewrite !Ac by lia. apply M2; lia.
  - lia.
  - intros j Hj. rewrite Ac by lia. rewrite Rmin by lia. now symmetry.
  - rewrite Ac by lia. rewrite Hx.
    apply (searchsorted_right_above k2 mn S2); lia.
Qed.

(** At [x = min_value] the crop is still exact where the curve is
    continuous ([min_value] above the first knot and at most [degree]
    times among the knots), and at the first knot of a basis that is
    clamped there. *)
Lemma crop_exact_at_min (s : BSpline) (mn mx x : Q) :
  let k := knots (basis s) in
  let deg := degree (basis s) in
  sortedb k = true -> (deg + 1 <= length k)%nat ->
  mn < mx -> mx <= at_ k (length k - 1) -> x == mn ->
  (at_ k 0 < mn /\ (count_eq k mn <= deg)%nat) \/
  (at_ k 0 == mn /\ count_eq k mn = (deg + 1)%nat) ->
  evalspline (crop s mn mx) x == evalspline s x.
Proof.
  intros k deg Hs Hd Hlt Hhi Hx Hc.
  pose proof (sortedb_mono k Hs) as Hm.
  set (ts := repeat mn (deg + 1 - count_eq k mn) ++ repeat mx (deg + 1 - count_eq k mx)).
  assert (Hn1 : (count_eq k mn <= deg + 1)%nat) by (destruct Hc as [[_ C]|[_ C]]; lia).
  pose proof (crop_value_at_min s mn mx x Hs Hd Hlt Hx Hn1) as V. cbv zeta in V.
  rewrite V. clear V. fold k deg ts.
  destruct Hc as [[Hlo Hn]|[H0 Hn]].
  - (* continuity at an inner knot *)
    pose proof (crop_continuous_at_min (basis s) (coeffs s) mn mx Hs Hd Hlo Hlt Hhi Hn) as C.
    cbv zeta in C. destruct C as [J1 E].
    fold k deg ts in J1, E. rewrite <- E.
    rewrite <- (knot_insertion_T_values s ts x Hs Hd) by (right; fold k; lra).
    destruct (crop_layout (basis s) mn mx Hs Hlt) as (S2 & L2 & J & Jmax & Rmin & Rmax).
    fold k deg ts in S2, L2, J, Jmax, Rmin, Rmax.
    set (k2 := snd (knot_insertion_T (basis s) ts)) in *.
    set (jmin := searchsorted_left k2 mn) in *.
    rewrite (evalspline_at_knot _ x jmin); cbn [basis knots degree coeffs].
    + reflexivity.
    + now apply sortedb_mono.
    + exact J1.
    + lia.
    + rewrite Hx. apply searchsorted_left_below. lia.
    + intros j H1 H2. rewrite Rmin by lia. now symmetry.
  - (* the first knot of a clamped basis *)
    assert (L0 : searchsorted_left k mn = 0%nat).
    { destruct k as [|y r] eqn:Ek; [reflexivity|].
      cbn [searchsorted_left]. unfold at_ in H0. cbn [nth] in H0.
      assert (F : Qltb y mn = false) by (apply Qltb_ge; lra). now rewrite F. }
    assert (R0 : searchsorted_right k mn = (deg + 1)%nat).
    { pose proof (sorted_count k mn Hs). lia. }
    assert (Hl : (deg + 2 <= length k)%nat).
    { destruct (Nat.le_gt_cases (deg + 2) (length k)) as [L|G]; [exact L|]. exfalso.
      pose proof (searchsorted_right_below k mn (length k - 1)%nat ltac:(lia)). lra. }
    assert (Run : forall j, (j <= deg)%nat -> at_ k j == mn).
    { intros j Hj. apply (sorted_count_run k mn j Hs); lia. }
    assert (Up : mn < at_ k (deg + 1))
      by (apply (searchsorted_right_above k mn Hs); lia).
    rewrite (evalspline_at_start s x); fold k deg;
      [ | exact Hm | exact Hl | intros j Hj; rewrite (Run j Hj); now symmetry
        | rewrite Hx; exact Up ].
    assert (Ets : ts = repeat mx (deg + 1 - count_eq k mx)).
    { unfold ts. rewrite Hn, Nat.sub_diag. reflexivity. }
    assert (J0 : searchsorted_left (snd (knot_insertion_T (basis s) ts)) mn = 0%nat).
    { assert (P : Permutation (snd (knot_insertion_T (basis s) ts)) (k ++ ts))
        by apply (knot_insertion_loop_knots deg ts (len (basis s)) k (eye (len (basis s)))).
      assert (S2 : sortedb (snd (knot_insertion_T (basis s) ts)) = true).
      { destruct (knot_insertion_loop_knots deg ts (len (basis s)) k (eye (len (basis s))))
          as [_ [S _]]. exact (S Hs). }
      rewrite (searchsorted_left_count _ mn S2), (count_lt_perm _ _ mn P), count_lt_app.
      rewrite <- (searchsorted_left_count k mn Hs), L0, Ets.
      rewrite count_lt_repeat_ge by (apply Qlt_le_weak; exact Hlt). reflexivity. }
    rewrite J0.
    destruct (later_insertions_keep deg (coeffs s) 0 ts (len (basis s)) k (eye (len (basis s)))
                (len (basis s)) Hs) as [K _].
    + unfold len. fold k deg. lia.
    + apply eye_shape.
    + apply eye_ncols.
    + unfold len. fold k deg. lia.
    + rewrite Ets. apply Forall_forall. intros y Hy. apply repeat_spec in Hy. subst y.
      cbn [Nat.add]. rewrite (Run deg) by lia. exact Hlt.
    + unfold knot_insertion_T. fold k deg. rewrite K.
      apply dotv_eye. unfold len. fold k deg. lia.
Qed.

(** *** Cropping to a single point *)

Lemma searchsorted_right_Qeq a u v : u == v ->
  searchsorted_right a u = searchsorted_right a v.
Proof.
  intro H. induction a as [|y r IH]; [reflexivity|].
  cbn [searchsorted_right]. rewrite IH.
  destruct (Qle_bool y u) eqn:E1, (Qle_bool y v) eqn:E2; try reflexivity; exfalso.
  - apply Qle_bool_iff in E1. apply Qle_bool_gt in E2. lra.
  - apply Qle_bool_gt in E1. apply Qle_bool_iff in E2. lra.
Qed.

Lemma count_eq_Qeq a u v : u == v -> count_eq a u = count_eq a v.
Proof.
  intro H. induction a as [|y r IH]; [reflexivity|].
  rewrite !count_eq_cons, IH.
  destruct (Qeq_bool y u) eqn:E1, (Qeq_bool y v) eqn:E2; try reflexivity; exfalso.
  - apply Qeq_bool_iff in E1. apply Qeq_bool_neq in E2. apply E2. lra.
  - apply Qeq_bool_neq in E1. apply Qeq_bool_iff in E2. apply E1. lra.
Qed.

(** With [min_value = max_value] the knots that [crop_T] keeps are the
    copies of that value, and there are [degree+1] of them and as many
    again as were missing to [degree+1]. *)
Lemma crop_point_layout (b : BSplineBasis) (mn mx : Q) :
  sortedb (knots b) = true -> mn == mx ->
  let c := count_eq (knots b) mn in
  let ts := repeat mn (degree b + 1 - count_eq (knots b) mn) ++
            repeat mx (degree b + 1 - count_eq (knots b) mx) in
  let k2 := snd (knot_insertion_T b ts) in
  let jmin := searchsorted_left k2 mn in
  let jmax := searchsorted_right k2 mx in
  sortedb k2 = true /\
  jmax = (jmin + (c + 2 * (degree b + 1 - c)))%nat /\
  (jmax <= length k2)%nat /\
  (forall j, (jmin <= j)%nat -> (j < jmax)%nat -> at_ k2 j == mn).
Proof.
  intros Hs He c ts k2 jmin jmax.
  destruct (knot_insertion_loop_knots (degree b) ts (len b) (knots b) (eye (len b)))
    as [P [S _]].
  fold (knot_insertion_T b ts) in P, S. fold k2 in P, S. specialize (S Hs).
  assert (Ec : count_eq (knots b) mx = c) by (symmetry; now apply count_eq_Qeq).
  assert (C2 : count_eq k2 mn = (c + 2 * (degree b + 1 - c))%nat).
  { rewrite (count_eq_perm _ _ mn P). unfold ts.
    rewrite !count_eq_app, Ec. fold c.
    rewrite count_eq_repeat, (count_eq_Qeq _ mn mx He), count_eq_repeat. lia. }
  assert (J : jmax = searchsorted_right k2 mn)
    by (unfold jmax; symmetry; now apply searchsorted_right_Qeq).
  pose proof (sorted_count k2 mn S) as SC. fold jmin in SC. rewrite <- J, C2 in SC.
  split; [exact S|]. split; [lia|].
  split; [apply searchsorted_right_le|].
  intros j H1 H2. apply (sorted_count_run k2 mn j S); [exact H1 | now rewrite <- J].
Qed.

(** On knots that are all the same number, every basis function of a
    degree of 1 or more is 0 everywhere: both quotients of the recursion
    have a zero denominator and are skipped. *)
Lemma Bval_point deg k v x :
  (forall j, (j < length k)%nat -> at_ k j == v) ->
  forall d i, (1 <= d)%nat -> (i + d + 1 < length k)%nat -> Bval deg k x d i == 0.
Proof.
  intros H d i Hd Hi. destruct d as [|d]; [lia|]. cbn [Bval].
  pose proof (H i ltac:(lia)) as E0.
  pose proof (H (i + S d)%nat ltac:(lia)) as E1.
  pose proof (H (i + 1)%nat ltac:(lia)) as E2.
  pose proof (H (i + S d + 1)%nat ltac:(lia)) as E3.
  assert (F1 : Qneqb (at_ k (i + S d) - at_ k i) 0 = false)
    by (apply Qneqb_false; rewrite E0, E1; ring).
  assert (F2 : Qneqb (at_ k (i + S d + 1) - at_ k (i + 1)) 0 = false)
    by (apply Qneqb_false; rewrite E2, E3; ring).
  rewrite F1, F2. ring.
Qed.

(** A crop to a single point that is not exact: for a degree of 1 or
    more the cropped curve is 0 everywhere, and so it is for degree 0
    when the point is a knot of the basis (once), where the crop keeps
    one knot and no coefficient. *)
Lemma crop_point_zero (s : BSpline) (mn mx x : Q) :
  sortedb (knots (basis s)) = true -> mn == mx ->
  (1 <= degree (basis s))%nat \/ count_eq (knots (basis s)) mn = 1%nat ->
  evalspline (crop s mn mx) x == 0.
Proof.
  intros Hs He Hd.
  destruct (crop_point_layout (basis s) mn mx Hs He) as (S2 & J & Jmax & Run).
  unfold crop, crop_T. cbv zeta. cbn [fst snd basis knots degree coeffs].
  set (deg := degree (basis s)) in *.
  set (c := count_eq (knots (basis s)) mn) in *.
  set (ts := repeat mn (deg + 1 - c) ++
             repeat mx (deg + 1 - count_eq (knots (basis s)) mx)) in *.
  set (T := fst (knot_insertion_T (basis s) ts)).
  set (k2 := snd (knot_insertion_T (basis s) ts)) in *.
  set (jmin := searchsorted_left k2 mn) in *.
  set (jmax := searchsorted_right k2 mx) in *.
  rewrite (slice_nat k2) by lia.
  set (kc := firstn (jmax - jmin) (skipn jmin k2)).
  assert (Lc : length kc = (jmax - jmin)%nat) by (apply length_slice; lia).
  rewrite evalspline_sum. cbn [basis knots degree coeffs].
  apply sumQ_zero. intros l Hl. unfold len in Hl. cbn [knots degree] in Hl.
  rewrite Lc in Hl.
  destruct (Nat.le_gt_cases 1 deg) as [Hd1|Hd0]; [|lia].
  rewrite (Bval_point deg kc mn x); [ring | | exact Hd1 | lia].
  intros j Hj. rewrite Lc in Hj. unfold kc, at_. rewrite nth_slice by lia.
  apply Run; lia.
Qed.

(** A crop to a single point that is exact: a spline of degree 0 and a
    point inside the knot range that is not a knot.  The two copies of
    the point that go in leave one interval [[v, v]], closed as a first
    interval is, with the coefficient of the interval that [v] was in. *)
Lemma crop_exact_point (s : BSpline) (mn mx x : Q) :
  let k := knots (basis s) in
  sortedb k = true -> (1 <= length k)%nat ->
  degree (basis s) = 0%nat -> count_eq k mn = 0%nat ->
  at_ k 0 <= mn -> mn == mx -> mx <= at_ k (length k - 1) -> x == mn ->
  evalspline (crop s mn mx) x == evalspline s x /\
  at_ (knots (basis (crop s mn mx))) 0 == mn /\
  at_ (knots (basis (crop s mn mx)))
      (length (knots (basis (crop s mn mx))) - 1) == mx.
Proof.
  intros k Hs Hl Hdeg Hc Hlo He Hhi Hx.
  pose proof (sortedb_mono k Hs) as Hm.
  destruct (crop_point_layout (basis s) mn mx Hs He) as (S2 & J & Jmax & Run).
  fold k in J, Run, S2, Jmax.
  assert (Hc' : count_eq k mx = 0%nat) by (rewrite <- Hc; symmetry; now apply count_eq_Qeq).
  rewrite Hdeg, Hc, Hc' in S2, J, Jmax, Run.
  cbn [Nat.add Nat.sub Nat.mul repeat app] in S2, J, Jmax, Run.
  (* where [mn] falls in the knots *)
  set (p := searchsorted_left k mn).
  pose proof (sorted_count k mn Hs) as SC. fold p in SC. rewrite Hc, Nat.add_0_r in SC.
  assert (Hp1 : (1 <= p)%nat).
  { destruct (Nat.eq_dec p 0) as [E|Ne]; [|lia]. exfalso.
    pose proof (searchsorted_right_above k mn Hs 0%nat ltac:(lia) ltac:(lia)). lra. }
  assert (Hp2 : (p < length k)%nat).
  { pose proof (searchsorted_left_le k mn). fold p in H.
    destruct (Nat.eq_dec p (length k)) as [E|Ne]; [|lia]. exfalso.
    pose proof (searchsorted_left_below k mn (length k - 1)%nat ltac:(fold p; lia)). lra. }
  set (N := len (basis s)).
  assert (HL : length k = (N + 0 + 1)%nat) by (unfold N, len; fold k; rewrite Hdeg; lia).
  (* the two insertions *)
  destruct (insertion_state 0 mn N k (eye N) N Hs HL (eye_shape N) (eye_ncols N))
    as [S1 [L1 [Sh1 Nc1]]].
  set (k1 := sorted (k ++ [mn])) in *.
  set (T1 := dot (insertion_matrix k 0 mn N) (eye N)) in *.
  destruct (insertion_state 0 mx (N + 1) k1 T1 N S1 L1 Sh1 Nc1) as [_ [L2 [Sh2 _]]].
  assert (Loop : knot_insertion_T (basis s) [mn; mx] =
                 (dot (insertion_matrix k1 0 mx (N + 1)) T1, sorted (k1 ++ [mx]))).
  { unfold knot_insertion_T. rewrite Hdeg. reflexivity. }
  rewrite Loop in S2, J, Jmax, Run. cbn [fst snd] in S2, J, Jmax, Run.
  set (k2 := sorted (k1 ++ [mx])) in *.
  set (T2 := dot (insertion_matrix k1 0 mx (N + 1)) T1) in *.
  assert (SL1 : searchsorted_left k1 mn = p).
  { rewrite (searchsorted_left_count k1 mn S1),
      (count_lt_perm k1 (k ++ [mn]) mn (sorted_perm _)), count_lt_app.
    change [mn] with (repeat mn 1). rewrite (count_lt_repeat_ge mn mn 1) by apply Qle_refl.
    rewrite <- (searchsorted_left_count k mn Hs). fold p. lia. }
  assert (Below1 : at_ k1 (p - 1) < mn) by (apply searchsorted_left_below; lia).
  assert (At1 : mn <= at_ k1 p) by (apply (searchsorted_left_above k1 mn S1); lia).
  assert (Jmin : searchsorted_left k2 mn = p).
  { rewrite (searchsorted_left_count k2 mn S2),
      (count_lt_perm k2 (k1 ++ [mx]) mn (sorted_perm _)), count_lt_app.
    change [mx] with (repeat mx 1). rewrite (count_lt_repeat_ge mn mx 1) by lra.
    rewrite <- (searchsorted_left_count k1 mn S1). lia. }
  rewrite Jmin in J, Run.
  assert (Below2 : at_ k2 (p - 1) < mn) by (apply searchsorted_left_below; lia).
  pose proof (sortedb_mono k2 S2) as Hm2.
  (* the coefficient before [mn] and the coefficient at it *)
  set (c' := dotv T1 (coeffs s)).
  assert (Keep : at_ (dotv T2 (coeffs s)) (p - 1) == at_ c' (p - 1)).
  { unfold T2. rewrite (insertion_dotv 0 mx (N + 1) k1 T1 N (coeffs s) (p - 1) Sh1 Nc1) by lia.
    fold c'. apply insertion_keep; [lia | lra |].
    replace (p - 1 + 0)%nat with (p - 1)%nat by lia. lra. }
  assert (Copy : at_ (dotv T2 (coeffs s)) p == at_ c' (p - 1)).
  { unfold T2. rewrite (insertion_dotv 0 mx (N + 1) k1 T1 N (coeffs s) p Sh1 Nc1) by lia.
    fold c'. apply insertion_copy; [lia | lia | lra]. }
  (* the crop *)
  unfold crop, crop_T. cbv zeta. cbn [fst snd basis knots degree coeffs].
  fold k. rewrite Hdeg, Hc, Hc'. cbn [Nat.add Nat.sub repeat app].
  rewrite Loop. cbn [fst snd]. fold k2 T2. rewrite Jmin, J.
  replace (Z.of_nat (p + 2) - Z.of_nat 0 - 1)%Z with (Z.of_nat (p + 1)) by lia.
  destruct Sh2 as [LT2 _].
  rewrite (slice_nat T2) by lia.
  rewrite (slice_nat k2) by lia.
  replace (p + 1 - p)%nat with 1%nat by lia. replace (p + 2 - p)%nat with 2%nat by lia.
  set (kc := firstn 2 (skipn p k2)).
  assert (Lc : length kc = 2%nat).
  { unfold kc. rewrite length_firstn, length_skipn. lia. }
  assert (Ac : forall i, (i < 2)%nat -> at_ kc i == mn).
  { intros i Hi. unfold kc, at_.
    rewrite nth_firstn, nth_skipn.
    replace (i <? 2)%nat with true by (symmetry; apply Nat.ltb_lt; lia).
    apply Run; lia. }
  split; [|split].
  - rewrite evalspline_sum. cbn [basis knots degree coeffs]. unfold len. cbn [knots degree].
    rewrite Lc. cbn [Nat.sub sumQ Bval].
    assert (B : B0 0 kc x 0 == 1).
    { unfold B0, ind. cbn [Nat.add Nat.ltb Nat.leb andb].
      pose proof (Ac 0%nat ltac:(lia)) as A0. pose proof (Ac 1%nat ltac:(lia)) as A1.
      rewrite Qeq_bool_refl. cmp_cases; lra. }
    rewrite B.
    replace 1%nat with (p + 1 - p)%nat at 1 by lia.
    rewrite (dotv_slice T2 (coeffs s) p (p + 1) 0) by lia.
    rewrite Nat.add_0_r, Copy, <- Keep.
    rewrite <- (knot_insertion_T_values s [mn; mx] x Hs) by
      (try (rewrite Hdeg; exact Hl); left; repeat constructor; fold k;
       pose proof (Hm 0%nat (p - 1)%nat ltac:(lia) ltac:(lia));
       pose proof (searchsorted_left_below k mn (p - 1)%nat ltac:(fold p; lia)); lra).
    rewrite Loop. cbn [fst snd]. fold k2 T2. rewrite Hdeg.
    rewrite (evalspline_at_knot _ x p); cbn [basis knots degree coeffs].
    + ring.
    + exact Hm2.
    + exact Hp1.
    + lia.
    + lra.
    + intros j H1 H2. rewrite Run by lia. now symmetry.
  - cbn [basis knots]. apply (Ac 0%nat). lia.
  - cbn [basis knots]. rewrite Lc. rewrite (Ac 1%nat) by lia. exact He.
Qed.

(** C2, as the code has it.  For non-decreasing knots and
    [knots[0] <= min_value < max_value <= knots[-1]], the cropped curve
    evaluates at every [x] with [min_value < x <= max_value] to what the
    original evaluates to, and at [x = min_value] too where the curve is
    continuous ([min_value] above the first knot and at most [degree]
    times among the knots) or starts ([min_value] the first knot, which
    is there [degree+1] times); its knot vector starts at [min_value] and
    ends at [max_value].  The same holds for a crop to a single point,
    [min_value = max_value = x], of a spline of degree 0 at a point that
    is not a knot. *)
Theorem crop_exact (s : BSpline) (min_value max_value x : Q) :
  let k := knots (basis s) in
  let deg := degree (basis s) in
  sortedb k = true ->
  (deg + 1 <= length k)%nat ->
  length (coeffs s) = len (basis s) ->
  at_ k 0 <= min_value ->
  min_value < max_value \/
  (min_value == max_value /\ deg = 0%nat /\ count_eq k min_value = 0%nat) ->
  max_value <= at_ k (length k - 1) ->
  x <= max_value ->
  min_value < x \/
  (x == min_value /\
   ((at_ k 0 < min_value /\ (count_eq k min_value <= deg)%nat) \/
    (at_ k 0 == min_value /\ count_eq k min_value = (deg + 1)%nat))) ->
  evalspline (crop s min_value max_value) x == evalspline s x /\
  at_ (knots (basis (crop s min_value max_value))) 0 == min_value /\
  at_ (knots (basis (crop s min_value max_value)))
      (length (knots (basis (crop s min_value max_value))) - 1) == max_value.
Proof.
  intros k deg Hs Hd Hc Hmin [Hlt|(He & Hdeg & Hn)] Hmax Hx2 Hx1.
  - destruct (crop_exact_inside s min_value max_value max_value Hs Hd Hc Hmin Hlt Hmax Hlt
                (Qle_refl _)) as [_ Hk].
    split; [|exact Hk].
    destruct Hx1 as [Hx1|[Hx1 Hcont]].
    + now apply (crop_exact_inside s min_value max_value x Hs Hd Hc Hmin Hlt Hmax Hx1 Hx2).
    + now apply crop_exact_at_min.
  - assert (Hx : x == min_value) by (destruct Hx1 as [Hx1|[Hx1 _]]; [lra | exact Hx1]).
    apply crop_exact_point; auto. fold k deg. lia.
Qed.

(** Inside the interval, at an inner lower bound, at the first knot,
    and a crop of a step function to a single point. *)
Lemma crop_exact_witness :
  let s := mkSpline (mkBasis [0; 0; 0; 0; 1; 2; 3; 3; 3; 3] 3) [1; 3; 2; 5; 4; 6] in
  let s0 := mkSpline (mkBasis [0; 1; 2] 0) [4; 5] in
  (evalspline (crop s (1 # 2) (5 # 2)) (6 # 5) == evalspline s (6 # 5) /\
   at_ (knots (basis (crop s (1 # 2) (5 # 2)))) 0 == 1 # 2 /\
   at_ (knots (basis (crop s (1 # 2) (5 # 2))))
       (length (knots (basis (crop s (1 # 2) (5 # 2)))) - 1) == 5 # 2) /\
  evalspline (crop s 1 (5 # 2)) 1 == evalspline s 1 /\
  evalspline (crop s 0 2) 0 == evalspline s 0 /\
  evalspline (crop s0 (3 # 2) (3 # 2)) (3 # 2) == evalspline s0 (3 # 2).
Proof.
  cbv zeta. split; [|split; [|split]].
  - apply (crop_exact
             (mkSpline (mkBasis [0; 0; 0; 0; 1; 2; 3; 3; 3; 3] 3) [1; 3; 2; 5; 4; 6])
             (1 # 2) (5 # 2) (6 # 5));
      try (left; reflexivity); vm_compute; (reflexivity || lia || discriminate).
  - apply (crop_exact
             (mkSpline (mkBasis [0; 0; 0; 0; 1; 2; 3; 3; 3; 3] 3) [1; 3; 2; 5; 4; 6])
             1 (5 # 2) 1);
      try (left; reflexivity);
      try (right; split; [reflexivity | left; split; [reflexivity | vm_compute; lia]]);
      vm_compute; (reflexivity || lia || discriminate).
  - apply (crop_exact
             (mkSpline (mkBasis [0; 0; 0; 0; 1; 2; 3; 3; 3; 3] 3) [1; 3; 2; 5; 4; 6])
             0 2 0);
      try (left; reflexivity);
      try (right; split; [reflexivity | right; split; reflexivity]);
      vm_compute; (reflexivity || lia || discriminate).
  - apply (crop_exact (mkSpline (mkBasis [0; 1; 2] 0) [4; 5]) (3 # 2) (3 # 2) (3 # 2));
      try (right; split; [reflexivity | split; reflexivity]);
      try (right; split; [reflexivity | left; split; [reflexivity | vm_compute; lia]]);
      vm_compute; (reflexivity || lia || discriminate).
Defined.

(** The claim as the specification words it fails at [x = min_value] in
    these ways.  A crop to a single point, [min_value = max_value], of a
    spline of degree 1 has no interval left and evaluates to 0 (the first
    spline), and so does one of a spline of degree 0 at a knot, which
    keeps no coefficient (the third).  With [min_value < max_value] and
    [min_value] a knot of multiplicity [degree+1], where the curve may
    jump, the crop starts with the value after the jump, and [evalspline]
    gives the original its value before the jump (the second). *)
Lemma crop_at_min_value :
  let s := mkSpline (mkBasis [0; 0; 1; 1] 1) [1; 1] in
  let s' := mkSpline (mkBasis [0; 0; 1; 1; 2; 2] 1) [1; 2; 5; 7] in
  let s0 := mkSpline (mkBasis [0; 1; 2] 0) [4; 5] in
  (at_ (knots (basis s)) 0 <= 1 # 2 /\ 1 # 2 <= at_ (knots (basis s)) 3 /\
   evalspline s (1 # 2) == 1 /\
   evalspline (crop s (1 # 2) (1 # 2)) (1 # 2) == 0 /\
   ~ evalspline (crop s (1 # 2) (1 # 2)) (1 # 2) == evalspline s (1 # 2)) /\
  (at_ (knots (basis s')) 0 <= 1 /\ 1 < 2 /\ 2 <= at_ (knots (basis s')) 5 /\
   evalspline s' 1 == 2 /\
   evalspline (crop s' 1 2) 1 == 5 /\
   ~ evalspline (crop s' 1 2) 1 == evalspline s' 1) /\
  (at_ (knots (basis s0)) 0 <= 1 /\ 1 <= at_ (knots (basis s0)) 2 /\
   evalspline s0 1 == 4 /\
   evalspline (crop s0 1 1) 1 == 0 /\
   ~ evalspline (crop s0 1 1) 1 == evalspline s0 1).
Proof.
  vm_compute. repeat split; try reflexivity; discriminate.
Qed.

(** ** More on [evalspline]: sign, bounds and support *)

Lemma ind_nonneg f : 0 <= ind f.
Proof. destruct f; simpl; lra. Qed.

(** The values of the table are never negative. *)
Lemma Bval_nonneg deg k x : mono k ->
  forall d i, (i + d + 1 < length k)%nat -> 0 <= Bval deg k x d i.
Proof.
  intros Hm. induction d as [|d IH]; intros i Hi.
  - cbn [Bval]. unfold B0.
    destruct (_ && _); apply Qmult_le_0_compat; apply ind_nonneg.
  - rewrite Bval_S.
    assert (L : 0 <= wl k x (S d) i * Bval deg k x d i).
    { destruct (Qlt_le_dec x (at_ k i)) as [Lx|Gx].
      - rewrite (Bval_zero_left deg k x d i) by (auto; try lia; lra). lra.
      - apply Qmult_le_0_compat; [|apply IH; lia].
        unfold wl. cmp_cases; [|lra].
        pose proof (Hm i (i + S d)%nat ltac:(lia) ltac:(lia)) as M.
        apply Qle_shift_div_l; lra. }
    assert (R : 0 <= wr k x (S d) i * Bval deg k x d (i + 1)).
    { destruct (Qlt_le_dec (at_ k (i + S d + 1)) x) as [Lx|Gx].
      - rewrite (Bval_zero_right deg k x d (i + 1)); [lra | auto | lia |].
        now replace (i + 1 + d + 1)%nat with (i + S d + 1)%nat by lia.
      - apply Qmult_le_0_compat; [|apply IH; lia].
        unfold wr. cmp_cases; [|lra].
        pose proof (Hm (i + 1)%nat (i + S d + 1)%nat ltac:(lia) ltac:(lia)) as M.
        apply Qle_shift_div_l; lra. }
    lra.
Qed.

(** On [(knots[degree], knots[N]]] the basis functions add up to 1. *)
Lemma Bval_sum_one (b : BSplineBasis) (x : Q) :
  mono (knots b) -> (1 <= len b)%nat ->
  at_ (knots b) (degree b) < x -> x <= at_ (knots b) (len b) ->
  sumQ (len b) (fun l => Bval (degree b) (knots b) x (degree b) l) == 1.
Proof.
  intros Hs HN H1 H2.
  set (k := knots b) in *. set (dg := degree b) in *.
  assert (HL : len b = (length k - dg - 1)%nat) by reflexivity.
  assert (Hdg : (dg <= len b)%nat).
  { destruct (Nat.le_gt_cases dg (len b)) as [L|L]; [exact L|].
    assert (at_ k (len b) <= at_ k dg) by (apply Hs; lia). lra. }
  destruct (find_interval k x dg (len b)) as [mu [Hmu [L1 L2]]]; auto; try lia.
  replace (len b) with ((mu - dg) + (S dg + (len b - mu - 1)))%nat by lia.
  rewrite sumQ_app, sumQ_app.
  assert (Hk0 : at_ k 0 < x).
  { assert (at_ k 0 <= at_ k mu) by (apply Hs; lia). lra. }
  rewrite sumQ_zero.
  2:{ intros i Hi. apply Bval_zero_right; auto; try lia.
      assert (at_ k (i + dg + 1) <= at_ k mu) by (apply Hs; lia). lra. }
  rewrite (sumQ_zero (len b - mu - 1)).
  2:{ intros i Hi. apply Bval_zero_left; auto; try lia.
      assert (at_ k (mu + 1) <= at_ k (mu - dg + (S dg + i))) by (apply Hs; lia). lra. }
  rewrite local_unity; auto; try lia. ring.
Qed.

Lemma sumQ_nonneg n (f : nat -> Q) :
  (forall i, (i < n)%nat -> 0 <= f i) -> 0 <= sumQ n f.
Proof.
  induction n as [|n IH]; intro H; simpl; [lra|].
  assert (0 <= sumQ n f) by (apply IH; intros; apply H; lia).
  assert (0 <= f n) by (apply H; lia). lra.
Qed.

(** X1: the convex-hull property.  On the domain [(knots[degree],
    knots[N]]] of a spline with non-decreasing knots, the value lies
    between any two bounds of the coefficients. *)
Theorem evalspline_bounds (s : BSpline) (x lo hi : Q) :
  sortedb (knots (basis s)) = true ->
  (1 <= len (basis s))%nat ->
  length (coeffs s) = len (basis s) ->
  at_ (knots (basis s)) (degree (basis s)) < x ->
  x <= at_ (knots (basis s)) (len (basis s)) ->
  (forall l, (l < len (basis s))%nat -> lo <= at_ (coeffs s) l /\ at_ (coeffs s) l <= hi) ->
  lo <= evalspline s x /\ evalspline s x <= hi.
Proof.
  intros Hs HN _ H1 H2 Hc. apply sortedb_mono in Hs.
  rewrite evalspline_sum.
  pose proof (Bval_sum_one (basis s) x Hs HN H1 H2) as U.
  set (k := knots (basis s)) in *. set (dg := degree (basis s)) in *.
  set (N := len (basis s)) in *.
  assert (NN : forall l, (l < N)%nat -> 0 <= Bval dg k x dg l).
  { intros l Hl. apply Bval_nonneg; [exact Hs|]. unfold N, len in Hl. fold k dg in Hl. lia. }
  assert (A : 0 <= sumQ N (fun l => (at_ (coeffs s) l - lo) * Bval dg k x dg l)).
  { apply sumQ_nonneg. intros l Hl. apply Qmult_le_0_compat; [|now apply NN].
    destruct (Hc l Hl). lra. }
  assert (B : 0 <= sumQ N (fun l => (hi - at_ (coeffs s) l) * Bval dg k x dg l)).
  { apply sumQ_nonneg. intros l Hl. apply Qmult_le_0_compat; [|now apply NN].
    destruct (Hc l Hl). lra. }
  rewrite (sumQ_ext N _ (fun l => at_ (coeffs s) l * Bval dg k x dg l -
                                  lo * Bval dg k x dg l)) in A by (intros; ring).
  rewrite (sumQ_ext N (fun l => (hi - _) * _)
                    (fun l => hi * Bval dg k x dg l -
                              at_ (coeffs s) l * Bval dg k x dg l)) in B by (intros; ring).
  rewrite sumQ_minus, sumQ_scale, U in A, B. lra.
Qed.

Lemma evalspline_bounds_witness :
  let s := mkSpline (mkBasis [0; 0; 0; 1; 2; 2; 2] 2) [1; 3; -2; 5] in
  -2 <= evalspline s (3 # 2) /\ evalspline s (3 # 2) <= 5.
Proof.
  intro s. apply (evalspline_bounds s (3 # 2) (-2) 5).
  - reflexivity.
  - vm_compute. lia.
  - reflexivity.
  - vm_compute. reflexivity.
  - vm_compute. discriminate.
  - intros l Hl. change (len (basis s)) with 4%nat in Hl.
    destruct l as [|[|[|[|l]]]]; try lia; split; vm_compute; discriminate.
Defined.

(** X2: local support.  The value at [x] depends only on the
    coefficients [l] with [knots[l] <= x <= knots[l+degree+1]]: two
    coefficient vectors that agree on those give the same value. *)
Theorem evalspline_local_support (b : BSplineBasis) (c c' : list Q) (x : Q) :
  sortedb (knots b) = true ->
  length c = len b -> length c' = len b ->
  (forall l, (l < len b)%nat ->
     at_ (knots b) l <= x -> x <= at_ (knots b) (l + degree b + 1) ->
     at_ c l == at_ c' l) ->
  evalspline (mkSpline b c) x == evalspline (mkSpline b c') x.
Proof.
  intros Hs _ _ H. apply sortedb_mono in Hs.
  rewrite !evalspline_sum. cbn [basis coeffs].
  apply sumQ_ext. intros l Hl.
  assert (Hl' : (l + degree b + 1 < length (knots b))%nat) by (unfold len in Hl; lia).
  destruct (Qlt_le_dec x (at_ (knots b) l)) as [L|G].
  - rewrite (Bval_zero_left (degree b) (knots b) x (degree b) l) by (auto; lra). ring.
  - destruct (Qlt_le_dec (at_ (knots b) (l + degree b + 1)) x) as [L|G'].
    + rewrite (Bval_zero_right (degree b) (knots b) x (degree b) l) by auto. ring.
    + rewrite (H l Hl G G'). reflexivity.
Qed.

Lemma evalspline_local_support_witness :
  let b := mkBasis [0; 0; 0; 1; 2; 2; 2] 2 in
  evalspline (mkSpline b [1; 3; -2; 5]) (1 # 2) ==
  evalspline (mkSpline b [1; 3; -2; 77]) (1 # 2).
Proof.
  intro b. apply (evalspline_local_support b [1; 3; -2; 5] [1; 3; -2; 77] (1 # 2)).
  - reflexivity.
  - reflexivity.
  - reflexivity.
  - intros l Hl. change (len b) with 4%nat in Hl.
    destruct l as [|[|[|[|l]]]]; try lia; intros A B; try reflexivity.
    exfalso. revert A. vm_compute. intro A. now apply A.
Defined.

(** ** The definite integral *)

(** The knots of the running integral, by index. *)
Lemma knots_int_at (k : list Q) (j : nat) :
  at_ ([at_ k 0] ++ k ++ [at_ k (length k - 1)]) j =
  if (j =? 0)%nat then at_ k 0
  else if (j <=? length k)%nat then at_ k (j - 1)
  else if (j =? length k + 1)%nat then at_ k (length k - 1) else 0.
Proof.
  destruct j as [|j]; [reflexivity|].
  change (S j =? 0)%nat with false. cbv iota.
  change (at_ ([at_ k 0] ++ k ++ [at_ k (length k - 1)]) (S j))
    with (at_ (k ++ [at_ k (length k - 1)]) j).
  replace (S j - 1)%nat with j by lia.
  destruct (Nat.leb_spec (S j) (length k)) as [L|G].
  - apply at_app_l. lia.
  - rewrite at_app_r by lia.
    destruct (Nat.eqb_spec (S j) (length k + 1)) as [E|E].
    + replace (j - length k)%nat with 0%nat by lia. reflexivity.
    + unfold at_. apply nth_overflow. simpl. lia.
Qed.

Lemma knots_int_mono (k : list Q) :
  mono k -> mono ([at_ k 0] ++ k ++ [at_ k (length k - 1)]).
Proof.
  intros Hm i j Hij Hj.
  assert (L : length ([at_ k 0] ++ k ++ [at_ k (length k - 1)]) = (length k + 2)%nat).
  { cbn [app length]. rewrite length_app. simpl. lia. }
  rewrite L in Hj. rewrite !knots_int_at.
  destruct (Nat.eqb_spec i 0) as [->|Hi].
  - destruct (Nat.eqb_spec j 0); [lra|].
    destruct (Nat.leb_spec j (length k)).
    + apply Hm; lia.
    + destruct (Nat.eqb_spec j (length k + 1)); [|lia].
      destruct k as [|y k']; [simpl; lra | apply Hm; simpl; lia].
  - destruct (Nat.eqb_spec j 0); [lia|].
    destruct (Nat.leb_spec i (length k)).
    + destruct (Nat.leb_spec j (length k)).
      * apply Hm; lia.
      * destruct (Nat.eqb_spec j (length k + 1)); [|lia]. apply Hm; lia.
    + destruct (Nat.leb_spec j (length k)); [lia|].
      destruct (Nat.eqb_spec i (length k + 1)); [|lia].
      destruct (Nat.eqb_spec j (length k + 1)); [lra | lia].
Qed.

(** Coefficient [i] of the running integral is the sum of the first [i]
    increments. *)
Lemma running_integral_coeffs_sum knots degree coeffs n : forall i, (i <= n)%nat ->
  at_ (running_integral_coeffs knots degree coeffs n) i =
  sumQ i (fun j => (at_ knots (degree + j + 1) - at_ knots j) /
                   inject_Z (Z.of_nat (degree + 1)) * at_ coeffs j).
Proof.
  induction i as [|i IH]; intro Hi.
  - apply running_integral_coeffs_first.
  - replace (S i) with (i + 1)%nat at 1 by lia.
    rewrite running_integral_coeffs_rec by lia. rewrite IH by lia. reflexivity.
Qed.

(** Outside the knots a spline is 0. *)
Lemma evalspline_zero_outside (s : BSpline) (x : Q) :
  mono (knots (basis s)) ->
  (x < at_ (knots (basis s)) 0 \/
   at_ (knots (basis s)) (length (knots (basis s)) - 1) < x) ->
  evalspline s x == 0.
Proof.
  intros Hs Hx. rewrite evalspline_sum.
  set (k := knots (basis s)) in *. set (dg := degree (basis s)).
  apply sumQ_zero. intros l Hl. unfold len in Hl. fold k dg in Hl.
  assert (Z : Bval dg k x dg l == 0).
  { destruct Hx as [Hx|Hx].
    - assert (at_ k 0 <= at_ k l) by (apply Hs; lia).
      apply Bval_zero_left; auto; try lia; try lra.
    - apply Bval_zero_right; auto; try lia.
      assert (at_ k (l + dg + 1) <= at_ k (length k - 1)) by (apply Hs; lia). lra. }
  rewrite Z. ring.
Qed.

(** X4: the integral over the whole domain.  For a spline on a clamped
    basis (the first and the last [degree+1] knots equal, and a first and
    a last interval that are not empty), the integral from the first to
    the last knot is the sum of the coefficients, each weighted by the
    width of its support over [degree+1]. *)
Theorem definite_integral_full (s : BSpline) :
  let k := knots (basis s) in
  let d := degree (basis s) in
  let N := len (basis s) in
  sortedb k = true -> (d + 2 <= length k)%nat ->
  length (coeffs s) = N ->
  at_ k d == at_ k 0 -> at_ k 0 < at_ k (d + 1) ->
  at_ k N == at_ k (length k - 1) -> at_ k (N - 1) < at_ k N ->
  definite_integral s (at_ k 0) (at_ k (length k - 1)) ==
  sumQ N (fun i => (at_ k (d + i + 1) - at_ k i) / inject_Z (Z.of_nat (d + 1)) *
                   at_ (coeffs s) i).
Proof.
  intros k d N Hs HL _ Hc0 H0 Hc1 H1.
  pose proof (sortedb_mono k Hs) as Hm.
  pose proof (knots_int_mono k Hm) as Hmi.
  assert (HN : N = (length k - d - 1)%nat) by reflexivity.
  assert (Lki : length ([at_ k 0] ++ k ++ [at_ k (length k - 1)]) = (length k + 2)%nat).
  { cbn [app length]. rewrite length_app. simpl. lia. }
  unfold definite_integral. cbv zeta.
  set (r := running_integral s).
  assert (Kr : knots (basis r) = [at_ k 0] ++ k ++ [at_ k (length k - 1)]) by reflexivity.
  assert (Dr : degree (basis r) = (d + 1)%nat) by reflexivity.
  assert (Cr : coeffs r = running_integral_coeffs k d (coeffs s) N).
  { unfold r, running_integral. cbn [coeffs]. f_equal.
    unfold len. cbn [knots degree]. fold k d. rewrite Lki. lia. }
  (* the value at the first knot *)
  assert (A : evalspline r (at_ k 0) == 0).
  { pose proof (evalspline_at_start r (at_ k 0)) as V. cbv zeta in V.
    rewrite Kr, Dr in V. rewrite V.
    - rewrite Cr. now rewrite running_integral_coeffs_first.
    - exact Hmi.
    - rewrite Lki. lia.
    - intros j Hj. rewrite knots_int_at.
      destruct (Nat.eqb_spec j 0); [reflexivity|].
      destruct (Nat.leb_spec j (length k)); [|lia].
      pose proof (Hm 0%nat (j - 1)%nat ltac:(lia) ltac:(lia)).
      pose proof (Hm (j - 1)%nat d ltac:(lia) ltac:(lia)). lra.
    - rewrite knots_int_at.
      destruct (Nat.eqb_spec (d + 1 + 1) 0); [lia|].
      destruct (Nat.leb_spec (d + 1 + 1) (length k)); [|lia].
      now replace (d + 1 + 1 - 1)%nat with (d + 1)%nat by lia. }
  (* the value at the last knot *)
  assert (B : evalspline r (at_ k (length k - 1)) == at_ (coeffs r) N).
  { pose proof (evalspline_at_knot r (at_ k (length k - 1)) (N + 1)) as V. cbv zeta in V.
    rewrite Kr, Dr in V. replace (N + 1 - 1)%nat with N in V by lia. apply V.
    - exact Hmi.
    - lia.
    - rewrite Lki. lia.
    - rewrite knots_int_at.
      destruct (Nat.eqb_spec N 0); [lia|].
      destruct (Nat.leb_spec N (length k)); [|lia]. lra.
    - intros j J1 J2. rewrite knots_int_at.
      destruct (Nat.eqb_spec j 0); [lia|].
      destruct (Nat.leb_spec j (length k)).
      + pose proof (Hm N (j - 1)%nat ltac:(lia) ltac:(lia)).
        pose proof (Hm (j - 1)%nat (length k - 1)%nat ltac:(lia) ltac:(lia)). lra.
      + destruct (Nat.eqb_spec j (length k + 1)); [reflexivity | lia]. }
  rewrite A, B, Cr, running_integral_coeffs_sum by lia. ring.
Qed.

Lemma definite_integral_full_witness :
  definite_integral (mkSpline (mkBasis [0; 0; 0; 1; 3; 3; 3] 2) [1; 2; -1; 4]) 0 3 ==
  (1 # 3) * 1 + (3 # 3) * 2 + (3 # 3) * (-1) + (2 # 3) * 4.
Proof.
  pose proof (definite_integral_full
                (mkSpline (mkBasis [0; 0; 0; 1; 3; 3; 3] 2) [1; 2; -1; 4])) as V.
  cbv zeta in V. rewrite V.
  - vm_compute. reflexivity.
  - reflexivity.
  - vm_compute. lia.
  - reflexivity.
  - vm_compute. reflexivity.
  - vm_compute. reflexivity.
  - vm_compute. reflexivity.
  - vm_compute. reflexivity.
Defined.

(** X5: bounds outside the knots.  The running integral is evaluated like
    any spline, so it is 0 outside its knots: with an upper bound beyond
    the last knot the result is minus the running integral at [a] (not the
    integral up to the last knot), and with a lower bound before the first
    knot it is the running integral at [b]. *)
Theorem definite_integral_outside (s : BSpline) (a b : Q) :
  let k := knots (basis s) in
  sortedb k = true -> length (coeffs s) = len (basis s) ->
  (at_ k (length k - 1) < b ->
   definite_integral s a b == - evalspline (running_integral s) a) /\
  (a < at_ k 0 ->
   definite_integral s a b == evalspline (running_integral s) b).
Proof.
  intros k Hs _.
  pose proof (knots_int_mono k (sortedb_mono k Hs)) as Hmi.
  assert (Lki : length ([at_ k 0] ++ k ++ [at_ k (length k - 1)]) = (length k + 2)%nat).
  { cbn [app length]. rewrite length_app. simpl. lia. }
  assert (Kr : knots (basis (running_integral s)) =
               [at_ k 0] ++ k ++ [at_ k (length k - 1)]) by reflexivity.
  unfold definite_integral. cbv zeta. split; intro H.
  - rewrite (evalspline_zero_outside (running_integral s) b); [ring | now rewrite Kr |].
    right. rewrite Kr, Lki, knots_int_at.
    destruct (Nat.eqb_spec (length k + 2 - 1) 0); [lia|].
    destruct (Nat.leb_spec (length k + 2 - 1) (length k)); [lia|].
    destruct (Nat.eqb_spec (length k + 2 - 1) (length k + 1)); [exact H | lia].
  - rewrite (evalspline_zero_outside (running_integral s) a); [ring | now rewrite Kr |].
    left. rewrite Kr, knots_int_at. exact H.
Qed.

Lemma definite_integral_outside_witness :
  let s := mkSpline (mkBasis [0; 0; 0; 1; 3; 3; 3] 2) [1; 2; -1; 4] in
  definite_integral s 0 3 == 4 /\ definite_integral s 0 4 == 0.
Proof.
  intro s. split; [vm_compute; reflexivity|].
  destruct (definite_integral_outside s 0 4 eq_refl eq_refl) as [H _].
  rewrite H by (vm_compute; reflexivity). vm_compute. reflexivity.
Defined.

(** ** Knot insertion takes convex combinations *)

Lemma inserted_at_le k t p k' j :
  mono k -> inserted_at k t p k' -> (j < length k)%nat -> at_ k' j <= at_ k j.
Proof.
  intros Hm (L & Hp & Lo & Mid & Hi) Hj.
  destruct (lt_eq_lt_dec j p) as [[A|A]|A].
  - destruct (Lo j A) as [E _]. rewrite E. lra.
  - subst j. rewrite Mid. destruct (Hi p (Nat.le_refl _) Hj) as [_ H]. lra.
  - destruct j as [|j]; [lia|].
    destruct (Hi j ltac:(lia) ltac:(lia)) as [E _]. rewrite E. apply Hm; lia.
Qed.

Lemma inserted_at_ge k t p k' j :
  mono k -> inserted_at k t p k' -> (j < length k)%nat -> at_ k j <= at_ k' (S j).
Proof.
  intros Hm (L & Hp & Lo & Mid & Hi) Hj.
  destruct (lt_eq_lt_dec (S j) p) as [[A|A]|A].
  - destruct (Lo (S j) A) as [E _]. rewrite E. apply Hm; lia.
  - rewrite A, Mid. destruct (Lo j ltac:(lia)) as [_ H]. exact H.
  - destruct (Hi j ltac:(lia) Hj) as [E _]. rewrite E. lra.
Qed.

Lemma boehm_weight_range k deg t j :
  mono k -> (j + deg < length k)%nat ->
  0 <= boehm_weight k deg t j /\ boehm_weight k deg t j <= 1.
Proof.
  intros Hm Hj. unfold boehm_weight. cmp_cases; try lra.
  assert (P : 0 < at_ k (j + deg) - at_ k j) by lra.
  split.
  - apply Qle_shift_div_l; lra.
  - apply Qle_shift_div_r; lra.
Qed.

Lemma insertion_matrix_stochastic k deg t N :
  mono k -> length k = (N + deg + 1)%nat -> (1 <= N)%nat ->
  at_ k deg < t -> t <= at_ k N ->
  stochastic (insertion_matrix k deg t N) (N + 1) N.
Proof.
  intros Hm HL HN Hlo Hhi. split; [apply insertion_matrix_shape|].
  intros i Hi.
  assert (W : 0 <= boehm_weight k deg t i /\ boehm_weight k deg t i <= 1).
  { apply boehm_weight_range; [exact Hm | lia]. }
  split.
  - intros j Hj. rewrite insertion_entry by lia.
    destruct (_ && _); [lra|]. destruct (j =? i)%nat; lra.
  - rewrite (sumQ_band _ _ i).
    2:{ intros c Hc C1 C2. rewrite insertion_entry by lia.
        destruct (Nat.eqb_spec i 0); cbn [negb andb].
        - destruct (Nat.eqb_spec c i); [lia | reflexivity].
        - destruct (Nat.eqb_spec c (i - 1)); [lia|].
          destruct (Nat.eqb_spec c i); [lia | reflexivity]. }
    destruct (Nat.eq_dec i 0) as [->|Hi0].
    + cbn [Nat.leb andb]. replace (0 <? N)%nat with true by (symmetry; apply Nat.ltb_lt; lia).
      rewrite insertion_entry by lia. cbn [Nat.eqb negb andb].
      unfold boehm_weight. rewrite Nat.add_0_l.
      pose proof (Hm 0%nat deg ltac:(lia) ltac:(lia)).
      cmp_cases; lra.
    + replace (1 <=? i)%nat with true by (symmetry; apply Nat.leb_le; lia).
      replace (i - 1 <? N)%nat with true by (symmetry; apply Nat.ltb_lt; lia).
      cbn [andb]. rewrite insertion_entry by lia.
      replace (i =? 0)%nat with false by (symmetry; apply Nat.eqb_neq; lia).
      rewrite Nat.eqb_refl. cbn [negb andb].
      destruct (Nat.ltb_spec i N) as [L|G].
      * rewrite insertion_entry by lia.
        replace (i =? 0)%nat with false by (symmetry; apply Nat.eqb_neq; lia).
        replace (i =? i - 1)%nat with false by (symmetry; apply Nat.eqb_neq; lia).
        rewrite Nat.eqb_refl. cbn [negb andb]. ring.
      * assert (i = N) by lia. subst i.
        unfold boehm_weight. cmp_cases; lra.
Qed.

Lemma dot_stochastic A B r m c :
  (1 <= m)%nat -> stochastic A r m -> stochastic B m c -> stochastic (dot A B) r c.
Proof.
  intros Hm [SA PA] [SB PB].
  assert (NC : ncols B = c) by (apply (has_shape_ncols B m c SB Hm)).
  split; [apply dot_shape; [now destruct SA | exact NC]|].
  intros i Hi. destruct (PA i Hi) as [A0 A1].
  assert (E : forall j, (j < c)%nat ->
            entry (dot A B) i j = sumQ m (fun x => entry A i x * entry B x j)).
  { intros j Hj. rewrite entry_dot by (destruct SA; lia).
    now rewrite (has_shape_row A r m i SA Hi). }
  split.
  - intros j Hj. rewrite E by exact Hj. apply sumQ_nonneg.
    intros x Hx. apply Qmult_le_0_compat; [now apply A0|].
    destruct (PB x Hx) as [B0 _]. now apply B0.
  - rewrite (sumQ_ext_eq c _ (fun j => sumQ m (fun x => entry A i x * entry B x j)))
      by exact E.
    rewrite sumQ_swap.
    rewrite (sumQ_ext m _ (fun x => entry A i x)); [exact A1|].
    intros x Hx. rewrite sumQ_scale. destruct (PB x Hx) as [_ B1]. rewrite B1. ring.
Qed.

Lemma eye_stochastic n : stochastic (eye n) n n.
Proof.
  split; [apply eye_shape|]. intros i Hi. split.
  - intros j Hj. rewrite entry_eye by lia. destruct (i =? j)%nat; lra.
  - rewrite (sumQ_ext n _ (fun j => if (j =? i)%nat then 1 else 0)).
    + rewrite sumQ_single.
      now replace (i <? n)%nat with true by (symmetry; apply Nat.ltb_lt; lia).
    + intros j Hj. rewrite entry_eye by lia. rewrite (Nat.eqb_sym i j). reflexivity.
Qed.

Lemma knot_insertion_loop_stochastic deg lo hi n0 : forall ts N k T,
  sortedb k = true -> length k = (N + deg + 1)%nat -> (1 <= N)%nat ->
  at_ k deg <= lo -> hi <= at_ k N ->
  Forall (fun t => lo < t /\ t <= hi) ts ->
  stochastic T N n0 ->
  stochastic (fst (knot_insertion_loop deg ts N k T)) (N + length ts) n0.
Proof.
  induction ts as [|t ts IH]; intros N k T Hs HL HN Hlo Hhi Hts ST.
  - cbn [knot_insertion_loop fst length]. now rewrite Nat.add_0_r.
  - cbn [knot_insertion_loop length]. inversion Hts as [|? ? [T1 T2] Hts']; subst.
    pose proof (sortedb_mono k Hs) as Hm.
    destruct (insert_sorted_inserted_at k t Hs) as [p Hins].
    assert (EK : sorted (k ++ [t]) = insert_sorted t k)
      by (now rewrite sorted_snoc, sorted_id).
    rewrite EK.
    replace (N + S (length ts))%nat with (N + 1 + length ts)%nat by lia.
    apply IH.
    + now apply insert_sorted_sortedb.
    + destruct Hins as [L _]. rewrite L, HL. lia.
    + lia.
    + pose proof (inserted_at_le k t p _ deg Hm Hins ltac:(lia)). lra.
    + pose proof (inserted_at_ge k t p _ N Hm Hins ltac:(lia)).
      replace (N + 1)%nat with (S N) by lia. lra.
    + exact Hts'.
    + apply (dot_stochastic _ _ (N + 1) N n0); [lia | | exact ST].
      apply insertion_matrix_stochastic; auto; lra.
Qed.

(** X6: inserting knots inside the domain [(knots[degree], knots[N]]] takes
    convex combinations of the coefficients: no entry of [T] is negative
    and every row adds up to 1. *)
Theorem knot_insertion_T_convex (b : BSplineBasis) (ts : list Q) :
  let T := fst (knot_insertion_T b ts) in
  sortedb (knots b) = true -> (degree b + 2 <= length (knots b))%nat ->
  Forall (fun t => at_ (knots b) (degree b) < t /\ t <= at_ (knots b) (len b)) ts ->
  forall i, (i < len b + length ts)%nat ->
    (forall j, (j < len b)%nat -> 0 <= entry T i j) /\
    sumQ (len b) (fun j => entry T i j) == 1.
Proof.
  intros T Hs HL Hts.
  assert (S : stochastic T (len b + length ts) (len b)).
  { apply (knot_insertion_loop_stochastic (degree b) (at_ (knots b) (degree b))
                                          (at_ (knots b) (len b))); auto.
    - unfold len. lia.
    - unfold len. lia.
    - lra.
    - lra.
    - apply eye_stochastic. }
  destruct S as [_ S]. exact S.
Qed.

Lemma knot_insertion_T_convex_witness :
  let T := fst (knot_insertion_T (mkBasis [0; 0; 0; 1; 2; 2; 2] 2) [1 # 2; 2; 1]) in
  (forall j, (j < 4)%nat -> 0 <= entry T 1 j) /\ sumQ 4 (fun j => entry T 1 j) == 1.
Proof.
  intro T.
  apply (knot_insertion_T_convex (mkBasis [0; 0; 0; 1; 2; 2; 2] 2) [1 # 2; 2; 1]).
  - reflexivity.
  - vm_compute. lia.
  - repeat constructor; vm_compute; (reflexivity || discriminate).
  - vm_compute. lia.
Defined.

(** ** What [concat_splines] returns *)

Section ConcatContent.

Variable degree0 : list nat.

(** The spline of dimension [i] in a segment that is read from
    dimension [l] on. *)
Let seg_at (segment : list BSpline) (l i : nat) : option BSpline :=
  if (l <=? i)%nat then nth_error segment (i - l) else None.

(** [np.r_[knots[l], s.basis.knots[degree[l]+1:]*segment_times[k] + knots[l][-1]]] *)
Let more_knots (i : nat) (tk : Q) (kl : list Q) (o : option BSpline) : list Q :=
  match o with
  | Some s => kl ++ map (fun y => y * tk + last kl 0)
                        (skipn (nth i degree0 0%nat + 1) (knots (basis s)))
  | None => kl
  end.

(** [np.r_[coeffs[l], s.coeffs]] *)
Let more_coeffs (cl : list Q) (o : option BSpline) : list Q :=
  match o with
  | Some s => cl ++ coeffs s
  | None => cl
  end.

Lemma concat_inner_content times k tk :
  getitem times k = Ok tk ->
  forall segment l st,
  concat_inv degree0 st ->
  (l + length segment <= length degree0)%nat ->
  segment_matches degree0 l segment = true ->
  exists st', concat_inner times k st l segment = Ok st' /\ concat_inv degree0 st' /\
    forall i,
      nth i (fst (fst st')) [] = more_knots i tk (nth i (fst (fst st)) []) (seg_at segment l i) /\
      nth i (snd st') [] = more_coeffs (nth i (snd st) []) (seg_at segment l i).
Proof.
  intro Etk. induction segment as [|s rest IH]; intros l [[kn dg] cf] Inv Hl Hm.
  - exists (kn, dg, cf). split; [reflexivity|]. split; [exact Inv|].
    intro i. unfold seg_at. destruct (l <=? i)%nat; [|split; reflexivity].
    destruct (i - l)%nat; split; reflexivity.
  - destruct Inv as (Hd & Hkn & Hcf & Hne). subst dg.
    cbn [segment_matches] in Hm. apply andb_true_iff in Hm as [Hm1 Hm2].
    apply Nat.eqb_eq in Hm1.
    cbn [concat_inner]. simpl length in Hl.
    rewrite (getitem_ok degree0 l 0%nat) by lia. cbn [bind].
    rewrite Hm1, Nat.eqb_refl. cbn [negb].
    rewrite (getitem_ok kn l []) by lia. rewrite Etk. cbn [bind].
    assert (Hkl : nth l kn [] <> []).
    { rewrite Forall_forall in Hne. apply Hne, nth_In. lia. }
    destruct (nth l kn []) as [|y kl] eqn:Ekl; [congruence|].
    cbn [last_item bind]. rewrite (getitem_ok cf l []) by lia. cbn [bind].
    set (kn1 := setitem kn l _). set (cf1 := setitem cf l _).
    destruct (IH (S l) (kn1, degree0, cf1)) as [st' (E & Inv' & C)]; [| lia | exact Hm2 |].
    { unfold kn1, cf1. repeat split; rewrite ?setitem_length; auto.
      apply setitem_Forall; [exact Hne | discriminate]. }
    exists st'. split; [exact E|]. split; [exact Inv'|].
    intro i. destruct (C i) as [C1 C2]. cbn [fst snd] in C1, C2 |- *.
    rewrite C1, C2. unfold kn1, cf1.
    rewrite !nth_setitem by lia. unfold seg_at.
    destruct (Nat.eqb_spec i l) as [->|Hil].
    + replace (S l <=? l)%nat with false by (symmetry; apply Nat.leb_gt; lia).
      rewrite Nat.leb_refl, Nat.sub_diag. cbn [nth_error more_knots more_coeffs].
      rewrite Ekl. split; reflexivity.
    + destruct (Nat.leb_spec (S l) i) as [L|G].
      * replace (l <=? i)%nat with true by (symmetry; apply Nat.leb_le; lia).
        replace (i - l)%nat with (S (i - S l)) by lia. split; reflexivity.
      * replace (l <=? i)%nat with false by (symmetry; apply Nat.leb_gt; lia).
        split; reflexivity.
Qed.

Lemma concat_outer_content times : forall segments k st,
  concat_inv degree0 st ->
  Forall (fun segment => length segment <= length degree0)%nat segments ->
  (k + length segments <= length times)%nat ->
  forallb (segment_matches degree0 0) segments = true ->
  exists st', concat_outer times k st segments = Ok st' /\ concat_inv degree0 st' /\
    forall i,
      nth i (fst (fst st')) [] =
        fold_left (fun acc sg => more_knots i (snd sg) acc (nth_error (fst sg) i))
                  (combine segments (skipn k times)) (nth i (fst (fst st)) []) /\
      nth i (snd st') [] =
        nth i (snd st) [] ++
        concat (map (fun segment => more_coeffs [] (nth_error segment i)) segments).
Proof.
  induction segments as [|segment rest IH]; intros k st Inv Hlen Hk Hm.
  - exists st. split; [reflexivity|]. split; [exact Inv|].
    intro i. cbn [combine fold_left map concat]. now rewrite app_nil_r.
  - inversion Hlen as [|? ? H1 H2]; subst. simpl length in Hk.
    cbn [forallb] in Hm. apply andb_true_iff in Hm as [Hm1 Hm2].
    assert (Ek : exists tk, getitem times k = Ok tk /\
                            skipn k times = tk :: skipn (S k) times).
    { clear - Hk. revert k Hk. induction times as [|t ts IHt]; intros k Hk.
      - simpl in Hk. lia.
      - destruct k as [|k].
        + exists t. split; reflexivity.
        + destruct (IHt k) as [tk [E1 E2]]; [simpl in Hk; lia|].
          exists tk. split; [exact E1 | exact E2]. }
    destruct Ek as [tk [Etk Esk]].
    destruct (concat_inner_content times k tk Etk segment 0 st Inv ltac:(lia) Hm1)
      as [st1 (E1 & Inv1 & C1)].
    destruct (IH (S k) st1 Inv1 H2 ltac:(lia) Hm2) as [st' (E & Inv' & C)].
    exists st'. cbn [concat_outer]. rewrite E1. cbn [bind].
    split; [exact E|]. split; [exact Inv'|].
    intro i. destruct (C i) as [K2 F2]. destruct (C1 i) as [K1 F1].
    rewrite K2, F2, K1, F1, Esk. cbn [combine fold_left map concat fst snd].
    unfold seg_at. cbn [Nat.leb]. rewrite Nat.sub_0_r. split; [reflexivity|].
    destruct (nth_error segment i); cbn [more_coeffs app].
    + now rewrite app_assoc.
    + reflexivity.
Qed.

End ConcatContent.

(** X10: when the degrees agree, every dimension is joined on its own: the
    degree is that of the first segment, the coefficients are those of the
    segments one after the other, and the knots are those of the first
    segment scaled by its time, followed for each later segment by its
    knots from index [degree+1] on, scaled by the segment's time and
    shifted by the last knot so far.  A segment with fewer dimensions
    adds nothing to the dimensions it lacks. *)
Theorem concat_splines_result
        (spl0 : list BSpline) (rest : list (list BSpline)) (t0 : Q) (times : list Q) :
  (length rest <= length times)%nat ->
  Forall (fun s => knots (basis s) <> []) spl0 ->
  Forall (fun segment => length segment <= length spl0)%nat rest ->
  forallb (segment_matches (map (fun s => degree (basis s)) spl0) 0) rest = true ->
  exists r, concat_splines (spl0 :: rest) (t0 :: times) = Ok r /\
    length r = length spl0 /\
    forall l s0, nth_error spl0 l = Some s0 ->
      degree (basis (nth l r s0)) = degree (basis s0) /\
      coeffs (nth l r s0) =
        coeffs s0 ++
        concat (map (fun segment => match nth_error segment l with
                                    | Some s => coeffs s
                                    | None => []
                                    end) rest) /\
      knots (basis (nth l r s0)) =
        fold_left (fun acc sg =>
                     match nth_error (fst sg) l with
                     | Some s => acc ++ map (fun y => y * snd sg + last acc 0)
                                            (skipn (degree (basis s0) + 1) (knots (basis s)))
                     | None => acc
                     end)
                  (combine rest times)
                  (map (fun y => y * t0) (knots (basis s0))).
Proof.
  intros Ht Hk Hrest Hm.
  set (degree0 := map (fun s => degree (basis s)) spl0) in *.
  unfold concat_splines. cbn [getitem nth_error bind skipn].
  rewrite (mapM_ok _ (fun s => map (fun y => y * t0) (knots (basis s)))) by reflexivity.
  cbn [bind]. fold degree0.
  assert (Hl0 : length degree0 = length spl0) by (unfold degree0; apply length_map).
  assert (Inv : concat_inv degree0
                  (map (fun s => map (fun y => y * t0) (knots (basis s))) spl0,
                   degree0, map (fun s => coeffs s) spl0)).
  { unfold concat_inv. rewrite !length_map. repeat split; auto.
    apply Forall_forall. intros kl Hkl. apply in_map_iff in Hkl as [s [<- Hs]].
    rewrite Forall_forall in Hk. specialize (Hk s Hs).
    destruct (knots (basis s)); [congruence | discriminate]. }
  destruct (concat_outer_content degree0 (t0 :: times) rest 1 _ Inv)
    as [[[kn dg] cf] (E & (Hd & Hkn & Hcf & Hne) & C)].
  { now rewrite Hl0. }
  { simpl. lia. }
  { exact Hm. }
  rewrite E. cbn [bind]. eexists. split; [reflexivity|].
  split; [now rewrite length_map, length_seq|].
  intros l s0 Hl.
  assert (Ll : (l < length spl0)%nat) by (apply nth_error_Some; congruence).
  rewrite (nth_indep _ s0 (mkSpline (mkBasis [] 0) []))
    by (now rewrite length_map, length_seq).
  rewrite nth_map_seq by exact Ll. cbn [basis coeffs knots degree].
  destruct (C l) as [C1 C2]. cbn [fst snd skipn] in C1, C2.
  assert (D0 : nth l degree0 0%nat = degree (basis s0)).
  { unfold degree0.
    rewrite (nth_indep _ 0%nat (degree (basis s0))) by (now rewrite length_map).
    rewrite (map_nth (fun s => degree (basis s))).
    now rewrite (nth_error_nth _ _ _ Hl). }
  assert (K0 : nth l (map (fun s => map (fun y => y * t0) (knots (basis s))) spl0) [] =
               map (fun y => y * t0) (knots (basis s0))).
  { rewrite (nth_indep _ [] (map (fun y => y * t0) (knots (basis s0))))
      by (now rewrite length_map).
    rewrite (map_nth (fun s => map (fun y => y * t0) (knots (basis s)))).
    now rewrite (nth_error_nth _ _ _ Hl). }
  assert (F0 : nth l (map (fun s => coeffs s) spl0) [] = coeffs s0).
  { rewrite (nth_indep _ [] (coeffs s0)) by (now rewrite length_map).
    rewrite (map_nth (fun s => coeffs s)).
    now rewrite (nth_error_nth _ _ _ Hl). }
  subst dg. split; [exact D0|]. split.
  - rewrite C2, F0. reflexivity.
  - rewrite C1, K0, D0. reflexivity.
Qed.

Lemma concat_splines_result_witness :
  exists r,
    concat_splines [[mkSpline (mkBasis [0; 0; 1; 1] 1) [1; 2]];
                    [mkSpline (mkBasis [0; 0; 1; 1] 1) [2; 5]]] [3; 2] = Ok r /\
    coeffs (nth 0 r (mkSpline (mkBasis [0; 0; 1; 1] 1) [1; 2])) = [1; 2; 2; 5].
Proof.
  destruct (concat_splines_result
              [mkSpline (mkBasis [0; 0; 1; 1] 1) [1; 2]]
              [[mkSpline (mkBasis [0; 0; 1; 1] 1) [2; 5]]] 3 [2])
    as [r (E & _ & C)].
  - simpl. lia.
  - repeat constructor. discriminate.
  - repeat constructor.
  - reflexivity.
  - exists r. split; [exact E|].
    destruct (C 0%nat _ eq_refl) as (_ & C2 & _). exact C2.
Defined.

(** X11: a segment with more dimensions than the first one runs off the list
    of degrees: [degree[l]] raises [IndexError] once the dimensions of the
    first segment are used up. *)
Theorem concat_splines_extra_dimension
        (spl0 seg : list BSpline) (rest : list (list BSpline)) (times : list Q) :
  (2 <= length times)%nat ->
  Forall (fun s => knots (basis s) <> []) spl0 ->
  (length spl0 < length seg)%nat ->
  segment_matches (map (fun s => degree (basis s)) spl0) 0 (firstn (length spl0) seg) = true ->
  concat_splines (spl0 :: seg :: rest) times = Raise IndexError.
Proof.
  intros Ht Hk Hlen Hm.
  destruct times as [|t0 [|t1 times']]; try (simpl in Ht; lia).
  set (degree0 := map (fun s => degree (basis s)) spl0) in *.
  unfold concat_splines. cbn [getitem nth_error bind skipn].
  rewrite (mapM_ok _ (fun s => map (fun y => y * t0) (knots (basis s)))) by reflexivity.
  cbn [bind]. fold degree0.
  assert (Hl0 : length degree0 = length spl0) by (unfold degree0; apply length_map).
  assert (Inv : concat_inv degree0
                  (map (fun s => map (fun y => y * t0) (knots (basis s))) spl0,
                   degree0, map (fun s => coeffs s) spl0)).
  { unfold concat_inv. rewrite !length_map. repeat split; auto.
    apply Forall_forall. intros kl Hkl. apply in_map_iff in Hkl as [s [<- Hs]].
    rewrite Forall_forall in Hk. specialize (Hk s Hs).
    destruct (knots (basis s)); [congruence | discriminate]. }
  assert (App : forall a c l st,
            concat_inner (t0 :: t1 :: times') 1 st l (a ++ c) =
            bind (concat_inner (t0 :: t1 :: times') 1 st l a)
                 (fun st' => concat_inner (t0 :: t1 :: times') 1 st' (l + length a) c)).
  { induction a as [|s a IHa]; intros c l [[kn dg] cf].
    - cbn [app concat_inner bind length]. now rewrite Nat.add_0_r.
    - cbn [app concat_inner length].
      destruct (getitem dg l) as [dl|e]; cbn [bind]; [|reflexivity].
      destruct (negb (degree (basis s) =? dl)%nat); [reflexivity|].
      destruct (getitem kn l) as [kl|e]; cbn [bind]; [|reflexivity].
      destruct (last_item kl) as [lst|e]; cbn [bind]; [|reflexivity].
      destruct (getitem cf l) as [cl|e]; cbn [bind]; [|reflexivity].
      cbn [getitem nth_error bind].
      rewrite IHa. now replace (l + S (length a))%nat with (S l + length a)%nat by lia. }
  cbn [concat_outer].
  rewrite <- (firstn_skipn (length spl0) seg) at 1. rewrite App.
  assert (Lf : length (firstn (length spl0) seg) = length spl0)
    by (rewrite length_firstn; lia).
  pose proof (concat_inner_spec (t0 :: t1 :: times') 1 degree0
                (firstn (length spl0) seg) 0 _ Inv ltac:(lia) ltac:(simpl; lia)) as Hin.
  rewrite Hm in Hin. destruct Hin as [[[kn dg] cf] [E (Hd & _)]].
  rewrite E. cbn [bind]. rewrite Lf.
  destruct (skipn (length spl0) seg) as [|s tl] eqn:Es.
  - apply (f_equal (@length _)) in Es. rewrite length_skipn in Es. simpl in Es. lia.
  - cbn [concat_inner Nat.add]. subst dg.
    unfold getitem at 1.
    replace (nth_error degree0 (length spl0)) with (@None nat)
      by (symmetry; apply nth_error_None; lia).
    reflexivity.
Qed.

Lemma concat_splines_extra_dimension_witness :
  concat_splines [[mkSpline (mkBasis [0; 0; 1; 1] 1) [1; 2]];
                  [mkSpline (mkBasis [0; 0; 1; 1] 1) [2; 5];
                   mkSpline (mkBasis [0; 0; 1; 1] 1) [0; 0]]] [3; 2] = Raise IndexError.
Proof.
  apply (concat_splines_extra_dimension
           [mkSpline (mkBasis [0; 0; 1; 1] 1) [1; 2]]
           [mkSpline (mkBasis [0; 0; 1; 1] 1) [2; 5];
            mkSpline (mkBasis [0; 0; 1; 1] 1) [0; 0]] [] [3; 2]).
  - simpl. lia.
  - repeat constructor. discriminate.
  - simpl. lia.
  - reflexivity.
Defined.

(** ** Shifting the first knots forward and backward *)

(** [T] and [Tinv] as the two calls return them, inverse to each other
    on both sides. *)
Lemma shiftfirstknot_T_pair (b : BSplineBasis) (t_shift : Q) :
  sortedb (knots b) = true ->
  (degree b + 2 <= len b)%nat ->
  at_ (knots b) (degree b) < t_shift ->
  t_shift < at_ (knots b) (degree b + 1) ->
  exists T Tinv,
    shiftfirstknot_T b t_shift false = Ok (T, None) /\
    shiftfirstknot_T b t_shift true = Ok (T, Some Tinv) /\
    upper_block (degree b) (len b) T /\
    back_subst (degree b) (len b) T Tinv /\
    (forall i j, (i < len b)%nat -> (j < len b)%nat ->
       mprod (len b) (entry T) (entry Tinv) i j == delta i j) /\
    (forall i j, (i < len b)%nat -> (j < len b)%nat ->
       mprod (len b) (entry Tinv) (entry T) i j == delta i j).
Proof.
  intros Hs HN Hlo Hhi. apply sortedb_mono in Hs.
  set (deg := degree b) in *. set (N := len b) in *.
  assert (HL : (2 * deg + 2 <= length (knots b))%nat)
    by (unfold N, len in HN; fold deg in HN; lia).
  destruct (shift_stages_ok (knots b) deg t_shift Hs HL Hlo Hhi (deg + 1) 0 (eye (deg + 1))
              ltac:(lia) (stage_inv_eye deg)) as [M [EM IM]].
  cbn [Nat.add] in IM.
  destruct (shift_T_upper deg N M ltac:(lia) IM) as [T [ET UT]].
  pose proof UT as (ST & TU & TD & TI).
  destruct (inverse_rows_spec deg N T ST HN TD (deg + 1) (eye N) ltac:(lia)
              (rows_done_eye deg N T)) as [Tinv [EI BS]].
  pose proof BS as (SI & II & ID & IS).
  pose proof (back_subst_right_inverse deg N T Tinv HN UT BS) as RI.
  exists T, Tinv.
  split.
  { unfold shiftfirstknot_T. fold deg N. rewrite EM. cbn [bind].
    rewrite ET. reflexivity. }
  split.
  { unfold shiftfirstknot_T. fold deg N. rewrite EM. cbn [bind].
    rewrite ET. cbn [bind]. rewrite EI. reflexivity. }
  split; [exact UT|]. split; [exact BS|]. split; [exact RI|].
  apply left_inverse; auto.
  - intros k c Hk Hc. rewrite II by lia.
    destruct (Nat.eqb_spec k c); [lia | reflexivity].
  - intros c Hc. destruct (Nat.le_gt_cases c deg) as [L|G].
    + rewrite ID by exact L. intro E.
      assert (E1 : 1 / entry T c c * entry T c c == 1) by (field; now apply TD).
      rewrite E in E1. lra.
    + rewrite II by lia. rewrite Nat.eqb_refl. discriminate.
Qed.

(** Applying two matrices whose product is the identity gives the
    vector back. *)
Lemma dotv_inverse (A B : matrix) (N : nat) (c : list Q) (i : nat) :
  has_shape A N N -> has_shape B N N ->
  (forall a j, (a < N)%nat -> (j < N)%nat -> mprod N (entry A) (entry B) a j == delta a j) ->
  (i < N)%nat ->
  at_ (dotv A (dotv B c)) i == at_ c i.
Proof.
  intros SA SB HI Hi.
  rewrite at_dotv by (destruct SA; lia).
  rewrite (has_shape_row A N N i SA Hi).
  rewrite (sumQ_ext N _ (fun x => sumQ N (fun j => entry A i x * entry B x j * at_ c j))).
  2:{ intros x Hx. rewrite at_dotv by (destruct SB; lia).
      rewrite (has_shape_row B N N x SB Hx).
      rewrite <- sumQ_scale. apply sumQ_ext. intros; ring. }
  rewrite sumQ_swap.
  rewrite (sumQ_ext N _ (fun j => if (j =? i)%nat then at_ c j else 0)).
  - rewrite sumQ_single.
    now replace (i <? N)%nat with true by (symmetry; apply Nat.ltb_lt; lia).
  - intros j Hj. rewrite sumQ_scale_r.
    change (sumQ N (fun x => entry A i x * entry B x j))
      with (mprod N (entry A) (entry B) i j).
    rewrite (HI i j Hi Hj). unfold delta. rewrite (Nat.eqb_sym i j).
    destruct (j =? i)%nat; ring.
Qed.

(** X12: the round trip.  For non-decreasing knots, at least [degree+2] basis
    functions and [knots[degree] < t_shift < knots[degree+1]], shifting
    [N] coefficients forward and then backward gives them back, and so
    does shifting backward and then forward; the coefficients beyond
    index [degree] are not touched on the way. *)
Theorem shift_knot1_round_trip (cfs : list Q) (b : BSplineBasis) (t_shift : Q) :
  sortedb (knots b) = true ->
  (degree b + 2 <= len b)%nat ->
  at_ (knots b) (degree b) < t_shift ->
  t_shift < at_ (knots b) (degree b + 1) ->
  length cfs = len b ->
  exists fwd bwd fwd_bwd bwd_fwd,
    shift_knot1_fwd cfs b t_shift = Ok fwd /\
    shift_knot1_bwd cfs b t_shift = Ok bwd /\
    shift_knot1_bwd fwd b t_shift = Ok fwd_bwd /\
    shift_knot1_fwd bwd b t_shift = Ok bwd_fwd /\
    length fwd = len b /\ length bwd = len b /\
    (forall i, (i < len b)%nat -> at_ fwd_bwd i == at_ cfs i) /\
    (forall i, (i < len b)%nat -> at_ bwd_fwd i == at_ cfs i) /\
    (forall i, (degree b < i)%nat -> (i < len b)%nat ->
       at_ fwd i == at_ cfs i /\ at_ bwd i == at_ cfs i).
Proof.
  intros Hs HN Hlo Hhi Hc.
  destruct (shiftfirstknot_T_pair b t_shift Hs HN Hlo Hhi)
    as [T [Tinv (E1 & E2 & UT & BS & RI & LI)]].
  pose proof UT as (ST & TU & TD & TI).
  pose proof BS as (SI & II & ID & IS).
  assert (LT : length T = len b) by (now destruct ST).
  assert (LV : length Tinv = len b) by (now destruct SI).
  exists (dotv T cfs), (dotv Tinv cfs), (dotv Tinv (dotv T cfs)), (dotv T (dotv Tinv cfs)).
  unfold shift_knot1_fwd, shift_knot1_bwd, dot_vec.
  rewrite E1, E2. cbn [bind fst snd].
  rewrite !dotv_length, LT, LV, Hc, Nat.eqb_refl.
  repeat (split; [reflexivity|]).
  split; [intros i Hi; now apply (dotv_inverse Tinv T (len b))|].
  split; [intros i Hi; now apply (dotv_inverse T Tinv (len b))|].
  assert (Tail : forall M, has_shape M (len b) (len b) ->
            (forall i j, (i < len b)%nat -> (j < len b)%nat -> (degree b < i)%nat ->
               entry M i j = if (i =? j)%nat then 1 else 0) ->
            forall i, (degree b < i)%nat -> (i < len b)%nat ->
              at_ (dotv M cfs) i == at_ cfs i).
  { intros M SM HM i Hd Hi.
    rewrite at_dotv by (destruct SM; lia).
    rewrite (has_shape_row M _ _ i SM Hi).
    rewrite (sumQ_ext _ _ (fun j => if (j =? i)%nat then at_ cfs j else 0)).
    - rewrite sumQ_single.
      now replace (i <? len b)%nat with true by (symmetry; apply Nat.ltb_lt; lia).
    - intros j Hj. rewrite (HM i j Hi Hj Hd). rewrite (Nat.eqb_sym i j).
      destruct (j =? i)%nat; ring. }
  intros i Hd Hi. split.
  - apply (Tail T ST); auto.
  - apply (Tail Tinv SI); auto.
Qed.

Lemma shift_knot1_round_trip_witness :
  exists fwd fwd_bwd,
    shift_knot1_fwd [1; 2; 3] (mkBasis [0; 0; 1; 2; 2] 1) (1 # 2) = Ok fwd /\
    shift_knot1_bwd fwd (mkBasis [0; 0; 1; 2; 2] 1) (1 # 2) = Ok fwd_bwd /\
    forall i, (i < 3)%nat -> at_ fwd_bwd i == at_ [1; 2; 3] i.
Proof.
  destruct (shift_knot1_round_trip [1; 2; 3] (mkBasis [0; 0; 1; 2; 2] 1) (1 # 2))
    as [fwd [bwd [fb [bf (E1 & _ & E3 & _ & _ & _ & H & _)]]]].
  - reflexivity.
  - vm_compute. lia.
  - vm_compute. reflexivity.
  - vm_compute. reflexivity.
  - reflexivity.
  - exists fwd, fb. split; [exact E1|]. split; [exact E3 | exact H].
Defined.

(** ** A single knot interval *)

Lemma entry_chk_overflow (M : matrix) N i j :
  has_shape M N N -> (i < N)%nat -> (N <= j)%nat -> entry_chk M i j = Raise IndexError.
Proof.
  intros HS Hi Hj. unfold entry_chk.
  rewrite (getitem_ok M i []) by (destruct HS; lia). cbn [bind].
  unfold getitem. replace (nth_error (nth i M []) j) with (@None Q); [reflexivity|].
  symmetry. apply nth_error_None. rewrite (has_shape_row M N N i HS Hi). exact Hj.
Qed.

(** X14: on a basis with a single knot interval ([N = degree+1]) of
    degree 1 or more, [T] is computed, but the back-substitution reads column
    [degree+1] of [T], which does not exist: the call with [inverse=True]
    raises [IndexError], and so does [shift_knot1_bwd]. *)
Theorem shift_knot1_bwd_single_interval (cfs : list Q) (b : BSplineBasis) (t_shift : Q) :
  sortedb (knots b) = true ->
  (1 <= degree b)%nat -> len b = (degree b + 1)%nat ->
  at_ (knots b) (degree b) < t_shift ->
  t_shift < at_ (knots b) (degree b + 1) ->
  (exists T, shiftfirstknot_T b t_shift false = Ok (T, None)) /\
  shiftfirstknot_T b t_shift true = Raise IndexError /\
  shift_knot1_bwd cfs b t_shift = Raise IndexError.
Proof.
  intros Hs Hd HN Hlo Hhi. apply sortedb_mono in Hs.
  assert (HL : (2 * degree b + 2 <= length (knots b))%nat) by (unfold len in HN; lia).
  destruct (shift_stages_ok (knots b) (degree b) t_shift Hs HL Hlo Hhi (degree b + 1) 0
              (eye (degree b + 1)) ltac:(lia) (stage_inv_eye (degree b))) as [M [EM IM]].
  cbn [Nat.add] in IM.
  destruct (shift_T_upper (degree b) (degree b + 1) M ltac:(lia) IM) as [T [ET UT]].
  pose proof UT as (ST & TU & TD & TI).
  assert (E : inverse_rows T (degree b) (rev (seq 0 (degree b + 1))) (eye (degree b + 1)) =
              Raise IndexError).
  { destruct (degree b) as [|d]; [lia|]. clear - ST TD.
    replace (rev (seq 0 (S d + 1))) with (S d :: d :: rev (seq 0 d)).
    2:{ replace (S d + 1)%nat with (S (S d)) by lia.
        rewrite (seq_S (S d)), (seq_S d), !rev_app_distr. reflexivity. }
    cbn [inverse_rows].
    rewrite (entry_chk_ok T (S d + 1)) by (assumption || lia). cbn [bind].
    rewrite qdiv_ok by (apply TD; lia). cbn [bind].
    replace (S d - S d)%nat with 0%nat by lia. cbn [seq rev inverse_row bind].
    rewrite (entry_chk_ok T (S d + 1)) by (assumption || lia). cbn [bind].
    rewrite qdiv_ok by (apply TD; lia). cbn [bind].
    replace (rev (seq (d + 1) (S d - d))) with [S d].
    2:{ replace (S d - d)%nat with 1%nat by lia.
        replace (d + 1)%nat with (S d) by lia. reflexivity. }
    cbn [inverse_row].
    rewrite (entry_chk_ok T (S d + 1)) by (assumption || lia). cbn [bind].
    rewrite qdiv_ok by (apply TD; lia). cbn [bind].
    replace (seq (d + 1) (S d + 2 - (d + 1))) with [S d; (S d + 1)%nat].
    2:{ replace (S d + 2 - (d + 1))%nat with 2%nat by lia.
        replace (d + 1)%nat with (S d) by lia.
        replace (S d + 1)%nat with (S (S d)) by lia. reflexivity. }
    unfold inverse_sum. cbn [mapM].
    rewrite (entry_chk_ok T (S d + 1)) by (assumption || lia). cbn [bind].
    rewrite (entry_chk_ok _ (S d + 1)); [| | lia | lia].
    2:{ apply set_entry_shape; [|lia]. apply set_entry_shape; [|lia]. apply eye_shape. }
    cbn [bind].
    rewrite (entry_chk_overflow T (S d + 1)) by (assumption || lia). reflexivity. }
  assert (E2 : shiftfirstknot_T b t_shift true = Raise IndexError).
  { unfold shiftfirstknot_T. rewrite HN, EM. cbn [bind]. rewrite ET. cbn [bind].
    rewrite E. reflexivity. }
  split.
  { exists T. unfold shiftfirstknot_T. rewrite HN, EM. cbn [bind]. rewrite ET. reflexivity. }
  split; [exact E2|].
  unfold shift_knot1_bwd. rewrite E2. reflexivity.
Qed.

Lemma shift_knot1_bwd_single_interval_witness :
  shift_knot1_bwd [1; 2; 3] (mkBasis [0; 0; 0; 1; 1; 1] 2) (1 # 2) = Raise IndexError.
Proof.
  apply (shift_knot1_bwd_single_interval [1; 2; 3] (mkBasis [0; 0; 0; 1; 1; 1] 2) (1 # 2)).
  - reflexivity.
  - vm_compute. lia.
  - reflexivity.
  - vm_compute. reflexivity.
  - vm_compute. reflexivity.
Defined.

Lemma getitemZ_raise {A} (l : list A) (i : Z) (e : exn) :
  getitemZ l i = Raise e -> e = IndexError.
Proof.
  unfold getitemZ, getitem.
  destruct (0 <=? i)%Z.
  - destruct (nth_error l (Z.to_nat i)); [discriminate | congruence].
  - destruct (0 <=? i + Z.of_nat (length l))%Z; [|congruence].
    destruct (nth_error l _); [discriminate | congruence].
Qed.

(** When no knot before [knots[-deg-2]] is below it, the loop that
    counts [m] runs off the front of the knots. *)
Lemma find_m_runs_off (k : list Q) (deg : nat) :
  mono k -> at_ k (length k - (deg + 2)) <= at_ k 0 ->
  forall fuel m0, find_m fuel k deg m0 = Raise IndexError.
Proof.
  intros Hm H0. induction fuel as [|fuel IH]; intro m0.
  - cbn [find_m].
    replace (- Z.of_nat deg - 2 - Z.of_nat m0)%Z with (- Z.of_nat (deg + 2 + m0))%Z by lia.
    replace (- Z.of_nat deg - 2)%Z with (- Z.of_nat (deg + 2))%Z by lia.
    destruct (getitemZ k (- Z.of_nat (deg + 2 + m0))) as [a|e] eqn:Ea; cbn [bind].
    2:{ now rewrite (getitemZ_raise _ _ _ Ea). }
    destruct (getitemZ k (- Z.of_nat (deg + 2))) as [c|e] eqn:Ec; cbn [bind].
    2:{ now rewrite (getitemZ_raise _ _ _ Ec). }
    apply getitemZ_neg_Ok in Ea as [La ->]; [|lia].
    apply getitemZ_neg_Ok in Ec as [Lc ->]; [|lia].
    replace (Qle_bool _ _) with true; [reflexivity|].
    symmetry. apply Qle_bool_iff.
    pose proof (Hm 0%nat (length k - (deg + 2 + m0))%nat ltac:(lia) ltac:(lia)). lra.
  - cbn [find_m].
    replace (- Z.of_nat deg - 2 - Z.of_nat m0)%Z with (- Z.of_nat (deg + 2 + m0))%Z by lia.
    replace (- Z.of_nat deg - 2)%Z with (- Z.of_nat (deg + 2))%Z by lia.
    destruct (getitemZ k (- Z.of_nat (deg + 2 + m0))) as [a|e] eqn:Ea; cbn [bind].
    2:{ now rewrite (getitemZ_raise _ _ _ Ea). }
    destruct (getitemZ k (- Z.of_nat (deg + 2))) as [c|e] eqn:Ec; cbn [bind].
    2:{ now rewrite (getitemZ_raise _ _ _ Ec). }
    apply getitemZ_neg_Ok in Ea as [La ->]; [|lia].
    apply getitemZ_neg_Ok in Ec as [Lc ->]; [|lia].
    replace (Qle_bool _ _) with true; [apply IH|].
    symmetry. apply Qle_bool_iff.
    pose proof (Hm 0%nat (length k - (deg + 2 + m0))%nat ltac:(lia) ltac:(lia)). lra.
Qed.

(** X15: extrapolating needs two knot intervals.  When the knot before the
    last [degree+1] ones is not above the first knot (a basis with a
    single knot interval, for one), the loop [while knots[-deg-2-m] >=
    knots[-deg-2]] never finds a smaller knot and ends with the
    [IndexError] of its subscript: [extrapolate_T], [shiftoverknot_T] and
    their callers raise it. *)
Theorem extrapolate_single_interval (s : BSpline) (t_extra : Q) :
  let k := knots (basis s) in
  let deg := degree (basis s) in
  sortedb k = true -> (deg + 1 <= length k)%nat ->
  at_ k (length k - (deg + 2)) <= at_ k 0 ->
  extrapolate_T (basis s) t_extra = Raise IndexError /\
  extrapolate s t_extra = Raise IndexError /\
  shiftoverknot_T (basis s) = Raise IndexError /\
  shiftoverknot s = Raise IndexError.
Proof.
  intros k deg Hs HL H0. apply sortedb_mono in Hs.
  pose proof (find_m_runs_off k deg Hs H0 (length k) 1%nat) as Hm.
  assert (E1 : extrapolate_T (basis s) t_extra = Raise IndexError).
  { unfold extrapolate_T. cbv zeta. fold k deg. rewrite len_chk_ok by exact HL.
    cbn [bind]. rewrite Hm. reflexivity. }
  assert (E2 : shiftoverknot_T (basis s) = Raise IndexError).
  { unfold shiftoverknot_T. cbv zeta. fold k deg. rewrite len_chk_ok by exact HL.
    cbn [bind].
    destruct (getitemZ k (Z.of_nat deg + 1)) as [a|e] eqn:Ea; cbn [bind].
    - rewrite Hm. reflexivity.
    - now rewrite (getitemZ_raise _ _ _ Ea). }
  split; [exact E1|]. split; [unfold extrapolate; now rewrite E1|].
  split; [exact E2|]. unfold shiftoverknot. now rewrite E2.
Qed.

Lemma extrapolate_single_interval_witness :
  extrapolate (mkSpline (mkBasis [0; 0; 0; 1; 1; 1] 2) [1; 2; 3]) 1 = Raise IndexError /\
  shiftoverknot (mkSpline (mkBasis [0; 0; 0; 1; 1; 1] 2) [1; 2; 3]) = Raise IndexError.
Proof.
  destruct (extrapolate_single_interval
              (mkSpline (mkBasis [0; 0; 0; 1; 1; 1] 2) [1; 2; 3]) 1) as (_ & A & _ & B).
  - reflexivity.
  - vm_compute. lia.
  - vm_compute. discriminate.
  - split; [exact A | exact B].
Defined.

(** ** What extrapolation keeps *)

(** [T] outside the block that [_T] fills: the rows of the identity,
    and below them rows of zeros. *)
Lemma extrapolate_T_rows (b : BSplineBasis) (t_extra : Q) (T : matrix) (knots2 : list Q) :
  extrapolate_T b t_extra = Ok (T, knots2) ->
  forall m, find_m (length (knots b)) (knots b) (degree b) 1 = Ok m ->
  forall i j, (i < len b + m)%nat -> (j < len b)%nat ->
    (i < len b + m - (degree b + 1) \/ j < len b - (degree b + 1))%nat ->
    entry T i j = if (i =? j)%nat then 1 else 0.
Proof.
  intros H m0 Hm0.
  set (k := knots b) in *. set (deg := degree b) in *. set (N := len b) in *.
  unfold extrapolate_T in H. cbv zeta in H. fold k deg in H.
  bind_inv H N' HN. apply len_chk_Ok in HN as [-> Hlen]. fold k deg N in H, Hlen.
  bind_inv H m Hm. rewrite Hm0 in Hm. injection Hm as <-.
  bind_inv H k_border Hb. clear Hb.
  bind_inv H k_last Hl. clear Hl.
  bind_inv H AB HAB. clear HAB.
  bind_inv H st Hst. clear Hst. destruct st as [[[A1 B1] A] B].
  bind_inv H _T HT. clear HT.
  bind_inv H T1 H1. bind_inv H T2 H2.
  injection H as <- _.
  unfold assign_slices in H1, H2.
  destruct (assign_block_frame _ _ _ (N + m0) N _ _ _ _ H1 (zeros2_shape _ _)) as [S1 _].
  destruct (assign_block_spec (zeros2 (N + m0) N) (eye N) (N + m0) N
              (slice_bound (length (zeros2 (N + m0) N)) 0)
              (slice_bound (length (zeros2 (N + m0) N)) (Z.of_nat N))
              (slice_bound N 0) (slice_bound N (Z.of_nat N)))
    as [T1' [E1 [_ En1]]].
  - apply zeros2_shape.
  - destruct (zeros2_shape (N + m0) N) as [-> _].
    rewrite !slice_bound_0, !slice_bound_nat.
    replace (Nat.min N (N + m0) - 0)%nat with N by lia.
    replace (Nat.min N N - 0)%nat with N by lia. apply eye_shape.
  - destruct (zeros2_shape (N + m0) N) as [-> _]. rewrite slice_bound_nat. lia.
  - rewrite slice_bound_nat. lia.
  - rewrite E1 in H1. injection H1 as ->.
    destruct (assign_block_frame _ _ _ (N + m0) N _ _ _ _ H2 S1) as [S2 Out2].
    intros i j Hi Hj Hout.
    rewrite Out2; [| exact Hi | exact Hj |].
    + rewrite En1 by lia.
      destruct (zeros2_shape (N + m0) N) as [-> _].
      rewrite !slice_bound_0, !slice_bound_nat.
      replace (Nat.min N (N + m0)) with N by lia. replace (Nat.min N N) with N by lia.
      cbn [Nat.leb andb]. rewrite !Nat.sub_0_r.
      replace (j <? N)%nat with true by (symmetry; apply Nat.ltb_lt; lia).
      rewrite andb_true_r.
      destruct (Nat.ltb_spec i N) as [L|G].
      * now apply entry_eye.
      * rewrite entry_zeros2. destruct (Nat.eqb_spec i j); [lia | reflexivity].
    + rewrite !slice_bound_neg. destruct S1 as [-> _].
      destruct Hout as [Hout|Hout].
      * replace (N + m0 - (deg + 1) <=? i)%nat with false
          by (symmetry; apply Nat.leb_gt; lia).
        reflexivity.
      * replace (N - (deg + 1) <=? j)%nat with false by (symmetry; apply Nat.leb_gt; lia).
        cbn [andb]. apply andb_false_r.
Qed.

(** X16: whenever [extrapolate] returns a spline, the argument had [N]
    coefficients and the result has the degree of the argument, [N+m]
    coefficients ([m] the number the loop finds) and a knot vector to
    match: the knots of the argument without the last [degree+1], then
    [m] times [knots[-degree-1]] (the last knot only when the basis is
    clamped at its end) and [degree+1] times [knots[-1] + t_extra].
    Only the last [degree+1] coefficients of the result are computed.
    The coefficients before them are those of the argument, unchanged,
    as far as the argument has any; for [m > degree+1] the result has
    [m-(degree+1)] coefficients between the [N] old ones and the
    computed ones, and they are 0. *)
Theorem extrapolate_keeps_coeffs (s s2 : BSpline) (t_extra : Q) :
  extrapolate s t_extra = Ok s2 ->
  let k := knots (basis s) in
  let deg := degree (basis s) in
  let N := len (basis s) in
  exists m,
    find_m (length k) k deg 1 = Ok m /\ (1 <= m)%nat /\
    length (coeffs s) = N /\
    degree (basis s2) = deg /\
    length (coeffs s2) = (N + m)%nat /\
    knots (basis s2) = firstn N k ++ repeat (at_ k (length k - (deg + 1))) m ++
                       repeat (at_ k (length k - 1) + t_extra) (deg + 1) /\
    length (knots (basis s2)) = (length (coeffs s2) + deg + 1)%nat /\
    (forall i, (i < N)%nat -> (i < N + m - (deg + 1))%nat ->
       at_ (coeffs s2) i == at_ (coeffs s) i) /\
    (forall i, (N <= i)%nat -> (i < N + m - (deg + 1))%nat -> at_ (coeffs s2) i == 0).
Proof.
  intros H k deg N. unfold extrapolate in H.
  bind_inv H r Hr. destruct r as [T knots2]. cbn [fst snd] in H.
  bind_inv H coeffs2 Hc. injection H as <-. cbn [basis coeffs knots degree].
  unfold dot_vec in Hc. fold N in Hc.
  destruct (Nat.eqb_spec (length (coeffs s)) N) as [Lc|]; [|discriminate].
  injection Hc as <-.
  destruct (extrapolate_T_frame _ _ _ _ Hr) as [m (Hm & Hlen & ST & Hk & _)].
  fold k deg N in Hm, Hlen, ST, Hk.
  pose proof (extrapolate_T_rows _ _ _ _ Hr m Hm) as Rows. fold k deg N in Rows.
  exists m. split; [exact Hm|].
  split; [apply (find_m_ge k deg _ _ _ Hm)|].
  split; [exact Lc|].
  split; [reflexivity|].
  split; [rewrite dotv_length; now destruct ST|].
  assert (HN : N = (length k - (deg + 1))%nat) by (unfold N, len; fold k deg; lia).
  assert (Sl : slice k 0 (- Z.of_nat deg - 1) = firstn N k).
  { unfold slice. rewrite slice_bound_0.
    replace (- Z.of_nat deg - 1)%Z with (- Z.of_nat (deg + 1))%Z by lia.
    rewrite slice_bound_neg, <- HN. cbn [skipn]. now rewrite Nat.sub_0_r. }
  rewrite Hk, Sl. split; [reflexivity|]. split.
  { rewrite !length_app, !repeat_length, length_firstn, dotv_length.
    destruct ST as [-> _]. lia. }
  assert (Row : forall i, (i < N + m - (deg + 1))%nat ->
            at_ (dotv T (coeffs s)) i == if (i <? N)%nat then at_ (coeffs s) i else 0).
  { intros i Hi.
    assert (Hi' : (i < N + m)%nat) by lia.
    rewrite at_dotv by (destruct ST; lia).
    rewrite (has_shape_row T _ _ i ST Hi').
    rewrite (sumQ_ext N _ (fun j => if (j =? i)%nat then at_ (coeffs s) j else 0)).
    - apply sumQ_single.
    - intros j Hj. rewrite (Rows i j Hi' Hj) by lia. rewrite (Nat.eqb_sym i j).
      destruct (j =? i)%nat; ring. }
  split.
  - intros i H1 H2. rewrite (Row i H2).
    now replace (i <? N)%nat with true by (symmetry; apply Nat.ltb_lt; lia).
  - intros i H1 H2. rewrite (Row i H2).
    now replace (i <? N)%nat with false by (symmetry; apply Nat.ltb_ge; lia).
Qed.

(** A basis whose last inner knot is there three times: the loop finds
    [m = 3 > degree+1], the five coefficients come back and a zero
    follows them. *)
Lemma extrapolate_keeps_coeffs_witness :
  let s := mkSpline (mkBasis [0; 0; 1; 1; 1; 2; 2] 1) [1; 3; -2; 5; 4] in
  exists s2, extrapolate s 1 = Ok s2 /\
    length (coeffs s2) = 8%nat /\ at_ (coeffs s2) 0 == 1 /\ at_ (coeffs s2) 4 == 4 /\
    at_ (coeffs s2) 5 == 0.
Proof.
  cbv zeta. eexists.
  assert (E : extrapolate (mkSpline (mkBasis [0; 0; 1; 1; 1; 2; 2] 1) [1; 3; -2; 5; 4]) 1 =
              Ok ?[s2])
    by (vm_compute; reflexivity).
  destruct (extrapolate_keeps_coeffs _ _ 1 E) as [m (Hm & _ & _ & _ & L & _ & _ & C & Z)].
  assert (m = 3%nat) by (vm_compute in Hm; congruence). subst m.
  split; [exact E|]. split; [exact L|].
  split; [apply (C 0%nat); vm_compute; lia|].
  split; [apply (C 4%nat); vm_compute; lia|].
  apply (Z 5%nat); vm_compute; lia.
Defined.

(** ** Shifting the first knots is inserting the new knot [degree+1] times *)

(** A sum against a row with the two cells [1 - w] and [w]. *)
Lemma band_sum m (w : Q) (i : nat) (f g : nat -> Q) :
  (forall c, (c < m)%nat ->
     f c == if (negb (i =? 0) && (c =? i - 1))%nat then 1 - w
            else if (c =? i)%nat then w else 0) ->
  sumQ m (fun c => f c * g c) ==
  (if ((1 <=? i) && (i - 1 <? m))%nat then (1 - w) * g (i - 1)%nat else 0) +
  (if (i <? m)%nat then w * g i else 0).
Proof.
  intro H.
  rewrite (sumQ_ext m _ (fun c =>
     (if (negb (i =? 0) && (c =? i - 1))%nat then 1 - w
      else if (c =? i)%nat then w else 0) * g c))
    by (intros c Hc; rewrite (H c Hc); reflexivity).
  rewrite (sumQ_band _ _ i).
  - destruct (Nat.eq_dec i 0) as [->|Hi].
    + cbn [Nat.leb Nat.eqb negb andb]. reflexivity.
    + replace (1 <=? i)%nat with true by (symmetry; apply Nat.leb_le; lia).
      replace (i =? 0)%nat with false by (symmetry; apply Nat.eqb_neq; lia).
      rewrite Nat.eqb_refl.
      replace (i =? i - 1)%nat with false by (symmetry; apply Nat.eqb_neq; lia).
      cbn [negb andb]. rewrite Nat.eqb_refl. reflexivity.
  - intros c Hc C1 C2.
    replace (c =? i - 1)%nat with false by (symmetry; apply Nat.eqb_neq; lia).
    replace (c =? i)%nat with false by (symmetry; apply Nat.eqb_neq; lia).
    rewrite andb_false_r. ring.
Qed.

Lemma shift_stages_snoc knots deg t a : forall ks M,
  shift_stages knots deg t (ks ++ [a]) M =
  bind (shift_stages knots deg t ks M)
       (fun Q => bind (shift_stage knots deg t a) (fun A => Ok (dot A Q))).
Proof.
  induction ks as [|k0 ks IH]; intro M.
  - cbn [app shift_stages bind]. destruct (shift_stage knots deg t a); reflexivity.
  - cbn [app shift_stages]. destruct (shift_stage knots deg t k0); cbn [bind]; [|reflexivity].
    apply IH.
Qed.

Lemma repeat_snoc {A} (a : A) n : repeat a (S n) = repeat a n ++ [a].
Proof.
  induction n as [|n IH]; [reflexivity|].
  cbn [repeat app] in *. now rewrite <- IH.
Qed.

Section ShiftIsInsertion.

Variables (k : list Q) (deg : nat) (t : Q) (N : nat).
Hypothesis Hs : sortedb k = true.
Hypothesis HL : length k = (N + deg + 1)%nat.
Hypothesis HN : (deg + 1 <= N)%nat.
Hypothesis Hlo : at_ k deg < t.
Hypothesis Hhi : t < at_ k (deg + 1).

(** The knots after [n] insertions of [t]. *)
Let Kn (n : nat) : list Q := firstn (deg + 1) k ++ repeat t n ++ skipn (deg + 1) k.

(** The weight of row [i] at stage [n]. *)
Let u (n i : nat) : Q :=
  if (deg + 1 <=? i)%nat then 0
  else if (i <=? n)%nat then 1
  else (t - at_ k i) / (at_ k (i + deg - n) - at_ k i).

(** The matrix after [n] insertions. *)
Let P (n : nat) : matrix := fst (knot_insertion_loop deg (repeat t n) N k (eye N)).

(** The product of the first [n] blending matrices, bordered by the
    identity. *)
Let E (Qn : matrix) (n i j : nat) : Q :=
  if (i <? deg + 1 + n)%nat
  then (if (j <? deg + 1)%nat then entry Qn i j else 0)
  else (if (i - n =? j)%nat then 1 else 0).

Lemma Kn_at n i :
  at_ (Kn n) i = if (i <? deg + 1)%nat then at_ k i
                 else if (i <? deg + 1 + n)%nat then t else at_ k (i - n).
Proof.
  unfold Kn.
  assert (Lf : length (firstn (deg + 1) k) = (deg + 1)%nat) by (rewrite length_firstn; lia).
  destruct (Nat.ltb_spec i (deg + 1)) as [A|A].
  - rewrite at_app_l by lia. unfold at_. rewrite nth_firstn.
    now replace (i <? deg + 1)%nat with true by (symmetry; apply Nat.ltb_lt; lia).
  - rewrite at_app_r by lia. rewrite Lf.
    destruct (Nat.ltb_spec i (deg + 1 + n)) as [B|B].
    + rewrite at_app_l by (rewrite repeat_length; lia). apply at_repeat. lia.
    + rewrite at_app_r by (rewrite repeat_length; lia). rewrite repeat_length.
      unfold at_. rewrite nth_skipn. f_equal. lia.
Qed.

Lemma shift_searchsorted : searchsorted_right k t = (deg + 1)%nat.
Proof.
  pose proof (sortedb_mono k Hs) as Hm.
  apply searchsorted_right_at; [exact Hs | lia | |].
  - intros j Hj. pose proof (Hm j deg ltac:(lia) ltac:(lia)). lra.
  - intros _. lra.
Qed.

Lemma knots_after n T0 :
  snd (knot_insertion_loop deg (repeat t n) N k T0) = Kn n.
Proof.
  rewrite repeated_insertion by exact Hs. now rewrite shift_searchsorted.
Qed.

Lemma boehm_Kn n i : (n <= deg)%nat -> (i <= N + n)%nat ->
  boehm_weight (Kn n) deg t i == u n i.
Proof.
  intros Hn Hi. pose proof (sortedb_mono k Hs) as Hm.
  unfold boehm_weight, u. rewrite !Kn_at.
  destruct (Nat.leb_spec (deg + 1) i) as [A|A].
  - replace (i <? deg + 1)%nat with false by (symmetry; apply Nat.ltb_ge; lia).
    destruct (Nat.ltb_spec i (deg + 1 + n)) as [B|B].
    + replace (Qle_bool t t) with true by (symmetry; apply Qle_bool_iff; lra). reflexivity.
    + pose proof (Hm (deg + 1)%nat (i - n)%nat ltac:(lia) ltac:(lia)).
      replace (Qle_bool t (at_ k (i - n))) with true
        by (symmetry; apply Qle_bool_iff; lra).
      reflexivity.
  - replace (i <? deg + 1)%nat with true by (symmetry; apply Nat.ltb_lt; lia).
    pose proof (Hm i deg ltac:(lia) ltac:(lia)).
    replace (Qle_bool t (at_ k i)) with false by (symmetry; apply Qle_bool_gt; lra).
    destruct (Nat.ltb_spec (i + deg) (deg + 1)) as [B|B].
    + replace (i + deg)%nat with deg by lia.
      replace (Qle_bool (at_ k deg) t) with true by (symmetry; apply Qle_bool_iff; lra).
      destruct (Nat.leb_spec i n); [reflexivity | lia].
    + destruct (Nat.ltb_spec (i + deg) (deg + 1 + n)) as [C|C].
      * replace (Qle_bool t t) with true by (symmetry; apply Qle_bool_iff; lra).
        destruct (Nat.leb_spec i n); [reflexivity | lia].
      * pose proof (Hm (deg + 1)%nat (i + deg - n)%nat ltac:(lia) ltac:(lia)).
        replace (Qle_bool (at_ k (i + deg - n)) t) with false
          by (symmetry; apply Qle_bool_gt; lra).
        destruct (Nat.leb_spec i n); [lia | reflexivity].
Qed.

Lemma P_shape n : has_shape (P n) (N + n) N /\ ncols (P n) = N.
Proof.
  unfold P.
  pose proof (knot_insertion_loop_shape deg (repeat t n) N k (eye N) N
                (eye_shape N) (eye_ncols N)) as H.
  now rewrite repeat_length in H.
Qed.

Lemma P_step n :
  P (S n) = dot (insertion_matrix (Kn n) deg t (N + n)) (P n).
Proof.
  unfold P. rewrite repeat_snoc, knot_insertion_loop_snoc. cbn [fst].
  now rewrite knots_after, repeat_length.
Qed.

Lemma P_rec n i j : (n <= deg)%nat -> (i <= N + n)%nat -> (j < N)%nat ->
  entry (P (S n)) i j ==
  (if (1 <=? i)%nat then (1 - u n i) * entry (P n) (i - 1) j else 0) +
  (if (i <? N + n)%nat then u n i * entry (P n) i j else 0).
Proof.
  intros Hn Hi Hj. destruct (P_shape n) as [SP NP].
  rewrite P_step.
  destruct (insertion_matrix_shape (Kn n) deg t (N + n)) as [LM RM].
  rewrite entry_dot by (rewrite ?LM, ?NP; lia).
  rewrite (has_shape_row _ (N + n + 1) (N + n) i (insertion_matrix_shape _ _ _ _)) by lia.
  rewrite (band_sum (N + n) (u n i) i).
  - destruct (Nat.leb_spec 1 i) as [A|A]; cbn [andb].
    + replace (i - 1 <? N + n)%nat with true by (symmetry; apply Nat.ltb_lt; lia).
      reflexivity.
    + reflexivity.
  - intros c Hc. rewrite insertion_entry by lia.
    pose proof (boehm_Kn n i Hn Hi) as W.
    destruct (negb (i =? 0) && (c =? i - 1))%nat; [now rewrite W|].
    destruct (c =? i)%nat; [exact W | reflexivity].
Qed.

(** The rows of the blending matrix of stage [n]. *)
Lemma shift_row_entries n j : (n <= deg)%nat -> (j <= deg + 1 + n)%nat ->
  exists row,
    shift_row k deg t n j = Ok row /\ length row = (deg + 1 + n)%nat /\
    forall c, (c < deg + 1 + n)%nat ->
      at_ row c == if (negb (j =? 0) && (c =? j - 1))%nat then 1 - u n j
                   else if (c =? j)%nat then u n j else 0.
Proof.
  intros Hn Hj. pose proof (sortedb_mono k Hs) as Hm.
  unfold shift_row, u. cbv zeta.
  assert (Z : length (zeros (deg + 1 + n)) = (deg + 1 + n)%nat) by apply repeat_length.
  destruct (Nat.leb_spec (deg + 1) j) as [J1|J1].
  - eexists. split; [reflexivity|]. split; [now rewrite set_at_length|].
    intros c Hc. rewrite at_set_at by (rewrite Z; lia).
    replace (j =? 0)%nat with false by (symmetry; apply Nat.eqb_neq; lia).
    cbn [negb andb].
    destruct (Nat.eqb_spec c (j - 1)); [ring|].
    rewrite at_zeros. destruct (c =? j)%nat; reflexivity.
  - destruct (Nat.leb_spec j n) as [J2|J2].
    + eexists. split; [reflexivity|]. split; [now rewrite set_at_length|].
      intros c Hc. rewrite at_set_at by (rewrite Z; lia).
      destruct (Nat.eqb_spec c j) as [->|Hcj].
      * destruct (Nat.eqb_spec j 0); cbn [negb andb]; [reflexivity|].
        replace (j =? j - 1)%nat with false by (symmetry; apply Nat.eqb_neq; lia).
        reflexivity.
      * rewrite at_zeros. destruct (negb (j =? 0) && (c =? j - 1))%nat; ring.
    + rewrite !getitem_at by lia. cbn [bind].
      assert (A1 : at_ k j <= at_ k deg) by (apply Hm; lia).
      assert (A2 : at_ k (deg + 1) <= at_ k (j + deg - n)) by (apply Hm; lia).
      rewrite !qdiv_ok by lra. cbn [bind].
      eexists. split; [reflexivity|]. split; [now rewrite !set_at_length|].
      intros c Hc. rewrite !at_set_at by (rewrite ?set_at_length, Z; lia).
      replace (j =? 0)%nat with false by (symmetry; apply Nat.eqb_neq; lia).
      cbn [negb andb].
      destruct (Nat.eqb_spec c j) as [->|Hcj].
      * replace (j =? j - 1)%nat with false by (symmetry; apply Nat.eqb_neq; lia).
        reflexivity.
      * destruct (Nat.eqb_spec c (j - 1)); [|now rewrite at_zeros].
        field. lra.
Qed.

Lemma shift_stage_entries n : (n <= deg)%nat ->
  exists A, shift_stage k deg t n = Ok A /\
    has_shape A (deg + 2 + n) (deg + 1 + n) /\
    forall i c, (i <= deg + 1 + n)%nat -> (c < deg + 1 + n)%nat ->
      entry A i c == if (negb (i =? 0) && (c =? i - 1))%nat then 1 - u n i
                     else if (c =? i)%nat then u n i else 0.
Proof.
  intro Hn. unfold shift_stage.
  destruct (mapM_Forall2 (shift_row k deg t n)
              (fun j row => length row = (deg + 1 + n)%nat /\
                 forall c, (c < deg + 1 + n)%nat ->
                   at_ row c == if (negb (j =? 0) && (c =? j - 1))%nat then 1 - u n j
                                else if (c =? j)%nat then u n j else 0)
              (seq 0 (deg + 1 + n + 1))) as [A [EA F]].
  - intros j Hj. apply in_seq in Hj.
    destruct (shift_row_entries n j Hn ltac:(lia)) as [row (R1 & R2 & R3)].
    exists row. auto.
  - exists A. split; [exact EA|].
    destruct (Forall2_seq_nth _ _ _ [] F) as [L G].
    split; [split|].
    + lia.
    + apply Forall_forall. intros row Hrow.
      destruct (In_nth _ _ [] Hrow) as [i [Hi <-]].
      apply (G i). lia.
    + intros i c Hi Hc. apply (G i); lia.
Qed.

(** The two products agree, stage by stage. *)
Lemma stages_agree : forall n, (n <= deg + 1)%nat ->
  exists Qn,
    shift_stages k deg t (seq 0 n) (eye (deg + 1)) = Ok Qn /\
    has_shape Qn (deg + 1 + n) (deg + 1) /\
    forall i j, (i < N + n)%nat -> (j < N)%nat -> entry (P n) i j == E Qn n i j.
Proof.
  induction n as [|n IH]; intro Hn.
  - exists (eye (deg + 1)). split; [reflexivity|].
    split; [rewrite Nat.add_0_r; apply eye_shape|].
    intros i j Hi Hj. unfold P, E. cbn [repeat knot_insertion_loop fst].
    rewrite entry_eye by lia. rewrite Nat.add_0_r, Nat.sub_0_r.
    destruct (Nat.ltb_spec i (deg + 1)) as [A|A]; [|reflexivity].
    destruct (Nat.ltb_spec j (deg + 1)) as [B|B].
    + rewrite entry_eye by lia. reflexivity.
    + destruct (Nat.eqb_spec i j); [lia | reflexivity].
  - destruct (IH ltac:(lia)) as [Qn (EQ & SQ & Rel)].
    destruct (shift_stage_entries n ltac:(lia)) as [A (EA & SA & EntA)].
    exists (dot A Qn). split.
    { rewrite seq_S, shift_stages_snoc, EQ. cbn [Nat.add bind]. rewrite EA. reflexivity. }
    assert (NQ : ncols Qn = (deg + 1)%nat) by (apply (has_shape_ncols _ _ _ SQ); lia).
    split.
    { replace (deg + 1 + S n)%nat with (deg + 2 + n)%nat by lia.
      apply dot_shape; [now destruct SA | exact NQ]. }
    assert (QR : forall i j, (i <= deg + 1 + n)%nat -> (j < deg + 1)%nat ->
              entry (dot A Qn) i j ==
              (if ((1 <=? i) && (i - 1 <? deg + 1 + n))%nat
               then (1 - u n i) * entry Qn (i - 1) j else 0) +
              (if (i <? deg + 1 + n)%nat then u n i * entry Qn i j else 0)).
    { intros i j Hi Hj.
      rewrite entry_dot by (rewrite ?NQ; destruct SA; lia).
      rewrite (has_shape_row A _ _ i SA) by lia.
      apply (band_sum (deg + 1 + n) (u n i) i (fun c => entry A i c)
                      (fun c => entry Qn c j)).
      intros c Hc. now apply EntA. }
    intros i j Hi Hj.
    rewrite P_rec by lia.
    assert (R1 : (1 <= i)%nat -> entry (P n) (i - 1) j == E Qn n (i - 1) j)
      by (intro; apply Rel; lia).
    assert (R2 : (i < N + n)%nat -> entry (P n) i j == E Qn n i j)
      by (intro; apply Rel; lia).
    unfold E in *.
    destruct (Nat.leb_spec (deg + 1) i) as [A1|A1].
    + (* below the shifted rows the weight is 0 *)
      assert (U0 : u n i = 0).
      { unfold u. now replace (deg + 1 <=? i)%nat with true
          by (symmetry; apply Nat.leb_le; lia). }
      replace (1 <=? i)%nat with true by (symmetry; apply Nat.leb_le; lia).
      rewrite (R1 ltac:(lia)), U0.
      setoid_replace ((if (i <? N + n)%nat then 0 * entry (P n) i j else 0)) with 0
        by (destruct (i <? N + n)%nat; ring).
      destruct (Nat.ltb_spec i (deg + 1 + S n)) as [B|B].
      * replace (i - 1 <? deg + 1 + n)%nat with true by (symmetry; apply Nat.ltb_lt; lia).
        destruct (Nat.ltb_spec j (deg + 1)) as [C|C]; [|ring].
        rewrite QR by lia. rewrite U0.
        replace ((1 <=? i) && (i - 1 <? deg + 1 + n))%nat with true
          by (symmetry; apply andb_true_iff; split;
              [apply Nat.leb_le | apply Nat.ltb_lt]; lia).
        destruct (i <? deg + 1 + n)%nat; ring.
      * replace (i - 1 <? deg + 1 + n)%nat with false by (symmetry; apply Nat.ltb_ge; lia).
        replace (i - 1 - n)%nat with (i - S n)%nat by lia.
        destruct (i - S n =? j)%nat; ring.
    + (* the shifted rows *)
      replace (i <? N + n)%nat with true by (symmetry; apply Nat.ltb_lt; lia).
      rewrite (R2 ltac:(lia)).
      replace (i <? deg + 1 + S n)%nat with true by (symmetry; apply Nat.ltb_lt; lia).
      replace (i <? deg + 1 + n)%nat with true by (symmetry; apply Nat.ltb_lt; lia).
      destruct (Nat.ltb_spec j (deg + 1)) as [C|C].
      * rewrite QR by lia.
        replace (i <? deg + 1 + n)%nat with true by (symmetry; apply Nat.ltb_lt; lia).
        destruct (Nat.leb_spec 1 i) as [D|D]; cbn [andb].
        -- rewrite (R1 D).
           replace (i - 1 <? deg + 1 + n)%nat with true
             by (symmetry; apply Nat.ltb_lt; lia).
           reflexivity.
        -- reflexivity.
      * destruct (Nat.leb_spec 1 i) as [D|D].
        -- rewrite (R1 D).
           replace (i - 1 <? deg + 1 + n)%nat with true
             by (symmetry; apply Nat.ltb_lt; lia).
           ring.
        -- ring.
Qed.

(** [T] is made of the rows [degree+1 ..] of the matrix that inserts
    [t_shift] [degree+1] times. *)
Lemma shift_is_insertion :
  exists T,
    shiftfirstknot_T (mkBasis k deg) t false = Ok (T, None) /\
    has_shape T N N /\
    forall i j, (i < N)%nat -> (j < N)%nat ->
      entry T i j == entry (P (deg + 1)) (deg + 1 + i) j.
Proof.
  destruct (stages_agree (deg + 1) ltac:(lia)) as [Q (EQ & SQ & Rel)].
  assert (SS : has_shape (skipn (deg + 1) Q) (deg + 1) (deg + 1)).
  { replace (deg + 1)%nat with (deg + 1 + (deg + 1) - (deg + 1))%nat at 2 by lia.
    now apply has_shape_skipn. }
  destruct (assign_block_entries (eye N) (skipn (deg + 1) Q) (deg + 1) N
              (eye_shape N) SS HN) as [T [ET [ST EntT]]].
  exists T. split.
  { unfold shiftfirstknot_T. cbn [knots degree].
    replace (len (mkBasis k deg)) with N by (unfold len; cbn [knots degree]; lia).
    rewrite EQ. cbn [bind]. rewrite Nat.min_l by lia. rewrite ET. reflexivity. }
  split; [exact ST|].
  intros i j Hi Hj. rewrite EntT by lia. rewrite Rel by lia. unfold E.
  destruct (Nat.ltb_spec i (deg + 1)) as [A|A].
  - replace (deg + 1 + i <? deg + 1 + (deg + 1))%nat with true
      by (symmetry; apply Nat.ltb_lt; lia).
    destruct (Nat.ltb_spec j (deg + 1)) as [B|B]; cbn [andb].
    + rewrite entry_skipn. reflexivity.
    + rewrite entry_eye by lia. destruct (Nat.eqb_spec i j); [lia | reflexivity].
  - replace (deg + 1 + i <? deg + 1 + (deg + 1))%nat with false
      by (symmetry; apply Nat.ltb_ge; lia).
    cbn [andb]. rewrite entry_eye by lia.
    replace (deg + 1 + i - (deg + 1))%nat with i by lia. reflexivity.
Qed.

(** The shifted coefficients on the shifted knots give the values of
    the spline to the right of [t_shift]. *)
Lemma shift_values (c : list Q) (x : Q) : t < x ->
  exists T,
    shiftfirstknot_T (mkBasis k deg) t false = Ok (T, None) /\
    has_shape T N N /\
    evalspline (mkSpline (mkBasis (repeat t (deg + 1) ++ skipn (deg + 1) k) deg)
                         (dotv T c)) x ==
    evalspline (mkSpline (mkBasis k deg) c) x.
Proof.
  intro Hx. pose proof (sortedb_mono k Hs) as Hm.
  destruct shift_is_insertion as [T (ET & ST & Ent)].
  exists T. split; [exact ET|]. split; [exact ST|].
  destruct (P_shape (deg + 1)) as [SP NP].
  set (K' := repeat t (deg + 1) ++ skipn (deg + 1) k).
  assert (LK' : length K' = length k).
  { unfold K'. rewrite length_app, repeat_length, length_skipn. lia. }
  assert (K0 : at_ k 0 < t).
  { pose proof (Hm 0%nat deg ltac:(lia) ltac:(lia)). lra. }
  (* the spline after the insertions *)
  pose proof (knot_insertion_T_values (mkSpline (mkBasis k deg) c) (repeat t (deg + 1)) x)
    as V.
  cbn [basis knots degree coeffs] in V.
  rewrite <- V; [| exact Hs | lia | right; lra].
  unfold knot_insertion_T. cbn [knots degree].
  replace (len (mkBasis k deg)) with N by (unfold len; cbn [knots degree]; lia).
  rewrite knots_after. fold (P (deg + 1)).
  rewrite !evalspline_sum. unfold len. cbn [basis coeffs knots degree].
  assert (LKn : length (Kn (deg + 1)) = (length k + (deg + 1))%nat).
  { unfold Kn. rewrite !length_app, repeat_length, length_firstn, length_skipn. lia. }
  rewrite LK', LKn.
  replace (length k - deg - 1)%nat with N by lia.
  replace (length k + (deg + 1) - deg - 1)%nat with ((deg + 1) + N)%nat by lia.
  rewrite sumQ_app.
  rewrite (sumQ_zero (deg + 1)).
  2:{ intros i Hi.
      rewrite (Bval_zero_right deg (Kn (deg + 1)) x deg i).
      - ring.
      - apply sortedb_mono. rewrite <- (knots_after (deg + 1) (eye N)).
        destruct (knot_insertion_loop_knots deg (repeat t (deg + 1)) N k (eye N))
          as (_ & S2 & _).
        exact (S2 Hs).
      - rewrite LKn. lia.
      - rewrite Kn_at.
        replace (i + deg + 1 <? deg + 1)%nat with false by (symmetry; apply Nat.ltb_ge; lia).
        replace (i + deg + 1 <? deg + 1 + (deg + 1))%nat with true
          by (symmetry; apply Nat.ltb_lt; lia).
        exact Hx. }
  rewrite Qplus_0_l. apply sumQ_ext. intros i Hi.
  assert (C : at_ (dotv T c) i == at_ (dotv (P (deg + 1)) c) (deg + 1 + i)).
  { rewrite !at_dotv by (destruct ST, SP; lia).
    rewrite (has_shape_row T _ _ i ST Hi).
    rewrite (has_shape_row (P (deg + 1)) _ _ (deg + 1 + i) SP) by lia.
    apply sumQ_ext. intros j Hj. rewrite (Ent i j Hi Hj). reflexivity. }
  rewrite C.
  rewrite (Bval_shift deg deg K' (Kn (deg + 1)) x (deg + 1)).
  - reflexivity.
  - unfold K'. rewrite at_app_l by (rewrite repeat_length; lia).
    rewrite at_repeat by lia. exact Hx.
  - rewrite Kn_at.
    replace (0 <? deg + 1)%nat with true by (symmetry; apply Nat.ltb_lt; lia). lra.
  - intros j Hj. unfold K'. rewrite Kn_at.
    replace (deg + 1 + i + j <? deg + 1)%nat with false by (symmetry; apply Nat.ltb_ge; lia).
    destruct (Nat.ltb_spec (i + j) (deg + 1)) as [A|A].
    + rewrite at_app_l by (rewrite repeat_length; lia). rewrite at_repeat by lia.
      now replace (deg + 1 + i + j <? deg + 1 + (deg + 1))%nat with true
        by (symmetry; apply Nat.ltb_lt; lia).
    + rewrite at_app_r by (rewrite repeat_length; lia). rewrite repeat_length.
      replace (deg + 1 + i + j <? deg + 1 + (deg + 1))%nat with false
        by (symmetry; apply Nat.ltb_ge; lia).
      unfold at_. rewrite nth_skipn. f_equal. lia.
Qed.

Lemma Kn_sorted n : sortedb (Kn n) = true.
Proof.
  rewrite <- (knots_after n (eye N)).
  destruct (knot_insertion_loop_knots deg (repeat t n) N k (eye N)) as (_ & S2 & _).
  exact (S2 Hs).
Qed.

Lemma shifted_knots_at i :
  at_ (repeat t (deg + 1) ++ skipn (deg + 1) k) i = at_ (Kn (deg + 1)) (deg + 1 + i).
Proof.
  rewrite Kn_at.
  replace (deg + 1 + i <? deg + 1)%nat with false by (symmetry; apply Nat.ltb_ge; lia).
  destruct (Nat.ltb_spec i (deg + 1)) as [A|A].
  - rewrite at_app_l by (rewrite repeat_length; lia). rewrite at_repeat by lia.
    now replace (deg + 1 + i <? deg + 1 + (deg + 1))%nat with true
      by (symmetry; apply Nat.ltb_lt; lia).
  - rewrite at_app_r by (rewrite repeat_length; lia). rewrite repeat_length.
    replace (deg + 1 + i <? deg + 1 + (deg + 1))%nat with false
      by (symmetry; apply Nat.ltb_ge; lia).
    unfold at_. rewrite nth_skipn. f_equal. lia.
Qed.

(** The last insertion copies row [degree] to row [degree+1]: the new
    knot has multiplicity [degree+1], and the two coefficients around it
    meet. *)
Lemma P_rows_meet j : (j < N)%nat ->
  entry (P (deg + 1)) deg j == entry (P (deg + 1)) (deg + 1) j.
Proof.
  intro Hj.
  assert (E1 : P (deg + 1) = P (S deg)) by (f_equal; lia). rewrite E1.
  rewrite (P_rec deg deg j) by lia. rewrite (P_rec deg (deg + 1) j) by lia.
  unfold u.
  replace (deg + 1 <=? deg)%nat with false by (symmetry; apply Nat.leb_gt; lia).
  rewrite !Nat.leb_refl.
  replace (deg <? N + deg)%nat with true by (symmetry; apply Nat.ltb_lt; lia).
  replace (1 <=? deg + 1)%nat with true by (symmetry; apply Nat.leb_le; lia).
  replace (deg + 1 - 1)%nat with deg by lia.
  destruct (1 <=? deg)%nat; destruct (deg + 1 <? N + deg)%nat; ring.
Qed.

(** At [t_shift] itself both splines take the value of the first new
    coefficient. *)
Lemma shift_value_at (c : list Q) (x : Q) : x == t ->
  exists T,
    shiftfirstknot_T (mkBasis k deg) t false = Ok (T, None) /\
    has_shape T N N /\
    evalspline (mkSpline (mkBasis (repeat t (deg + 1) ++ skipn (deg + 1) k) deg)
                         (dotv T c)) x ==
    evalspline (mkSpline (mkBasis k deg) c) x.
Proof.
  intro Hx. pose proof (sortedb_mono k Hs) as Hm.
  destruct shift_is_insertion as [T (ET & ST & Ent)].
  exists T. split; [exact ET|]. split; [exact ST|].
  destruct (P_shape (deg + 1)) as [SP NP].
  pose proof (sortedb_mono _ (Kn_sorted (deg + 1))) as HmK.
  assert (LKn : length (Kn (deg + 1)) = (length k + (deg + 1))%nat).
  { unfold Kn. rewrite !length_app, repeat_length, length_firstn, length_skipn. lia. }
  set (K' := repeat t (deg + 1) ++ skipn (deg + 1) k).
  assert (LK' : length K' = length k).
  { unfold K'. rewrite length_app, repeat_length, length_skipn. lia. }
  assert (K0 : at_ k 0 < t).
  { pose proof (Hm 0%nat deg ltac:(lia) ltac:(lia)). lra. }
  (* the new spline at its first knot *)
  pose proof (evalspline_at_start (mkSpline (mkBasis K' deg) (dotv T c)) x) as A.
  cbv zeta in A. cbn [basis knots degree coeffs] in A.
  rewrite A; clear A.
  2:{ intros i j Hij Hj. unfold K'. rewrite !shifted_knots_at.
      apply HmK; [lia|]. rewrite LKn. fold K' in Hj. lia. }
  2:{ lia. }
  2:{ intros j Hj. unfold K'. rewrite at_app_l by (rewrite repeat_length; lia).
      rewrite at_repeat by lia. now symmetry. }
  2:{ unfold K'. rewrite at_app_r by (rewrite repeat_length; lia).
      rewrite repeat_length, Nat.sub_diag. unfold at_. rewrite nth_skipn, Nat.add_0_r.
      fold (at_ k (deg + 1)). lra. }
  (* the old spline, after the insertions, at the new knot *)
  pose proof (knot_insertion_T_values (mkSpline (mkBasis k deg) c) (repeat t (deg + 1)) x)
    as V.
  cbn [basis knots degree coeffs] in V.
  rewrite <- V; [| exact Hs | lia | right; lra]. clear V.
  unfold knot_insertion_T. cbn [knots degree].
  replace (len (mkBasis k deg)) with N by (unfold len; cbn [knots degree]; lia).
  rewrite knots_after. fold (P (deg + 1)).
  pose proof (evalspline_at_knot
                (mkSpline (mkBasis (Kn (deg + 1)) deg) (dotv (P (deg + 1)) c)) x (deg + 1))
    as B.
  cbv zeta in B. cbn [basis knots degree coeffs] in B.
  rewrite B; clear B.
  2:{ exact HmK. }
  2:{ lia. }
  2:{ rewrite LKn. lia. }
  2:{ rewrite Kn_at. replace (deg + 1 - 1)%nat with deg by lia.
      replace (deg <? deg + 1)%nat with true by (symmetry; apply Nat.ltb_lt; lia). lra. }
  2:{ intros j J1 J2. rewrite Kn_at.
      replace (j <? deg + 1)%nat with false by (symmetry; apply Nat.ltb_ge; lia).
      replace (j <? deg + 1 + (deg + 1))%nat with true by (symmetry; apply Nat.ltb_lt; lia).
      now symmetry. }
  replace (deg + 1 - 1)%nat with deg by lia.
  rewrite !at_dotv by (destruct ST, SP; lia).
  rewrite (has_shape_row T _ _ 0%nat ST) by lia.
  rewrite (has_shape_row (P (deg + 1)) _ _ deg SP) by lia.
  apply sumQ_ext. intros j Hj.
  rewrite (Ent 0%nat j ltac:(lia) Hj), Nat.add_0_r, (P_rows_meet j Hj). reflexivity.
Qed.

Lemma shift_values_from (c : list Q) (x : Q) : t <= x ->
  exists T,
    shiftfirstknot_T (mkBasis k deg) t false = Ok (T, None) /\
    has_shape T N N /\
    evalspline (mkSpline (mkBasis (repeat t (deg + 1) ++ skipn (deg + 1) k) deg)
                         (dotv T c)) x ==
    evalspline (mkSpline (mkBasis k deg) c) x.
Proof.
  intro Hx. destruct (Qlt_le_dec t x) as [L|G].
  - now apply shift_values.
  - apply shift_value_at. lra.
Qed.

(** On a basis clamped at its end, [T] is the matrix of [crop_T] for
    the bounds [t_shift] and [knots[-1]], and the shifted knots are the
    knots it returns. *)
Lemma shift_is_crop :
  count_eq k (at_ k (length k - 1)) = (deg + 1)%nat ->
  exists T,
    shiftfirstknot_T (mkBasis k deg) t false = Ok (T, None) /\
    has_shape T N N /\
    length (fst (crop_T (mkBasis k deg) t (at_ k (length k - 1)))) = N /\
    (forall i j, (i < N)%nat -> (j < N)%nat ->
       entry T i j == entry (fst (crop_T (mkBasis k deg) t (at_ k (length k - 1)))) i j) /\
    snd (crop_T (mkBasis k deg) t (at_ k (length k - 1))) =
      repeat t (deg + 1) ++ skipn (deg + 1) k.
Proof.
  intro Hc. pose proof (sortedb_mono k Hs) as Hm.
  destruct shift_is_insertion as [T (ET & ST & Ent)].
  exists T. split; [exact ET|]. split; [exact ST|].
  destruct (P_shape (deg + 1)) as [SP NP].
  assert (LKn : length (Kn (deg + 1)) = (length k + (deg + 1))%nat).
  { unfold Kn. rewrite !length_app, repeat_length, length_firstn, length_skipn. lia. }
  assert (C0 : count_eq k t = 0%nat).
  { apply count_eq_none. intros j Hj Ej.
    destruct (Nat.le_gt_cases j deg) as [A|A].
    - pose proof (Hm j deg ltac:(lia) ltac:(lia)). lra.
    - pose proof (Hm (deg + 1)%nat j ltac:(lia) ltac:(lia)). lra. }
  assert (Tl : t < at_ k (length k - 1)).
  { pose proof (Hm (deg + 1)%nat (length k - 1)%nat ltac:(lia) ltac:(lia)). lra. }
  unfold crop_T. cbv zeta. cbn [knots degree].
  rewrite C0, Hc, Nat.sub_diag, Nat.sub_0_r. cbn [repeat]. rewrite app_nil_r.
  unfold knot_insertion_T. cbn [knots degree].
  replace (len (mkBasis k deg)) with N by (unfold len; cbn [knots degree]; lia).
  rewrite knots_after. fold (P (deg + 1)).
  assert (Jmin : searchsorted_left (Kn (deg + 1)) t = (deg + 1)%nat).
  { apply searchsorted_left_at.
    - apply Kn_sorted.
    - rewrite LKn. lia.
    - intros j Hj. rewrite Kn_at.
      replace (j <? deg + 1)%nat with true by (symmetry; apply Nat.ltb_lt; lia).
      pose proof (Hm j deg ltac:(lia) ltac:(lia)). lra.
    - rewrite Kn_at.
      replace (deg + 1 <? deg + 1)%nat with false by (symmetry; apply Nat.ltb_ge; lia).
      replace (deg + 1 <? deg + 1 + (deg + 1))%nat with true
        by (symmetry; apply Nat.ltb_lt; lia).
      lra. }
  assert (Jmax : searchsorted_right (Kn (deg + 1)) (at_ k (length k - 1)) =
                 length (Kn (deg + 1))).
  { apply searchsorted_right_all. apply Forall_forall. intros y Hy.
    destruct (In_nth _ _ 0 Hy) as [j [Hj <-]]. fold (at_ (Kn (deg + 1)) j).
    rewrite Kn_at. rewrite LKn in Hj.
    destruct (j <? deg + 1)%nat eqn:A.
    - apply Nat.ltb_lt in A. apply Hm; lia.
    - destruct (j <? deg + 1 + (deg + 1))%nat; [lra|]. apply Nat.ltb_ge in A. apply Hm; lia. }
  rewrite Jmin, Jmax, LKn.
  replace (Z.of_nat (length k + (deg + 1)) - Z.of_nat deg - 1)%Z
    with (Z.of_nat (deg + 1 + N)) by lia.
  assert (LP : length (P (deg + 1)) = (N + (deg + 1))%nat) by (now destruct SP).
  rewrite (slice_nat (P (deg + 1))) by lia.
  rewrite <- LKn, (slice_nat (Kn (deg + 1))) by lia.
  replace (deg + 1 + N - (deg + 1))%nat with N by lia.
  cbn [fst snd].
  split; [rewrite length_firstn, length_skipn; lia|]. split.
  - intros i j Hi Hj. rewrite (Ent i j Hi Hj). unfold entry.
    replace N with (deg + 1 + N - (deg + 1))%nat at 1 by lia.
    rewrite nth_slice by lia. reflexivity.
  - rewrite firstn_all2 by (rewrite length_skipn; lia).
    unfold Kn. rewrite skipn_app.
    replace (skipn (deg + 1) (firstn (deg + 1) k)) with (@nil Q)
      by (symmetry; apply skipn_all2; rewrite length_firstn; lia).
    rewrite length_firstn.
    replace (deg + 1 - Nat.min (deg + 1) (length k))%nat with 0%nat by lia.
    reflexivity.
Qed.

End ShiftIsInsertion.

(** X13: what shifting the first knots means.  For non-decreasing knots and
    [knots[degree] < t_shift < knots[degree+1]], the coefficients that
    [shift_knot1_fwd] returns are those of the same function on the
    knots whose first [degree+1] entries are replaced by [t_shift]: the
    two splines have the same value at [t_shift] and at every [x] to the
    right of it. *)
Theorem shift_knot1_fwd_values (cfs : list Q) (b : BSplineBasis) (t_shift x : Q) :
  sortedb (knots b) = true ->
  (degree b + 1 <= len b)%nat ->
  at_ (knots b) (degree b) < t_shift ->
  t_shift < at_ (knots b) (degree b + 1) ->
  length cfs = len b ->
  t_shift <= x ->
  exists cfs2,
    shift_knot1_fwd cfs b t_shift = Ok cfs2 /\
    length cfs2 = len b /\
    evalspline (mkSpline (mkBasis (repeat t_shift (degree b + 1) ++
                                   skipn (degree b + 1) (knots b)) (degree b)) cfs2) x ==
    evalspline (mkSpline b cfs) x.
Proof.
  intros Hs HN Hlo Hhi Hc Hx.
  assert (HL : length (knots b) = (len b + degree b + 1)%nat) by (unfold len in *; lia).
  destruct (shift_values_from (knots b) (degree b) t_shift (len b) Hs HL HN Hlo Hhi
                              cfs x Hx) as [T (ET & ST & V)].
  assert (Eb : mkBasis (knots b) (degree b) = b) by (now destruct b).
  rewrite Eb in ET, V.
  exists (dotv T cfs). split.
  - unfold shift_knot1_fwd, dot_vec. rewrite ET. cbn [bind fst].
    now rewrite Hc, Nat.eqb_refl.
  - split; [rewrite dotv_length; now destruct ST | exact V].
Qed.

Lemma shift_knot1_fwd_values_witness :
  exists cfs2,
    shift_knot1_fwd [1; 2; 3] (mkBasis [0; 0; 1; 2; 2] 1) (1 # 2) = Ok cfs2 /\
    evalspline (mkSpline (mkBasis [1 # 2; 1 # 2; 1; 2; 2] 1) cfs2) (3 # 4) ==
    evalspline (mkSpline (mkBasis [0; 0; 1; 2; 2] 1) [1; 2; 3]) (3 # 4).
Proof.
  destruct (shift_knot1_fwd_values [1; 2; 3] (mkBasis [0; 0; 1; 2; 2] 1) (1 # 2) (3 # 4))
    as [cfs2 (E & _ & V)].
  - reflexivity.
  - vm_compute. lia.
  - vm_compute. reflexivity.
  - vm_compute. reflexivity.
  - reflexivity.
  - vm_compute. discriminate.
  - exists cfs2. split; [exact E | exact V].
Defined.

(** X17: shifting the first knots is cropping.  On a basis that is
    clamped at its end, and for [knots[degree] < t_shift <
    knots[degree+1]], the matrix of [shiftfirstknot_T] is the matrix that
    [crop_T] returns for the bounds [t_shift] and [knots[-1]], entry by
    entry, and the knots [crop_T] returns are the old ones with the first
    [degree+1] replaced by [t_shift]. *)
Theorem shiftfirstknot_T_is_crop_T (b : BSplineBasis) (t_shift : Q) :
  let k := knots b in
  let T_crp := fst (crop_T b t_shift (at_ k (length k - 1))) in
  let knots_crp := snd (crop_T b t_shift (at_ k (length k - 1))) in
  sortedb k = true ->
  (degree b + 1 <= len b)%nat ->
  at_ k (degree b) < t_shift ->
  t_shift < at_ k (degree b + 1) ->
  count_eq k (at_ k (length k - 1)) = (degree b + 1)%nat ->
  exists T,
    shiftfirstknot_T b t_shift false = Ok (T, None) /\
    has_shape T (len b) (len b) /\
    length T_crp = len b /\
    (forall i j, (i < len b)%nat -> (j < len b)%nat -> entry T i j == entry T_crp i j) /\
    knots_crp = repeat t_shift (degree b + 1) ++ skipn (degree b + 1) k.
Proof.
  intros k T_crp knots_crp Hs HN Hlo Hhi Hc.
  assert (HL : length k = (len b + degree b + 1)%nat) by (unfold k, len in *; lia).
  assert (Eb : mkBasis k (degree b) = b) by (unfold k; now destruct b).
  destruct (shift_is_crop k (degree b) t_shift (len b) Hs HL HN Hlo Hhi Hc)
    as [T (ET & ST & LC & Ent & KC)].
  rewrite Eb in ET, LC, Ent, KC.
  exists T. split; [exact ET|]. split; [exact ST|]. split; [exact LC|].
  split; [exact Ent | exact KC].
Qed.

Lemma shiftfirstknot_T_is_crop_T_witness :
  let b := mkBasis [0; 0; 0; 1; 2; 3; 3; 3] 2 in
  exists T,
    shiftfirstknot_T b (1 # 2) false = Ok (T, None) /\
    forall i j, (i < 5)%nat -> (j < 5)%nat ->
      entry T i j == entry (fst (crop_T b (1 # 2) 3)) i j.
Proof.
  intro b. pose proof (shiftfirstknot_T_is_crop_T b (1 # 2)) as V. cbv zeta in V.
  destruct V as [T (E & _ & _ & H & _)].
  - reflexivity.
  - vm_compute. lia.
  - vm_compute. reflexivity.
  - vm_compute. reflexivity.
  - reflexivity.
  - exists T. split; [exact E | exact H].
Defined.

(** ** Clamped bases: the ends of a spline and of a crop *)

(** X3: on a clamped basis (the first and the last [degree+1] knots
    equal, and a first and a last interval that are not empty) the spline
    starts at its first coefficient and ends at its last one. *)
Theorem evalspline_endpoints (s : BSpline) :
  let k := knots (basis s) in
  let d := degree (basis s) in
  let N := len (basis s) in
  sortedb k = true -> (d + 2 <= length k)%nat ->
  length (coeffs s) = N ->
  at_ k d == at_ k 0 -> at_ k 0 < at_ k (d + 1) ->
  at_ k N == at_ k (length k - 1) -> at_ k (N - 1) < at_ k N ->
  evalspline s (at_ k 0) == at_ (coeffs s) 0 /\
  evalspline s (at_ k (length k - 1)) == at_ (coeffs s) (N - 1).
Proof.
  intros k d N Hs HL _ Hc0 H0 Hc1 H1.
  pose proof (sortedb_mono k Hs) as Hm.
  assert (HN : N = (length k - d - 1)%nat) by reflexivity.
  split.
  - pose proof (evalspline_at_start s (at_ k 0)) as V. cbv zeta in V. fold k d in V.
    apply V; auto.
    intros j Hj.
    pose proof (Hm 0%nat j ltac:(lia) ltac:(lia)).
    pose proof (Hm j d ltac:(lia) ltac:(lia)). lra.
  - pose proof (evalspline_at_knot s (at_ k (length k - 1)) N) as V. cbv zeta in V.
    fold k d in V. apply V; auto; try lia.
    + lra.
    + intros j J1 J2.
      pose proof (Hm N j ltac:(lia) ltac:(lia)).
      pose proof (Hm j (length k - 1)%nat ltac:(lia) ltac:(lia)). lra.
Qed.

Lemma evalspline_endpoints_witness :
  let s := mkSpline (mkBasis [0; 0; 0; 1; 3; 3; 3] 2) [1; 2; -1; 4] in
  evalspline s 0 == 1 /\ evalspline s 3 == 4.
Proof.
  intro s. pose proof (evalspline_endpoints s) as V. cbv zeta in V.
  apply V.
  - reflexivity.
  - vm_compute. lia.
  - reflexivity.
  - vm_compute. reflexivity.
  - vm_compute. reflexivity.
  - vm_compute. reflexivity.
  - vm_compute. reflexivity.
Defined.

Lemma mono_slice (k : list Q) (a c : nat) :
  mono k -> (a <= c)%nat -> (c <= length k)%nat -> mono (firstn (c - a) (skipn a k)).
Proof.
  intros Hm Hac Hc i j Hij Hj. rewrite length_slice in Hj by lia.
  unfold at_. rewrite !nth_slice by lia. apply Hm; lia.
Qed.

(** X8: what [crop] returns for [min_value < max_value], wherever the
    two bounds lie: a spline of the same degree on a clamped basis, with as
    many coefficients as the basis has functions (at least [degree+1]),
    non-decreasing knots, the first [degree+1] of them [min_value] and
    the last [degree+1] [max_value]. *)
Theorem crop_clamped (s : BSpline) (min_value max_value : Q) :
  let r := crop s min_value max_value in
  let d := degree (basis s) in
  sortedb (knots (basis s)) = true ->
  (d + 1 <= length (knots (basis s)))%nat ->
  length (coeffs s) = len (basis s) ->
  min_value < max_value ->
  degree (basis r) = d /\
  length (coeffs r) = len (basis r) /\
  (d + 1 <= len (basis r))%nat /\
  mono (knots (basis r)) /\
  (forall j, (j <= d)%nat -> at_ (knots (basis r)) j == min_value) /\
  (forall j, (len (basis r) <= j)%nat -> (j < length (knots (basis r)))%nat ->
     at_ (knots (basis r)) j == max_value).
Proof.
  intros r d Hs Hd _ Hlt.
  destruct (crop_layout (basis s) min_value max_value Hs Hlt)
    as (S2 & L2 & J & Jmax & Rmin & Rmax).
  unfold r, crop, crop_T. cbv zeta. cbn [fst snd basis knots degree coeffs].
  subst d. set (d := degree (basis s)) in *.
  set (ts := repeat min_value (d + 1 - count_eq (knots (basis s)) min_value) ++
             repeat max_value (d + 1 - count_eq (knots (basis s)) max_value)) in *.
  set (T := fst (knot_insertion_T (basis s) ts)).
  set (k2 := snd (knot_insertion_T (basis s) ts)) in *.
  set (jmin := searchsorted_left k2 min_value) in *.
  set (jmax := searchsorted_right k2 max_value) in *.
  assert (HT : length T = (len (basis s) + length ts)%nat).
  { apply (knot_insertion_loop_shape (degree (basis s)) ts (len (basis s))
             (knots (basis s)) (eye (len (basis s))) (len (basis s)));
      [apply eye_shape | apply eye_ncols]. }
  assert (HN2 : length T = (length k2 - d - 1)%nat).
  { rewrite HT, L2. unfold len. fold d. lia. }
  replace (Z.of_nat jmax - Z.of_nat d - 1)%Z with (Z.of_nat (jmax - d - 1)) by lia.
  rewrite (slice_nat T) by lia.
  rewrite (slice_nat k2) by lia.
  unfold len. cbn [knots degree].
  rewrite dotv_length, !length_slice by lia.
  split; [reflexivity|]. split; [lia|]. split; [lia|].
  split; [apply mono_slice; [now apply sortedb_mono | lia | lia]|].
  split.
  - intros j Hj. unfold at_. rewrite nth_slice by lia. apply (Rmin (jmin + j)%nat); lia.
  - intros j J1 J2. unfold at_. rewrite nth_slice by lia.
    apply (Rmax (jmin + j)%nat); lia.
Qed.

Lemma crop_clamped_witness :
  let r := crop (mkSpline (mkBasis [0; 0; 0; 1; 3; 3; 3] 2) [1; 2; -1; 4]) (1 # 2) 2 in
  length (coeffs r) = len (basis r) /\ at_ (knots (basis r)) 2 == 1 # 2.
Proof.
  intro r.
  destruct (crop_clamped (mkSpline (mkBasis [0; 0; 0; 1; 3; 3; 3] 2) [1; 2; -1; 4])
                         (1 # 2) 2) as (_ & L & _ & _ & A & _).
  - reflexivity.
  - vm_compute. lia.
  - reflexivity.
  - reflexivity.
  - split; [exact L | apply A; vm_compute; lia].
Defined.

(** X9: cropping a clamped spline to its whole domain changes nothing: no
    knot is inserted, and the knots and the coefficients come back as
    they were. *)
Theorem crop_full_domain (s : BSpline) :
  let k := knots (basis s) in
  let d := degree (basis s) in
  let r := crop s (at_ k 0) (at_ k (length k - 1)) in
  sortedb k = true -> (d + 1 <= length k)%nat ->
  length (coeffs s) = len (basis s) ->
  count_eq k (at_ k 0) = (d + 1)%nat ->
  count_eq k (at_ k (length k - 1)) = (d + 1)%nat ->
  knots (basis r) = k /\ degree (basis r) = d /\
  length (coeffs r) = length (coeffs s) /\
  forall i, at_ (coeffs r) i == at_ (coeffs s) i.
Proof.
  intros k d r Hs Hd Hc C0 C1.
  pose proof (sortedb_mono k Hs) as Hm.
  unfold r, crop, crop_T. cbv zeta. cbn [fst snd basis knots degree coeffs].
  fold k d. rewrite C0, C1, Nat.sub_diag. cbn [repeat app].
  unfold knot_insertion_T. cbn [knot_insertion_loop fst snd]. fold k.
  assert (Jmin : searchsorted_left k (at_ k 0) = 0%nat).
  { destruct k as [|y k']; [reflexivity|]. cbn [searchsorted_left at_ nth].
    replace (Qltb y y) with false by (symmetry; apply Qltb_ge; lra). reflexivity. }
  assert (Jmax : searchsorted_right k (at_ k (length k - 1)) = length k).
  { apply searchsorted_right_all. apply Forall_forall. intros y Hy.
    destruct (In_nth _ _ 0 Hy) as [j [Hj <-]]. apply Hm; lia. }
  rewrite Jmin, Jmax.
  replace (Z.of_nat (length k) - Z.of_nat d - 1)%Z with (Z.of_nat (len (basis s)))
    by (unfold len; fold k d; lia).
  assert (LE : length (eye (len (basis s))) = len (basis s))
    by (unfold eye; now rewrite length_map, length_seq).
  rewrite (slice_nat (eye (len (basis s)))) by lia.
  rewrite (slice_nat k) by lia.
  rewrite !Nat.sub_0_r. cbn [skipn].
  assert (FE : firstn (len (basis s)) (eye (len (basis s))) = eye (len (basis s)))
    by (rewrite <- LE at 1; apply firstn_all).
  rewrite FE, firstn_all.
  split; [reflexivity|]. split; [reflexivity|].
  split; [now rewrite dotv_length, LE|].
  intro i. destruct (Nat.lt_ge_cases i (len (basis s))) as [L|G].
  - now apply dotv_eye.
  - unfold at_. rewrite !nth_overflow; [reflexivity | lia |].
    rewrite dotv_length, LE. exact G.
Qed.

Lemma crop_full_domain_witness :
  let s := mkSpline (mkBasis [0; 0; 0; 1; 3; 3; 3] 2) [1; 2; -1; 4] in
  knots (basis (crop s 0 3)) = [0; 0; 0; 1; 3; 3; 3] /\
  forall i, at_ (coeffs (crop s 0 3)) i == at_ [1; 2; -1; 4] i.
Proof.
  intro s. pose proof (crop_full_domain s) as V. cbv zeta in V.
  destruct V as (K & _ & _ & C); try reflexivity.
  - vm_compute. lia.
  - split; [exact K | exact C].
Defined.

(** X7: inserting knots changes the coefficients only where the new
    knots fall: a coefficient [j] whose support [knots[j] .. knots[j+degree]]
    ends before every new knot keeps its value, and the knots up to index
    [j+degree] stay where they are. *)
Theorem knot_insertion_T_local (b : BSplineBasis) (ts c : list Q) (j : nat) :
  sortedb (knots b) = true -> (degree b + 1 <= length (knots b))%nat ->
  length c = len b -> (j < len b)%nat ->
  Forall (fun t => at_ (knots b) (j + degree b) < t) ts ->
  at_ (dotv (fst (knot_insertion_T b ts)) c) j == at_ c j /\
  forall i, (i <= j + degree b)%nat -> at_ (snd (knot_insertion_T b ts)) i = at_ (knots b) i.
Proof.
  intros Hs Hd _ Hj Hts. unfold knot_insertion_T.
  destruct (later_insertions_keep (degree b) c j ts (len b) (knots b) (eye (len b)) (len b))
    as [A B]; auto.
  - unfold len. lia.
  - apply eye_shape.
  - apply eye_ncols.
  - split; [|exact B]. rewrite A. now apply dotv_eye.
Qed.

Lemma knot_insertion_T_local_witness :
  at_ (dotv (fst (knot_insertion_T (mkBasis [0; 0; 0; 1; 2; 3; 3; 3] 2) [5 # 2; 5 # 2]))
            [1; 2; -1; 4; 7]) 1 == 2.
Proof.
  destruct (knot_insertion_T_local (mkBasis [0; 0; 0; 1; 2; 3; 3; 3] 2) [5 # 2; 5 # 2]
                                   [1; 2; -1; 4; 7] 1) as [A _].
  - reflexivity.
  - vm_compute. lia.
  - reflexivity.
  - vm_compute. lia.
  - repeat constructor.
  - exact A.
Defined.
